(** * ImageStack (newimage branch): the filters of Filter.cpp over Image.h

    A shallow embedding of the windowed filters of
    [src/branches/newimage/src/Filter.cpp] and of the sample buffer of
    [src/branches/newimage/src/Image.h], with the properties the
    specification states about them.

    Conventions of the embedding.
    - A C++ [int] is a [Z]; no claim below depends on [int] overflow: a
      theorem whose inputs could take an [int] expression of the source
      past [INT_MAX] carries the bound as a hypothesis.  A [size_t] is a
      [Z] reduced modulo [2^64] where the source subtracts from it ([p--]
      in the heap walk of the min and max filters).
    - A [float] or [double] is a value of [float] below: an exact rational,
      an infinity or a NaN.  The operations [fadd], [fmul], ... are exact;
      comparisons are those of IEEE-754.  Where a result stated below
      depends on the rounding of the source, the exact operation is
      followed by [to_float] or [to_double], the rounding of IEEE-754 to
      the nearest value of the format, ties to even: in [rebalance] of the
      sliding window and in [RectFilter::blurXCompletely].
    - A [std::vector] is a [list] indexed by [Z]; an access outside the
      vector is the error [OutOfBounds].  [Image::operator()] is modelled
      as the header has it under [BOUNDS_CHECKING]: a coordinate outside the
      extents is [OutOfBounds] as well.
    - The helper [assert(cond, msg)] of the missing [main.h] is a [Panic]
      carrying the message.
    - A loop whose trip count is not fixed by its header takes fuel and
      ends in [OutOfFuel] when the fuel is spent.
    - The type [NewImage] that Filter.cpp names is taken to be the [Image]
      of Image.h: the branch gives no other definition of it. *)

From Stdlib Require Import ZArith QArith Qround List Lia Lqa Bool String.
Import ListNotations.
Open Scope Z_scope.

Set Implicit Arguments.

(** ** Results of fallible code *)

Inductive result (A : Type) : Type :=
| Ok (a : A)
| OutOfBounds
| OutOfFuel
| Panic (msg : string).

Arguments Ok {A} a.
Arguments OutOfBounds {A}.
Arguments OutOfFuel {A}.
Arguments Panic {A} msg.

Definition bind {A B : Type} (m : result A) (k : A -> result B) : result B :=
  match m with
  | Ok a => k a
  | OutOfBounds => OutOfBounds
  | OutOfFuel => OutOfFuel
  | Panic msg => Panic msg
  end.

Notation "'do' x <- m ; k" := (bind m (fun x => k))
  (at level 10, x name, m at level 100, k at level 200).
Notation "'do' ' p <- m ; k" := (bind m (fun x => let 'p := x in k))
  (at level 10, p strict pattern, m at level 100, k at level 200).

(** The newline that ends the messages of the source. *)
Definition nl : string := String (Ascii.ascii_of_nat 10) EmptyString.

(** [assert(cond, msg)] of the missing [main.h]: the spec has it fail
    immediately with the message. *)
Definition assert (cond : bool) (msg : string) : result unit :=
  if cond then Ok tt else Panic msg.

(** ** Samples *)

Inductive float : Type :=
| NaN
| NInf
| Fin (q : Q)
| PInf.

Definition Qltb (x y : Q) : bool :=
  (Qnum x * Zpos (Qden y) <? Qnum y * Zpos (Qden x)).

Definition Qsign (x : Q) : Z := Z.sgn (Qnum x).

(** [a < b] on floats: false as soon as one side is a NaN. *)
Definition flt (a b : float) : bool :=
  match a, b with
  | NaN, _ | _, NaN => false
  | NInf, NInf => false
  | NInf, _ => true
  | Fin _, NInf => false
  | Fin x, Fin y => Qltb x y
  | Fin _, PInf => true
  | PInf, _ => false
  end.

Definition fgt (a b : float) : bool := flt b a.

(** [a == b] on floats. *)
Definition feqb (a b : float) : bool :=
  match a, b with
  | NInf, NInf | PInf, PInf => true
  | Fin x, Fin y => Qeq_bool x y
  | _, _ => false
  end.

Definition feq (a b : float) : Prop := feqb a b = true.

Definition fle (a b : float) : Prop := flt b a = false.

(** [m] is [M] or below it. *)
Definition below (m M : float) : Prop := m = M \/ flt m M = true.

Definition finite (a : float) : Prop :=
  match a with Fin _ => True | _ => False end.

(** Modelled from the spec: [min], [max] and [INF] come from headers that
    are not under src/; the spec has the selection tree cache the extremum
    of two children and prime it with the infinite sentinel.  They are the
    two-argument [std::min] and [std::max]. *)
Definition fmin (a b : float) : float := if flt b a then b else a.
Definition fmax (a b : float) : float := if flt a b then b else a.
Definition INF : float := PInf.

(** Modelled from the spec: [clamp(a, lo, hi)] is a helper of a header that
    is not under src/; the spec uses it as the value [a] limited to the
    range from [lo] to [hi]. *)
Definition fclamp (a lo hi : float) : float :=
  if flt a lo then lo else if flt hi a then hi else a.

Definition fneg (a : float) : float :=
  match a with
  | NaN => NaN
  | NInf => PInf
  | Fin q => Fin (- q)
  | PInf => NInf
  end.

Definition fadd (a b : float) : float :=
  match a, b with
  | NaN, _ | _, NaN => NaN
  | PInf, NInf | NInf, PInf => NaN
  | PInf, _ | _, PInf => PInf
  | NInf, _ | _, NInf => NInf
  | Fin x, Fin y => Fin (Qred (x + y))
  end.

Definition fsub (a b : float) : float := fadd a (fneg b).

Definition finf_signed (s : Z) : float :=
  if s =? 0 then NaN else if 0 <? s then PInf else NInf.

Definition fsign (a : float) : Z :=
  match a with
  | NaN => 0
  | NInf => -1
  | Fin q => Qsign q
  | PInf => 1
  end.

Definition fmul (a b : float) : float :=
  match a, b with
  | NaN, _ | _, NaN => NaN
  | Fin x, Fin y => Fin (Qred (x * y))
  | _, _ => finf_signed (fsign a * fsign b)
  end.

Definition of_int (n : Z) : float := Fin (inject_Z n).

(** [1.0 / n] for an [int] [n]: an infinity when [n] is zero. *)
Definition recip_int (n : Z) : float :=
  if n =? 0 then PInf else Fin (Qred (/ inject_Z n)).

(** [a / b]; the sign of a zero is not kept, a zero divisor counts as
    positive. *)
Definition fdiv (a b : float) : float :=
  match a, b with
  | NaN, _ | _, NaN => NaN
  | Fin x, Fin y => if Qeq_bool y 0 then finf_signed (Qsign x)
                    else Fin (Qred (x / y))
  | Fin _, _ => Fin 0
  | _, Fin y => if Qeq_bool y 0 then a else finf_signed (fsign a * Qsign y)
  | _, _ => NaN
  end.

(** [a / n] for an [int] [n]. *)
Definition fdiv_int (a : float) (n : Z) : float :=
  match a with
  | Fin x => if n =? 0 then finf_signed (Qsign x) else Fin (Qred (x / inject_Z n))
  | NaN => NaN
  | _ => if n <? 0 then fneg a else a
  end.

(** ** Rounding

    [round_binary prec emin emax] is the rounding of IEEE-754 into the
    binary format of precision [prec] and exponents from [emin] to [emax]:
    to the nearest value of the format, ties to the even one, with gradual
    underflow below [2^emin] and an infinity from [2^(emax+1)] on.  The
    sign of a zero is not kept. *)

(** [2^e] for an exponent of either sign. *)
Definition pow2 (e : Z) : Q :=
  if 0 <=? e then inject_Z (2 ^ e) else 1 # Z.to_pos (2 ^ (- e)).

(** The exponent of a positive rational: the [e] with [2^e <= q < 2^(e+1)]. *)
Definition ilog2 (q : Q) : Z :=
  let e := Z.log2 (Qnum q) - Z.log2 (Zpos (Qden q)) in
  if Qle_bool (pow2 e) q then e else e - 1.

(** The nearest integer, the even one of two that are as near. *)
Definition round_half_even (q : Q) : Z :=
  let n := Qfloor q in
  match Qcompare (q - inject_Z n)%Q (1 # 2) with
  | Lt => n
  | Gt => n + 1
  | Eq => if Z.even n then n else n + 1
  end.

Definition round_binary (prec emin emax : Z) (x : float) : float :=
  match x with
  | Fin q =>
      if Qeq_bool q 0 then Fin 0
      else
        let a := (if Qltb q 0 then - q else q)%Q in
        let e := Z.max (ilog2 a) emin in
        let ulp := pow2 (e - (prec - 1)) in
        let r := (inject_Z (round_half_even (a / ulp)) * ulp)%Q in
        if Qle_bool (pow2 (emax + 1)) r
        then (if Qltb q 0 then NInf else PInf)
        else Fin (Qred (if Qltb q 0 then - r else r)%Q)
  | _ => x
  end.

(** A result stored in a [float], resp. in a [double]. *)
Definition to_float : float -> float := round_binary 24 (-126) 127.
Definition to_double : float -> float := round_binary 53 (-1022) 1023.

(** ** Machine integers *)

Definition INT_MAX : Z := 2 ^ 31 - 1.

(** ** Vectors *)

Fixpoint vget {A : Type} (v : list A) (i : Z) : result A :=
  match v with
  | [] => OutOfBounds
  | x :: v' => if i <? 0 then OutOfBounds
               else if i =? 0 then Ok x else vget v' (i - 1)
  end.

Fixpoint vset {A : Type} (v : list A) (i : Z) (x : A) : result (list A) :=
  match v with
  | [] => OutOfBounds
  | y :: v' => if i <? 0 then OutOfBounds
               else if i =? 0 then Ok (x :: v')
               else do w <- vset v' (i - 1) x; Ok (y :: w)
  end.

Definition vsize {A : Type} (v : list A) : Z := Z.of_nat (List.length v).

(** [std::vector<T>(n)] and [std::fill]. *)
Definition vmake {A : Type} (n : Z) (x : A) : list A := repeat x (Z.to_nat n).
Definition vfill {A : Type} (v : list A) (x : A) : list A := map (fun _ => x) v.

(** ** Loops *)

(** [n] iterations of [body], on [lo], [lo+1], ... *)
Fixpoint for_range {S : Type} (lo : Z) (n : nat)
         (body : Z -> S -> result S) (s : S) : result S :=
  match n with
  | O => Ok s
  | Datatypes.S n' => do s' <- body lo s; for_range (lo + 1) n' body s'
  end.

(** [for (int i = lo; i < hi; i++) body]. *)
Definition for_loop {S : Type} (lo hi : Z)
           (body : Z -> S -> result S) (s : S) : result S :=
  for_range lo (Z.to_nat (hi - lo)) body s.

(** [for (int i = hi; i >= lo; i--) body]. *)
Fixpoint for_down_range {S : Type} (hi : Z) (n : nat)
         (body : Z -> S -> result S) (s : S) : result S :=
  match n with
  | O => Ok s
  | Datatypes.S n' => do s' <- body hi s; for_down_range (hi - 1) n' body s'
  end.

(** ** Image.h: the sample buffer *)

Record Image : Type := mkImage {
  width : Z;
  height : Z;
  frames : Z;
  channels : Z;
  data : list float
}.

(** [Image(w, h, f, c)]: dense strides, storage value-initialised to zero. *)
Definition Image_new (w h f c : Z) : Image :=
  mkImage w h f c (vmake (w * h * f * c) (of_int 0)).

Definition ystride (im : Image) : Z := width im.
Definition tstride (im : Image) : Z := width im * height im.
Definition cstride (im : Image) : Z := width im * height im * frames im.

Definition in_bounds (im : Image) (x y t c : Z) : bool :=
  (0 <=? x) && (x <? width im) && (0 <=? y) && (y <? height im) &&
  (0 <=? t) && (t <? frames im) && (0 <=? c) && (c <? channels im).

Definition offset (im : Image) (x y t c : Z) : Z :=
  c * cstride im + t * tstride im + y * ystride im + x.

(** [im(x, y, t, c)] read. *)
Definition at_ (im : Image) (x y t c : Z) : result float :=
  if in_bounds im x y t c then vget (data im) (offset im x y t c)
  else OutOfBounds.

(** [im(x, y, t, c) = v]. *)
Definition put (im : Image) (x y t c : Z) (v : float) : result Image :=
  if in_bounds im x y t c then
    do d <- vset (data im) (offset im x y t c) v;
    Ok (mkImage (width im) (height im) (frames im) (channels im) d)
  else OutOfBounds.

(** An image whose storage matches its extents, as [Image_new] builds it. *)
Definition wf_image (im : Image) : Prop :=
  0 <= width im /\ 0 <= height im /\ 0 <= frames im /\ 0 <= channels im /\
  vsize (data im) = width im * height im * frames im * channels im.

Definition same_extents (a b : Image) : Prop :=
  width a = width b /\ height a = height b /\
  frames a = frames b /\ channels a = channels b.

(** The sample at a coordinate inside the extents. *)
Definition sample (im : Image) (x y t c : Z) : float :=
  match at_ im x y t c with
  | Ok v => v
  | _ => NaN
  end.

(** ** MinFilter::apply and MaxFilter::apply (Filter.cpp, lines 774-925) *)

Module SlidingExtremum.

(** A [size_t] after an arithmetic step. *)
Definition size_t_wrap (z : Z) : Z := z mod 2 ^ 64.

(** A [size_t] is halved by every round of the walk below. *)
Definition walk_fuel : nat := 64.

(** [do { p--; p >>= 1; heap[p] = sel(heap[2*p+1], heap[2*p+2]); } while (p);] *)
Fixpoint update_parents (sel : float -> float -> float) (fuel : nat)
         (heap : list float) (p : Z) : result (list float) :=
  match fuel with
  | O => OutOfFuel
  | S fuel' =>
      let p' := Z.shiftr (size_t_wrap (p - 1)) 1 in
      do a <- vget heap (size_t_wrap (2 * p' + 1));
      do b <- vget heap (size_t_wrap (2 * p' + 2));
      do heap' <- vset heap p' (sel a b);
      if p' =? 0 then Ok heap' else update_parents sel fuel' heap' p'
  end.

Section Pass.
(** The two filters differ in [sel] and in the sentinel only; the x and the
    y pass differ in how a position of the scanline is read and written. *)
Variable sel : float -> float -> float.
Variable sentinel : float.
Variable radius : Z.
Variable line : Type.
Variable len : Z.
Variable rd : line -> Z -> result float.
Variable wr : line -> Z -> float -> result line.

Record scan : Type := mkScan {
  s_line : line;
  s_heap : list float;
  s_pos : Z
}.

(** One round of [for (int x = 0; x < len + radius; x++)]. *)
Definition step (x : Z) (s : scan) : result scan :=
  do val <- (if x <? len then rd (s_line s) x else Ok sentinel);
  do heap1 <- vset (s_heap s) (s_pos s) val;
  do heap2 <- update_parents sel walk_fuel heap1 (s_pos s);
  do l' <- (if 0 <? x - radius
            then do m <- vget heap2 0; wr (s_line s) (x - radius) m
            else Ok (s_line s));
  let pos' := s_pos s + 1 in
  Ok (mkScan l' heap2 (if pos' =? vsize heap2 then 2 * radius else pos')).

(** [std::fill(heap, sentinel); pos = 2*radius; for (x ...) ...] *)
Definition pass (heap : list float) (l : line) : result (line * list float) :=
  do s <- for_loop 0 (len + radius) step
                   (mkScan l (vfill heap sentinel) (2 * radius));
  Ok (s_line s, s_heap s).
End Pass.

(** The pass over a scanline held in a vector. *)
Definition pass_line (sel : float -> float -> float) (sentinel : float)
           (radius : Z) (l : list float) : result (list float) :=
  do '(l', _) <- pass sel sentinel radius (vsize l)
                      (fun l i => vget l i) (fun l i v => vset l i v)
                      (vmake (4 * radius + 1) (of_int 0)) l;
  Ok l'.

Definition pass_x (sel : float -> float -> float) (sentinel : float)
           (radius y t c : Z) (st : Image * list float)
  : result (Image * list float) :=
  pass sel sentinel radius (width (fst st))
       (fun im x => at_ im x y t c) (fun im x v => put im x y t c v)
       (snd st) (fst st).

Definition pass_y (sel : float -> float -> float) (sentinel : float)
           (radius x t c : Z) (st : Image * list float)
  : result (Image * list float) :=
  pass sel sentinel radius (height (fst st))
       (fun im y => at_ im x y t c) (fun im y v => put im x y t c v)
       (snd st) (fst st).

(** The body the two [apply] functions share. *)
Definition apply (sel : float -> float -> float) (sentinel : float)
           (im : Image) (radius : Z) : result Image :=
  let heap := vmake (4 * radius + 1) (of_int 0) in
  do st <- for_loop 0 (frames im) (fun t st =>
      do st1 <- for_loop 0 (height im) (fun y st =>
                  for_loop 0 (channels im) (fun c st =>
                    pass_x sel sentinel radius y t c st) st) st;
      for_loop 0 (width im) (fun x st =>
        for_loop 0 (channels im) (fun c st =>
          pass_y sel sentinel radius x t c st) st) st1) (im, heap);
  Ok (fst st).

End SlidingExtremum.

Module MinFilter.
Definition apply (im : Image) (radius : Z) : result Image :=
  SlidingExtremum.apply fmin INF im radius.
Definition pass_line (radius : Z) (l : list float) : result (list float) :=
  SlidingExtremum.pass_line fmin INF radius l.
End MinFilter.

Module MaxFilter.
Definition apply (im : Image) (radius : Z) : result Image :=
  SlidingExtremum.apply fmax (fneg INF) im radius.
Definition pass_line (radius : Z) (l : list float) : result (list float) :=
  SlidingExtremum.pass_line fmax (fneg INF) radius l.
End MaxFilter.

(** The extremum of [l] over the clamped window
    [max(0, i-r) .. min(N-1, i+r)], by brute force. *)
Definition clamped_window (l : list float) (i r : Z) : list float :=
  let lo := Z.max 0 (i - r) in
  let hi := Z.min (vsize l - 1) (i + r) in
  firstn (Z.to_nat (hi - lo + 1)) (skipn (Z.to_nat lo) l).

Definition window_min (l : list float) (i r : Z) : float :=
  fold_right fmin INF (clamped_window l i r).

Definition window_max (l : list float) (i r : Z) : float :=
  fold_right fmax (fneg INF) (clamped_window l i r).

Definition fl (n : Z) : float := of_int n.

(** The cell at an index of a vector of samples. *)
Definition hv (h : list float) (p : Z) : float :=
  match vget h p with
  | Ok x => x
  | _ => NaN
  end.

Definition not_nan (a : float) : Prop :=
  match a with
  | NaN => False
  | _ => True
  end.

(** [fmin] and [fmax] pick the better of two by [<], resp. [>]. *)
Definition sel_of (better : float -> float -> bool) (a b : float) : float :=
  if better b a then b else a.

(** An index of the circular buffer, brought back into its range. *)
Definition cyc (m z : Z) : Z := if z <? 0 then z + m else z.

(** The sample pushed by round [k] of the pass over [l]. *)
Definition pushed (sentinel : float) (l : list float) (k : Z) : float :=
  if k <? vsize l then hv l k else sentinel.

(** [v] is an extremum of [l] over the clamped window of index [i]: it
    occurs there and no sample there is better. *)
Definition extremum_at (better : float -> float -> bool) (l : list float)
           (i r : Z) (v : float) : Prop :=
  (exists k, Z.max 0 (i - r) <= k <= Z.min (vsize l - 1) (i + r) /\
             hv l k = v) /\
  forall k, Z.max 0 (i - r) <= k <= Z.min (vsize l - 1) (i + r) ->
            better (hv l k) v = false.

(** The selection tree over the [2r+1] leaves [2r .. 4r]. *)
Definition tree_ok (sel : float -> float -> float) (r : Z) (h : list float)
  : Prop :=
  vsize h = 4 * r + 1 /\
  (forall p, 0 <= p <= 4 * r -> not_nan (hv h p)) /\
  (forall q, 0 <= q < 2 * r ->
             hv h q = sel (hv h (2 * q + 1)) (hv h (2 * q + 2))).

(** The pass over the scanline [l] after [x] rounds: the tree is in order;
    the leaf written [d] rounds ago holds the sample pushed then; index 0
    and the indices from [x - r] on hold their input sample, and the other
    indices an extremum of their window. *)
Definition pass_inv (better : float -> float -> bool) (sentinel : float)
           (r : Z) (l : list float) (x : Z)
           (s : SlidingExtremum.scan (list float)) : Prop :=
  tree_ok (sel_of better) r (SlidingExtremum.s_heap s) /\
  2 * r <= SlidingExtremum.s_pos s <= 4 * r /\
  (forall d, 1 <= d <= 2 * r + 1 ->
     hv (SlidingExtremum.s_heap s)
        (2 * r + cyc (2 * r + 1) (SlidingExtremum.s_pos s - 2 * r - d)) =
     if d <=? x then pushed sentinel l (x - d) else sentinel) /\
  vsize (SlidingExtremum.s_line s) = vsize l /\
  (forall i, 0 <= i < vsize l -> i = 0 \/ x - r <= i ->
             hv (SlidingExtremum.s_line s) i = hv l i) /\
  (forall i, 1 <= i < vsize l -> i <= x - 1 - r ->
             extremum_at better l i r (hv (SlidingExtremum.s_line s) i)).


(** ** RectFilter (Filter.cpp, lines 487-661) *)

(** [im.width], where the source also has a parameter [width]. *)
Definition im_width (im : Image) : Z := width im.

(** [while (cond) body], and a [for] whose test does not mention its
    counter. *)
Fixpoint while_loop {S : Type} (fuel : nat) (cond : S -> bool)
         (body : S -> result S) (s : S) : result S :=
  if cond s then
    match fuel with
    | O => OutOfFuel
    | Datatypes.S fuel' => do s' <- body s; while_loop fuel' cond body s'
    end
  else Ok s.

(** [for (int x = 0; x < hi; x += step) body]. *)
Definition for_step {S : Type} (hi step : Z)
           (body : Z -> S -> result S) (s : S) : result S :=
  for_loop 0 ((hi + step - 1) / step) (fun k s => body (k * step) s) s.

Module RectFilter.

(** [average] is a [double]: the sum and the quotient are rounded to
    [double], and what is stored in the image is rounded to [float]. *)
Definition blurXCompletely (im : Image) : result Image :=
  for_loop 0 (channels im) (fun c im =>
    for_loop 0 (frames im) (fun t im =>
      for_loop 0 (height im) (fun y im =>
        (* compute the average for this scanline *)
        do average <- for_loop 0 (width im) (fun x average =>
                        do v <- at_ im x y t c;
                        Ok (to_double (fadd average v))) (of_int 0);
        let average := to_double (fdiv_int average (width im)) in
        for_loop 0 (width im) (fun x im =>
          put im x y t c (to_float average)) im)
      im) im) im.

(** The circular buffer of one scanline and the running sum. *)
Record box : Type := mkBox {
  b_im : Image;
  buffer : list float;
  sum : float;
  bufferIndex : Z;
  bufferEntries : Z;
  mult : float
}.

Section Scanline.
Variables (width radius y t c : Z).

(** [for (int j = 0; j <= radius; j++) buffer[j] = 0;] *)
Definition clear_buffer (b : box) : result box :=
  for_loop 0 (radius + 1) (fun j b =>
    do buf <- vset (buffer b) j (of_int 0);
    Ok (mkBox (b_im b) buf (sum b) (bufferIndex b) (bufferEntries b) (mult b))) b.

(** [for (int j = radius+1; j < width; j++) ...] *)
Definition load_buffer (b : box) : result box :=
  for_loop (radius + 1) width (fun j b =>
    do v <- at_ (b_im b) (j - radius) y t c;
    do buf <- vset (buffer b) j v;
    do bj <- vget buf j;
    Ok (mkBox (b_im b) buf (fadd (sum b) bj) (bufferIndex b)
              (bufferEntries b + 1) (mult b))) b.

Definition advance (i : Z) : Z := if i + 1 =? width then 0 else i + 1.

(** The non-boundary cases. *)
Definition inner (x : Z) (b : box) : result box :=
  (* assign the average to the current position *)
  do im1 <- put (b_im b) x y t c (fmul (sum b) (mult b));
  (* swap out the buffer element, updating the sum *)
  do newVal <- at_ im1 (x + radius + 1) y t c;
  do old <- vget (buffer b) (bufferIndex b);
  let sum' := fadd (sum b) (fsub newVal old) in
  do buf <- vset (buffer b) (bufferIndex b) newVal;
  let idx := advance (bufferIndex b) in
  if bufferEntries b <? width
  then Ok (mkBox im1 buf sum' idx (bufferEntries b + 1)
                 (recip_int (bufferEntries b + 1)))
  else Ok (mkBox im1 buf sum' idx (bufferEntries b) (mult b)).

(** The boundary cases. *)
Definition boundary (x : Z) (b : box) : result box :=
  do im1 <- put (b_im b) x y t c (fmul (sum b) (mult b));
  do old <- vget (buffer b) (bufferIndex b);
  let sum' := fsub (sum b) old in
  let idx := advance (bufferIndex b) in
  Ok (mkBox im1 (buffer b) sum' idx (bufferEntries b - 1)
            (recip_int (bufferEntries b - 1))).

(** One iteration on one scanline; the buffer vector outlives it. *)
Definition iteration (st : Image * list float) : result (Image * list float) :=
  let b0 := mkBox (fst st) (snd st) (of_int 0) 0 0 (of_int 0) in
  do b1 <- clear_buffer b0;
  do b2 <- load_buffer b1;
  let b3 := mkBox (b_im b2) (buffer b2) (sum b2) (bufferIndex b2)
                  (bufferEntries b2) (recip_int (bufferEntries b2)) in
  do b4 <- for_loop 0 (im_width (b_im b3) - radius - 1) inner b3;
  do b5 <- for_loop (im_width (b_im b4) - radius - 1)
                    (im_width (b_im b4)) boundary b4;
  Ok (b_im b5, buffer b5).
End Scanline.

Definition blurX (im : Image) (width iterations : Z) : result Image :=
  if width <=? 1 then Ok im
  else if im_width im =? 1 then Ok im
  (* special case where the radius is large enough that the image is
     totally uniformly blurred *)
  else if im_width im <=? Z.quot width 2 then blurXCompletely im
  else
    let radius := Z.quot width 2 in
    let buffer := vmake width (of_int 0) in
    do st <- for_loop 0 (channels im) (fun c st =>
      for_loop 0 (frames im) (fun t st =>
        for_loop 0 (height im) (fun y st =>
          for_loop 0 iterations (fun _ st =>
            iteration width radius y t c st) st) st) st) (im, buffer);
    Ok (fst st).

(** [int size = chunk.height; if (x + chunk.height >= im.width) size = im.width-x;] *)
Definition chunk_size (w x : Z) (chunk : Image) : Z :=
  if w <=? x + height chunk then w - x else height chunk.

(** [blurY]: read into the chunk in a transposed fashion. *)
Definition blurY_read_chunk (im chunk : Image) (x t c size : Z) : result Image :=
  for_loop 0 (height im) (fun y chunk =>
    for_loop 0 size (fun j chunk =>
      do v <- at_ im (x + j) y t c; put chunk y j 0 0 v) chunk) chunk.

(** [blurY]: read back from the chunk. *)
Definition blurY_write_chunk (im chunk : Image) (x t c size : Z) : result Image :=
  for_loop 0 (height im) (fun y im =>
    for_loop 0 size (fun j im =>
      do v <- at_ chunk y j 0 0; put im (x + j) y t c v) im) im.

Definition blurY (im : Image) (width iterations : Z) : result Image :=
  if width <=? 1 then Ok im
  else if height im =? 1 then Ok im
  else
    (* pull out strips of columns and blur them *)
    let chunk := Image_new (height im) 8 1 1 in
    do st <- for_loop 0 (channels im) (fun c st =>
      for_loop 0 (frames im) (fun t st =>
        for_step (im_width im) (height chunk) (fun x '(im, chunk) =>
          let size := chunk_size (im_width im) x chunk in
          do chunk1 <- blurY_read_chunk im chunk x t c size;
          do chunk2 <- blurX chunk1 width iterations;
          do im1 <- blurY_write_chunk im chunk2 x t c size;
          Ok (im1, chunk2)) st) st) (im, chunk);
    Ok (fst st).

(** [blurT]: the loop that reads into the chunk,
    [for (int t = 0; y < im.frames; t++) for (int j = 0; j < size; j++) ...].
    Its test compares [y], not [t], with the number of frames. *)
Definition blurT_read_chunk (fuel : nat) (im chunk : Image) (x y c size : Z)
  : result Image :=
  do st <- while_loop fuel (fun _ : Z * Image => y <? frames im)
             (fun '(t, chunk) =>
                do chunk' <- for_loop 0 size (fun j chunk =>
                               do v <- at_ im (x + j) y t c;
                               put chunk t j 0 0 v) chunk;
                Ok (t + 1, chunk'))
             (0, chunk);
  Ok (snd st).

(** [blurT]: read back from the chunk. *)
Definition blurT_write_chunk (im chunk : Image) (x y c size : Z) : result Image :=
  for_loop 0 (frames im) (fun t im =>
    for_loop 0 size (fun j im =>
      do v <- at_ chunk t j 0 0; put im (x + j) y t c v) im) im.

Definition blurT (fuel : nat) (im : Image) (width iterations : Z) : result Image :=
  if width <=? 1 then Ok im
  else if frames im =? 1 then Ok im
  else
    (* pull out strips across frames from rows and blur them *)
    let chunk := Image_new (frames im) 8 1 1 in
    do st <- for_loop 0 (channels im) (fun c st =>
      for_loop 0 (height im) (fun y st =>
        for_step (im_width im) (height chunk) (fun x '(im, chunk) =>
          let size := chunk_size (im_width im) x chunk in
          do chunk1 <- blurT_read_chunk fuel im chunk x y c size;
          do chunk2 <- blurX chunk1 width iterations;
          do im1 <- blurT_write_chunk im chunk2 x y c size;
          Ok (im1, chunk2)) st) st) (im, chunk);
    Ok (fst st).

(** [RectFilter::apply]; [fuel] bounds the chunk-read loop of [blurT]. *)
Definition apply (fuel : nat) (im : Image)
           (filterWidth filterHeight filterFrames iterations : Z) : result Image :=
  do _ <- assert (negb (Z.land (Z.land (Z.land filterFrames filterWidth)
                                       filterHeight) 1 =? 0))
                 ("filter shape must be odd" ++ nl);
  do _ <- assert (1 <=? iterations) ("iterations must be at least one" ++ nl);
  do im1 <- (if filterFrames =? 1 then Ok im
             else blurT fuel im filterFrames iterations);
  do im2 <- (if filterWidth =? 1 then Ok im1
             else blurX im1 filterWidth iterations);
  if filterHeight =? 1 then Ok im2 else blurY im2 filterHeight iterations.

(** A sample that is the constant [v]. *)
Definition is_const (v : Q) (a : float) : Prop :=
  exists q, a = Fin q /\ (q == v)%Q.

(** A scanline of [N] samples that are all [v]. *)
Definition row_const (v : Q) (N : Z) (im : Image) : Prop :=
  wf_image im /\ im_width im = N /\ height im = 1 /\ frames im = 1 /\
  channels im = 1 /\
  forall i, 0 <= i < N -> is_const v (sample im i 0 0 0).

(** The circular buffer after [k] non-boundary rounds on such a scanline:
    the cells [k .. radius] are still the zeros of the start, the others
    hold [v]. *)
Definition buffer_inv (v : Q) (width radius k : Z) (buffer : list float) : Prop :=
  vsize buffer = width /\
  forall j, 0 <= j < width ->
            if (k <=? j) && (j <=? radius) then is_const 0 (hv buffer j)
            else is_const v (hv buffer j).

(** The running sum is the number of entries times [v]. *)
Definition sum_inv (v : Q) (b : box) : Prop :=
  (exists s, sum b = Fin s /\ (s == inject_Z (bufferEntries b) * v)%Q) /\
  mult b = recip_int (bufferEntries b).

(** The state before non-boundary round [k]. *)
Definition inner_inv (v : Q) (N width radius k : Z) (b : box) : Prop :=
  row_const v N (b_im b) /\ buffer_inv v width radius k (buffer b) /\
  0 <= bufferIndex b < width /\ (k <= radius -> bufferIndex b = k) /\
  bufferEntries b = Z.min (radius + k) width /\ sum_inv v b.

(** The state before boundary round [m], counted from the first one. *)
Definition boundary_inv (v : Q) (N width radius m : Z) (b : box) : Prop :=
  row_const v N (b_im b) /\
  buffer_inv v width radius (radius + 1) (buffer b) /\
  0 <= bufferIndex b < width /\
  bufferEntries b = width - m /\ sum_inv v b.

End RectFilter.

(** ** GaussianBlur::apply and FastBlur (Filter.cpp, lines 40-449)

    [Convolve::apply], [Paste::apply] and [expf] are not under src/, and
    neither is the declaration that gives [addMargin] its default: the
    embedding takes them as parameters.  A filter size and a coefficient of
    the recursive filter are finite [float]s, rationals here. *)

(** [(int) q]: conversion truncates towards zero. *)
Definition truncate (q : Q) : Z := Z.quot (Qnum q) (Zpos (Qden q)).

(** [(int) x] for a [float] [x].  The conversion of an infinity or of a NaN
    is undefined in C++; it is given the value it has on x86 here. *)
Definition int_of (x : float) : Z :=
  match x with
  | Fin q => truncate q
  | _ => - 2 ^ 31
  end.

(** [sqrtf] on a non-negative rational: the root cut to 24 binary places,
    which is the root itself when it has no more places than that. *)
Definition sqrtf (q : Q) : Q :=
  Qred (Z.sqrt (Z.shiftl (Qnum q) 48 / Zpos (Qden q)) # (2 ^ 24)).

Inductive Axis : Type := AxisX | AxisY | AxisT.

Module GaussianBlur.

(** [int size = (int)(sigma * 6 + 1) | 1; if (size == 1) { size = 3; }] *)
Definition kernel_size (sigma : Q) : Z :=
  let size := Z.lor (truncate (sigma * 6 + 1)) 1 in
  if size =? 1 then 3 else size.

(** The three blocks of the source differ in the axis only: in the shape of
    the filter image and in the coordinate its taps are stored at. *)
Definition filter_new (axis : Axis) (size : Z) : Image :=
  match axis with
  | AxisX => Image_new size 1 1 1
  | AxisY => Image_new 1 size 1 1
  | AxisT => Image_new 1 1 size 1
  end.

Definition tap (axis : Axis) (i : Z) : Z * Z * Z :=
  match axis with
  | AxisX => (i, 0, 0)
  | AxisY => (0, i, 0)
  | AxisT => (0, 0, i)
  end.

Section External.
Variable expf : float -> float.
Variable Convolve_apply : Image -> Image -> result Image.

(** make the width (height, frames) filter *)
Definition make_filter (axis : Axis) (sigma : Q) : result Image :=
  let size := kernel_size sigma in
  let radius := Z.quot size 2 in
  do st <- for_loop 0 size (fun i '(filter, sum) =>
             let diff := fdiv (of_int (i - radius)) (Fin sigma) in
             let value := expf (fdiv (fmul (fneg diff) diff) (of_int 2)) in
             let '(x, y, t) := tap axis i in
             do filter' <- put filter x y t 0 value;
             Ok (filter', fadd sum value))
           (filter_new axis size, of_int 0);
  let '(filter, sum) := st in
  for_loop 0 size (fun i filter =>
    let '(x, y, t) := tap axis i in
    do v <- at_ filter x y t 0;
    put filter x y t 0 (fdiv v sum)) filter.

(** [if (sigma != 0) { ...; out = Convolve::apply(out, filter); }] *)
Definition blur_axis (axis : Axis) (sigma : Q) (out : Image) : result Image :=
  if Qeq_bool sigma 0 then Ok out
  else do filter <- make_filter axis sigma; Convolve_apply out filter.

Definition apply (im : Image) (filterWidth filterHeight filterFrames : Q)
  : result Image :=
  do out <- blur_axis AxisX filterWidth im;
  do out <- blur_axis AxisY filterHeight out;
  blur_axis AxisT filterFrames out.

End External.
End GaussianBlur.

Module FastBlur.

Definition calculateCoefficients (sigma : Q) : result (Q * Q * Q * Q) :=
  do _ <- assert (Qle_bool (1 # 2) sigma)
                 ("To use IIR filtering, standard deviation of blur must be >= 0.5"
                    ++ nl);
  let q := Qred (if Qltb sigma (5 # 2)
                 then 3.97156 - 4.14554 * sqrtf (1 - 0.26891 * sigma)
                 else 0.98711 * sigma - 0.96330)%Q in
  let denom := Qred (1.57825 + 2.44413 * q + 1.4281 * q * q
                     + 0.422205 * q * q * q)%Q in
  let c1 := Qred ((2.44413 * q + 2.85619 * q * q + 1.26661 * q * q * q)
                  / denom)%Q in
  let c2 := Qred (- (1.4281 * q * q + 1.26661 * q * q * q) / denom)%Q in
  let c3 := Qred ((0.422205 * q * q * q) / denom)%Q in
  let c0 := Qred (1 - (c1 + c2 + c3))%Q in
  Ok (c0, c1, c2, c3).

Section Taps.
Variable cs : Q * Q * Q * Q.
(** The coordinate at a position of the axis that is blurred. *)
Variable pos : Z -> Z * Z * Z * Z.

Definition c0 : float := let '(c0, _, _, _) := cs in Fin c0.
Definition c1 : float := let '(_, c1, _, _) := cs in Fin c1.
Definition c2 : float := let '(_, _, c2, _) := cs in Fin c2.
Definition c3 : float := let '(_, _, _, c3) := cs in Fin c3.
Definition invC01 : float := fdiv (of_int 1) (fadd c0 c1).
Definition invC012 : float := fdiv (of_int 1) (fadd (fadd c0 c1) c2).

Definition rd (im : Image) (k : Z) : result float :=
  let '(x, y, t, c) := pos k in at_ im x y t c.
Definition wr (im : Image) (k : Z) (v : float) : result Image :=
  let '(x, y, t, c) := pos k in put im x y t c v.

(** [im(k) = (c0*im(k) + c1*im(k1)) * invC01] *)
Definition edge2 (k k1 : Z) (im : Image) : result Image :=
  do a <- rd im k;
  do b <- rd im k1;
  wr im k (fmul (fadd (fmul c0 a) (fmul c1 b)) invC01).

(** [im(k) = (c0*im(k) + c1*im(k1) + c2*im(k2)) * invC012] *)
Definition edge3 (k k1 k2 : Z) (im : Image) : result Image :=
  do a <- rd im k;
  do b <- rd im k1;
  do c <- rd im k2;
  wr im k (fmul (fadd (fadd (fmul c0 a) (fmul c1 b)) (fmul c2 c)) invC012).

(** [im(k) = c0*im(k) + c1*im(k1) + c2*im(k2) + c3*im(k3)] *)
Definition full4 (k k1 k2 k3 : Z) (im : Image) : result Image :=
  do a <- rd im k;
  do b <- rd im k1;
  do c <- rd im k2;
  do d <- rd im k3;
  wr im k (fadd (fadd (fadd (fmul c0 a) (fmul c1 b)) (fmul c2 c)) (fmul c3 d)).
End Taps.

(** [for (int x = hi; x >= 0; x--) body] *)
Definition for_down {S : Type} (hi : Z) (body : Z -> S -> result S) (s : S)
  : result S :=
  for_down_range hi (Z.to_nat (hi + 1)) body s.

Definition blurX (im : Image) (sigma : Q) (ts : Z) : result Image :=
  if Qeq_bool sigma 0 then Ok im
  else
    do cs <- calculateCoefficients sigma;
    for_loop 0 (channels im) (fun c im =>
      for_loop 0 (frames im) (fun t im =>
        for_loop 0 (height im) (fun y im =>
          let pos := fun k => (k, y, t, c) in
          (* forward pass *)
          do im <- for_loop 0 ts (fun j im =>
                     do im <- edge2 cs pos (ts + j) j im;
                     edge3 cs pos (2 * ts + j) (ts + j) j im) im;
          do im <- for_loop (3 * ts) (width im) (fun x im =>
                     full4 cs pos x (x - ts) (x - 2 * ts) (x - 3 * ts) im) im;
          let x := width im - 3 * ts in
          do im <- for_loop 0 ts (fun j im =>
                     do im <- edge2 cs pos (x + ts + j) (x + 2 * ts + j) im;
                     edge3 cs pos (x + j) (x + ts + j) (x + 2 * ts + j) im) im;
          (* backward pass *)
          for_down (width im - 3 * ts - 1) (fun x im =>
            full4 cs pos x (x + ts) (x + 2 * ts) (x + 3 * ts) im) im)
        im) im) im.

Definition blurY (im : Image) (sigma : Q) (ts : Z) : result Image :=
  if Qeq_bool sigma 0 then Ok im
  else
    do cs <- calculateCoefficients sigma;
    for_loop 0 (channels im) (fun c im =>
      for_loop 0 (frames im) (fun t im =>
        let pos := fun x k => (x, k, t, c) in
        do im <- for_loop 0 ts (fun j im =>
                   for_loop 0 (width im) (fun x im =>
                     do im <- edge2 cs (pos x) (ts + j) j im;
                     edge3 cs (pos x) (2 * ts + j) (ts + j) j im) im) im;
        (* forward pass *)
        do im <- for_loop (3 * ts) (height im) (fun y im =>
                   for_loop 0 (width im) (fun x im =>
                     full4 cs (pos x) y (y - ts) (y - 2 * ts) (y - 3 * ts) im)
                            im) im;
        let y := height im - 3 * ts in
        do im <- for_loop 0 ts (fun j im =>
                   for_loop 0 (width im) (fun x im =>
                     do im <- edge2 cs (pos x) (y + ts + j) (y + ts * 2 + j) im;
                     edge3 cs (pos x) (y + j) (y + ts + j) (y + ts * 2 + j) im)
                            im) im;
        (* backward pass *)
        for_down (height im - 3 * ts - 1) (fun y im =>
          for_loop 0 (width im) (fun x im =>
            full4 cs (pos x) y (y + ts) (y + 2 * ts) (y + 3 * ts) im) im) im)
      im) im.

Definition blurT (im : Image) (sigma : Q) (ts : Z) : result Image :=
  if Qeq_bool sigma 0 then Ok im
  else
    do cs <- calculateCoefficients sigma;
    for_loop 0 (channels im) (fun c im =>
      for_loop 0 (height im) (fun y im =>
        let pos := fun x k => (x, y, k, c) in
        do im <- for_loop 0 ts (fun j im =>
                   for_loop 0 (width im) (fun x im =>
                     do im <- edge2 cs (pos x) (ts + j) j im;
                     edge3 cs (pos x) (2 * ts + j) (ts + j) j im) im) im;
        (* forward pass *)
        do im <- for_loop (3 * ts) (frames im) (fun t im =>
                   for_loop 0 (width im) (fun x im =>
                     full4 cs (pos x) t (t - ts) (t - 2 * ts) (t - 3 * ts) im)
                            im) im;
        let t := frames im - 3 * ts in
        do im <- for_loop 0 ts (fun j im =>
                   for_loop 0 (width im) (fun x im =>
                     do im <- edge2 cs (pos x) (t + ts + j) (t + 2 * ts + j) im;
                     edge3 cs (pos x) (t + j) (t + ts + j) (t + 2 * ts + j) im)
                            im) im;
        (* backward pass *)
        for_down (frames im - 3 * ts - 1) (fun t im =>
          for_loop 0 (width im) (fun x im =>
            full4 cs (pos x) t (t + ts) (t + 2 * ts) (t + 3 * ts) im) im) im)
      im) im.

(** [n / sigma < 8] with [n] an [int] and [sigma >= 0] a [float]: the
    quotient is infinite or a NaN when [sigma] is zero, and the test fails. *)
Definition ratio_below_8 (n : Z) (sigma : Q) : bool :=
  if Qeq_bool sigma 0 then false else Qltb (inject_Z n / sigma) 8.

(** One axis of "now perform the blur": for large filters, a sparse blur
    with spaced taps and a dense blur. *)
Definition perform (blur : Image -> Q -> Z -> result Image) (sigma : Q)
           (im : Image) : result Image :=
  if Qltb 32 sigma then
    let remainingStdDev := sqrtf (sigma * sigma - 32 * 32) in
    let tapSpacing := truncate (remainingStdDev / 32 + 1) in
    do im <- blur im (Qred (remainingStdDev / inject_Z tapSpacing)) tapSpacing;
    blur im 32%Q 1
  else if Qltb 0 sigma then blur im sigma 1
  else Ok im.

Section External.
Variable expf : float -> float.
Variable Convolve_apply : Image -> Image -> result Image.
(** [Paste::apply(im, blurry, 0, 0, 0)]: the new content of [im]. *)
Variable Paste_apply : Image -> Image -> Z -> Z -> Z -> result Image.
(** The default of the parameter [addMargin]. *)
Variable addMargin_default : bool.

(** Copy [im] into the middle of [bigger], with a weight channel of ones. *)
Definition pad (im bigger : Image) (marginX marginY marginT : Z) : result Image :=
  for_loop 0 (frames im) (fun t bigger =>
    for_loop 0 (height im) (fun y bigger =>
      for_loop 0 (width im) (fun x bigger =>
        do bigger <- put bigger (x + marginX) (y + marginY) (t + marginT)
                         (channels im) (of_int 1);
        for_loop 0 (channels im) (fun c bigger =>
          do v <- at_ im x y t c;
          put bigger (x + marginX) (y + marginY) (t + marginT) c v) bigger)
      bigger) bigger) bigger.

(** Copy the middle of [bigger] back, divided by the weight. *)
Definition unpad (im bigger : Image) (marginX marginY marginT : Z) : result Image :=
  for_loop 0 (frames im) (fun t im =>
    for_loop 0 (height im) (fun y im =>
      for_loop 0 (width im) (fun x im =>
        do wv <- at_ bigger (x + marginX) (y + marginY) (t + marginT)
                     (channels im);
        let w := fdiv (of_int 1) wv in
        for_loop 0 (channels im) (fun c im =>
          do v <- at_ bigger (x + marginX) (y + marginY) (t + marginT) c;
          put im x y t c (fmul w v)) im) im) im) im.

(** [FastBlur::apply]; [fuel] bounds the depth of its recursion. *)
Fixpoint apply (fuel : nat) (im : Image)
         (filterWidth filterHeight filterFrames : Q) (addMargin : bool)
  : result Image :=
  match fuel with
  | O => OutOfFuel
  | S fuel' =>
      do _ <- assert (Qle_bool 0 filterFrames && Qle_bool 0 filterWidth &&
                      Qle_bool 0 filterHeight)
                     ("Filter sizes must be non-negative" ++ nl);
      (* Prevent filtering in useless directions *)
      let filterWidth := if width im =? 1 then 0%Q else filterWidth in
      let filterHeight := if height im =? 1 then 0%Q else filterHeight in
      let filterFrames := if frames im =? 1 then 0%Q else filterFrames in
      if Qltb 0 filterFrames &&
         ((frames im <? 16) || Qltb filterFrames (1 # 2)) then
        do blurry <- GaussianBlur.apply expf Convolve_apply im filterFrames 0 0;
        do blurry <- apply fuel' blurry filterWidth filterHeight 0
                           addMargin_default;
        Paste_apply im blurry 0 0 0
      else if Qltb 0 filterWidth &&
              ((width im <? 16) || Qltb filterWidth (1 # 2)) then
        do blurry <- GaussianBlur.apply expf Convolve_apply im 0 filterWidth 0;
        do blurry <- apply fuel' blurry 0 filterHeight filterFrames
                           addMargin_default;
        Paste_apply im blurry 0 0 0
      else if Qltb 0 filterHeight &&
              ((height im <? 16) || Qltb filterHeight (1 # 2)) then
        do blurry <- GaussianBlur.apply expf Convolve_apply im 0 0 filterHeight;
        do blurry <- apply fuel' blurry filterWidth 0 filterFrames
                           addMargin_default;
        Paste_apply im blurry 0 0 0
      else if addMargin && (ratio_below_8 (frames im) filterFrames ||
                            ratio_below_8 (width im) filterWidth ||
                            ratio_below_8 (height im) filterHeight) then
        let marginT := truncate filterFrames in
        let marginX := truncate filterWidth in
        let marginY := truncate filterHeight in
        let bigger := Image_new (width im + 2 * marginX)
                                (height im + 2 * marginY)
                                (frames im + 2 * marginT) (channels im + 1) in
        do bigger <- pad im bigger marginX marginY marginT;
        do bigger <- apply fuel' bigger filterFrames filterWidth filterHeight
                           false;
        unpad im bigger marginX marginY marginT
      else
        (* now perform the blur *)
        do im <- perform blurX filterWidth im;
        do im <- perform blurY filterHeight im;
        perform blurT filterFrames im
  end.

End External.
End FastBlur.

(** ** HotPixelSuppression::apply (Filter.cpp, lines 1327-1350) *)

Module HotPixelSuppression.

(** The body of the innermost loop: [im] is read, [out] is written. *)
Definition suppress (x y t c : Z) (st : Image * Image) : result (Image * Image) :=
  let '(im, out) := st in
  do n1 <- at_ im (x - 1) y t c;
  do n2 <- at_ im (x + 1) y t c;
  do n3 <- at_ im x (y - 1) t c;
  do n4 <- at_ im x (y + 1) t c;
  do here <- at_ im x y t c;
  let maxn := fmax (fmax n1 n2) (fmax n3 n4) in
  let minn := fmin (fmin n1 n2) (fmin n3 n4) in
  let here := if fgt here maxn then maxn else here in
  let here := if flt here minn then minn else here in
  do out' <- put out x y t c here;
  Ok (im, out').

(** The state is the pair of the input buffer and of the buffer the call
    allocates; the call returns the latter. *)
Definition apply (im : Image) : result (Image * Image) :=
  let out := Image_new (width im) (height im) (frames im) (channels im) in
  for_loop 0 (frames im) (fun t st =>
    for_loop 1 (height im - 1) (fun y st =>
      for_loop 1 (width im - 1) (fun x st =>
        for_loop 0 (channels im) (fun c st => suppress x y t c st) st) st) st)
    (im, out).

(** What the claim calls the input clamped between the minimum and the
    maximum of the four axis-neighbours. *)
Definition clamp_to_neighbours (n1 n2 n3 n4 here : float) : float :=
  fclamp here (fmin (fmin n1 n2) (fmin n3 n4)) (fmax (fmax n1 n2) (fmax n3 n4)).

(** The pixels that have four axis-neighbours. *)
Definition interior (im : Image) (x y : Z) : bool :=
  (0 <? x) && (x <? width im - 1) && (0 <? y) && (y <? height im - 1).

(** What the call leaves at a coordinate of the buffer it returns. *)
Definition expected (im : Image) (x y t c : Z) : float :=
  if interior im x y
  then clamp_to_neighbours (sample im (x - 1) y t c) (sample im (x + 1) y t c)
                           (sample im x (y - 1) t c) (sample im x (y + 1) t c)
                           (sample im x y t c)
  else of_int 0.

(** The pixels that have four axis-neighbours, as a proposition. *)
Definition inside (im : Image) (x y : Z) : Prop :=
  0 < x < width im - 1 /\ 0 < y < height im - 1.

(** The coordinates the loops have written when they stand at frame [t0],
    row [y0], column [x0] and channel [c0]. *)
Definition done_c (im : Image) (t0 y0 x0 c0 : Z) (x y t c : Z) : Prop :=
  inside im x y /\
  (t < t0 \/ (t = t0 /\ (y < y0 \/ (y = y0 /\ (x < x0 \/ (x = x0 /\ c < c0)))))).

(** The state while the loops run: the input buffer is [im]; in the output
    buffer the coordinates in [D] hold their final value and the others the
    zero of the allocation. *)
Definition hp_inv (im : Image) (D : Z -> Z -> Z -> Z -> Prop)
           (st : Image * Image) : Prop :=
  fst st = im /\ wf_image (snd st) /\ same_extents (snd st) im /\
  forall x y t c, in_bounds im x y t c = true ->
    (D x y t c -> at_ (snd st) x y t c = Ok (expected im x y t c)) /\
    (~ D x y t c -> at_ (snd st) x y t c = Ok (of_int 0)).

End HotPixelSuppression.

(** ** The sliding window of PercentileFilter::apply (Filter.cpp, lines 969-1132) *)

(** Modelled from the spec: the integer [clamp(a, lo, hi)] is a helper of a
    header that is not under src/; [rebalance] limits the desired size with
    it to the range from [0] to [total - 1]. *)
Definition iclamp (a lo hi : Z) : Z :=
  if a <? lo then lo else if hi <? a then hi else a.

(** [while (cond) body] with a fallible test. *)
Fixpoint while_do {S : Type} (fuel : nat) (cond : S -> result bool)
         (body : S -> result S) (s : S) : result S :=
  do b <- cond s;
  if b then
    match fuel with
    | O => OutOfFuel
    | Datatypes.S fuel' => do s' <- body s; while_do fuel' cond body s'
    end
  else Ok s.

Module SlidingNewImage.

(** A heap node: the index in [buf] of the value at this node, and how many
    valid children it has. *)
Definition node : Type := (Z * Z)%type.

Definition node_eqb (a b : node) : bool :=
  (fst a =? fst b) && (snd a =? snd b).

Record t : Type := mkWindow {
  buf : list float;
  minHeap : list node;
  maxHeap : list node
}.

(** [heapSize = 1; while (heapSize < 2*buf.size()-1) heapSize += heapSize+1;]
    Every round adds at least one, so [2 * maxKey] rounds are enough. *)
Definition heap_size (maxKey : Z) : result Z :=
  while_loop (Z.to_nat (2 * maxKey)) (fun heapSize => heapSize <? 2 * maxKey - 1)
             (fun heapSize => Ok (heapSize + (heapSize + 1))) 1.

(** [h[i].first = v] and [h[i].second = v]. *)
Definition set_first (h : list node) (i v : Z) : result (list node) :=
  do x <- vget h i; vset h i (v, snd x).
Definition set_second (h : list node) (i v : Z) : result (list node) :=
  do x <- vget h i; vset h i (fst x, v).

(** The constructor [SlidingNewImage(int maxKey)]. *)
Definition new (maxKey : Z) : result t :=
  let buf := vmake maxKey (of_int 0) in
  do heapSize <- heap_size maxKey;
  let heap := vmake heapSize (0, 0) in
  (* Set the initial pointers at the leaves *)
  do hs <- for_loop 0 (vsize buf) (fun i '(mn, mx) =>
             do mn' <- set_first mn (i + vsize buf - 1) i;
             do mx' <- set_first mx (i + vsize buf - 1) i;
             Ok (mn', mx')) (heap, heap);
  Ok (mkWindow buf (fst hs) (snd hs)).

Definition isEmpty (w : t) : result bool :=
  do mx <- vget (maxHeap w) 0;
  do mn <- vget (minHeap w) 0;
  Ok (snd mx + snd mn =? 0).

Definition pivot (w : t) : result float :=
  do mx <- vget (maxHeap w) 0;
  vget (buf w) (fst mx).

(** One of the two loops of [updateFrom]: walk up one heap from [p] fixing
    pointers, and stop at the first parent that does not change.  [prefer]
    is [<] for the min heap and [>] for the max heap. *)
Fixpoint fix_up (prefer : float -> float -> bool) (fuel : nat)
         (buf : list float) (heap : list node) (p : Z) : result (list node) :=
  if p =? 0 then Ok heap
  else
    match fuel with
    | O => OutOfFuel
    | S fuel' =>
        (* Move to the parent *)
        let p := Z.quot (p - 1) 2 in
        (* Examine both children, and update the parent accordingly *)
        do a <- vget heap (p * 2 + 1);
        do b <- vget heap (p * 2 + 2);
        do first <-
           (if negb (snd a =? 0) && negb (snd b =? 0) then
              do va <- vget buf (fst a);
              do vb <- vget buf (fst b);
              Ok (if prefer va vb then fst a else fst b)
            else if negb (snd b =? 0) then Ok (fst b)
            else Ok (fst a));
        let parent := (first, snd a + snd b) in
        do old <- vget heap p;
        if node_eqb old parent then Ok heap
        else do heap' <- vset heap p parent;
             fix_up prefer fuel' buf heap' p
    end.

(** The walk at least halves [p] every round. *)
Definition updateFrom (w : t) (pos : Z) : result t :=
  do mn <- fix_up flt (Z.to_nat pos) (buf w) (minHeap w) pos;
  do mx <- fix_up fgt (Z.to_nat pos) (buf w) (maxHeap w) pos;
  Ok (mkWindow (buf w) mn mx).

Definition insert (w : t) (key : Z) (val : float) : result t :=
  do p <- pivot w;
  do buf' <- vset (buf w) key val;
  let heapIdx := key + vsize buf' - 1 in
  do empty <- isEmpty w;
  do w' <-
     (if empty || flt val p then
        (* add to the max heap *)
        do mx <- set_second (maxHeap w) heapIdx 1;
        do mn <- set_second (minHeap w) heapIdx 0;
        Ok (mkWindow buf' mn mx)
      else
        (* add to the min heap *)
        do mx <- set_second (maxHeap w) heapIdx 0;
        do mn <- set_second (minHeap w) heapIdx 1;
        Ok (mkWindow buf' mn mx));
  (* Fix the heaps *)
  updateFrom w' heapIdx.

Definition remove (w : t) (key : Z) : result t :=
  let heapIdx := key + vsize (buf w) - 1 in
  do mn <- set_second (minHeap w) heapIdx 0;
  do mx <- set_second (maxHeap w) heapIdx 0;
  updateFrom (mkWindow (buf w) mn mx) heapIdx.

(** [clamp(int(total * (1.0f - percentile)), 0, total-1)], in [float]
    arithmetic: the difference is rounded to [float], [total] is converted
    to [float], and their product is rounded to [float] before [int]
    truncates it.  [percentile] is the value of the [float] argument. *)
Definition desiredMinHeapSize (total : Z) (percentile : Q) : Z :=
  let rest := to_float (fsub (of_int 1) (Fin percentile)) in
  let product := to_float (fmul (to_float (of_int total)) rest) in
  iclamp (int_of product) 0 (total - 1).

(** [minHeap[0].second] *)
Definition min_count (w : t) : result Z :=
  do mn <- vget (minHeap w) 0; Ok (snd mn).

(** [maxHeap[0].second] *)
Definition max_count (w : t) : result Z :=
  do mx <- vget (maxHeap w) 0; Ok (snd mx).

(** switch the smallest thing in the minHeap into the maxHeap *)
Definition min_to_max (w : t) : result t :=
  do mn <- vget (minHeap w) 0;
  let heapIdx := fst mn + (vsize (buf w) - 1) in
  do mn' <- set_second (minHeap w) heapIdx 0;
  do mx' <- set_second (maxHeap w) heapIdx 1;
  updateFrom (mkWindow (buf w) mn' mx') heapIdx.

(** Switch the largest thing in the maxHeap into the minHeap *)
Definition max_to_min (w : t) : result t :=
  do mx <- vget (maxHeap w) 0;
  let heapIdx := fst mx + (vsize (buf w) - 1) in
  do mn' <- set_second (minHeap w) heapIdx 1;
  do mx' <- set_second (maxHeap w) heapIdx 0;
  updateFrom (mkWindow (buf w) mn' mx') heapIdx.

(** The two loops of [rebalance] towards a desired size of the min heap;
    each round moves one element, so [total] rounds are enough. *)
Definition rebalance_to (total desired : Z) (w : t) : result t :=
  (* Make sure there aren't too few things in the maxHeap *)
  do w1 <- while_do (Z.to_nat total)
                    (fun w => do n <- min_count w; Ok (desired <? n))
                    min_to_max w;
  (* Make sure there aren't too many things in the maxHeap *)
  while_do (Z.to_nat total)
           (fun w => do n <- min_count w; Ok (n <? desired))
           max_to_min w1.

Definition rebalance (w : t) (percentile : Q) : result t :=
  do mx <- max_count w;
  do mn <- min_count w;
  let total := mx + mn in
  rebalance_to total (desiredMinHeapSize total percentile) w.

(** A run of the window: operations applied in order. *)
Inductive op : Type :=
| Insert (key : Z) (val : float)
| Remove (key : Z).

Definition run_op (w : t) (o : op) : result t :=
  match o with
  | Insert key val => insert w key val
  | Remove key => remove w key
  end.

Fixpoint run (w : t) (ops : list op) : result t :=
  match ops with
  | [] => Ok w
  | o :: ops' => do w' <- run_op w o; run w' ops'
  end.

(** The values the window holds, read off the leaves: those of the max heap
    (the low partition), and those of the min heap (the high partition). *)
Definition leaf_values (w : t) (h : list node) : list float :=
  let n := vsize (buf w) in
  flat_map (fun i : nat =>
              match vget h (Z.of_nat i + n - 1), vget (buf w) (Z.of_nat i) with
              | Ok x, Ok v => if snd x =? 0 then [] else [v]
              | _, _ => []
              end)
           (seq 0 (List.length (buf w))).

(** The node at an index of a heap. *)
Definition nd (h : list node) (p : Z) : node :=
  match vget h p with
  | Ok x => x
  | _ => (0, 0)
  end.

(** The node [q] agrees with its two children: it counts what they count,
    and when it counts something it points where a child that counts
    something points. *)
Definition consistent (h : list node) (q : Z) : Prop :=
  snd (nd h q) = snd (nd h (q * 2 + 1)) + snd (nd h (q * 2 + 2)) /\
  (0 < snd (nd h q) ->
   (0 < snd (nd h (q * 2 + 1)) /\ fst (nd h q) = fst (nd h (q * 2 + 1))) \/
   (0 < snd (nd h (q * 2 + 2)) /\ fst (nd h q) = fst (nd h (q * 2 + 2)))).

(** A heap over [n] slots: nodes [0 .. 2n-2], the leaves [n-1 .. 2n-2]
    pointing at their own slot and counting 0 or 1. *)
Definition heap_shape (n : Z) (h : list node) : Prop :=
  2 * n - 1 <= vsize h /\
  (forall p, 0 <= p <= 2 * n - 2 ->
             0 <= fst (nd h p) < n /\ 0 <= snd (nd h p)) /\
  (forall i, 0 <= i < n ->
             fst (nd h (i + n - 1)) = i /\ snd (nd h (i + n - 1)) <= 1).

Definition heap_ok (n : Z) (h : list node) : Prop :=
  heap_shape n h /\ forall q, 0 <= q < n - 1 -> consistent h q.

(** The states the operations keep the window in: both heaps are in order
    and no slot is counted by both. *)
Definition wf (w : t) : Prop :=
  let n := vsize (buf w) in
  1 <= n /\ heap_ok n (minHeap w) /\ heap_ok n (maxHeap w) /\
  forall i, 0 <= i < n ->
            snd (nd (minHeap w) (i + n - 1)) + snd (nd (maxHeap w) (i + n - 1)) <= 1.

(** The counts of [len] nodes of a heap from index [lo] on, added up. *)
Fixpoint count_from (h : list node) (lo : Z) (len : nat) : Z :=
  match len with
  | O => 0
  | S len' => snd (nd h lo) + count_from h (lo + 1) len'
  end.

Definition low_values (w : t) : list float := leaf_values w (maxHeap w).
Definition high_values (w : t) : list float := leaf_values w (minHeap w).
Definition live_values (w : t) : list float := low_values w ++ high_values w.

End SlidingNewImage.

(** [round(q)] for a non-negative [q]. *)
Definition round_half_up (q : Q) : Z := Qfloor (q + (1 # 2)).

(** [m] is a median of [l]: at least half of [l] is at most [m] and at least
    half is at least [m]. *)
Definition count_le (m : float) (l : list float) : Z :=
  Z.of_nat (List.length (filter (fun v => negb (flt m v)) l)).
Definition count_ge (m : float) (l : list float) : Z :=
  Z.of_nat (List.length (filter (fun v => negb (flt v m)) l)).
Definition is_median (m : float) (l : list float) : Prop :=
  In m l /\ vsize l <= 2 * count_le m l /\ vsize l <= 2 * count_ge m l.

(** ** Steps that fail by an access out of bounds only *)

(** A step on an image that can fail by an access out of bounds only, and
    keeps the extents when it does not fail. *)
Definition bounds_only (f : Image -> result Image) : Prop :=
  forall im, f im = OutOfBounds \/
             exists im', f im = Ok im' /\ same_extents im' im.

(** ** Extents an image can have *)

(** The products [Image(w, h, f, c)] computes for its strides and for the
    size of its vector are [int]s. *)
Definition int_extents (w h f c : Z) : Prop :=
  w * h <= INT_MAX /\ w * h * f <= INT_MAX /\ w * h * f * c + 7 <= INT_MAX.

(** ** Values of the type float *)

(** [q] is a value of the type [float]: storing it in a [float] does not
    round it. *)
Definition is_float (q : Q) : Prop := to_float (Fin q) = Fin (Qred q).

(** ** The kernel of GaussianBlur::apply *)

(** The value [expf(-diff * diff / 2)] the source stores at tap [i], before
    it divides the taps by their sum. *)
Definition tap_value (expf : float -> float) (sigma : Q) (i : Z) : float :=
  let radius := Z.quot (GaussianBlur.kernel_size sigma) 2 in
  let diff := fdiv (of_int (i - radius)) (Fin sigma) in
  expf (fdiv (fmul (fneg diff) diff) (of_int 2)).

(** The sample at tap [i] of a filter image. *)
Definition tap_at (axis : Axis) (filter : Image) (i : Z) : result float :=
  let '(x, y, t) := GaussianBlur.tap axis i in at_ filter x y t 0.

(** ** RectFilter::blurXCompletely: the mean of a scanline *)

(** The first [n] samples of a scanline, added up from the left the way the
    source adds them: in a [double]. *)
Fixpoint row_sum (im : Image) (y t c : Z) (n : nat) : float :=
  match n with
  | O => of_int 0
  | S n' =>
      to_double (fadd (row_sum im y t c n') (sample im (Z.of_nat n') y t c))
  end.

(** [average /= im.width], as the image then holds it: in a [float]. *)
Definition row_mean (im : Image) (y t c : Z) : float :=
  to_float
    (to_double (fdiv_int (row_sum im y t c (Z.to_nat (width im))) (width im))).

(** The scanlines the loops have been through when they stand at channel
    [c0], frame [t0] and row [y0]. *)
Definition rows_done (c0 t0 y0 : Z) (y t c : Z) : Prop :=
  c < c0 \/ (c = c0 /\ (t < t0 \/ (t = t0 /\ y < y0))).

(** The buffer while the loops run: the scanlines in [D] hold the mean of
    the scanline of [im], the others the samples of [im]. *)
Definition mean_inv (im : Image) (D : Z -> Z -> Z -> Prop) (cur : Image)
  : Prop :=
  wf_image cur /\ same_extents cur im /\
  forall x y t c, in_bounds im x y t c = true ->
    (D y t c -> at_ cur x y t c = Ok (row_mean im y t c)) /\
    (~ D y t c -> at_ cur x y t c = at_ im x y t c).

(** ** Image.h: strides, regions and the shared storage

    An [Image] of the header is a window on a vector of floats that it
    shares with the images it was cut from: extents, three strides and the
    place of its first sample.  The record [Image] above is the special
    case the filters work on, a dense image on a vector of its own.  The
    record below keeps the strides and the base, to follow [region],
    [copy] and the constructor; the vector is passed beside it, since
    several images share one. *)

Module View.

Record view : Type := mk {
  width : Z;
  height : Z;
  frames : Z;
  channels : Z;
  ystride : Z;
  tstride : Z;
  cstride : Z;
  (** [base], as an index into the shared vector *)
  base : Z
}.

(** [compute_base] on the address of the first float of the vector: from
    that address, [while (((size_t)base) & 0x1f) base++;].  A [float] has
    4 bytes. *)
Definition compute_base (fuel : nat) (addr : Z) : result Z :=
  while_loop fuel (fun base => negb (Z.land base 31 =? 0))
             (fun base => Ok (base + 4)) addr.

(** [Image(w, h, f, c)], on a vector whose first float [compute_base]
    passes [pad] floats over. *)
Definition new (w h f c pad : Z) : view * list float :=
  (mk w h f c w (w * h) (w * h * f) pad,
   vmake (w * h * f * c + 7) (of_int 0)).

Definition in_bounds (v : view) (x y t c : Z) : bool :=
  (0 <=? x) && (x <? width v) && (0 <=? y) && (y <? height v) &&
  (0 <=? t) && (t <? frames v) && (0 <=? c) && (c <? channels v).

(** [(((base + c*cstride) + t*tstride) + y*ystride)[x]] *)
Definition index (v : view) (x y t c : Z) : Z :=
  base v + c * cstride v + t * tstride v + y * ystride v + x.

(** [im(x, y, t, c)] read and written, on the vector [d]. *)
Definition at_ (d : list float) (v : view) (x y t c : Z) : result float :=
  if in_bounds v x y t c then vget d (index v x y t c) else OutOfBounds.

Definition put (d : list float) (v : view) (x y t c : Z) (a : float)
  : result (list float) :=
  if in_bounds v x y t c then vset d (index v x y t c) a else OutOfBounds.

(** The region constructor: [base(&im(x, y, t, c))] evaluates
    [im(x, y, t, c)], which checks the coordinate; nothing checks the
    sizes. *)
Definition region (v : view) (x y t c xs ys ts cs : Z) : result view :=
  if in_bounds v x y t c
  then Ok (mk xs ys ts cs (ystride v) (tstride v) (cstride v)
              (index v x y t c))
  else OutOfBounds.

Definition column (v : view) (x : Z) : result view :=
  region v x 0 0 0 1 (height v) (frames v) (channels v).

Definition row (v : view) (y : Z) : result view :=
  region v 0 y 0 0 (width v) 1 (frames v) (channels v).

Definition frame (v : view) (t0 : Z) : result view :=
  region v 0 0 t0 0 (width v) (height v) 1 (channels v).

Definition channel (v : view) (c : Z) : result view :=
  region v 0 0 0 c (width v) (height v) (frames v) 1.

Definition dense (v : view) : bool :=
  (cstride v =? width v * height v * frames v) &&
  (tstride v =? width v * height v) && (ystride v =? width v).

(** [scanline(y, t, c)]: the place of the first sample of a scanline. *)
Definition scanline (v : view) (y t c : Z) : Z :=
  base v + y * ystride v + t * tstride v + c * cstride v.

(** [set(const T func)] for [T = Image], the scalar code: the extents
    must match, then every scanline is copied through the two iterators,
    which check nothing.  [src_d] is the vector of the source, taken to be
    another vector than the one written, as in [copy]. *)
Definition set (dst : view) (dst_d : list float) (src : view) (src_d : list float)
  : result (list float) :=
  do _ <- assert ((width dst =? width src) && (height dst =? height src) &&
                  (frames dst =? frames src) && (channels dst =? channels src))
                 ("Can only assign from source of matching size" ++ nl);
  for_loop 0 (channels dst) (fun c d =>
    for_loop 0 (frames dst) (fun t d =>
      for_loop 0 (height dst) (fun y d =>
        let src_it := scanline src y t c in
        let dst_it := scanline dst y t c in
        for_loop 0 (width dst) (fun x d =>
          do a <- vget src_d (src_it + x);
          vset d (dst_it + x) a) d) d) d) dst_d.

(** [copy()]: [Image m(width, height, frames, channels);], then [m.set]
    of this image. *)
Definition copy (v : view) (d : list float) (pad : Z) : result (view * list float) :=
  let '(m, md) := new (width v) (height v) (frames v) (channels v) pad in
  do md' <- set m md v d;
  Ok (m, md').

(** The image [copy()] allocates for a copy of [v]. *)
Definition fresh (v : view) (pad : Z) : view :=
  fst (new (width v) (height v) (frames v) (channels v) pad).

(** Every coordinate inside the extents of [v] has its sample in [d]. *)
Definition within (v : view) (d : list float) : Prop :=
  forall x y t c, in_bounds v x y t c = true ->
                  0 <= index v x y t c < vsize d.

(** The region [v.region(x, y, t, c, xs, ys, ts, cs)] lies inside [v]. *)
Definition fits (v : view) (x y t c xs ys ts cs : Z) : Prop :=
  0 <= x /\ x + xs <= width v /\ 0 <= y /\ y + ys <= height v /\
  0 <= t /\ t + ts <= frames v /\ 0 <= c /\ c + cs <= channels v.

(** The scanlines [copy] has been through, and the state of the vector it
    fills. *)
Definition copied (c0 t0 y0 x0 : Z) (x y t c : Z) : Prop :=
  c < c0 \/ (c = c0 /\ (t < t0 \/ (t = t0 /\ (y < y0 \/ (y = y0 /\ x < x0))))).

Definition copy_inv (m : view) (src : view) (src_d : list float)
           (D : Z -> Z -> Z -> Z -> Prop) (d : list float) : Prop :=
  vsize d = width m * height m * frames m * channels m + 7 /\
  forall x y t c, in_bounds m x y t c = true -> D x y t c ->
                  at_ d m x y t c = at_ src_d src x y t c.

End View.

(** ** Image.h: sample2DLinear *)

(** [sample2DLinear(fx, fy, t, result)]: the four samples around the point
    are read for every channel, also where a weight is zero. *)
Definition sample2DLinear (im : Image) (fx fy : Q) (t : Z) (out : list float)
  : result (list float) :=
  let ix := truncate fx in
  let iy := truncate fy in
  let fx := fsub (Fin fx) (of_int ix) in
  let fy := fsub (Fin fy) (of_int iy) in
  for_loop 0 (channels im) (fun c out =>
    do a <- at_ im ix iy t c;
    do b <- at_ im (ix + 1) iy t c;
    let s1 := fadd (fmul (fsub (of_int 1) fx) a) (fmul fx b) in
    do a' <- at_ im ix (iy + 1) t c;
    do b' <- at_ im (ix + 1) (iy + 1) t c;
    let s2 := fadd (fmul (fsub (of_int 1) fx) a') (fmul fx b') in
    vset out c (fadd (fmul (fsub (of_int 1) fy) s1) (fmul fy s2))) out.

(** Two samples that are the same number. *)
Definition same_number (a b : float) : Prop :=
  exists p q, a = Fin p /\ b = Fin q /\ (p == q)%Q.

(** The four samples around [(ix, iy)] are numbers, in every channel. *)
Definition corners_finite (im : Image) (ix iy t : Z) : Prop :=
  forall c, 0 <= c < channels im ->
    finite (sample im ix iy t c) /\ finite (sample im (ix + 1) iy t c) /\
    finite (sample im ix (iy + 1) t c) /\
    finite (sample im (ix + 1) (iy + 1) t c).

(** ** PercentileFilter::apply and MedianFilter::apply (Filter.cpp, lines 944-1194) *)

(** The outcome of one round of a loop that can [break]. *)
Inductive flow (S : Type) : Type :=
| Next (s : S)
| Break (s : S).

Arguments Next {S} s.
Arguments Break {S} s.

Fixpoint for_range_break {S : Type} (lo : Z) (n : nat)
         (body : Z -> S -> result (flow S)) (s : S) : result S :=
  match n with
  | O => Ok s
  | Datatypes.S n' =>
      do r <- body lo s;
      match r with
      | Next s' => for_range_break (lo + 1) n' body s'
      | Break s' => Ok s'
      end
  end.

(** [for (int i = lo; i < hi; i++) body], where [body] can [break] or
    [continue]. *)
Definition for_loop_break {S : Type} (lo hi : Z)
           (body : Z -> S -> result (flow S)) (s : S) : result S :=
  for_range_break lo (Z.to_nat (hi - lo)) body s.

Module PercentileFilter.

(** [(int)(sqrtf(radius*radius - (i - radius)*(i-radius)) + 0.0001f)] *)
Definition edge_at (radius i : Z) : Z :=
  truncate (sqrtf (inject_Z (radius * radius - (i - radius) * (i - radius)))
            + 0.0001).

(** make the filter edge profile *)
Definition edge_profile (radius : Z) : result (list Z) :=
  let d := 2 * radius + 1 in
  for_loop 0 d (fun i edge => vset edge i (edge_at radius i)) (vmake d 0).

(** initialize the sliding window for this scanline *)
Definition fill_window (im : Image) (radius : Z) (edge : list Z) (y t c : Z)
           (window : SlidingNewImage.t) : result SlidingNewImage.t :=
  let d := 2 * radius + 1 in
  for_loop_break 0 (2 * radius + 1) (fun i window =>
    do xoff <- vget edge i;
    let yoff := i - radius in
    if height im <=? y + yoff then Ok (Break window)
    else if y + yoff <? 0 then Ok (Next window)
    else
      do window <- for_loop_break 0 (xoff + 1) (fun j window =>
                     if width im <=? j then Ok (Break window)
                     else
                       do val <- at_ im j (y + yoff) t c;
                       do window <- SlidingNewImage.insert window (i * d + j) val;
                       Ok (Next window)) window;
      Ok (Next window)) window.

(** move the support one to the right *)
Definition slide_window (im : Image) (radius : Z) (edge : list Z) (x y t c : Z)
           (window : SlidingNewImage.t) : result SlidingNewImage.t :=
  let d := 2 * radius + 1 in
  for_loop_break 0 (radius * 2 + 1) (fun i window =>
    do xoff <- vget edge i;
    let yoff := i - radius in
    if height im <=? y + yoff then Ok (Break window)
    else if y + yoff <? 0 then Ok (Next window)
    else
      (* subtract old value *)
      do window <- (if 0 <=? x - xoff
                    then SlidingNewImage.remove window
                                                (i * d + Z.rem (x - xoff) d)
                    else Ok window);
      (* add new value *)
      do window <- (if x + xoff + 1 <? width im
                    then do val <- at_ im (x + xoff + 1) (y + yoff) t c;
                         SlidingNewImage.insert
                           window (i * d + Z.rem (x + xoff + 1) d) val
                    else Ok window);
      Ok (Next window)) window.

Definition apply (im : Image) (radius : Z) (percentile : Q) : result Image :=
  let out := Image_new (width im) (height im) (frames im) (channels im) in
  let d := 2 * radius + 1 in
  do edge <- edge_profile radius;
  for_loop 0 (channels im) (fun c out =>
    for_loop 0 (frames im) (fun t out =>
      for_loop 0 (height im) (fun y out =>
        do window <- SlidingNewImage.new (d * d);
        do window <- fill_window im radius edge y t c window;
        do st <- for_loop 0 (width im) (fun x '(out, window) =>
                   do window <- SlidingNewImage.rebalance window percentile;
                   do p <- SlidingNewImage.pivot window;
                   do out <- put out x y t c p;
                   do window <- slide_window im radius edge x y t c window;
                   Ok (out, window)) (out, window);
        Ok (fst st)) out) out) out.

(** The coordinates written when the loops stand at channel [c0], frame
    [t0], row [y0] and column [x0]. *)
Definition written (c0 t0 y0 x0 : Z) (x y t c : Z) : Prop :=
  c < c0 \/ (c = c0 /\ (t < t0 \/ (t = t0 /\ (y < y0 \/ (y = y0 /\ x < x0))))).

(** The output buffer while the loops run with radius 0: what is written
    is the sample of the input. *)
Definition same_inv (im : Image) (D : Z -> Z -> Z -> Z -> Prop) (out : Image)
  : Prop :=
  wf_image out /\ same_extents out im /\
  forall x y t c, in_bounds im x y t c = true -> D x y t c ->
                  at_ out x y t c = at_ im x y t c.

(** The window over one slot, holding the value [a] in the low partition,
    and empty with [a] left in the slot. *)
Definition holding (a : float) : SlidingNewImage.t :=
  SlidingNewImage.mkWindow [a] [(0, 0)] [(0, 1)].
Definition emptied (a : float) : SlidingNewImage.t :=
  SlidingNewImage.mkWindow [a] [(0, 0)] [(0, 0)].

End PercentileFilter.

Module MedianFilter.
Definition apply (im : Image) (radius : Z) : result Image :=
  PercentileFilter.apply im radius (1 # 2).
End MedianFilter.

(** ** CircularFilter::apply (Filter.cpp, lines 1214-1270) *)

Module CircularFilter.

(** The running sum of one scanline and the output buffer. *)
Definition row_sum_start (im : Image) (radius : Z) (edge : list Z) (y t c : Z)
  : result float :=
  (* initialize the average and count *)
  for_loop 0 (2 * radius + 1) (fun i average =>
    do xoff <- vget edge i;
    let yoff := i - radius in
    let realY := iclamp (y + yoff) 0 (height im - 1) in
    for_loop (- xoff) (xoff + 1) (fun x average =>
      let realX := iclamp x 0 (width im - 1) in
      do val <- at_ im realX realY t c;
      Ok (fadd average val)) average) (of_int 0).

(** move the histogram to the right *)
Definition slide (im : Image) (radius : Z) (edge : list Z) (x y t c : Z)
           (average : float) : result float :=
  for_loop 0 (radius * 2 + 1) (fun i average =>
    do e <- vget edge i;
    let realXOld := Z.max 0 (x - e) in
    let realXNew := Z.min (x + e + 1) (width im - 1) in
    let realY := iclamp (y + i - radius) 0 (height im - 1) in
    (* add new value, subtract old value *)
    do a <- at_ im realXNew realY t c;
    let average := fadd average a in
    do b <- at_ im realXOld realY t c;
    Ok (fsub average b)) average.

(** [vector<int> edge(n)] for an [int] [n]: a negative [n] is converted to
    a size no vector can have, and the constructor throws
    [std::length_error]. *)
Definition vector_new (n : Z) : result (list Z) :=
  if n <? 0 then Panic "std::length_error" else Ok (vmake n 0).

Definition apply (im : Image) (radius : Z) : result Image :=
  let out := Image_new (width im) (height im) (frames im) (channels im) in
  (* make the filter edge profile *)
  do edge <- vector_new (radius * 2 + 1);
  do edge <- for_loop 0 (2 * radius + 1)
               (fun i edge => vset edge i (PercentileFilter.edge_at radius i))
               edge;
  (* figure out the filter area *)
  do count <- for_loop 0 (2 * radius + 1)
                (fun i count => do e <- vget edge i; Ok (count + (e * 2 + 1))) 0;
  let invArea := recip_int count in
  do st <- for_loop 0 (channels im) (fun c st =>
    for_loop 0 (frames im) (fun t st =>
      for_loop 0 (height im) (fun y st =>
        do average <- row_sum_start im radius edge y t c;
        for_loop 0 (width im) (fun x '(out, average) =>
          do out <- put out x y t c (fmul average invArea);
          do average <- slide im radius edge x y t c average;
          Ok (out, average)) (fst st, average)) st) st) (out, of_int 0);
  Ok (fst st).

(** The output buffer while the loops run. *)
Definition out_ok (im : Image) (st : Image * float) : Prop :=
  wf_image (fst st) /\ same_extents (fst st) im.

End CircularFilter.

(** ** Envelope::apply (Filter.cpp, lines 1293-1309) *)

Module Envelope.

Inductive Mode : Type := Lower | Upper.

Section External.
(** The default of the parameter [iterations] of [RectFilter::apply], which
    the declaration in the missing [Filter.h] gives. *)
Variable iterations_default : Z.

Definition apply (fuel : nat) (im : Image) (m : Mode) (radius : Z)
  : result Image :=
  do '(im, radius) <-
     (match m with
      | Upper =>
          do im <- MaxFilter.apply im radius;
          do im <- RectFilter.apply fuel im (2 * radius + 1) (2 * radius + 1) 1
                                    iterations_default;
          let radius := Z.quot (radius + 2) 3 in
          do im <- MaxFilter.apply im radius;
          do im <- RectFilter.apply fuel im (2 * radius + 1) (2 * radius + 1) 1
                                    iterations_default;
          Ok (im, radius)
      | Lower => Ok (im, radius)
      end);
  match m with
  | Lower =>
      do im <- MinFilter.apply im radius;
      do im <- RectFilter.apply fuel im (2 * radius + 1) (2 * radius + 1) 1
                                iterations_default;
      let radius := Z.quot (radius + 2) 3 in
      do im <- MinFilter.apply im radius;
      RectFilter.apply fuel im (2 * radius + 1) (2 * radius + 1) 1
                       iterations_default
  | Upper => Ok im
  end.
End External.
End Envelope.

(** ** The sliding window: the keys it holds *)

(** The keys a run of operations leaves in the window, from the keys
    [live] it held before: [insert] puts its key in, [remove] takes its key
    out. *)
Fixpoint live_keys (ops : list SlidingNewImage.op) (live : list Z) : list Z :=
  match ops with
  | [] => live
  | SlidingNewImage.Insert key _ :: ops' =>
      live_keys ops' (if existsb (Z.eqb key) live then live else key :: live)
  | SlidingNewImage.Remove key :: ops' =>
      live_keys ops' (filter (fun k => negb (k =? key)) live)
  end.

(** How often the two heaps count the slot [i]: 0 or 1. *)
Definition slot_count (w : SlidingNewImage.t) (i : Z) : Z :=
  let n := vsize (SlidingNewImage.buf w) in
  snd (SlidingNewImage.nd (SlidingNewImage.minHeap w) (i + n - 1)) +
  snd (SlidingNewImage.nd (SlidingNewImage.maxHeap w) (i + n - 1)).

(** The number of values the roots of the two heaps count. *)
Definition root_count (w : SlidingNewImage.t) : Z :=
  snd (SlidingNewImage.nd (SlidingNewImage.minHeap w) 0) +
  snd (SlidingNewImage.nd (SlidingNewImage.maxHeap w) 0).

(** The window holds the keys [live], each once. *)
Definition tracks (w : SlidingNewImage.t) (live : list Z) : Prop :=
  SlidingNewImage.wf w /\ NoDup live /\
  (forall i, In i live -> 0 <= i < vsize (SlidingNewImage.buf w)) /\
  (forall i, 0 <= i < vsize (SlidingNewImage.buf w) ->
             slot_count w i = if existsb (Z.eqb i) live then 1 else 0) /\
  root_count w = Z.of_nat (List.length live).

(** The keys of the operations are slots of a window of [n] slots. *)
Definition keys_below (n : Z) (ops : list SlidingNewImage.op) : Prop :=
  Forall (fun o => match o with
                   | SlidingNewImage.Insert key _
                   | SlidingNewImage.Remove key => 0 <= key < n
                   end) ops.

(** ** The sliding window: the order of its heaps *)

(** The ancestors of the node [p], from its parent up to the root: the
    nodes a walk of [updateFrom] from [p] can visit. *)
Fixpoint path (fuel : nat) (p : Z) : list Z :=
  match fuel with
  | O => []
  | S fuel' =>
      if p =? 0 then []
      else let q := Z.quot (p - 1) 2 in q :: path fuel' q
  end.

(** The pointer and the count [updateFrom] computes for a node from its two
    children [a] and [b]. *)
Definition combine (prefer : float -> float -> bool) (bf : list float)
           (a b : SlidingNewImage.node) : SlidingNewImage.node :=
  ((if negb (snd a =? 0) && negb (snd b =? 0)
    then (if prefer (hv bf (fst a)) (hv bf (fst b)) then fst a else fst b)
    else if negb (snd b =? 0) then fst b else fst a),
   snd a + snd b).

(** The node [q] holds what [updateFrom] computes from its children. *)
Definition recomputed (prefer : float -> float -> bool) (bf : list float)
           (h : list SlidingNewImage.node) (q : Z) : Prop :=
  SlidingNewImage.nd h q =
  combine prefer bf (SlidingNewImage.nd h (q * 2 + 1))
          (SlidingNewImage.nd h (q * 2 + 2)).

(** The value a node points at. *)
Definition value_at (bf : list float) (h : list SlidingNewImage.node) (q : Z)
  : float :=
  hv bf (fst (SlidingNewImage.nd h q)).

(** No child of [q] that counts something points at a value that is
    preferred to the one [q] points at. *)
Definition best (prefer : float -> float -> bool) (bf : list float)
           (h : list SlidingNewImage.node) (q : Z) : Prop :=
  0 < snd (SlidingNewImage.nd h q) ->
  forall c, c = q * 2 + 1 \/ c = q * 2 + 2 ->
            0 < snd (SlidingNewImage.nd h c) ->
            prefer (value_at bf h c) (value_at bf h q) = false.

Definition ordered (prefer : float -> float -> bool) (bf : list float)
           (n : Z) (h : list SlidingNewImage.node) : Prop :=
  forall q, 0 <= q < n - 1 -> best prefer bf h q.

(** The slots a heap counts hold no NaN. *)
Definition clean (bf : list float) (n : Z) (h : list SlidingNewImage.node)
  : Prop :=
  forall i, 0 <= i < n -> 0 < snd (SlidingNewImage.nd h (i + n - 1)) ->
            not_nan (hv bf i).

(** The window with both heaps in order: the min heap by [<], the max heap
    by [>]. *)
Definition sorted (w : SlidingNewImage.t) : Prop :=
  let n := vsize (SlidingNewImage.buf w) in
  ordered flt (SlidingNewImage.buf w) n (SlidingNewImage.minHeap w) /\
  ordered fgt (SlidingNewImage.buf w) n (SlidingNewImage.maxHeap w) /\
  clean (SlidingNewImage.buf w) n (SlidingNewImage.minHeap w) /\
  clean (SlidingNewImage.buf w) n (SlidingNewImage.maxHeap w).

(** The calls [PercentileFilter::apply] makes on its window: [insert] and
    [remove], and [rebalance] before each [pivot]. *)
Inductive step : Type :=
| Do (o : SlidingNewImage.op)
| Rebalance (p : Q).

Definition run_step (w : SlidingNewImage.t) (s : step)
  : result SlidingNewImage.t :=
  match s with
  | Do o => SlidingNewImage.run_op w o
  | Rebalance p => SlidingNewImage.rebalance w p
  end.

Fixpoint run_steps (w : SlidingNewImage.t) (steps : list step)
  : result SlidingNewImage.t :=
  match steps with
  | [] => Ok w
  | s :: steps' => do w' <- run_step w s; run_steps w' steps'
  end.

(** The keys the calls leave in the window, from the keys [live] it held
    before. *)
Fixpoint held (steps : list step) (live : list Z) : list Z :=
  match steps with
  | [] => live
  | Do o :: steps' => held steps' (live_keys [o] live)
  | Rebalance _ :: steps' => held steps' live
  end.

(** The keys of the calls are slots of a window of [n] slots. *)
Definition step_keys_below (n : Z) (steps : list step) : Prop :=
  Forall (fun s => match s with
                   | Do (SlidingNewImage.Insert key _)
                   | Do (SlidingNewImage.Remove key) => 0 <= key < n
                   | Rebalance _ => True
                   end) steps.

(** Calls as [PercentileFilter::apply] makes them on an image of numbers:
    [insert] gets a number, at a key the window does not hold, and
    [rebalance] is called on a window that holds a key; [live] are the keys
    held before the calls. *)
Fixpoint disciplined (steps : list step) (live : list Z) : Prop :=
  match steps with
  | [] => True
  | Do o :: steps' =>
      match o with
      | SlidingNewImage.Insert key val =>
          existsb (Z.eqb key) live = false /\ not_nan val
      | SlidingNewImage.Remove _ => True
      end /\ disciplined steps' (live_keys [o] live)
  | Rebalance _ :: steps' => live <> [] /\ disciplined steps' live
  end.

(** ** Image.h: sample2D *)

Inductive BoundaryCondition : Type := ZERO | NEUMANN.

Module Sampling.

Definition LEFT : Z := -2.
Definition RIGHT : Z := 3.
Definition WIDTH : Z := 6.

Section External.

(** [lanczos_3], of a header that is not under src/: any function. *)
Variable lanczos_3 : float -> float.

(** The loop that fills [weightX] from [fx] and [ix], and [weightY] from
    [fy] and [iy], and adds the weights up; the array starts with zeros
    here, every cell of it is written. *)
Definition weights (f : Q) (i0 : Z) : result (list float * float) :=
  for_loop 0 WIDTH (fun x st =>
    let diff := fsub (Fin f) (of_int (x + i0 + LEFT)) in
    let val := lanczos_3 diff in
    do w <- vset (fst st) x val;
    Ok (w, fadd (snd st) val)) (vmake WIDTH (of_int 0), of_int 0).

(** [weightX[i] *= totalXWeight; weightY[i] *= totalYWeight;] *)
Definition normalise (weightX weightY : list float) (totalX totalY : float)
  : result (list float * list float) :=
  for_loop 0 WIDTH (fun i st =>
    do a <- vget (fst st) i;
    do wx <- vset (fst st) i (fmul a totalX);
    do b <- vget (snd st) i;
    do wy <- vset (snd st) i (fmul b totalY);
    Ok (wx, wy)) (weightX, weightY).

(** [result[c] = 0] for every channel. *)
Definition clear (im : Image) (out : list float) : result (list float) :=
  for_loop 0 (channels im) (fun c r => vset r c (of_int 0)) out.

(** [result[c] += im(x, y, t, c) * yxWeight] for every channel. *)
Definition add_sample (im : Image) (x y t : Z) (yxWeight : float)
           (r : list float) : result (list float) :=
  for_loop 0 (channels im) (fun c r =>
    do s <- at_ im x y t c;
    do a <- vget r c;
    vset r c (fadd a (fmul s yxWeight))) r.

(** The loops of the branch [boundary == NEUMANN]; the state of a loop is
    the result and the weight pointer it moves, as an index into its
    array. *)
Definition neumann (im : Image) (t : Z) (weightX weightY : list float)
           (minX maxX minY maxY : Z) (r : list float) : result (list float) :=
  do st <- for_loop minY (maxY + 1) (fun y st =>
    let sampleY := iclamp 0 y (height im - 1) in
    do st' <- for_loop minX (maxX + 1) (fun x st' =>
      let sampleX := iclamp 0 x (width im - 1) in
      do wy <- vget weightY (snd st);
      do wx <- vget weightX (snd st');
      let yxWeight := fmul wy wx in
      do r' <- add_sample im sampleX sampleY t yxWeight (fst st');
      Ok (r', snd st' + 1)) (fst st, 0);
    Ok (fst st', snd st + 1)) (r, 0);
  Ok (fst st).

(** The loops of the other branch. *)
Definition zero (im : Image) (t : Z) (weightX weightY : list float)
           (minX maxX minY maxY : Z) (r : list float) : result (list float) :=
  let weightYBase := if minY <? 0 then 0 - minY else 0 in
  let minY := if minY <? 0 then 0 else minY in
  let weightXBase := if minX <? 0 then 0 - minX else 0 in
  let minX := if minX <? 0 then 0 else minX in
  let maxX := if width im - 1 <? maxX then width im - 1 else maxX in
  let maxY := if height im - 1 <? maxY then height im - 1 else maxY in
  do st <- for_loop minY (maxY + 1) (fun y st =>
    do st' <- for_loop minX (maxX + 1) (fun x st' =>
      do wy <- vget weightY (snd st);
      do wx <- vget weightX (snd st');
      let yxWeight := fmul wy wx in
      do r' <- add_sample im x y t yxWeight (fst st');
      Ok (r', snd st' + 1)) (fst st, weightXBase);
    Ok (fst st', snd st + 1)) (r, weightYBase);
  Ok (fst st).

(** [sample2D(fx, fy, t, result, boundary)] at a point of finite
    coordinates. *)
Definition sample2D (im : Image) (fx fy : Q) (t : Z) (out : list float)
           (boundary : BoundaryCondition) : result (list float) :=
  let ix := truncate fx in
  let iy := truncate fy in
  let minX := ix + LEFT in
  let maxX := ix + RIGHT in
  let minY := iy + LEFT in
  let maxY := iy + RIGHT in
  do wx <- weights fx ix;
  do wy <- weights fy iy;
  let totalXWeight := fdiv (of_int 1) (snd wx) in
  let totalYWeight := fdiv (of_int 1) (snd wy) in
  do w <- normalise (fst wx) (fst wy) totalXWeight totalYWeight;
  do r <- clear im out;
  match boundary with
  | NEUMANN => neumann im t (fst w) (snd w) minX maxX minY maxY r
  | ZERO => zero im t (fst w) (snd w) minX maxX minY maxY r
  end.

(** [sample3D]: the three arrays of weights are scaled in one loop. *)
Definition normalise3 (weightX weightY weightT : list float)
           (totalX totalY totalT : float)
  : result (list float * list float * list float) :=
  for_loop 0 WIDTH (fun i st =>
    do a <- vget (fst (fst st)) i;
    do wx <- vset (fst (fst st)) i (fmul a totalX);
    do b <- vget (snd (fst st)) i;
    do wy <- vset (snd (fst st)) i (fmul b totalY);
    do c <- vget (snd st) i;
    do wt <- vset (snd st) i (fmul c totalT);
    Ok (wx, wy, wt)) (weightX, weightY, weightT).

(** The loops of the branch [boundary == NEUMANN] of [sample3D]. *)
Definition neumann3 (im : Image) (weightX weightY weightT : list float)
           (minX maxX minY maxY minT maxT : Z) (r : list float)
  : result (list float) :=
  do st <- for_loop minT (maxT + 1) (fun t st =>
    let sampleT := iclamp t 0 (frames im - 1) in
    do st' <- for_loop minY (maxY + 1) (fun y st' =>
      let sampleY := iclamp y 0 (height im - 1) in
      do wy <- vget weightY (snd st');
      do wt <- vget weightT (snd st);
      let tyWeight := fmul wy wt in
      do st'' <- for_loop minX (maxX + 1) (fun x st'' =>
        let sampleX := iclamp x 0 (width im - 1) in
        do wx <- vget weightX (snd st'');
        let tyxWeight := fmul tyWeight wx in
        do r' <- add_sample im sampleX sampleY sampleT tyxWeight (fst st'');
        Ok (r', snd st'' + 1)) (fst st', 0);
      Ok (fst st'', snd st' + 1)) (fst st, 0);
    Ok (fst st', snd st + 1)) (r, 0);
  Ok (fst st).

(** The loops of the other branch of [sample3D]: [tWeightPtr] moves along
    [weightT], and nothing reads what it points to. *)
Definition zero3 (im : Image) (weightX weightY weightT : list float)
           (minX maxX minY maxY minT maxT : Z) (r : list float)
  : result (list float) :=
  let weightYBase := if minY <? 0 then 0 - minY else 0 in
  let minY := if minY <? 0 then 0 else minY in
  let weightXBase := if minX <? 0 then 0 - minX else 0 in
  let minX := if minX <? 0 then 0 else minX in
  let weightTBase := if minT <? 0 then 0 - minT else 0 in
  let minT := if minT <? 0 then 0 else minT in
  let maxX := if width im - 1 <? maxX then width im - 1 else maxX in
  let maxY := if height im - 1 <? maxY then height im - 1 else maxY in
  let maxT := if frames im - 1 <? maxT then frames im - 1 else maxT in
  do st <- for_loop minT (maxT + 1) (fun t st =>
    do st' <- for_loop minY (maxY + 1) (fun y st' =>
      do st'' <- for_loop minX (maxX + 1) (fun x st'' =>
        do wy <- vget weightY (snd st');
        do wx <- vget weightX (snd st'');
        let yxWeight := fmul wy wx in
        do r' <- add_sample im x y t yxWeight (fst st'');
        Ok (r', snd st'' + 1)) (fst st', weightXBase);
      Ok (fst st'', snd st' + 1)) (fst st, weightYBase);
    Ok (fst st', snd st + 1)) (r, weightTBase);
  Ok (fst st).

(** [sample3D(fx, fy, ft, result, boundary)] at a point of finite
    coordinates. *)
Definition sample3D (im : Image) (fx fy ft : Q) (out : list float)
           (boundary : BoundaryCondition) : result (list float) :=
  let ix := truncate fx in
  let iy := truncate fy in
  let it := truncate ft in
  let minX := ix + LEFT in
  let maxX := ix + RIGHT in
  let minY := iy + LEFT in
  let maxY := iy + RIGHT in
  let minT := it + LEFT in
  let maxT := it + RIGHT in
  do wx <- weights fx ix;
  do wy <- weights fy iy;
  do wt <- weights ft it;
  let totalXWeight := fdiv (of_int 1) (snd wx) in
  let totalYWeight := fdiv (of_int 1) (snd wy) in
  let totalTWeight := fdiv (of_int 1) (snd wt) in
  do w <- normalise3 (fst wx) (fst wy) (fst wt)
                     totalXWeight totalYWeight totalTWeight;
  do r <- clear im out;
  match boundary with
  | NEUMANN =>
      neumann3 im (fst (fst w)) (snd (fst w)) (snd w)
               minX maxX minY maxY minT maxT r
  | ZERO =>
      zero3 im (fst (fst w)) (snd (fst w)) (snd w)
            minX maxX minY maxY minT maxT r
  end.

End External.

End Sampling.

(** The first [n] cells of a vector hold zero. *)
Definition zeros (n : Z) (r : list float) : Prop :=
  forall c, 0 <= c < n -> vget r c = Ok (of_int 0).
(** * Properties

    The claims of the specification, settled on the embedding above. *)

(** ** Loops *)

Lemma for_loop_first_out_of_bounds (S : Type) (lo hi : Z)
      (body : Z -> S -> result S) (s : S) :
  lo < hi -> body lo s = OutOfBounds -> for_loop lo hi body s = OutOfBounds.
Proof.
  intros Hlt Hb. unfold for_loop.
  destruct (Z.to_nat (hi - lo)) eqn:E; [lia|].
  simpl. now rewrite Hb.
Qed.

Lemma vget_0_nonempty (A : Type) (v : list A) :
  0 < vsize v -> exists x, vget v 0 = Ok x.
Proof.
  destruct v as [|x v]; unfold vsize; simpl; [lia|].
  intros _. now exists x.
Qed.

Lemma for_range_inv (S : Type) (I : Z -> S -> Prop)
      (body : Z -> S -> result S) (n : nat) :
  forall lo s,
    I lo s ->
    (forall i s, lo <= i < lo + Z.of_nat n -> I i s ->
                 exists s', body i s = Ok s' /\ I (i + 1) s') ->
    exists s', for_range lo n body s = Ok s' /\ I (lo + Z.of_nat n) s'.
Proof.
  induction n as [|n IH]; intros lo s H0 Hstep.
  - exists s. split; [reflexivity|]. now replace (lo + Z.of_nat 0) with lo by lia.
  - simpl for_range.
    destruct (Hstep lo s) as (s1 & Hb & H1); [lia|exact H0|].
    rewrite Hb. cbn [bind].
    destruct (IH (lo + 1) s1 H1) as (s2 & Hr & H2).
    { intros i s' Hi. apply Hstep. lia. }
    exists s2. split; [exact Hr|].
    now replace (lo + Z.of_nat (Datatypes.S n)) with (lo + 1 + Z.of_nat n) by lia.
Qed.

Lemma for_loop_inv (S : Type) (I : Z -> S -> Prop)
      (body : Z -> S -> result S) (lo hi : Z) (s : S) :
  I lo s ->
  (forall i s, lo <= i < hi -> I i s ->
               exists s', body i s = Ok s' /\ I (i + 1) s') ->
  exists s', for_loop lo hi body s = Ok s' /\ I (Z.max lo hi) s'.
Proof.
  intros H0 Hstep. unfold for_loop.
  destruct (@for_range_inv S I body (Z.to_nat (hi - lo)) lo s H0)
    as (s' & Hr & Hi).
  { intros i s1 Hi. apply Hstep. lia. }
  exists s'. split; [exact Hr|].
  now replace (Z.max lo hi) with (lo + Z.of_nat (Z.to_nat (hi - lo))) by lia.
Qed.

Lemma for_loop_empty (S : Type) (lo hi : Z) (body : Z -> S -> result S) (s : S) :
  hi <= lo -> for_loop lo hi body s = Ok s.
Proof.
  intros H. unfold for_loop. replace (Z.to_nat (hi - lo)) with 0%nat by lia.
  reflexivity.
Qed.

Lemma for_loop_first_not_ok (S : Type) (lo hi : Z)
      (body : Z -> S -> result S) (s : S) :
  lo < hi -> (forall r, body lo s <> Ok r) ->
  forall r, for_loop lo hi body s <> Ok r.
Proof.
  intros Hlt Hb r. unfold for_loop.
  destruct (Z.to_nat (hi - lo)) eqn:E; [lia|].
  simpl. destruct (body lo s) as [s'| | |msg] eqn:Eb; simpl; try discriminate.
  exfalso. now apply (Hb s').
Qed.

Lemma while_loop_true_never_ok (S : Type) (cond : S -> bool)
      (body : S -> result S) :
  (forall s, cond s = true) ->
  forall fuel s r, while_loop fuel cond body s <> Ok r.
Proof.
  intros Hc. induction fuel as [|fuel IH]; intros s r; simpl; rewrite Hc.
  - discriminate.
  - destruct (body s) as [s'| | |msg]; simpl; try discriminate. apply IH.
Qed.

(** ** The order of samples *)

Lemma Qltb_lt (x y : Q) : Qltb x y = true <-> (x < y)%Q.
Proof. unfold Qltb, Qlt. apply Z.ltb_lt. Qed.

Lemma flt_irrefl (a : float) : flt a a = false.
Proof.
  destruct a; simpl; try reflexivity.
  destruct (Qltb q q) eqn:E; [|reflexivity].
  apply Qltb_lt in E. exfalso. revert E. apply Qlt_irrefl.
Qed.

Lemma flt_trans (a b c : float) :
  flt a b = true -> flt b c = true -> flt a c = true.
Proof.
  destruct a, b, c; simpl; try discriminate; try reflexivity.
  rewrite !Qltb_lt. apply Qlt_trans.
Qed.

Lemma flt_asym (a b : float) : flt a b = true -> flt b a = false.
Proof.
  intros H. destruct (flt b a) eqn:E; [|reflexivity].
  pose proof (flt_trans _ _ _ H E) as F. rewrite flt_irrefl in F. discriminate.
Qed.

Lemma below_not_flt (m M : float) : below m M -> flt M m = false.
Proof. intros [->|H]; [apply flt_irrefl|now apply flt_asym]. Qed.

Lemma fmin_below_fmax (a b : float) : below (fmin a b) (fmax a b).
Proof.
  unfold fmin, fmax, below.
  destruct (flt a b) eqn:E1.
  - rewrite (flt_asym _ _ E1). now right.
  - destruct (flt b a) eqn:E2; [now right|now left].
Qed.

Lemma fmin4_not_above_fmax4 (n1 n2 n3 n4 : float) :
  flt (fmax (fmax n1 n2) (fmax n3 n4)) (fmin (fmin n1 n2) (fmin n3 n4)) = false.
Proof.
  pose proof (fmin_below_fmax n1 n2) as H1.
  pose proof (fmin_below_fmax n3 n4) as H2.
  set (m1 := fmin n1 n2) in *. set (M1 := fmax n1 n2) in *.
  set (m2 := fmin n3 n4) in *. set (M2 := fmax n3 n4) in *.
  unfold fmax at 1. unfold fmin at 1.
  destruct (flt M1 M2) eqn:EM, (flt m2 m1) eqn:Em.
  - now apply below_not_flt.
  - destruct (flt M2 m1) eqn:E; [|reflexivity].
    destruct H1 as [->|H1].
    + now rewrite (flt_asym _ _ EM) in E.
    + pose proof (flt_trans _ _ _ E (flt_trans _ _ _ H1 EM)) as F.
      now rewrite flt_irrefl in F.
  - destruct (flt M1 m2) eqn:E; [|reflexivity].
    destruct H1 as [<-|H1].
    + now rewrite (flt_asym _ _ Em) in E.
    + pose proof (flt_trans _ _ _ E (flt_trans _ _ _ Em H1)) as F.
      now rewrite flt_irrefl in F.
  - now apply below_not_flt.
Qed.

(** The two tests of the source, upper bound first, are the clamp. *)
Lemma suppress_is_clamp (n1 n2 n3 n4 here : float) :
  let maxn := fmax (fmax n1 n2) (fmax n3 n4) in
  let minn := fmin (fmin n1 n2) (fmin n3 n4) in
  (let here := if fgt here maxn then maxn else here in
   if flt here minn then minn else here) =
  HotPixelSuppression.clamp_to_neighbours n1 n2 n3 n4 here.
Proof.
  intros maxn minn. unfold HotPixelSuppression.clamp_to_neighbours, fclamp, fgt.
  fold maxn minn.
  pose proof (fmin4_not_above_fmax4 n1 n2 n3 n4) as H. fold maxn minn in H.
  destruct (flt maxn here) eqn:E1; simpl.
  - rewrite H. destruct (flt here minn) eqn:E2; [|reflexivity].
    pose proof (flt_trans _ _ _ E1 E2) as F. rewrite H in F. discriminate.
  - destruct (flt here minn); reflexivity.
Qed.

(** ** Vectors *)

Lemma vsize_nonneg (A : Type) (v : list A) : 0 <= vsize v.
Proof. unfold vsize. lia. Qed.

Lemma vsize_cons (A : Type) (x : A) (v : list A) : vsize (x :: v) = vsize v + 1.
Proof. unfold vsize. simpl List.length. lia. Qed.

Lemma vget_ok (A : Type) (v : list A) :
  forall i, 0 <= i < vsize v -> exists x, vget v i = Ok x.
Proof.
  induction v as [|a v IH]; intros i Hi.
  - unfold vsize in Hi. simpl in Hi. lia.
  - rewrite vsize_cons in Hi. simpl.
    destruct (Z.ltb_spec i 0); [lia|].
    destruct (Z.eqb_spec i 0); [now exists a|].
    apply IH. lia.
Qed.

Lemma vget_in_range (A : Type) (v : list A) :
  forall i x, vget v i = Ok x -> 0 <= i < vsize v.
Proof.
  induction v as [|a v IH]; intros i x H; simpl in H; [discriminate|].
  rewrite vsize_cons. pose proof (vsize_nonneg v).
  destruct (Z.ltb_spec i 0); [discriminate|].
  destruct (Z.eqb_spec i 0); [lia|].
  apply IH in H. lia.
Qed.

Lemma vset_ok (A : Type) (v : list A) (x : A) :
  forall i, 0 <= i < vsize v ->
  exists w, vset v i x = Ok w /\ vsize w = vsize v /\ vget w i = Ok x /\
            forall j, j <> i -> vget w j = vget v j.
Proof.
  induction v as [|a v IH]; intros i Hi.
  - unfold vsize in Hi. simpl in Hi. lia.
  - rewrite vsize_cons in Hi. simpl.
    destruct (Z.ltb_spec i 0); [lia|].
    destruct (Z.eqb_spec i 0) as [->|Hne].
    + exists (x :: v). repeat split.
      intros j Hj. simpl.
      destruct (Z.ltb_spec j 0); [reflexivity|].
      destruct (Z.eqb_spec j 0); [lia|reflexivity].
    + destruct (IH (i - 1)) as (w & Hw & Hsz & Hget & Hoth); [lia|].
      rewrite Hw. simpl. exists (a :: w). rewrite !vsize_cons.
      repeat split; [lia| |].
      * simpl. destruct (Z.ltb_spec i 0); [lia|].
        destruct (Z.eqb_spec i 0); [lia|]. exact Hget.
      * intros j Hj. simpl.
        destruct (Z.ltb_spec j 0); [reflexivity|].
        destruct (Z.eqb_spec j 0); [reflexivity|].
        apply Hoth. lia.
Qed.

Lemma vsize_vmake (A : Type) (n : Z) (x : A) : 0 <= n -> vsize (vmake n x) = n.
Proof. intros Hn. unfold vsize, vmake. rewrite repeat_length. lia. Qed.

Lemma vget_repeat (A : Type) (x : A) (n : nat) :
  forall i, 0 <= i < Z.of_nat n -> vget (repeat x n) i = Ok x.
Proof.
  induction n as [|n IH]; intros i Hi; [lia|].
  simpl repeat. simpl vget.
  destruct (Z.ltb_spec i 0); [lia|].
  destruct (Z.eqb_spec i 0); [reflexivity|].
  apply IH. lia.
Qed.

Lemma vget_vmake (A : Type) (n : Z) (x : A) (i : Z) :
  0 <= i < n -> vget (vmake n x) i = Ok x.
Proof. intros Hi. unfold vmake. apply vget_repeat. lia. Qed.

(** ** Images *)

Lemma in_bounds_iff (im : Image) (x y t c : Z) :
  in_bounds im x y t c = true <->
  (0 <= x < width im /\ 0 <= y < height im /\
   0 <= t < frames im /\ 0 <= c < channels im).
Proof.
  unfold in_bounds. rewrite !andb_true_iff, !Z.leb_le, !Z.ltb_lt. tauto.
Qed.

Lemma offset_range (im : Image) (x y t c : Z) :
  0 <= x < width im -> 0 <= y < height im ->
  0 <= t < frames im -> 0 <= c < channels im ->
  0 <= offset im x y t c < width im * height im * frames im * channels im.
Proof.
  intros Hx Hy Ht Hc. unfold offset, cstride, tstride, ystride.
  set (w := width im) in *. set (h := height im) in *.
  set (f := frames im) in *. set (n := channels im) in *.
  assert (H1 : 0 <= y * w + x < h * w) by nia.
  assert (H2 : 0 <= t * (w * h) + (y * w + x) < f * (w * h)) by nia.
  assert (H3 : 0 <= c * (w * h * f) + (t * (w * h) + (y * w + x))
               < n * (w * h * f)) by nia.
  nia.
Qed.

Lemma offset_inj (im : Image) (x y t c x' y' t' c' : Z) :
  0 <= x < width im -> 0 <= y < height im -> 0 <= t < frames im ->
  0 <= x' < width im -> 0 <= y' < height im -> 0 <= t' < frames im ->
  offset im x y t c = offset im x' y' t' c' ->
  x = x' /\ y = y' /\ t = t' /\ c = c'.
Proof.
  intros Hx Hy Ht Hx' Hy' Ht'. unfold offset, cstride, tstride, ystride.
  set (w := width im) in *. set (h := height im) in *.
  set (f := frames im) in *. intros E.
  assert (H1 : 0 <= y * w + x < h * w) by nia.
  assert (H1' : 0 <= y' * w + x' < h * w) by nia.
  assert (H2 : 0 <= t * (w * h) + (y * w + x) < f * (w * h)) by nia.
  assert (H2' : 0 <= t' * (w * h) + (y' * w + x') < f * (w * h)) by nia.
  assert (Ec : c = c') by nia. subst c'.
  assert (Et : t = t') by nia. subst t'.
  assert (Ey : y = y') by nia. subst y'.
  repeat split; lia.
Qed.

Lemma at_ok (im : Image) (x y t c : Z) :
  wf_image im -> in_bounds im x y t c = true ->
  exists v, at_ im x y t c = Ok v.
Proof.
  intros (_ & _ & _ & _ & Hsz) Hb. unfold at_. rewrite Hb.
  apply vget_ok. rewrite Hsz.
  apply in_bounds_iff in Hb. destruct Hb as (Hx & Hy & Ht & Hc).
  now apply offset_range.
Qed.

Lemma put_ok (im : Image) (x y t c : Z) (v : float) :
  wf_image im -> in_bounds im x y t c = true ->
  exists im', put im x y t c v = Ok im' /\ wf_image im' /\
              same_extents im' im /\
              at_ im' x y t c = Ok v /\
              forall x' y' t' c',
                (x', y', t', c') <> (x, y, t, c) ->
                at_ im' x' y' t' c' = at_ im x' y' t' c'.
Proof.
  intros (Hw & Hh & Hf & Hc & Hsz) Hb. unfold put. rewrite Hb.
  pose proof Hb as Hb'. apply in_bounds_iff in Hb'.
  destruct Hb' as (Bx & By & Bt & Bc).
  destruct (@vset_ok float (data im) v (offset im x y t c))
    as (d & Hd & Hdsz & Hget & Hoth).
  { rewrite Hsz. now apply offset_range. }
  rewrite Hd. simpl. eexists. split; [reflexivity|].
  split; [|split; [|split]].
  - unfold wf_image; simpl. rewrite Hdsz. auto.
  - unfold same_extents; simpl. auto.
  - unfold at_, in_bounds, offset, cstride, tstride, ystride in *. simpl.
    rewrite Hb. exact Hget.
  - intros x' y' t' c' Hne.
    unfold at_. change (in_bounds _ x' y' t' c') with (in_bounds im x' y' t' c').
    destruct (in_bounds im x' y' t' c') eqn:Hb2; [|reflexivity].
    change (offset _ x' y' t' c') with (offset im x' y' t' c'). simpl data.
    apply Hoth. intros E.
    apply in_bounds_iff in Hb2. destruct Hb2 as (Bx' & By' & Bt' & Bc').
    apply offset_inj in E; try assumption.
    destruct E as (-> & -> & -> & ->). now apply Hne.
Qed.

Lemma wf_image_new (w h f c : Z) :
  0 <= w -> 0 <= h -> 0 <= f -> 0 <= c -> wf_image (Image_new w h f c).
Proof.
  intros. unfold wf_image, Image_new; simpl.
  rewrite vsize_vmake by nia. auto.
Qed.

Lemma at_image_new (w h f c x y t k : Z) :
  in_bounds (Image_new w h f c) x y t k = true ->
  at_ (Image_new w h f c) x y t k = Ok (of_int 0).
Proof.
  intros Hb. unfold at_. rewrite Hb. simpl data.
  apply vget_vmake. apply in_bounds_iff in Hb. simpl in Hb.
  destruct Hb as (Hx & Hy & Ht & Hc).
  now apply (@offset_range (Image_new w h f c)).
Qed.

Lemma sample_at (im : Image) (x y t c : Z) :
  wf_image im -> in_bounds im x y t c = true ->
  at_ im x y t c = Ok (sample im x y t c).
Proof.
  intros Hwf Hb. destruct (at_ok x y t c Hwf Hb) as [v Hv].
  unfold sample. now rewrite Hv.
Qed.

Lemma same_extents_trans (a b c : Image) :
  same_extents a b -> same_extents b c -> same_extents a c.
Proof.
  intros (A1 & A2 & A3 & A4) (B1 & B2 & B3 & B4). unfold same_extents.
  rewrite A1, A2, A3, A4. auto.
Qed.

Lemma same_extents_refl (a : Image) : same_extents a a.
Proof. unfold same_extents. auto. Qed.

Lemma in_bounds_same_extents (a b : Image) (x y t c : Z) :
  same_extents a b -> in_bounds a x y t c = in_bounds b x y t c.
Proof.
  intros (E1 & E2 & E3 & E4). unfold in_bounds. now rewrite E1, E2, E3, E4.
Qed.

(** ** MinFilter and MaxFilter *)

(** *** Radius zero *)

Lemma update_parents_root_leaf sel fuel (val : float) :
  SlidingExtremum.update_parents sel (S fuel) [val] 0 = OutOfBounds.
Proof. reflexivity. Qed.

Lemma pass_x_radius_0 sel sentinel (im : Image) (heap : list float) :
  wf_image im -> 0 < width im -> 0 < height im -> 0 < frames im ->
  0 < channels im -> List.length heap = 1%nat ->
  SlidingExtremum.pass_x sel sentinel 0 0 0 0 (im, heap) = OutOfBounds.
Proof.
  intros (Hw & Hh & Hf & Hc & Hsz) Pw Ph Pf Pc Hheap.
  destruct heap as [|h0 [|h1 heap]]; try discriminate.
  unfold SlidingExtremum.pass_x, SlidingExtremum.pass. simpl fst; simpl snd.
  rewrite for_loop_first_out_of_bounds; [reflexivity|lia|].
  unfold SlidingExtremum.step. simpl.
  destruct (Z.ltb_spec 0 (width im)); [|lia].
  unfold at_, in_bounds, offset.
  destruct (Z.ltb_spec 0 (width im)); [|lia].
  destruct (Z.ltb_spec 0 (height im)); [|lia].
  destruct (Z.ltb_spec 0 (frames im)); [|lia].
  destruct (Z.ltb_spec 0 (channels im)); [|lia].
  simpl.
  destruct (@vget_0_nonempty float (data im)) as [v Hv]; [nia|].
  now rewrite Hv.
Qed.

(** C7 (as the code has it).  With [radius = 0] the heap has one cell, the
    leaf is the root, and the walk to the parents decrements the unsigned
    position [0]: on every image with at least one sample the first round
    already reads the heap far outside its storage, in [MinFilter::apply]
    and in [MaxFilter::apply] alike, so the call is not the identity. *)
Theorem min_filter_radius_0_out_of_bounds (im : Image) :
  wf_image im -> 0 < width im -> 0 < height im -> 0 < frames im ->
  0 < channels im ->
  MinFilter.apply im 0 = OutOfBounds /\ MaxFilter.apply im 0 = OutOfBounds.
Proof.
  intros Hwf Pw Ph Pf Pc.
  assert (H : forall sel sentinel,
             SlidingExtremum.apply sel sentinel im 0 = OutOfBounds).
  { intros sel sentinel. unfold SlidingExtremum.apply.
    rewrite for_loop_first_out_of_bounds; [reflexivity|lia|].
    rewrite for_loop_first_out_of_bounds; [reflexivity|exact Ph|].
    rewrite for_loop_first_out_of_bounds; [reflexivity|exact Pc|].
    apply pass_x_radius_0; auto. }
  split; apply H.
Qed.

Lemma min_filter_radius_0_out_of_bounds_witness :
  MinFilter.apply (mkImage 2 1 1 1 [fl 5; fl 3]) 0 = OutOfBounds /\
  MaxFilter.apply (mkImage 2 1 1 1 [fl 5; fl 3]) 0 = OutOfBounds.
Proof.
  apply (@min_filter_radius_0_out_of_bounds (mkImage 2 1 1 1 [fl 5; fl 3]));
    unfold wf_image, vsize; simpl; lia.
Defined.

(** *** Index 0 *)

(** C1 (as the code has it).  The pass writes position [x - radius] only
    when [x - radius > 0], so index 0 keeps its input sample: on the
    scanline 5, 3 with radius 1 the minimum over the clamped window of
    index 0 is 3 and the pass leaves 5 there; likewise for the maximum on
    3, 5. *)
Theorem sliding_pass_leaves_index_0 :
  MinFilter.pass_line 1 [fl 5; fl 3] = Ok [fl 5; fl 3] /\
  window_min [fl 5; fl 3] 0 1 = fl 3 /\
  MaxFilter.pass_line 1 [fl 3; fl 5] = Ok [fl 3; fl 5] /\
  window_max [fl 3; fl 5] 0 1 = fl 5.
Proof. repeat split; vm_compute; reflexivity. Qed.

(** *** The pass away from index 0 *)

Lemma hv_vget (h : list float) (p : Z) :
  0 <= p < vsize h -> vget h p = Ok (hv h p).
Proof.
  intros Hp. destruct (vget_ok h Hp) as [x Hx]. unfold hv. now rewrite Hx.
Qed.

Lemma vset_hv (h : list float) (p : Z) (x : float) :
  0 <= p < vsize h ->
  exists h', vset h p x = Ok h' /\ vsize h' = vsize h /\ hv h' p = x /\
             forall q, q <> p -> hv h' q = hv h q.
Proof.
  intros Hp. destruct (vset_ok h x Hp) as (h' & Hs & Hsz & Hg & Ho).
  exists h'. split; [exact Hs|]. split; [exact Hsz|]. split.
  - unfold hv. now rewrite Hg.
  - intros q Hq. unfold hv. now rewrite (Ho q Hq).
Qed.

Lemma flt_ntrans (a b c : float) :
  not_nan a -> not_nan b -> not_nan c ->
  flt a b = false -> flt b c = false -> flt a c = false.
Proof.
  destruct a, b, c; simpl; try tauto; try discriminate; intros _ _ _ H1 H2;
    try reflexivity.
  destruct (Qltb q q1) eqn:E; [|reflexivity].
  apply Qltb_lt in E.
  assert (L1 : (q0 <= q)%Q).
  { apply Qnot_lt_le. intros F. apply Qltb_lt in F. congruence. }
  assert (L2 : (q1 <= q0)%Q).
  { apply Qnot_lt_le. intros F. apply Qltb_lt in F. congruence. }
  exfalso. apply (Qlt_irrefl q). eapply Qlt_le_trans; [exact E|].
  eapply Qle_trans; eauto.
Qed.

Section SlidingPass.
Variable better : float -> float -> bool.
Variable sentinel : float.
Hypothesis better_irrefl : forall a, better a a = false.
Hypothesis better_asym : forall a b, better a b = true -> better b a = false.
Hypothesis better_ntrans :
  forall a b c, not_nan a -> not_nan b -> not_nan c ->
                better a b = false -> better b c = false -> better a c = false.
Hypothesis sentinel_not_nan : not_nan sentinel.
Hypothesis sentinel_worst : forall q, better (Fin q) sentinel = true.

Variable r : Z.
Hypothesis Hr : 1 <= r < 2 ^ 61.

Let sel := sel_of better.

Lemma sel_not_nan (a b : float) : not_nan a -> not_nan b -> not_nan (sel a b).
Proof. intros Ha Hb. unfold sel, sel_of. now destruct (better b a). Qed.

Lemma sel_left (a b : float) : better a (sel a b) = false.
Proof.
  unfold sel, sel_of. destruct (better b a) eqn:E; [now apply better_asym|].
  apply better_irrefl.
Qed.

Lemma sel_right (a b : float) : better b (sel a b) = false.
Proof.
  unfold sel, sel_of. destruct (better b a) eqn:E; [apply better_irrefl|exact E].
Qed.

Lemma sel_child (a b : float) : sel a b = a \/ sel a b = b.
Proof. unfold sel, sel_of. destruct (better b a); auto. Qed.

Lemma wrap_small (z : Z) :
  0 <= z < 2 ^ 64 -> SlidingExtremum.size_t_wrap z = z.
Proof. intros Hz. unfold SlidingExtremum.size_t_wrap. now apply Z.mod_small. Qed.

Lemma parent_of (p : Z) :
  1 <= p ->
  0 <= (p - 1) / 2 < p /\ (p = 2 * ((p - 1) / 2) + 1 \/ p = 2 * ((p - 1) / 2) + 2).
Proof.
  intros Hp.
  pose proof (Z.div_mod (p - 1) 2 ltac:(lia)) as E.
  pose proof (Z.mod_pos_bound (p - 1) 2 ltac:(lia)) as B.
  lia.
Qed.

(** The walk from a leaf to the root puts the tree back in order. *)
Lemma update_parents_ok :
  forall (fuel : nat) (h : list float) (p : Z),
    vsize h = 4 * r + 1 ->
    (forall k, 0 <= k <= 4 * r -> not_nan (hv h k)) ->
    1 <= p <= 4 * r -> p < 2 ^ Z.of_nat fuel ->
    (forall q, 0 <= q < 2 * r -> q <> (p - 1) / 2 ->
               hv h q = sel (hv h (2 * q + 1)) (hv h (2 * q + 2))) ->
    exists h',
      SlidingExtremum.update_parents sel fuel h p = Ok h' /\
      tree_ok sel r h' /\
      forall j, 2 * r <= j <= 4 * r -> hv h' j = hv h j.
Proof.
  assert (H64 : 2 ^ 61 * 8 = 2 ^ 64) by reflexivity.
  induction fuel as [|fuel IH]; intros h p Hsz Hgood Hp Hfuel Hcons.
  - simpl in Hfuel. lia.
  - cbn [SlidingExtremum.update_parents].
    rewrite (@wrap_small (p - 1)) by lia.
    rewrite Z.shiftr_div_pow2 by lia. change (2 ^ 1) with 2.
    destruct (@parent_of p ltac:(lia)) as [Hq Hchild].
    set (q := (p - 1) / 2) in *.
    assert (Hq2 : q <= 2 * r - 1) by lia.
    rewrite (@wrap_small (2 * q + 1)), (@wrap_small (2 * q + 2)) by lia.
    rewrite (@hv_vget h (2 * q + 1)) by lia. cbn [bind].
    rewrite (@hv_vget h (2 * q + 2)) by lia. cbn [bind].
    destruct (@vset_hv h q (sel (hv h (2 * q + 1)) (hv h (2 * q + 2)))
                ltac:(lia)) as (h' & Hset & Hsz' & Hnq & Hoth).
    rewrite Hset. cbn [bind].
    assert (Hgood' : forall k, 0 <= k <= 4 * r -> not_nan (hv h' k)).
    { intros k Hk. destruct (Z.eq_dec k q) as [->|Hkq].
      - rewrite Hnq. apply sel_not_nan; apply Hgood; lia.
      - rewrite (Hoth k Hkq). now apply Hgood. }
    assert (Hcons' : forall q', 0 <= q' < 2 * r ->
                                (q = 0 \/ q' <> (q - 1) / 2) ->
                                hv h' q' = sel (hv h' (2 * q' + 1))
                                               (hv h' (2 * q' + 2))).
    { intros q' Hq' Hor. destruct (Z.eq_dec q' q) as [->|Hneq].
      - rewrite Hnq. now rewrite (Hoth (2 * q + 1)), (Hoth (2 * q + 2)) by lia.
      - assert (Hk1 : 2 * q' + 1 <> q).
        { destruct Hor as [->|Hor]; [lia|]. intros E. apply Hor.
          destruct (@parent_of q ltac:(lia)) as [_ Hch]. lia. }
        assert (Hk2 : 2 * q' + 2 <> q).
        { destruct Hor as [->|Hor]; [lia|]. intros E. apply Hor.
          destruct (@parent_of q ltac:(lia)) as [_ Hch]. lia. }
        rewrite (Hoth q' Hneq), (Hoth _ Hk1), (Hoth _ Hk2).
        apply Hcons; auto. }
    destruct (Z.eqb_spec q 0) as [Hq0|Hq0].
    + exists h'. split; [reflexivity|]. split.
      * split; [lia|]. split; [exact Hgood'|].
        intros q' Hq'. apply Hcons'; auto.
      * intros j Hj. apply Hoth. lia.
    + destruct (IH h' q ltac:(lia) Hgood' ltac:(lia)) as (h2 & Hw & Hok & Hl).
      * rewrite Nat2Z.inj_succ, Z.pow_succ_r in Hfuel by lia. lia.
      * intros q' Hq' Hne. apply Hcons'; auto.
      * exists h2. split; [exact Hw|]. split; [exact Hok|].
        intros j Hj. rewrite (Hl j Hj). apply Hoth. lia.
Qed.

(** In a tree in order the root is a leaf, and no cell is better. *)
Lemma root_not_worse (h : list float) :
  tree_ok sel r h ->
  forall (n : nat) (q : Z),
    0 <= q <= 4 * r -> (Z.to_nat q <= n)%nat ->
    better (hv h q) (hv h 0) = false.
Proof.
  intros (Hsz & Hgood & Hcons). induction n as [|n IH]; intros q Hq Hn.
  - replace q with 0 by lia. apply better_irrefl.
  - destruct (Z.eq_dec q 0) as [->|Hq0]; [apply better_irrefl|].
    destruct (@parent_of q ltac:(lia)) as [Hp Hch].
    set (p := (q - 1) / 2) in *.
    apply (@better_ntrans _ (hv h p)); try (apply Hgood; lia).
    + rewrite (Hcons p) by lia.
      destruct Hch as [Hch|Hch]; rewrite Hch at 1;
        [apply sel_left|apply sel_right].
    + apply IH; lia.
Qed.

Lemma root_is_leaf (h : list float) :
  tree_ok sel r h ->
  forall (n : nat) (q : Z),
    0 <= q <= 4 * r -> (Z.to_nat (4 * r - q) <= n)%nat ->
    exists j, 2 * r <= j <= 4 * r /\ hv h q = hv h j.
Proof.
  intros (Hsz & Hgood & Hcons). induction n as [|n IH]; intros q Hq Hn.
  - exists q. split; [lia|reflexivity].
  - destruct (Z_lt_le_dec q (2 * r)) as [Hint|Hleaf].
    + rewrite (Hcons q) by lia.
      destruct (sel_child (hv h (2 * q + 1)) (hv h (2 * q + 2))) as [E|E];
        rewrite E; apply IH; lia.
    + exists q. split; [lia|reflexivity].
Qed.

Variable l : list float.
Hypothesis Hfin : forall k, 0 <= k < vsize l -> exists q, hv l k = Fin q.

Lemma pushed_not_nan (k : Z) : 0 <= k -> not_nan (pushed sentinel l k).
Proof.
  intros Hk. unfold pushed. destruct (Z.ltb_spec k (vsize l)).
  - destruct (@Hfin k ltac:(lia)) as [q ->]. exact I.
  - exact sentinel_not_nan.
Qed.

Lemma vsize_vfill (A : Type) (v : list A) (x : A) : vsize (vfill v x) = vsize v.
Proof. unfold vsize, vfill. now rewrite length_map. Qed.

Lemma hv_vfill (v : list float) (p : Z) :
  0 <= p < vsize v -> hv (vfill v sentinel) p = sentinel.
Proof.
  revert p. induction v as [|a v IH]; intros p Hp.
  - unfold vsize in Hp. simpl in Hp. lia.
  - rewrite vsize_cons in Hp. unfold hv. simpl.
    destruct (Z.ltb_spec p 0); [lia|].
    destruct (Z.eqb_spec p 0); [reflexivity|].
    apply (IH (p - 1)). lia.
Qed.

Lemma pass_inv_start :
  pass_inv better sentinel r l 0
           (SlidingExtremum.mkScan l
              (vfill (vmake (4 * r + 1) (of_int 0)) sentinel) (2 * r)).
Proof.
  assert (Hcell : forall p, 0 <= p <= 4 * r ->
                            hv (vfill (vmake (4 * r + 1) (of_int 0)) sentinel) p
                            = sentinel).
  { intros p Hp. apply hv_vfill. rewrite vsize_vmake; lia. }
  unfold pass_inv.
  cbn [SlidingExtremum.s_heap SlidingExtremum.s_pos SlidingExtremum.s_line].
  split; [split; [|split]|].
  - rewrite vsize_vfill, vsize_vmake; lia.
  - intros p Hp. rewrite Hcell by lia. exact sentinel_not_nan.
  - intros q Hq. rewrite !Hcell by lia.
    destruct (sel_child sentinel sentinel) as [E|E]; symmetry; exact E.
  - split; [lia|]. split.
    + intros d Hd. destruct (Z.leb_spec d 0); [lia|].
      apply Hcell. unfold cyc.
      destruct (Z.ltb_spec (2 * r - 2 * r - d) 0); lia.
    + split; [reflexivity|]. split; [reflexivity|]. intros i Hi Hle. lia.
Qed.

Lemma pass_step (x : Z) (s : SlidingExtremum.scan (list float)) :
  0 <= x < vsize l + r ->
  pass_inv better sentinel r l x s ->
  exists s',
    SlidingExtremum.step sel sentinel r (vsize l)
                         (fun l i => vget l i) (fun l i v => vset l i v) x s
    = Ok s' /\
    pass_inv better sentinel r l (x + 1) s'.
Proof.
  intros Hx (Htree & Hpos & Hleaves & Hlsz & Hkeep & Hdone).
  destruct s as [line heap pos].
  cbn [SlidingExtremum.s_heap SlidingExtremum.s_pos SlidingExtremum.s_line] in *.
  destruct Htree as (Hsz & Hgood & Hcons).
  unfold SlidingExtremum.step.
  cbn [SlidingExtremum.s_heap SlidingExtremum.s_pos SlidingExtremum.s_line].
  (* the sample pushed *)
  assert (Hval : (if x <? vsize l then vget line x else Ok sentinel)
                 = Ok (pushed sentinel l x)).
  { unfold pushed. destruct (Z.ltb_spec x (vsize l)); [|reflexivity].
    rewrite (@hv_vget line x) by lia. f_equal. apply Hkeep; lia. }
  rewrite Hval. cbn [bind].
  destruct (@vset_hv heap pos (pushed sentinel l x) ltac:(lia))
    as (heap1 & Hset & Hsz1 & Hn1 & Ho1).
  rewrite Hset. cbn [bind].
  destruct (@update_parents_ok SlidingExtremum.walk_fuel heap1 pos)
    as (heap2 & Hwalk & Htree2 & Hl2).
  { lia. }
  { intros k Hk. destruct (Z.eq_dec k pos) as [->|Hkp].
    - rewrite Hn1. apply pushed_not_nan. lia.
    - rewrite (Ho1 k Hkp). now apply Hgood. }
  { lia. }
  { change (2 ^ Z.of_nat SlidingExtremum.walk_fuel) with (2 ^ 61 * 8). lia. }
  { intros q Hq Hne.
    destruct (@parent_of pos ltac:(lia)) as [_ Hch].
    rewrite (Ho1 q), (Ho1 (2 * q + 1)), (Ho1 (2 * q + 2)) by lia.
    now apply Hcons. }
  rewrite Hwalk. cbn [bind].
  pose proof Htree2 as (Hsz2 & Hgood2 & Hcons2).
  (* the leaves after this round *)
  set (pos' := if pos + 1 =? vsize heap2 then 2 * r else pos + 1).
  assert (Hpos' : 2 * r <= pos' <= 4 * r).
  { unfold pos'. destruct (Z.eqb_spec (pos + 1) (vsize heap2)); lia. }
  assert (Hleaves' : forall d, 1 <= d <= 2 * r + 1 ->
             hv heap2 (2 * r + cyc (2 * r + 1) (pos' - 2 * r - d)) =
             if d <=? x + 1 then pushed sentinel l (x + 1 - d) else sentinel).
  { intros d Hd.
    assert (Hj : 0 <= cyc (2 * r + 1) (pos' - 2 * r - d) <= 2 * r).
    { unfold cyc. destruct (Z.ltb_spec (pos' - 2 * r - d) 0); lia. }
    rewrite Hl2 by lia.
    destruct (Z.eq_dec d 1) as [->|Hd1].
    - assert (E : 2 * r + cyc (2 * r + 1) (pos' - 2 * r - 1) = pos).
      { unfold cyc, pos'. destruct (Z.eqb_spec (pos + 1) (vsize heap2));
          match goal with
          | |- context [?a <? 0] => destruct (Z.ltb_spec a 0)
          end; lia. }
      rewrite E, Hn1. destruct (Z.leb_spec 1 (x + 1)); [|lia].
      f_equal. lia.
    - assert (E : cyc (2 * r + 1) (pos' - 2 * r - d) =
                  cyc (2 * r + 1) (pos - 2 * r - (d - 1))).
      { unfold cyc, pos'. destruct (Z.eqb_spec (pos + 1) (vsize heap2));
          repeat match goal with
                 | |- context [?a <? 0] => destruct (Z.ltb_spec a 0)
                 end; lia. }
      rewrite E. rewrite Ho1.
      + rewrite (Hleaves (d - 1)) by lia.
        destruct (Z.leb_spec (d - 1) x), (Z.leb_spec d (x + 1)); try lia;
          [f_equal; lia|reflexivity].
      + unfold cyc. destruct (Z.ltb_spec (pos - 2 * r - (d - 1)) 0); lia. }
  (* every leaf is such a cell *)
  assert (Hsurj : forall j, 2 * r <= j <= 4 * r ->
             exists d, 1 <= d <= 2 * r + 1 /\
                       j = 2 * r + cyc (2 * r + 1) (pos' - 2 * r - d)).
  { intros j Hj. destruct (Z_lt_le_dec (j - 2 * r) (pos' - 2 * r)).
    - exists (pos' - j). split; [lia|]. unfold cyc.
      destruct (Z.ltb_spec (pos' - 2 * r - (pos' - j)) 0); lia.
    - exists (pos' - j + (2 * r + 1)). split; [lia|]. unfold cyc.
      destruct (Z.ltb_spec (pos' - 2 * r - (pos' - j + (2 * r + 1))) 0); lia. }
  destruct (Z.ltb_spec 0 (x - r)) as [Hw|Hw].
  - (* the round writes index x - r *)
    rewrite (@hv_vget heap2 0) by lia. cbn [bind].
    destruct (@vset_hv line (x - r) (hv heap2 0) ltac:(lia))
      as (line' & Hsetl & Hszl & Hnl & Hol).
    rewrite Hsetl. cbn [bind]. eexists. split; [reflexivity|].
    unfold pass_inv.
    cbn [SlidingExtremum.s_heap SlidingExtremum.s_pos SlidingExtremum.s_line].
    fold pos'.
    split; [exact Htree2|]. split; [exact Hpos'|]. split; [exact Hleaves'|].
    split; [lia|]. split.
    + intros i Hi Hor. rewrite Hol by lia. apply Hkeep; lia.
    + intros i Hi Hle. destruct (Z.eq_dec i (x - r)) as [->|Hne].
      * rewrite Hnl.
        assert (Hall : forall k,
                   Z.max 0 (x - r - r) <= k <= Z.min (vsize l - 1) (x - r + r) ->
                   better (hv l k) (hv heap2 0) = false).
        { intros k Hk.
          specialize (Hleaves' (x + 1 - k) ltac:(lia)).
          destruct (Z.leb_spec (x + 1 - k) (x + 1)); [|lia].
          replace (x + 1 - (x + 1 - k)) with k in Hleaves' by lia.
          unfold pushed in Hleaves'.
          destruct (Z.ltb_spec k (vsize l)); [|lia].
          rewrite <- Hleaves'.
          apply (@root_not_worse heap2 Htree2 (Z.to_nat (4 * r))).
          - unfold cyc.
            destruct (Z.ltb_spec (pos' - 2 * r - (x + 1 - k)) 0); lia.
          - unfold cyc.
            destruct (Z.ltb_spec (pos' - 2 * r - (x + 1 - k)) 0); lia. }
        split; [|exact Hall].
        destruct (@root_is_leaf heap2 Htree2 (Z.to_nat (4 * r)) 0
                    ltac:(lia) ltac:(lia)) as (j & Hj & Hroot).
        destruct (Hsurj j Hj) as (d & Hd & Ej).
        rewrite Hroot, Ej, (Hleaves' d Hd).
        assert (Hself : better (hv l (x - r)) (hv heap2 0) = false)
          by (apply Hall; lia).
        destruct (@Hfin (x - r) ltac:(lia)) as [q Eq].
        assert (Hsent : hv heap2 0 <> sentinel).
        { intros F. rewrite F, Eq, sentinel_worst in Hself. discriminate. }
        rewrite Hroot, Ej, (Hleaves' d Hd) in Hsent.
        destruct (Z.leb_spec d (x + 1)); [|congruence].
        unfold pushed in *.
        destruct (Z.ltb_spec (x + 1 - d) (vsize l)); [|congruence].
        exists (x + 1 - d). split; [lia|reflexivity].
      * rewrite Hol by lia. apply Hdone; lia.
  - (* nothing is written *)
    eexists. split; [reflexivity|].
    unfold pass_inv.
    cbn [SlidingExtremum.s_heap SlidingExtremum.s_pos SlidingExtremum.s_line].
    fold pos'.
    split; [exact Htree2|]. split; [exact Hpos'|]. split; [exact Hleaves'|].
    split; [exact Hlsz|]. split.
    + intros i Hi Hor. apply Hkeep; lia.
    + intros i Hi Hle. lia.
Qed.

(** The pass over a scanline of finite samples, for a radius of at least 1:
    index 0 keeps its sample and every other index receives an extremum of
    its clamped window. *)
Lemma pass_line_ok :
  exists out,
    SlidingExtremum.pass_line sel sentinel r l = Ok out /\
    vsize out = vsize l /\
    (0 < vsize l -> hv out 0 = hv l 0) /\
    forall i, 1 <= i < vsize l -> extremum_at better l i r (hv out i).
Proof.
  unfold SlidingExtremum.pass_line, SlidingExtremum.pass.
  destruct (@for_loop_inv _ (pass_inv better sentinel r l)
              (SlidingExtremum.step sel sentinel r (vsize l)
                 (fun l i => vget l i) (fun l i v => vset l i v))
              0 (vsize l + r)
              (SlidingExtremum.mkScan l
                 (vfill (vmake (4 * r + 1) (of_int 0)) sentinel) (2 * r))
              pass_inv_start)
    as (s & Hrun & Hinv).
  { intros x s Hx Hs. now apply pass_step. }
  rewrite Hrun. cbn [bind]. exists (SlidingExtremum.s_line s).
  split; [reflexivity|].
  pose proof (vsize_nonneg l).
  replace (Z.max 0 (vsize l + r)) with (vsize l + r) in Hinv by lia.
  destruct Hinv as (_ & _ & _ & Hsz & Hkeep & Hdone).
  split; [exact Hsz|]. split.
  - intros Hpos. apply Hkeep; lia.
  - intros i Hi. apply Hdone; lia.
Qed.
End SlidingPass.

Lemma fgt_ntrans (a b c : float) :
  not_nan a -> not_nan b -> not_nan c ->
  fgt a b = false -> fgt b c = false -> fgt a c = false.
Proof. unfold fgt. intros Ha Hb Hc H1 H2. now apply (@flt_ntrans c b a). Qed.

(** X1.  The one-dimensional pass of [MinFilter::apply] and of
    [MaxFilter::apply] on a scanline of finite samples, for a radius of at
    least 1 whose heap size [4*radius+1] and whose loop bound
    [im.width + radius] are [int]s: the pass returns, index 0 keeps its
    input sample, and every other index receives a sample of its clamped
    window that no sample of the window is below (resp. above). *)
Theorem min_max_pass_away_from_index_0 (r : Z) (l : list float) :
  1 <= r -> 4 * r + 1 <= INT_MAX -> vsize l + r <= INT_MAX ->
  (forall k, 0 <= k < vsize l -> exists q, hv l k = Fin q) ->
  (exists out,
      MinFilter.pass_line r l = Ok out /\ vsize out = vsize l /\
      (0 < vsize l -> hv out 0 = hv l 0) /\
      forall i, 1 <= i < vsize l -> extremum_at flt l i r (hv out i)) /\
  (exists out,
      MaxFilter.pass_line r l = Ok out /\ vsize out = vsize l /\
      (0 < vsize l -> hv out 0 = hv l 0) /\
      forall i, 1 <= i < vsize l -> extremum_at fgt l i r (hv out i)).
Proof.
  intros Hr1 Hheap Hline Hfin.
  assert (Hr : 1 <= r < 2 ^ 61) by (unfold INT_MAX in Hheap; lia).
  split.
  - apply (@pass_line_ok flt INF flt_irrefl flt_asym flt_ntrans I
             (fun q => eq_refl) r Hr l Hfin).
  - apply (@pass_line_ok fgt (fneg INF)
             (fun a => flt_irrefl a) (fun a b H => flt_asym _ _ H)
             fgt_ntrans I (fun q => eq_refl) r Hr l Hfin).
Qed.

Lemma min_max_pass_away_from_index_0_witness :
  (exists out,
      MinFilter.pass_line 1 [fl 5; fl 3; fl 4] = Ok out /\
      extremum_at flt [fl 5; fl 3; fl 4] 2 1 (hv out 2)) /\
  (exists out,
      MaxFilter.pass_line 1 [fl 5; fl 3; fl 4] = Ok out /\
      extremum_at fgt [fl 5; fl 3; fl 4] 2 1 (hv out 2)).
Proof.
  destruct (@min_max_pass_away_from_index_0 1 [fl 5; fl 3; fl 4])
    as [(o1 & H1 & _ & _ & E1) (o2 & H2 & _ & _ & E2)].
  - lia.
  - vm_compute. discriminate.
  - vm_compute. discriminate.
  - intros k Hk. unfold vsize in Hk. simpl in Hk.
    assert (Hc : k = 0 \/ k = 1 \/ k = 2) by lia.
    destruct Hc as [->|[->| ->]]; eexists; reflexivity.
  - split; [exists o1|exists o2]; (split; [assumption|]);
      [apply E1|apply E2]; unfold vsize; simpl; lia.
Defined.

(** ** RectFilter *)

(** *** The parity check of [RectFilter::apply] *)

Lemma land_1_odd (a : Z) : Z.land a 1 = Z.b2z (Z.odd a).
Proof.
  change 1 with (Z.ones 1) at 1. rewrite Z.land_ones by lia.
  change (2 ^ 1) with 2. rewrite <- Z.bit0_mod, Z.bit0_odd. reflexivity.
Qed.

Lemma shape_check (ff fw fh : Z) :
  negb (Z.land (Z.land (Z.land ff fw) fh) 1 =? 0) =
  Z.odd ff && Z.odd fw && Z.odd fh.
Proof.
  rewrite land_1_odd, <- !Z.bit0_odd, !Z.land_spec.
  destruct (Z.testbit ff 0), (Z.testbit fw 0), (Z.testbit fh 0); reflexivity.
Qed.

Lemma odd_negb_even (a : Z) : Z.odd a = negb (Z.even a).
Proof. now rewrite Z.negb_even. Qed.




(** *** The running-sum box blur *)

(** C5 (as the code has it).  In the boundary cases the buffer cells that
    leave the window are subtracted and counted out even when they are
    cells cleared at the start, which never entered the sum.  With a
    scanline no longer than the box the quotient is then off: width 3 on
    the constant scanline 1, 1, 1 gives 1, 1, 2, and on 1, 1 it divides by
    a count of zero. *)
Theorem box_blur_changes_constant_scanline :
  RectFilter.blurX (mkImage 3 1 1 1 [fl 1; fl 1; fl 1]) 3 1 =
  Ok (mkImage 3 1 1 1 [fl 1; fl 1; fl 2]) /\
  RectFilter.blurX (mkImage 2 1 1 1 [fl 1; fl 1]) 3 1 =
  Ok (mkImage 2 1 1 1 [fl 1; PInf]).
Proof. split; vm_compute; reflexivity. Qed.

(** *** The box blur on a scanline longer than the box *)

Lemma for_loop_one (S : Type) (lo : Z) (body : Z -> S -> result S) (s : S) :
  for_loop lo (lo + 1) body s = body lo s.
Proof.
  unfold for_loop. replace (Z.to_nat (lo + 1 - lo)) with 1%nat by lia.
  simpl. now destruct (body lo s).
Qed.

Lemma is_const_0 : RectFilter.is_const 0 (of_int 0).
Proof. exists (inject_Z 0). split; reflexivity. Qed.

Lemma recip_times (v s : Q) (e : Z) :
  e <> 0 -> (s == inject_Z e * v)%Q ->
  RectFilter.is_const v (fmul (Fin s) (recip_int e)).
Proof.
  intros He Hs. unfold recip_int.
  destruct (Z.eqb_spec e 0); [contradiction|].
  cbn [fmul]. eexists. split; [reflexivity|].
  rewrite !Qred_correct, Hs.
  assert (Hne : ~ (inject_Z e == 0)%Q).
  { unfold Qeq. simpl. lia. }
  field. exact Hne.
Qed.

Lemma sum_swap (v s a b : Q) (e : Z) (d : Q) :
  (s == inject_Z e * v)%Q -> (a == v)%Q -> (b == d)%Q ->
  exists s', fadd (Fin s) (fsub (Fin a) (Fin b)) = Fin s' /\
             (s' == inject_Z e * v + v - d)%Q.
Proof.
  intros Hs Ha Hb. cbn [fadd fsub fneg]. eexists. split; [reflexivity|].
  rewrite !Qred_correct, Hs, Ha, Hb. ring.
Qed.

Lemma sum_drop (v s b : Q) (e : Z) :
  (s == inject_Z e * v)%Q -> (b == v)%Q ->
  exists s', fsub (Fin s) (Fin b) = Fin s' /\
             (s' == inject_Z (e - 1) * v)%Q.
Proof.
  intros Hs Hb. cbn [fadd fsub fneg]. eexists. split; [reflexivity|].
  rewrite !Qred_correct, Hs, Hb.
  unfold Z.sub. rewrite inject_Z_plus, inject_Z_opp.
  change (inject_Z 1) with 1%Q. ring.
Qed.

Lemma inject_Z_succ (e : Z) (v : Q) :
  (inject_Z e * v + v - 0 == inject_Z (e + 1) * v)%Q.
Proof. rewrite inject_Z_plus. change (inject_Z 1) with 1%Q. ring. Qed.

Section BoxBlur.
Variable v : Q.
Variables N width radius : Z.
Hypothesis Hwidth : width = 2 * radius + 1.
Hypothesis Hradius : 1 <= radius.
Hypothesis Hlong : width < N.

Lemma row_at (im : Image) (i : Z) :
  RectFilter.row_const v N im -> 0 <= i < N ->
  at_ im i 0 0 0 = Ok (sample im i 0 0 0) /\
  RectFilter.is_const v (sample im i 0 0 0).
Proof.
  intros (Hwf & Hw & Hh & Hf & Hc & Hall) Hi. split; [|now apply Hall].
  apply sample_at; [exact Hwf|]. apply in_bounds_iff.
  unfold im_width in Hw. lia.
Qed.

Lemma row_put (im : Image) (i : Z) (a : float) :
  RectFilter.row_const v N im -> 0 <= i < N -> RectFilter.is_const v a ->
  exists im', put im i 0 0 0 a = Ok im' /\ RectFilter.row_const v N im'.
Proof.
  intros (Hwf & Hw & Hh & Hf & Hc & Hall) Hi Ha.
  assert (Hb : in_bounds im i 0 0 0 = true).
  { apply in_bounds_iff. unfold im_width in Hw. lia. }
  destruct (@put_ok im i 0 0 0 a Hwf Hb)
    as (im' & Hp & Hwf' & (E1 & E2 & E3 & E4) & Hsame & Hoth).
  exists im'. split; [exact Hp|].
  unfold RectFilter.row_const, im_width in *.
  split; [exact Hwf'|]. repeat (split; [congruence|]).
  intros j Hj. unfold sample. destruct (Z.eq_dec j i) as [->|Hne].
  - now rewrite Hsame.
  - rewrite Hoth by congruence. apply (Hall j Hj).
Qed.

Lemma clear_buffer_ok (b : RectFilter.box) :
  vsize (RectFilter.buffer b) = width ->
  exists b',
    RectFilter.clear_buffer radius b = Ok b' /\
    RectFilter.b_im b' = RectFilter.b_im b /\
    RectFilter.sum b' = RectFilter.sum b /\
    RectFilter.bufferIndex b' = RectFilter.bufferIndex b /\
    RectFilter.bufferEntries b' = RectFilter.bufferEntries b /\
    vsize (RectFilter.buffer b') = width /\
    forall j, 0 <= j <= radius ->
              RectFilter.is_const 0 (hv (RectFilter.buffer b') j).
Proof.
  intros Hsz. unfold RectFilter.clear_buffer.
  match goal with
  | |- context [for_loop 0 (radius + 1) ?body b] =>
      destruct (@for_loop_inv _
                  (fun j b' =>
                     RectFilter.b_im b' = RectFilter.b_im b /\
                     RectFilter.sum b' = RectFilter.sum b /\
                     RectFilter.bufferIndex b' = RectFilter.bufferIndex b /\
                     RectFilter.bufferEntries b' = RectFilter.bufferEntries b /\
                     vsize (RectFilter.buffer b') = width /\
                     forall j', 0 <= j' < j ->
                       RectFilter.is_const 0 (hv (RectFilter.buffer b') j'))
                  body 0 (radius + 1) b) as (b' & Hr & Hinv)
  end.
  - repeat (split; [reflexivity || exact Hsz|]). intros j' Hj'. lia.
  - intros j b1 Hj (E1 & E2 & E3 & E4 & Hsz1 & Hz).
    destruct (@vset_hv (RectFilter.buffer b1) j (of_int 0) ltac:(lia))
      as (buf & Hset & Hbsz & Hnj & Hoth).
    rewrite Hset. cbn [bind]. eexists. split; [reflexivity|].
    cbn [RectFilter.b_im RectFilter.sum RectFilter.bufferIndex
           RectFilter.bufferEntries RectFilter.buffer].
    repeat (split; [assumption || lia|]).
    intros j' Hj'. destruct (Z.eq_dec j' j) as [->|Hne].
    + rewrite Hnj. apply is_const_0.
    + rewrite Hoth by exact Hne. apply Hz. lia.
  - exists b'. split; [exact Hr|].
    replace (Z.max 0 (radius + 1)) with (radius + 1) in Hinv by lia.
    destruct Hinv as (E1 & E2 & E3 & E4 & Hsz1 & Hz).
    repeat (split; [assumption|]). intros j Hj. apply Hz. lia.
Qed.

Ltac box_simpl :=
  cbn [RectFilter.b_im RectFilter.sum RectFilter.bufferIndex
         RectFilter.bufferEntries RectFilter.buffer RectFilter.mult bind] in *.

Lemma load_buffer_ok (b : RectFilter.box) :
  RectFilter.row_const v N (RectFilter.b_im b) ->
  vsize (RectFilter.buffer b) = width ->
  (forall j, 0 <= j <= radius ->
             RectFilter.is_const 0 (hv (RectFilter.buffer b) j)) ->
  RectFilter.sum b = of_int 0 -> RectFilter.bufferEntries b = 0 ->
  RectFilter.bufferIndex b = 0 ->
  exists b',
    RectFilter.load_buffer width radius 0 0 0 b = Ok b' /\
    RectFilter.row_const v N (RectFilter.b_im b') /\
    RectFilter.buffer_inv v width radius 0 (RectFilter.buffer b') /\
    RectFilter.bufferIndex b' = 0 /\
    RectFilter.bufferEntries b' = radius /\
    exists s, RectFilter.sum b' = Fin s /\ (s == inject_Z radius * v)%Q.
Proof.
  intros Hrow Hsz Hz Hsum He Hidx. unfold RectFilter.load_buffer.
  match goal with
  | |- context [for_loop (radius + 1) width ?body b] =>
      destruct (@for_loop_inv _
                  (fun j b' =>
                     RectFilter.row_const v N (RectFilter.b_im b') /\
                     vsize (RectFilter.buffer b') = width /\
                     (forall j', 0 <= j' <= radius ->
                        RectFilter.is_const 0 (hv (RectFilter.buffer b') j')) /\
                     (forall j', radius < j' < j ->
                        RectFilter.is_const v (hv (RectFilter.buffer b') j')) /\
                     RectFilter.bufferIndex b' = 0 /\
                     RectFilter.bufferEntries b' = j - radius - 1 /\
                     exists s, RectFilter.sum b' = Fin s /\
                               (s == inject_Z (j - radius - 1) * v)%Q)
                  body (radius + 1) width b) as (b' & Hr & Hinv)
  end.
  - split; [exact Hrow|]. split; [exact Hsz|]. split; [exact Hz|].
    split; [intros j' Hj'; lia|]. split; [exact Hidx|]. split; [lia|].
    exists (inject_Z 0). split; [exact Hsum|].
    replace (radius + 1 - radius - 1) with 0 by lia. ring.
  - intros j b1 Hj (Hrow1 & Hsz1 & Hz1 & Hv1 & Hi1 & He1 & s & Hs1 & Hs2).
    destruct (@row_at (RectFilter.b_im b1) (j - radius) Hrow1 ltac:(lia))
      as [Hat (a & Ea & Ha)].
    rewrite Hat, Ea. box_simpl.
    destruct (@vset_hv (RectFilter.buffer b1) j (Fin a) ltac:(lia))
      as (buf & Hset & Hbsz & Hnj & Hoth).
    rewrite Hset. box_simpl.
    rewrite (@hv_vget buf j) by lia. box_simpl. rewrite Hnj.
    eexists. split; [reflexivity|]. box_simpl.
    split; [exact Hrow1|]. split; [lia|]. split.
    { intros j' Hj'. rewrite Hoth by lia. now apply Hz1. }
    split.
    { intros j' Hj'. destruct (Z.eq_dec j' j) as [->|Hne].
      - rewrite Hnj. exists a. split; [reflexivity|exact Ha].
      - rewrite Hoth by exact Hne. apply Hv1. lia. }
    split; [exact Hi1|]. split; [lia|].
    rewrite Hs1. cbn [fadd]. eexists. split; [reflexivity|].
    rewrite Qred_correct, Hs2, Ha.
    replace (j + 1 - radius - 1) with (j - radius - 1 + 1) by lia.
    rewrite inject_Z_plus. change (inject_Z 1) with 1%Q. ring.
  - exists b'. split; [exact Hr|].
    replace (Z.max (radius + 1) width) with width in Hinv by lia.
    destruct Hinv as (Hrow1 & Hsz1 & Hz1 & Hv1 & Hi1 & He1 & s & Hs1 & Hs2).
    split; [exact Hrow1|]. split.
    { split; [exact Hsz1|]. intros j Hj.
      destruct (Z.leb_spec 0 j), (Z.leb_spec j radius); cbn [andb]; try lia.
      - apply Hz1. lia.
      - apply Hv1. lia. }
    split; [exact Hi1|]. split; [lia|].
    exists s. split; [exact Hs1|].
    replace (width - radius - 1) with radius in Hs2 by lia. exact Hs2.
Qed.

Lemma inner_ok (k : Z) (b : RectFilter.box) :
  0 <= k < N - radius - 1 ->
  RectFilter.inner_inv v N width radius k b ->
  exists b', RectFilter.inner width radius 0 0 0 k b = Ok b' /\
             RectFilter.inner_inv v N width radius (k + 1) b'.
Proof.
  intros Hk (Hrow & (Hsz & Hcells) & Hidx & Hidxk & He & (s & Hs1 & Hs2) & Hm).
  unfold RectFilter.inner. rewrite Hs1, Hm.
  assert (Hepos : 1 <= RectFilter.bufferEntries b) by lia.
  destruct (@row_put (RectFilter.b_im b) k
              (fmul (Fin s) (recip_int (RectFilter.bufferEntries b))) Hrow
              ltac:(lia)) as (im1 & Hput & Hrow1).
  { apply recip_times; [lia|exact Hs2]. }
  rewrite Hput. box_simpl.
  destruct (@row_at im1 (k + radius + 1) Hrow1 ltac:(lia))
    as [Hat (a & Ea & Ha)].
  rewrite Hat, Ea. box_simpl.
  rewrite (@hv_vget (RectFilter.buffer b) (RectFilter.bufferIndex b)) by lia.
  box_simpl.
  destruct (@vset_hv (RectFilter.buffer b) (RectFilter.bufferIndex b) (Fin a)
              ltac:(lia)) as (buf & Hset & Hbsz & Hnj & Hoth).
  rewrite Hset. box_simpl.
  assert (Hadv : 0 <= RectFilter.advance width (RectFilter.bufferIndex b) < width /\
                 (k + 1 <= radius ->
                  RectFilter.advance width (RectFilter.bufferIndex b) = k + 1)).
  { unfold RectFilter.advance.
    destruct (Z.eqb_spec (RectFilter.bufferIndex b + 1) width); lia. }
  assert (Hbuf : RectFilter.buffer_inv v width radius (k + 1) buf).
  { split; [lia|]. intros j Hj. specialize (Hcells j Hj).
    destruct (Z.eq_dec j (RectFilter.bufferIndex b)) as [->|Hne].
    - rewrite Hnj.
      destruct (Z.leb_spec (k + 1) (RectFilter.bufferIndex b)),
        (Z.leb_spec (RectFilter.bufferIndex b) radius); cbn [andb];
        try (exists a; split; [reflexivity|exact Ha]).
      lia.
    - rewrite Hoth by exact Hne.
      destruct (Z.leb_spec (k + 1) j), (Z.leb_spec k j),
        (Z.leb_spec j radius); cbn [andb] in *; try assumption; try lia. }
  specialize (Hcells (RectFilter.bufferIndex b) Hidx).
  destruct (Z_le_gt_dec k radius) as [Hzero|Hfull].
  - (* the cell swapped out is one of the zeros of the start *)
    rewrite (Hidxk Hzero) in Hcells.
    destruct (Z.leb_spec k k), (Z.leb_spec k radius); try lia.
    cbn [andb] in Hcells. destruct Hcells as (z & Ez & Hz).
    rewrite (Hidxk Hzero) in *. rewrite Ez.
    destruct (@sum_swap v s a z (RectFilter.bufferEntries b) 0 Hs2 Ha Hz)
      as (s' & Es' & Hs').
    rewrite Es'.
    destruct (Z.ltb_spec (RectFilter.bufferEntries b) width); [|lia].
    eexists. split; [reflexivity|].
    unfold RectFilter.inner_inv, RectFilter.sum_inv. box_simpl.
    split; [exact Hrow1|]. split; [exact Hbuf|].
    split; [apply Hadv|]. split; [apply Hadv|]. split; [lia|].
    split; [|reflexivity].
    exists s'. split; [reflexivity|]. rewrite Hs'. apply inject_Z_succ.
  - (* the buffer is full of samples *)
    destruct (Z.leb_spec k (RectFilter.bufferIndex b)),
      (Z.leb_spec (RectFilter.bufferIndex b) radius); try lia;
      cbn [andb] in Hcells; destruct Hcells as (z & Ez & Hz); rewrite Ez;
      destruct (@sum_swap v s a z (RectFilter.bufferEntries b) v Hs2 Ha Hz)
        as (s' & Es' & Hs'); rewrite Es';
      (destruct (Z.ltb_spec (RectFilter.bufferEntries b) width); [lia|]);
      eexists; (split; [reflexivity|]);
      unfold RectFilter.inner_inv, RectFilter.sum_inv; box_simpl;
      (split; [exact Hrow1|]); (split; [exact Hbuf|]);
      (split; [apply Hadv|]); (split; [apply Hadv|]); (split; [lia|]);
      (split; [|reflexivity]);
      exists s'; (split; [reflexivity|]); rewrite Hs'; ring.
Qed.

Lemma boundary_ok (x : Z) (b : RectFilter.box) :
  N - radius - 1 <= x < N ->
  RectFilter.boundary_inv v N width radius (x - (N - radius - 1)) b ->
  exists b', RectFilter.boundary width 0 0 0 x b = Ok b' /\
             RectFilter.boundary_inv v N width radius
                                     (x + 1 - (N - radius - 1)) b'.
Proof.
  intros Hx (Hrow & (Hsz & Hcells) & Hidx & He & (s & Hs1 & Hs2) & Hm).
  unfold RectFilter.boundary. rewrite Hs1, Hm.
  destruct (@row_put (RectFilter.b_im b) x
              (fmul (Fin s) (recip_int (RectFilter.bufferEntries b))) Hrow
              ltac:(lia)) as (im1 & Hput & Hrow1).
  { apply recip_times; [lia|exact Hs2]. }
  rewrite Hput. box_simpl.
  rewrite (@hv_vget (RectFilter.buffer b) (RectFilter.bufferIndex b)) by lia.
  box_simpl.
  pose proof (Hcells (RectFilter.bufferIndex b) Hidx) as Hcell.
  destruct (Z.leb_spec (radius + 1) (RectFilter.bufferIndex b)),
    (Z.leb_spec (RectFilter.bufferIndex b) radius); try lia;
    cbn [andb] in Hcell; destruct Hcell as (z & Ez & Hz); rewrite Ez;
    destruct (@sum_drop v s z (RectFilter.bufferEntries b) Hs2 Hz)
      as (s' & Es' & Hs'); rewrite Es';
    eexists; (split; [reflexivity|]);
    unfold RectFilter.boundary_inv, RectFilter.sum_inv; box_simpl;
    (split; [exact Hrow1|]); (split; [split; [exact Hsz|exact Hcells]|]);
    (split; [unfold RectFilter.advance;
             destruct (Z.eqb_spec (RectFilter.bufferIndex b + 1) width); lia|]);
    (split; [lia|]); (split; [|reflexivity]);
    exists s'; (split; [reflexivity|exact Hs']).
Qed.

Lemma iteration_ok (im : Image) (buffer : list float) :
  RectFilter.row_const v N im -> vsize buffer = width ->
  exists im' buffer',
    RectFilter.iteration width radius 0 0 0 (im, buffer) = Ok (im', buffer') /\
    RectFilter.row_const v N im' /\ vsize buffer' = width.
Proof.
  intros Hrow Hsz. unfold RectFilter.iteration. cbn [fst snd].
  destruct (@clear_buffer_ok (RectFilter.mkBox im buffer (of_int 0) 0 0 (of_int 0))
              Hsz) as (b1 & Hc & E1 & E2 & E3 & E4 & Hsz1 & Hz1).
  rewrite Hc. box_simpl.
  destruct (@load_buffer_ok b1) as (b2 & Hl & Hrow2 & Hbuf2 & Hi2 & He2 & s & Hs1 & Hs2);
    try assumption; try congruence.
  rewrite Hl. box_simpl.
  pose proof Hrow2 as (_ & Hw2 & _).
  match goal with
  | |- context [for_loop 0 ?hi (RectFilter.inner _ _ _ _ _) ?b3] =>
      destruct (@for_loop_inv _ (RectFilter.inner_inv v N width radius)
                  (RectFilter.inner width radius 0 0 0) 0 hi b3)
        as (b4 & Hin & Hinv4)
  end.
  { unfold RectFilter.inner_inv, RectFilter.sum_inv. box_simpl.
    split; [exact Hrow2|]. split; [exact Hbuf2|]. split; [lia|].
    split; [intros _; exact Hi2|]. split; [lia|].
    split; [|reflexivity]. exists s. rewrite He2. split; assumption. }
  { intros k b Hk Hb. apply inner_ok; [|exact Hb]. rewrite Hw2 in Hk. lia. }
  rewrite Hin. box_simpl.
  rewrite Hw2 in Hinv4.
  replace (Z.max 0 (N - radius - 1)) with (N - radius - 1) in Hinv4 by lia.
  destruct Hinv4 as (Hrow4 & (Hsz4 & Hcells4) & Hidx4 & _ & He4 & Hsum4).
  pose proof Hrow4 as (_ & Hw4 & _).
  match goal with
  | |- context [for_loop ?lo ?hi (RectFilter.boundary _ _ _ _) b4] =>
      destruct (@for_loop_inv _
                  (fun x b => RectFilter.boundary_inv v N width radius
                                (x - (N - radius - 1)) b)
                  (RectFilter.boundary width 0 0 0) lo hi b4)
        as (b5 & Hbd & Hinv5)
  end.
  { rewrite Hw4. replace (N - radius - 1 - (N - radius - 1)) with 0 by lia.
    split; [exact Hrow4|]. split.
    { split; [exact Hsz4|]. intros j Hj. specialize (Hcells4 j Hj).
      destruct (Z.leb_spec (N - radius - 1) j), (Z.leb_spec (radius + 1) j),
        (Z.leb_spec j radius); cbn [andb] in *; try assumption; lia. }
    split; [exact Hidx4|]. split; [lia|exact Hsum4]. }
  { intros x b Hx Hb. rewrite Hw4 in Hx. apply boundary_ok; [lia|exact Hb]. }
  rewrite Hbd. box_simpl.
  destruct Hinv5 as (Hrow5 & (Hsz5 & _) & _).
  exists (RectFilter.b_im b5), (RectFilter.buffer b5).
  split; [reflexivity|]. split; [exact Hrow5|exact Hsz5].
Qed.
End BoxBlur.

(** X2.  One iteration of [RectFilter::blurX] with an odd box of width
    at least 3 on a scanline longer than the box: the call returns, and a
    scanline whose samples all equal one constant is left with every sample
    equal to it (sums and quotients taken exactly). *)
Theorem box_blur_keeps_long_constant_scanline
      (v : Q) (N width radius : Z) (im : Image) :
  width = 2 * radius + 1 -> 1 <= radius -> width < N ->
  RectFilter.row_const v N im ->
  exists out, RectFilter.blurX im width 1 = Ok out /\
              RectFilter.row_const v N out.
Proof.
  intros Hw Hr HN Hrow. pose proof Hrow as (_ & Ew & Eh & Ef & Ec & _).
  unfold RectFilter.blurX.
  assert (Hq : Z.quot width 2 = radius).
  { rewrite Z.quot_div_nonneg by lia. subst width.
    replace (2 * radius + 1) with (1 + radius * 2) by lia.
    rewrite Z.div_add by lia. reflexivity. }
  rewrite Hq, Ew.
  destruct (Z.leb_spec width 1); [lia|].
  destruct (Z.eqb_spec N 1); [lia|].
  destruct (Z.leb_spec N radius); [lia|].
  rewrite Ec, Ef, Eh.
  rewrite (for_loop_one 0), (for_loop_one 0), (for_loop_one 0), (for_loop_one 0).
  destruct (@iteration_ok v N width radius Hw Hr HN im
              (vmake width (of_int 0)) Hrow) as (im' & buf' & Hit & Hrow' & _).
  { apply vsize_vmake. lia. }
  rewrite Hit. cbn [bind fst]. exists im'. split; [reflexivity|exact Hrow'].
Qed.

Lemma box_blur_keeps_long_constant_scanline_witness :
  exists out,
    RectFilter.blurX (mkImage 4 1 1 1 [fl 1; fl 1; fl 1; fl 1]) 3 1 = Ok out /\
    RectFilter.row_const 1 4 out.
Proof.
  apply (@box_blur_keeps_long_constant_scanline
           1 4 3 1 (mkImage 4 1 1 1 [fl 1; fl 1; fl 1; fl 1]));
    try lia.
  unfold RectFilter.row_const, wf_image, vsize. simpl.
  repeat (split; [lia|]); try (split; [reflexivity|]).
  repeat (split; [reflexivity|]).
  intros i Hi.
  assert (Hc : i = 0 \/ i = 1 \/ i = 2 \/ i = 3) by lia.
  destruct Hc as [->|[->|[->| ->]]]; exists 1%Q; split; reflexivity.
Defined.

(** *** The chunk-read loop of [blurT] *)

(** C8 (as the code has it).  The loop that loads the chunk in [blurT]
    tests [y < im.frames] while it counts [t]: for a row [y] below the
    number of frames it never returns (in the embedding it runs until the
    first read past the last frame, or until the fuel is spent), and for
    any other row it does not run and the chunk is left as it was.  In
    neither case is the chunk loaded the way [blurY] loads it. *)
Theorem blurT_read_chunk_wrong_test
        (fuel : nat) (im chunk : Image) (x y c size : Z) :
  (y < frames im ->
   forall r, RectFilter.blurT_read_chunk fuel im chunk x y c size <> Ok r) /\
  (frames im <= y ->
   RectFilter.blurT_read_chunk fuel im chunk x y c size = Ok chunk).
Proof.
  unfold RectFilter.blurT_read_chunk. split.
  - intros Hy r.
    match goal with
    | |- context [while_loop fuel ?cond ?body ?s] =>
        pose proof (@while_loop_true_never_ok _ cond body) as Hw;
        destruct (while_loop fuel cond body s) as [st| | |msg] eqn:E
    end; simpl; try discriminate.
    exfalso. eapply Hw; [|exact E].
    intros _. apply Z.ltb_lt. exact Hy.
  - intros Hy. destruct fuel; simpl;
      (destruct (Z.ltb_spec y (frames im)); [lia|reflexivity]).
Qed.

Lemma blurT_read_chunk_wrong_test_witness :
  (forall r, RectFilter.blurT_read_chunk
               5 (mkImage 1 1 2 1 [fl 1; fl 2]) (Image_new 2 8 1 1) 0 0 0 1
             <> Ok r) /\
  RectFilter.blurT_read_chunk
    5 (mkImage 1 3 2 1 [fl 1; fl 2; fl 3; fl 4; fl 5; fl 6])
    (Image_new 2 8 1 1) 0 2 0 1 = Ok (Image_new 2 8 1 1).
Proof.
  split.
  - apply (proj1 (blurT_read_chunk_wrong_test
                    5 (mkImage 1 1 2 1 [fl 1; fl 2]) (Image_new 2 8 1 1)
                    0 0 0 1)).
    simpl. lia.
  - apply (proj2 (blurT_read_chunk_wrong_test
                    5 (mkImage 1 3 2 1 [fl 1; fl 2; fl 3; fl 4; fl 5; fl 6])
                    (Image_new 2 8 1 1) 0 2 0 1)).
    simpl. lia.
Defined.


Lemma read_chunk_never_ok (fuel : nat) (im chunk : Image) (x y c size : Z) :
  y < frames im ->
  forall r, RectFilter.blurT_read_chunk fuel im chunk x y c size <> Ok r.
Proof.
  intros Hy r. unfold RectFilter.blurT_read_chunk.
  match goal with
  | |- context [while_loop fuel ?cond ?body ?s] =>
      pose proof (@while_loop_true_never_ok _ cond body) as Hw;
      destruct (while_loop fuel cond body s) as [st| | |msg] eqn:E
  end; simpl; try discriminate.
  exfalso. eapply Hw; [|exact E].
  intros _. apply Z.ltb_lt. exact Hy.
Qed.

(** X4.  [RectFilter::blurT] with a box wider than 1 returns on no
    image that has more than one frame and at least one sample: the chunk
    of the first row is never loaded, so the frame axis is never blurred. *)
Theorem blurT_never_returns (fuel : nat) (im : Image) (width iterations : Z) :
  1 < width -> 1 < frames im -> 0 < channels im -> 0 < height im ->
  0 < im_width im ->
  forall r, RectFilter.blurT fuel im width iterations <> Ok r.
Proof.
  intros Hw Hf Hc Hh Hx r. unfold RectFilter.blurT.
  destruct (Z.leb_spec width 1); [lia|].
  destruct (Z.eqb_spec (frames im) 1); [lia|].
  match goal with
  | |- (do st <- ?m; _) <> _ =>
      assert (Hm : forall r', m <> Ok r');
      [|destruct m as [st| | |msg] eqn:E; simpl; try discriminate;
        exfalso; now apply (Hm st)]
  end.
  apply for_loop_first_not_ok; [exact Hc|]. intros r1.
  apply for_loop_first_not_ok; [exact Hh|]. intros r2.
  unfold for_step. apply for_loop_first_not_ok.
  { simpl height. apply Z.div_str_pos. lia. }
  intros r3. cbn beta iota.
  match goal with
  | |- context [RectFilter.blurT_read_chunk fuel im ?chunk ?x ?y ?c ?size] =>
      pose proof (@read_chunk_never_ok fuel im chunk x y c size ltac:(lia))
        as Hn;
      destruct (RectFilter.blurT_read_chunk fuel im chunk x y c size)
        as [ch| | |msg] eqn:E; simpl; try discriminate
  end.
  exfalso. now apply (Hn ch).
Qed.

Lemma blurT_never_returns_witness :
  1 < frames (mkImage 1 1 2 1 [fl 1; fl 2]) /\
  forall r, RectFilter.blurT 3 (mkImage 1 1 2 1 [fl 1; fl 2]) 3 1 <> Ok r.
Proof.
  split; [simpl; lia|].
  apply (@blurT_never_returns 3 (mkImage 1 1 2 1 [fl 1; fl 2]) 3 1);
    simpl; lia.
Defined.

Lemma blurT_two_frames_out_of_bounds :
  RectFilter.blurT 3 (mkImage 1 1 2 1 [fl 1; fl 2]) 3 1 = OutOfBounds.
Proof. vm_compute; reflexivity. Qed.

(** ** GaussianBlur and FastBlur *)





Lemma tap_in_bounds (axis : Axis) (size i : Z) :
  0 <= i < size ->
  let '(x, y, t) := GaussianBlur.tap axis i in
  in_bounds (GaussianBlur.filter_new axis size) x y t 0 = true.
Proof.
  intros Hi. destruct axis; simpl; apply in_bounds_iff; simpl; lia.
Qed.

(** The filter image of an axis is built, and has the extents it was
    allocated with. *)
Lemma make_filter_ok (expf : float -> float) (axis : Axis) (sigma : Q) :
  exists filter,
    GaussianBlur.make_filter expf axis sigma = Ok filter /\
    same_extents filter
                 (GaussianBlur.filter_new axis (GaussianBlur.kernel_size sigma)).
Proof.
  unfold GaussianBlur.make_filter.
  set (size := GaussianBlur.kernel_size sigma).
  set (f0 := GaussianBlur.filter_new axis size).
  destruct (Z_le_gt_dec size 0) as [Hneg|Hpos].
  { rewrite for_loop_empty by lia. cbn [bind]. rewrite for_loop_empty by lia.
    exists f0. split; [reflexivity|apply same_extents_refl]. }
  assert (Hwf0 : wf_image f0).
  { unfold f0. destruct axis; apply wf_image_new; lia. }
  match goal with
  | |- context [for_loop 0 size ?body (f0, of_int 0)] =>
      destruct (@for_loop_inv _
                  (fun _ st => wf_image (fst st) /\ same_extents (fst st) f0)
                  body 0 size (f0, of_int 0)) as (st & Hr & Hwf & Hext)
  end.
  { split; [exact Hwf0|apply same_extents_refl]. }
  { intros i [f sum] Hi [Hwf Hext]. simpl in Hwf, Hext.
    pose proof (@tap_in_bounds axis size i Hi) as Hb.
    destruct (GaussianBlur.tap axis i) as [[x y] t].
    fold f0 in Hb. rewrite <- (in_bounds_same_extents x y t 0 Hext) in Hb.
    match goal with
    | |- context [put f x y t 0 ?v] =>
        destruct (@put_ok f x y t 0 v Hwf Hb) as (f' & Hp & Hwf' & Hext' & _)
    end.
    rewrite Hp. cbn [bind]. eexists. split; [reflexivity|]. simpl.
    split; [exact Hwf'|]. eapply same_extents_trans; eauto. }
  rewrite Hr. cbn [bind]. destruct st as [f1 sum]. simpl in Hwf, Hext.
  match goal with
  | |- context [for_loop 0 size ?body f1] =>
      destruct (@for_loop_inv _
                  (fun _ f => wf_image f /\ same_extents f f0)
                  body 0 size f1) as (f2 & Hr2 & Hwf2 & Hext2)
  end.
  { split; assumption. }
  { intros i f Hi [Hwff Hextf].
    pose proof (@tap_in_bounds axis size i Hi) as Hb.
    destruct (GaussianBlur.tap axis i) as [[x y] t].
    fold f0 in Hb. rewrite <- (in_bounds_same_extents x y t 0 Hextf) in Hb.
    destruct (at_ok x y t 0 Hwff Hb) as [v Hv]. rewrite Hv. cbn [bind].
    match goal with
    | |- context [put f x y t 0 ?v] =>
        destruct (@put_ok f x y t 0 v Hwff Hb) as (f' & Hp & Hwf' & Hext' & _)
    end.
    rewrite Hp. eexists. split; [reflexivity|].
    split; [exact Hwf'|]. eapply same_extents_trans; eauto. }
  exists f2. split; [exact Hr2|exact Hext2].
Qed.

Section Fallback.
Variable expf : float -> float.
Variable Convolve_apply : Image -> Image -> result Image.
Variable Paste_apply : Image -> Image -> Z -> Z -> Z -> result Image.
Variable addMargin_default : bool.

Lemma gaussian_blur_one_axis (im : Image) (sigma : Q) :
  Qeq_bool sigma 0 = false ->
  GaussianBlur.apply expf Convolve_apply im sigma 0 0 =
  (do filter <- GaussianBlur.make_filter expf AxisX sigma;
   Convolve_apply im filter) /\
  GaussianBlur.apply expf Convolve_apply im 0 sigma 0 =
  (do filter <- GaussianBlur.make_filter expf AxisY sigma;
   Convolve_apply im filter) /\
  GaussianBlur.apply expf Convolve_apply im 0 0 sigma =
  (do filter <- GaussianBlur.make_filter expf AxisT sigma;
   Convolve_apply im filter).
Proof.
  intros Hs. unfold GaussianBlur.apply, GaussianBlur.blur_axis.
  rewrite Hs. change (Qeq_bool 0 0) with true. cbn [bind].
  repeat split.
  - destruct (GaussianBlur.make_filter expf AxisX sigma); cbn [bind]; auto.
    destruct (Convolve_apply im a); reflexivity.
  - destruct (GaussianBlur.make_filter expf AxisY sigma); cbn [bind]; auto.
    destruct (Convolve_apply im a); reflexivity.
Qed.
End Fallback.

(** C3 (as the code has it).  The fallback hands the standard deviation of
    the narrow axis to [GaussianBlur::apply] one parameter off: the frames
    deviation lands in the width parameter, the width deviation in the
    height parameter and the height deviation in the frames parameter.  On
    a 2x2 image of 2 frames with deviation 2 along one axis only, the
    direct convolution therefore uses a 13x1x1 filter for the frames axis,
    a 1x13x1 filter for the width and a 1x1x13 filter for the height, and
    the recursive call, given zeros, blurs nothing else. *)
Theorem fast_blur_fallback_blurs_other_axis
        (expf : float -> float)
        (Convolve_apply : Image -> Image -> result Image)
        (Paste_apply : Image -> Image -> Z -> Z -> Z -> result Image)
        (addMargin_default : bool) (fuel : nat) :
  exists fx fy ft,
    (GaussianBlur.make_filter expf AxisX 2 = Ok fx /\
     same_extents fx (Image_new 13 1 1 1)) /\
    (GaussianBlur.make_filter expf AxisY 2 = Ok fy /\
     same_extents fy (Image_new 1 13 1 1)) /\
    (GaussianBlur.make_filter expf AxisT 2 = Ok ft /\
     same_extents ft (Image_new 1 1 13 1)) /\
    FastBlur.apply expf Convolve_apply Paste_apply addMargin_default (S fuel)
                   (Image_new 2 2 2 1) 0 0 2 true =
    (do blurry <- Convolve_apply (Image_new 2 2 2 1) fx;
     do blurry <- FastBlur.apply expf Convolve_apply Paste_apply
                                 addMargin_default fuel blurry 0 0 0
                                 addMargin_default;
     Paste_apply (Image_new 2 2 2 1) blurry 0 0 0) /\
    FastBlur.apply expf Convolve_apply Paste_apply addMargin_default (S fuel)
                   (Image_new 2 2 2 1) 2 0 0 true =
    (do blurry <- Convolve_apply (Image_new 2 2 2 1) fy;
     do blurry <- FastBlur.apply expf Convolve_apply Paste_apply
                                 addMargin_default fuel blurry 0 0 0
                                 addMargin_default;
     Paste_apply (Image_new 2 2 2 1) blurry 0 0 0) /\
    FastBlur.apply expf Convolve_apply Paste_apply addMargin_default (S fuel)
                   (Image_new 2 2 2 1) 0 2 0 true =
    (do blurry <- Convolve_apply (Image_new 2 2 2 1) ft;
     do blurry <- FastBlur.apply expf Convolve_apply Paste_apply
                                 addMargin_default fuel blurry 0 0 0
                                 addMargin_default;
     Paste_apply (Image_new 2 2 2 1) blurry 0 0 0).
Proof.
  destruct (make_filter_ok expf AxisX 2) as (fx & Hx & Ex).
  destruct (make_filter_ok expf AxisY 2) as (fy & Hy & Ey).
  destruct (make_filter_ok expf AxisT 2) as (ft & Ht & Et).
  exists fx, fy, ft.
  destruct (@gaussian_blur_one_axis expf Convolve_apply (Image_new 2 2 2 1) 2
              eq_refl) as (Gx & Gy & Gt).
  split; [split; [exact Hx|exact Ex]|].
  split; [split; [exact Hy|exact Ey]|].
  split; [split; [exact Ht|exact Et]|].
  split; [|split].
  - cbn [FastBlur.apply]. change (assert _ _) with (Ok tt (A := unit)).
    cbn [bind]. 
    change (width (Image_new 2 2 2 1)) with 2.
    change (height (Image_new 2 2 2 1)) with 2.
    change (frames (Image_new 2 2 2 1)) with 2.
    cbn [Z.eqb Pos.eqb]. 
    change (Qltb 0 2) with true. change (Qltb 0 0) with false.
    cbn [andb orb Z.ltb Z.compare Pos.compare Pos.compare_cont].
    rewrite Gx, Hx. cbn [bind]. reflexivity.
  - cbn [FastBlur.apply]. change (assert _ _) with (Ok tt (A := unit)).
    cbn [bind].
    change (width (Image_new 2 2 2 1)) with 2.
    change (height (Image_new 2 2 2 1)) with 2.
    change (frames (Image_new 2 2 2 1)) with 2.
    cbn [Z.eqb Pos.eqb].
    change (Qltb 0 2) with true. change (Qltb 0 0) with false.
    cbn [andb orb Z.ltb Z.compare Pos.compare Pos.compare_cont].
    rewrite Gy, Hy. cbn [bind]. reflexivity.
  - cbn [FastBlur.apply]. change (assert _ _) with (Ok tt (A := unit)).
    cbn [bind].
    change (width (Image_new 2 2 2 1)) with 2.
    change (height (Image_new 2 2 2 1)) with 2.
    change (frames (Image_new 2 2 2 1)) with 2.
    cbn [Z.eqb Pos.eqb].
    change (Qltb 0 2) with true. change (Qltb 0 0) with false.
    cbn [andb orb Z.ltb Z.compare Pos.compare Pos.compare_cont].
    rewrite Gt, Ht. cbn [bind]. reflexivity.
Qed.

(** The standard deviation 257 splits into a dense pass of 32 and a sparse
    pass of 255 with taps 8 apart, whose edge steps address rows up to
    [3*8 - 1]. *)
Lemma sparse_pass_of_257 :
  sqrtf (257 * 257 - 32 * 32) = 255%Q /\
  truncate (255 / 32 + 1) = 8 /\
  FastBlur.blurY (Image_new 530 16 1 2) (255 # 8) 8 = OutOfBounds.
Proof. repeat split; vm_compute; reflexivity. Qed.

(** C4 (as the code has it).  The margin branch pads every axis by its own
    deviation and then calls [FastBlur::apply(bigger, filterFrames,
    filterWidth, filterHeight, false)], one parameter off.  On a constant
    16x16 image with deviation 257 along x only, the buffer is padded to
    530 columns and 16 rows, and the recursive call blurs along y with
    deviation 257: the sparse pass, taps 8 apart, addresses row 16 of the
    16 rows.  The call does not return a buffer of ones. *)
Theorem fast_blur_margin_out_of_bounds
        (expf : float -> float)
        (Convolve_apply : Image -> Image -> result Image)
        (Paste_apply : Image -> Image -> Z -> Z -> Z -> result Image)
        (addMargin_default : bool) (fuel : nat) :
  FastBlur.apply expf Convolve_apply Paste_apply addMargin_default
                 (S (S fuel)) (mkImage 16 16 1 1 (vmake 256 (fl 1)))
                 257 0 0 true = OutOfBounds.
Proof. vm_compute. reflexivity. Qed.

(** ** HotPixelSuppression *)



Section HotPixels.
Variable im : Image.
Hypothesis Hwf : wf_image im.

Lemma hp_inv_ext (D D' : Z -> Z -> Z -> Z -> Prop) st :
  (forall x y t c, in_bounds im x y t c = true -> (D x y t c <-> D' x y t c)) ->
  HotPixelSuppression.hp_inv im D st -> HotPixelSuppression.hp_inv im D' st.
Proof.
  intros Heq (H1 & H2 & H3 & H4).
  split; [exact H1|]. split; [exact H2|]. split; [exact H3|].
  intros x y t c Hb. destruct (H4 x y t c Hb) as [Hd Hn].
  split; intros HD.
  - apply Hd. now apply (Heq x y t c Hb).
  - apply Hn. intros F. apply HD. now apply (Heq x y t c Hb).
Qed.

Lemma interior_inside (x y : Z) :
  HotPixelSuppression.interior im x y = true <-> HotPixelSuppression.inside im x y.
Proof.
  unfold HotPixelSuppression.interior, HotPixelSuppression.inside.
  rewrite !andb_true_iff, !Z.ltb_lt. tauto.
Qed.



Lemma suppress_step (t0 y0 x0 c0 : Z) (st : Image * Image) :
  0 <= t0 < frames im -> HotPixelSuppression.inside im x0 y0 -> 0 <= c0 < channels im ->
  HotPixelSuppression.hp_inv im (HotPixelSuppression.done_c im t0 y0 x0 c0) st ->
  exists st', HotPixelSuppression.suppress x0 y0 t0 c0 st = Ok st' /\
              HotPixelSuppression.hp_inv im (HotPixelSuppression.done_c im t0 y0 x0 (c0 + 1)) st'.
Proof.
  intros Ht (Hx & Hy) Hc (H1 & H2 & H3 & H4).
  destruct st as [im0 out]. simpl in H1, H2, H3, H4. subst im0.
  unfold HotPixelSuppression.suppress.
  assert (R1 : at_ im (x0 - 1) y0 t0 c0 = Ok (sample im (x0 - 1) y0 t0 c0))
    by (apply sample_at; [exact Hwf|apply in_bounds_iff; lia]).
  assert (R2 : at_ im (x0 + 1) y0 t0 c0 = Ok (sample im (x0 + 1) y0 t0 c0))
    by (apply sample_at; [exact Hwf|apply in_bounds_iff; lia]).
  assert (R3 : at_ im x0 (y0 - 1) t0 c0 = Ok (sample im x0 (y0 - 1) t0 c0))
    by (apply sample_at; [exact Hwf|apply in_bounds_iff; lia]).
  assert (R4 : at_ im x0 (y0 + 1) t0 c0 = Ok (sample im x0 (y0 + 1) t0 c0))
    by (apply sample_at; [exact Hwf|apply in_bounds_iff; lia]).
  assert (R5 : at_ im x0 y0 t0 c0 = Ok (sample im x0 y0 t0 c0))
    by (apply sample_at; [exact Hwf|apply in_bounds_iff; lia]).
  rewrite R1, R2, R3, R4, R5. cbn [bind].
  rewrite suppress_is_clamp.
  assert (Bo : in_bounds out x0 y0 t0 c0 = true)
    by (rewrite (in_bounds_same_extents _ _ _ _ H3); apply in_bounds_iff; lia).
  match goal with
  | |- context [put out x0 y0 t0 c0 ?v] =>
      destruct (@put_ok out x0 y0 t0 c0 v H2 Bo)
        as (out' & Hp & Hwf' & Hext & Hsame & Hoth)
  end.
  rewrite Hp. cbn [bind]. eexists. split; [reflexivity|].
  assert (Hext' : same_extents out' im).
  { destruct Hext as (E1 & E2 & E3 & E4), H3 as (F1 & F2 & F3 & F4).
    unfold same_extents. rewrite E1, E2, E3, E4. auto. }
  unfold HotPixelSuppression.hp_inv. simpl fst; simpl snd.
  split; [reflexivity|]. split; [exact Hwf'|]. split; [exact Hext'|].
  intros x y t c Hb.
  assert (Hcase : (x, y, t, c) = (x0, y0, t0, c0) \/
                  (x, y, t, c) <> (x0, y0, t0, c0)).
  { destruct (Z.eq_dec x x0), (Z.eq_dec y y0), (Z.eq_dec t t0),
      (Z.eq_dec c c0); subst; auto; right; congruence. }
  destruct Hcase as [E | Hne].
  - inversion E; subst. split.
    + intros _. rewrite Hsame. unfold HotPixelSuppression.expected.
      assert (Hi : HotPixelSuppression.interior im x0 y0 = true)
        by (apply interior_inside; split; lia).
      now rewrite Hi.
    + intros F. exfalso. apply F. unfold HotPixelSuppression.done_c, HotPixelSuppression.inside. lia.
  - rewrite (Hoth _ _ _ _ Hne).
    destruct (H4 x y t c Hb) as [Hd Hn]. split.
    + intros HD. apply Hd. unfold HotPixelSuppression.done_c in *.
      destruct HD as (Hin & HD). split; [exact Hin|].
      assert (~ (x = x0 /\ y = y0 /\ t = t0 /\ c = c0))
        by (intros (-> & -> & -> & ->); now apply Hne).
      lia.
    + intros HD. apply Hn. intros F. apply HD. unfold HotPixelSuppression.done_c in *.
      destruct F as (Hin & F). split; [exact Hin|]. lia.
Qed.

Lemma hp_c_loop (t0 y0 x0 : Z) (st : Image * Image) :
  0 <= t0 < frames im -> HotPixelSuppression.inside im x0 y0 ->
  HotPixelSuppression.hp_inv im (HotPixelSuppression.done_c im t0 y0 x0 0) st ->
  exists st',
    for_loop 0 (channels im)
             (fun c st => HotPixelSuppression.suppress x0 y0 t0 c st) st
    = Ok st' /\
    HotPixelSuppression.hp_inv im (HotPixelSuppression.done_c im t0 y0 (x0 + 1) 0) st'.
Proof.
  intros Ht Hin H0.
  destruct (@for_loop_inv _ (fun c st => HotPixelSuppression.hp_inv im (HotPixelSuppression.done_c im t0 y0 x0 c) st)
              (fun c st => HotPixelSuppression.suppress x0 y0 t0 c st)
              0 (channels im) st H0) as (st' & Hr & Hi).
  { intros c s Hc Hs. apply suppress_step; auto. }
  exists st'. split; [exact Hr|].
  revert Hi. apply hp_inv_ext. intros x y t c Hb.
  apply in_bounds_iff in Hb. unfold HotPixelSuppression.done_c, HotPixelSuppression.inside. lia.
Qed.

Lemma hp_x_loop (t0 y0 : Z) (st : Image * Image) :
  0 <= t0 < frames im -> 0 < y0 < height im - 1 ->
  HotPixelSuppression.hp_inv im (HotPixelSuppression.done_c im t0 y0 1 0) st ->
  exists st',
    for_loop 1 (width im - 1) (fun x st =>
      for_loop 0 (channels im)
               (fun c st => HotPixelSuppression.suppress x y0 t0 c st) st) st
    = Ok st' /\
    HotPixelSuppression.hp_inv im (HotPixelSuppression.done_c im t0 (y0 + 1) 1 0) st'.
Proof.
  intros Ht Hy H0.
  destruct (@for_loop_inv _ (fun x st => HotPixelSuppression.hp_inv im (HotPixelSuppression.done_c im t0 y0 x 0) st)
              (fun x st =>
                 for_loop 0 (channels im)
                   (fun c st => HotPixelSuppression.suppress x y0 t0 c st) st)
              1 (width im - 1) st H0) as (st' & Hr & Hi).
  { intros x s Hx Hs. apply hp_c_loop; auto. unfold HotPixelSuppression.inside. lia. }
  exists st'. split; [exact Hr|].
  revert Hi. apply hp_inv_ext. intros x y t c Hb.
  apply in_bounds_iff in Hb. unfold HotPixelSuppression.done_c, HotPixelSuppression.inside. lia.
Qed.

Lemma hp_y_loop (t0 : Z) (st : Image * Image) :
  0 <= t0 < frames im ->
  HotPixelSuppression.hp_inv im (HotPixelSuppression.done_c im t0 1 1 0) st ->
  exists st',
    for_loop 1 (height im - 1) (fun y st =>
      for_loop 1 (width im - 1) (fun x st =>
        for_loop 0 (channels im)
                 (fun c st => HotPixelSuppression.suppress x y t0 c st) st) st) st
    = Ok st' /\
    HotPixelSuppression.hp_inv im (HotPixelSuppression.done_c im (t0 + 1) 1 1 0) st'.
Proof.
  intros Ht H0.
  destruct (@for_loop_inv _ (fun y st => HotPixelSuppression.hp_inv im (HotPixelSuppression.done_c im t0 y 1 0) st)
              (fun y st =>
                 for_loop 1 (width im - 1) (fun x st =>
                   for_loop 0 (channels im)
                     (fun c st => HotPixelSuppression.suppress x y t0 c st) st) st)
              1 (height im - 1) st H0) as (st' & Hr & Hi).
  { intros y s Hy Hs. apply hp_x_loop; auto. lia. }
  exists st'. split; [exact Hr|].
  revert Hi. apply hp_inv_ext. intros x y t c Hb.
  apply in_bounds_iff in Hb. unfold HotPixelSuppression.done_c, HotPixelSuppression.inside. lia.
Qed.

Lemma hp_t_loop :
  exists st', HotPixelSuppression.apply im = Ok st' /\
              HotPixelSuppression.hp_inv im (HotPixelSuppression.done_c im (Z.max 0 (frames im)) 1 1 0) st'.
Proof.
  unfold HotPixelSuppression.apply.
  apply (@for_loop_inv _ (fun t st => HotPixelSuppression.hp_inv im (HotPixelSuppression.done_c im t 1 1 0) st)).
  - destruct Hwf as (Hw & Hh & Hf & Hc & _).
    unfold HotPixelSuppression.hp_inv. simpl fst; simpl snd.
    split; [reflexivity|]. split; [now apply wf_image_new|].
    split; [unfold same_extents; simpl; auto|].
    intros x y t c Hb.
    assert (Hz : at_ (Image_new (width im) (height im) (frames im) (channels im))
                     x y t c = Ok (of_int 0)).
    { apply at_image_new. rewrite <- Hb. apply in_bounds_same_extents.
      unfold same_extents; simpl; auto. }
    split; [|intros _; exact Hz].
    intros (Hin & HD). apply in_bounds_iff in Hb. unfold HotPixelSuppression.inside in Hin. lia.
  - intros t s Ht Hs. apply hp_y_loop; auto.
Qed.
End HotPixels.

(** C10.  On an image whose storage matches its extents,
    [HotPixelSuppression::apply] leaves the input buffer as it was and
    returns a buffer of the same extents, allocated by the call, in which a
    pixel with four axis-neighbours ([0 < x < width-1], [0 < y < height-1])
    is the input sample clamped between the minimum and the maximum of
    those neighbours, and a pixel of the one-pixel border is the zero the
    allocation put there. *)
Theorem hot_pixel_suppression_interior_and_border (im : Image) :
  wf_image im ->
  exists out,
    HotPixelSuppression.apply im = Ok (im, out) /\
    wf_image out /\ same_extents out im /\
    forall x y t c, in_bounds im x y t c = true ->
      at_ out x y t c =
      Ok (if HotPixelSuppression.interior im x y
          then HotPixelSuppression.clamp_to_neighbours
                 (sample im (x - 1) y t c) (sample im (x + 1) y t c)
                 (sample im x (y - 1) t c) (sample im x (y + 1) t c)
                 (sample im x y t c)
          else of_int 0).
Proof.
  intros Hwf.
  destruct (hp_t_loop Hwf) as ([im' out] & Hr & H1 & H2 & H3 & H4).
  simpl in H1, H2, H3, H4. subst im'.
  exists out. split; [exact Hr|]. split; [exact H2|]. split; [exact H3|].
  intros x y t c Hb. destruct (H4 x y t c Hb) as [Hd Hn].
  fold (HotPixelSuppression.expected im x y t c).
  destruct (HotPixelSuppression.interior im x y) eqn:Hi.
  - apply Hd. apply interior_inside in Hi. split; [exact Hi|].
    apply in_bounds_iff in Hb. lia.
  - unfold HotPixelSuppression.expected in *. rewrite Hi.
    apply Hn. intros (Hin & _). apply interior_inside in Hin. congruence.
Qed.

Lemma hot_pixel_suppression_interior_and_border_witness :
  exists out,
    HotPixelSuppression.apply
      (mkImage 3 3 1 1 [fl 1; fl 2; fl 3; fl 4; fl 50; fl 6; fl 7; fl 8; fl 9])
    = Ok (mkImage 3 3 1 1 [fl 1; fl 2; fl 3; fl 4; fl 50; fl 6; fl 7; fl 8; fl 9],
          out) /\
    at_ out 1 1 0 0 = Ok (fl 8) /\ at_ out 0 1 0 0 = Ok (fl 0).
Proof.
  destruct (@hot_pixel_suppression_interior_and_border
              (mkImage 3 3 1 1 [fl 1; fl 2; fl 3; fl 4; fl 50; fl 6; fl 7; fl 8; fl 9]))
    as (out & Hr & _ & _ & Hpx).
  { unfold wf_image, vsize; simpl; lia. }
  exists out. split; [exact Hr|]. split.
  - rewrite (Hpx 1 1 0 0); reflexivity.
  - rewrite (Hpx 0 1 0 0); reflexivity.
Defined.

(** ** The sliding window of the percentile filter *)

Import SlidingNewImage.

(** C2 (as the code has it).  [insert] classifies the new value against
    [pivot()], the value the root of the max heap points at, and consults
    the emptiness of the whole window only.  Once removals leave the max
    heap empty while the min heap is not, that pointer is meaningless: here
    it selects slot 0, which still holds the initial zero, so -1 joins the
    low partition although -3 sits in the high one.  The window then holds
    -3, -2 and -1, and after [rebalance(0.5)] the pivot is -1, not the
    median -2. *)
Theorem pivot_after_rebalance_not_median :
  exists w,
    (do w0 <- new 9;
     do w1 <- run w0 [Insert 1 (fl (-5)); Insert 2 (fl (-3)); Remove 1;
                      Insert 3 (fl (-1)); Insert 0 (fl (-2))];
     rebalance w1 (1 # 2)) = Ok w /\
    pivot w = Ok (fl (-1)) /\
    live_values w = [fl (-2); fl (-1); fl (-3)] /\
    ~ is_median (fl (-1)) (live_values w) /\
    is_median (fl (-2)) (live_values w).
Proof.
  eexists. split; [vm_compute; reflexivity|].
  split; [vm_compute; reflexivity|].
  split; [vm_compute; reflexivity|].
  split.
  - intros (_ & _ & H). vm_compute in H. apply H. reflexivity.
  - split; [vm_compute; auto|]. split; vm_compute; discriminate.
Qed.

(** The product [total * (1.0f - percentile)] is a [float]: with ten live
    values and the percentile [0.3f] it is rounded up to 7, where the exact
    product is just below 7. *)
Lemma desiredMinHeapSize_rounds :
  to_float (Fin (3 # 10)) = Fin (5033165 # 16777216) /\
  desiredMinHeapSize 10 (5033165 # 16777216) = 7 /\
  truncate (inject_Z 10 * (1 - (5033165 # 16777216))) = 6.
Proof. vm_compute. repeat split. Qed.

(** C6 (the claim as stated fails).  Four values are inserted and the
    window is rebalanced for the percentile 5/8, so that
    [T * (1 - p) = 1.5] with no rounding.  The claim gives the low partition
    [clamp(round(1.5), 0, 3) = 2] values; the code leaves it 3, and the
    high partition [int(1.5) = 1]: the size the code computes is that of
    the high partition, and it is truncated, not rounded. *)
Lemma rebalance_low_size_not_clamp_round :
  exists w w',
    (do w0 <- new 4;
     run w0 [Insert 0 (fl 1); Insert 1 (fl 2); Insert 2 (fl 3);
             Insert 3 (fl 4)]) = Ok w /\
    vsize (low_values w) + vsize (high_values w) = 4 /\
    rebalance w (5 # 8) = Ok w' /\
    iclamp (round_half_up (inject_Z 4 * (1 - (5 # 8)))) 0 (4 - 1) = 2 /\
    vsize (low_values w') = 3 /\ vsize (high_values w') = 1.
Proof.
  eexists. eexists. split; [vm_compute; reflexivity|].
  split; [vm_compute; reflexivity|].
  split; [vm_compute; reflexivity|].
  split; vm_compute; auto.
Qed.

(** *** Heap nodes *)

Lemma nd_vget (h : list node) (p : Z) :
  0 <= p < vsize h -> vget h p = Ok (nd h p).
Proof.
  intros Hp. destruct (vget_ok h Hp) as [x Hx]. unfold nd. now rewrite Hx.
Qed.

Lemma vset_nd (h : list node) (p : Z) (x : node) :
  0 <= p < vsize h ->
  exists h', vset h p x = Ok h' /\ vsize h' = vsize h /\ nd h' p = x /\
             forall q, q <> p -> nd h' q = nd h q.
Proof.
  intros Hp. destruct (vset_ok h x Hp) as (h' & Hs & Hsz & Hg & Ho).
  exists h'. split; [exact Hs|]. split; [exact Hsz|]. split.
  - unfold nd. now rewrite Hg.
  - intros q Hq. unfold nd. now rewrite (Ho q Hq).
Qed.

Lemma set_second_nd (h : list node) (p v : Z) :
  0 <= p < vsize h ->
  exists h', set_second h p v = Ok h' /\ vsize h' = vsize h /\
             nd h' p = (fst (nd h p), v) /\
             forall q, q <> p -> nd h' q = nd h q.
Proof.
  intros Hp. unfold set_second. rewrite (nd_vget h Hp). cbn [bind].
  now apply vset_nd.
Qed.

Lemma parent_child (p : Z) :
  1 <= p ->
  0 <= Z.quot (p - 1) 2 < p /\
  (p = Z.quot (p - 1) 2 * 2 + 1 \/ p = Z.quot (p - 1) 2 * 2 + 2).
Proof.
  intros Hp. rewrite Z.quot_div_nonneg by lia.
  pose proof (Z.div_mod (p - 1) 2 ltac:(lia)) as E.
  pose proof (Z.mod_pos_bound (p - 1) 2 ltac:(lia)) as B.
  lia.
Qed.

Lemma node_eqb_eq (a b : node) : node_eqb a b = true <-> a = b.
Proof.
  destruct a as [a1 a2], b as [b1 b2]. unfold node_eqb. simpl.
  rewrite andb_true_iff, !Z.eqb_eq. split.
  - intros [-> ->]. reflexivity.
  - intros E. inversion E. auto.
Qed.

(** *** One walk of [updateFrom] *)

Section FixUp.
Variable prefer : float -> float -> bool.
Variable bf : list float.
Variable n : Z.
Hypothesis Hbuf : vsize bf = n.

(** The walk from [p] in a heap that is in order everywhere but at the
    parent of [p], whose count is [delta] short of its children's: the
    heap ends in order, its leaves untouched, the count at the root
    moved by [delta]. *)
Lemma fix_up_ok :
  forall (fuel : nat) (h : list node) (p delta R : Z),
    heap_shape n h ->
    0 <= p <= 2 * n - 2 ->
    (Z.to_nat p <= fuel)%nat ->
    (forall q, 0 <= q < n - 1 -> p = 0 \/ q <> Z.quot (p - 1) 2 ->
               consistent h q) ->
    (p = 0 -> snd (nd h 0) = R + delta) ->
    (p <> 0 ->
     snd (nd h 0) = R /\
     snd (nd h (Z.quot (p - 1) 2)) =
     snd (nd h (Z.quot (p - 1) 2 * 2 + 1)) +
     snd (nd h (Z.quot (p - 1) 2 * 2 + 2)) - delta) ->
    exists h',
      fix_up prefer fuel bf h p = Ok h' /\
      heap_ok n h' /\
      snd (nd h' 0) = R + delta /\
      vsize h' = vsize h /\
      forall i, 0 <= i < n -> nd h' (i + n - 1) = nd h (i + n - 1).
Proof.
  induction fuel as [|fuel IH]; intros h p delta R Hsh Hp Hfuel Hcons H0 Hn0.
  - assert (p = 0) by lia. subst p. simpl.
    exists h. split; [reflexivity|]. split.
    + split; [exact Hsh|]. intros q Hq. apply Hcons; auto.
    + split; [now apply H0|]. split; auto.
  - simpl fix_up. destruct (Z.eqb_spec p 0) as [->|Hne].
    + exists h. split; [reflexivity|]. split.
      * split; [exact Hsh|]. intros q Hq. apply Hcons; auto.
      * split; [now apply H0|]. split; auto.
    + destruct (Hn0 Hne) as [HR Hoff]. clear H0 Hn0.
      destruct (@parent_child p ltac:(lia)) as [Hq Hchild].
      set (q := Z.quot (p - 1) 2) in *.
      destruct Hsh as (Hsz & Hrange & Hleaf).
      assert (Hq2 : q * 2 + 2 <= 2 * n - 2) by lia.
      destruct (Hrange (q * 2 + 1) ltac:(lia)) as [Hfa Hsa].
      destruct (Hrange (q * 2 + 2) ltac:(lia)) as [Hfb Hsb].
      rewrite (@nd_vget h (q * 2 + 1)) by lia. cbn [bind].
      rewrite (@nd_vget h (q * 2 + 2)) by lia. cbn [bind].
      set (a := nd h (q * 2 + 1)) in *. set (b := nd h (q * 2 + 2)) in *.
      (* the pointer of the parent *)
      assert (Hfirst : exists first,
                 (if negb (snd a =? 0) && negb (snd b =? 0)
                  then do va <- vget bf (fst a);
                       do vb <- vget bf (fst b);
                       Ok (if prefer va vb then fst a else fst b)
                  else if negb (snd b =? 0) then Ok (fst b) else Ok (fst a))
                 = Ok first /\
                 0 <= first < n /\
                 (0 < snd a + snd b ->
                  (0 < snd a /\ first = fst a) \/ (0 < snd b /\ first = fst b))).
      { destruct (Z.eqb_spec (snd a) 0) as [Ea|Ea];
          destruct (Z.eqb_spec (snd b) 0) as [Eb|Eb]; cbn [negb andb].
        - exists (fst a). split; [reflexivity|]. split; [exact Hfa|]. lia.
        - exists (fst b). split; [reflexivity|]. split; [exact Hfb|].
          intros _. right. split; [lia|reflexivity].
        - exists (fst a). split; [reflexivity|]. split; [exact Hfa|].
          intros _. left. split; [lia|reflexivity].
        - destruct (@vget_ok _ bf (fst a) ltac:(lia)) as [va Hva].
          destruct (@vget_ok _ bf (fst b) ltac:(lia)) as [vb Hvb].
          rewrite Hva, Hvb. cbn [bind].
          destruct (prefer va vb).
          + exists (fst a). split; [reflexivity|]. split; [exact Hfa|].
            intros _. left. split; [lia|reflexivity].
          + exists (fst b). split; [reflexivity|]. split; [exact Hfb|].
            intros _. right. split; [lia|reflexivity]. }
      destruct Hfirst as (first & Hfst & Hfr & Hvalid).
      rewrite Hfst. cbn [bind].
      rewrite (@nd_vget h q) by lia. cbn [bind].
      destruct (node_eqb (nd h q) (first, snd a + snd b)) eqn:Eq.
      * (* the parent does not change: break *)
        apply node_eqb_eq in Eq.
        exists h. split; [reflexivity|].
        assert (Hd : delta = 0).
        { rewrite Eq in Hoff. simpl in Hoff. fold a b in Hoff. lia. }
        split.
        { split; [exact (conj Hsz (conj Hrange Hleaf))|].
          intros q' Hq'. destruct (Z.eq_dec q' q) as [->|Hneq].
          - unfold consistent. fold a b. rewrite Eq. simpl. split; auto.
          - apply Hcons; auto. }
        split; [lia|]. split; auto.
      * destruct (@vset_nd h q (first, snd a + snd b) ltac:(lia))
          as (h' & Hset & Hsz' & Hnq & Hoth).
        rewrite Hset. cbn [bind].
        assert (Hsh' : heap_shape n h').
        { split; [lia|]. split.
          - intros k Hk. destruct (Z.eq_dec k q) as [->|Hkq].
            + rewrite Hnq. simpl. lia.
            + rewrite (Hoth k Hkq). now apply Hrange.
          - intros i Hi. rewrite (Hoth (i + n - 1)) by lia. now apply Hleaf. }
        destruct (IH h' q delta R Hsh' ltac:(lia) ltac:(lia))
          as (h2 & Hfix & Hok & Hroot & Hsz2 & Hleaves).
        { (* the nodes in order *)
          intros q' Hq' Hor. destruct (Z.eq_dec q' q) as [->|Hneq].
          - unfold consistent. rewrite Hnq.
            rewrite (Hoth (q * 2 + 1)), (Hoth (q * 2 + 2)) by lia.
            fold a b. simpl. split; auto.
          - assert (Hc : consistent h q') by (apply Hcons; auto).
            assert (Hk1 : q' * 2 + 1 <> q).
            { destruct Hor as [->|Hor]; [lia|].
              intros E. apply Hor.
              destruct (@parent_child q ltac:(lia)) as [_ Hch]. lia. }
            assert (Hk2 : q' * 2 + 2 <> q).
            { destruct Hor as [->|Hor]; [lia|].
              intros E. apply Hor.
              destruct (@parent_child q ltac:(lia)) as [_ Hch]. lia. }
            unfold consistent in *.
            now rewrite (Hoth q' Hneq), (Hoth _ Hk1), (Hoth _ Hk2). }
        { (* the root, when the walk has reached it *)
          intros ->. rewrite Hnq. simpl. lia. }
        { (* the parent of the node just written *)
          intros Hq0. rewrite (Hoth 0) by lia. split; [exact HR|].
          destruct (@parent_child q ltac:(lia)) as [Hr Hch].
          set (r := Z.quot (q - 1) 2) in *.
          assert (Hcr : consistent h r) by (apply Hcons; lia).
          destruct Hcr as [Hsum _].
          rewrite (Hoth r) by lia. rewrite Hsum.
          destruct Hch as [Hch|Hch].
          - rewrite <- Hch. rewrite Hnq. rewrite (Hoth (r * 2 + 2)) by lia.
            simpl. lia.
          - rewrite <- Hch. rewrite Hnq. rewrite (Hoth (r * 2 + 1)) by lia.
            simpl. lia. }
        exists h2. split; [exact Hfix|]. split; [exact Hok|].
        split; [exact Hroot|]. split; [lia|].
        intros i Hi. rewrite (Hleaves i Hi). apply Hoth. lia.
Qed.
End FixUp.

(** *** A leaf changes and the walk repairs the heap *)

Lemma leaf_update (prefer : float -> float -> bool) (bf : list float)
      (n : Z) (h : list node) (i v : Z) :
  vsize bf = n -> heap_ok n h -> 0 <= i < n -> 0 <= v <= 1 ->
  exists h1 h2,
    set_second h (i + n - 1) v = Ok h1 /\
    fix_up prefer (Z.to_nat (i + n - 1)) bf h1 (i + n - 1) = Ok h2 /\
    heap_ok n h2 /\
    snd (nd h2 0) = snd (nd h 0) + (v - snd (nd h (i + n - 1))) /\
    vsize h2 = vsize h /\
    nd h2 (i + n - 1) = (i, v) /\
    forall j, 0 <= j < n -> j <> i -> nd h2 (j + n - 1) = nd h (j + n - 1).
Proof.
  intros Hbuf [(Hsz & Hrange & Hleaf) Hcons] Hi Hv.
  set (l := i + n - 1) in *.
  destruct (@set_second_nd h l v ltac:(lia)) as (h1 & Hset & Hsz1 & Hnl & Hoth).
  destruct (Hleaf i Hi) as [Hfi Hsi]. fold l in Hfi, Hsi.
  rewrite Hfi in Hnl.
  assert (Hsh1 : heap_shape n h1).
  { split; [lia|]. split.
    - intros k Hk. destruct (Z.eq_dec k l) as [->|Hkl].
      + rewrite Hnl. simpl. lia.
      + rewrite (Hoth k Hkl). now apply Hrange.
    - intros j Hj. destruct (Z.eq_dec j i) as [->|Hji].
      + fold l. rewrite Hnl. simpl. lia.
      + rewrite (Hoth (j + n - 1)) by lia. now apply Hleaf. }
  destruct (@fix_up_ok prefer bf n Hbuf (Z.to_nat l) h1 l
              (v - snd (nd h l)) (snd (nd h 0)) Hsh1 ltac:(lia) ltac:(lia))
    as (h2 & Hfix & Hok & Hroot & Hsz2 & Hleaves).
  - intros q Hq Hor.
    assert (Hc : consistent h q) by now apply Hcons.
    assert (Hk1 : q * 2 + 1 <> l).
    { destruct Hor as [E|Hor]; [lia|]. intros E. apply Hor.
      destruct (@parent_child l ltac:(lia)) as [_ Hch]. lia. }
    assert (Hk2 : q * 2 + 2 <> l).
    { destruct Hor as [E|Hor]; [lia|]. intros E. apply Hor.
      destruct (@parent_child l ltac:(lia)) as [_ Hch]. lia. }
    unfold consistent in *.
    now rewrite (Hoth q ltac:(lia)), (Hoth _ Hk1), (Hoth _ Hk2).
  - intros E. rewrite E in *. rewrite Hnl. simpl. lia.
  - intros Hl0. rewrite (Hoth 0) by lia. split; [reflexivity|].
    destruct (@parent_child l ltac:(lia)) as [Hr Hch].
    set (r := Z.quot (l - 1) 2) in *.
    assert (Hcr : consistent h r) by (apply Hcons; lia).
    destruct Hcr as [Hsum _].
    rewrite (Hoth r) by lia. rewrite Hsum.
    destruct Hch as [Hch|Hch].
    + rewrite <- Hch. rewrite Hnl. rewrite (Hoth (r * 2 + 2)) by lia.
      simpl. lia.
    + rewrite <- Hch. rewrite Hnl. rewrite (Hoth (r * 2 + 1)) by lia.
      simpl. lia.
  - exists h1, h2. split; [exact Hset|]. split; [exact Hfix|].
    split; [exact Hok|]. split; [exact Hroot|]. split; [lia|]. split.
    + unfold l. rewrite (Hleaves i Hi). fold l. exact Hnl.
    + intros j Hj Hji. rewrite (Hleaves j Hj). apply Hoth. lia.
Qed.

(** A node that counts something points at a slot whose leaf counts 1. *)
Lemma live_first (n : Z) (h : list node) :
  heap_ok n h ->
  forall (k : nat) (p : Z),
    0 <= p <= 2 * n - 2 -> (Z.to_nat (2 * n - 2 - p) <= k)%nat ->
    0 < snd (nd h p) ->
    0 <= fst (nd h p) < n /\ snd (nd h (fst (nd h p) + n - 1)) = 1.
Proof.
  intros [(Hsz & Hrange & Hleaf) Hcons].
  induction k as [|k IH]; intros p Hp Hk Hpos.
  - assert (p = 2 * n - 2) by lia. subst p.
    destruct (Hleaf (n - 1) ltac:(lia)) as [Hf Hs].
    replace (n - 1 + n - 1) with (2 * n - 2) in * by lia.
    rewrite Hf. split; [lia|].
    replace (n - 1 + n - 1) with (2 * n - 2) by lia. lia.
  - destruct (Z_lt_le_dec p (n - 1)) as [Hint|Hlf].
    + destruct (Hcons p ltac:(lia)) as [_ Hv].
      destruct (Hv Hpos) as [[Hc Hf]|[Hc Hf]]; rewrite Hf; apply IH; lia || auto.
    + destruct (Hleaf (p - (n - 1)) ltac:(lia)) as [Hf Hs].
      replace (p - (n - 1) + n - 1) with p in * by lia.
      rewrite Hf. split; [lia|].
      replace (p - (n - 1) + n - 1) with p by lia. lia.
Qed.

(** *** The window after a leaf of each heap is rewritten *)

Lemma update_leaves (w : t) (i vmin vmax : Z) :
  wf w -> 0 <= i < vsize (buf w) ->
  0 <= vmin -> 0 <= vmax -> vmin + vmax <= 1 ->
  exists mn mx w',
    set_second (minHeap w) (i + vsize (buf w) - 1) vmin = Ok mn /\
    set_second (maxHeap w) (i + vsize (buf w) - 1) vmax = Ok mx /\
    updateFrom (mkWindow (buf w) mn mx) (i + vsize (buf w) - 1) = Ok w' /\
    wf w' /\ buf w' = buf w /\
    snd (nd (minHeap w') 0) =
    snd (nd (minHeap w) 0) + (vmin - snd (nd (minHeap w) (i + vsize (buf w) - 1))) /\
    snd (nd (maxHeap w') 0) =
    snd (nd (maxHeap w) 0) + (vmax - snd (nd (maxHeap w) (i + vsize (buf w) - 1))).
Proof.
  intros (Hn & Hmin & Hmax & Hex) Hi Hvmin Hvmax Hsum.
  set (n := vsize (buf w)) in *.
  destruct (@leaf_update flt (buf w) n (minHeap w) i vmin eq_refl Hmin Hi
              ltac:(lia))
    as (mn & mn2 & Hs1 & Hf1 & Hok1 & Hr1 & Hz1 & Hl1 & Ho1).
  destruct (@leaf_update fgt (buf w) n (maxHeap w) i vmax eq_refl Hmax Hi
              ltac:(lia))
    as (mx & mx2 & Hs2 & Hf2 & Hok2 & Hr2 & Hz2 & Hl2 & Ho2).
  exists mn, mx, (mkWindow (buf w) mn2 mx2).
  split; [exact Hs1|]. split; [exact Hs2|]. split.
  { unfold updateFrom. simpl buf. simpl minHeap. simpl maxHeap.
    fold n. rewrite Hf1. cbn [bind]. rewrite Hf2. reflexivity. }
  split.
  { unfold wf. simpl buf. simpl minHeap. simpl maxHeap. fold n.
    split; [exact Hn|]. split; [exact Hok1|]. split; [exact Hok2|].
    intros j Hj. destruct (Z.eq_dec j i) as [->|Hji].
    - rewrite Hl1, Hl2. simpl. lia.
    - rewrite (Ho1 j Hj Hji), (Ho2 j Hj Hji). now apply Hex. }
  split; [reflexivity|]. split; [exact Hr1|exact Hr2].
Qed.

Lemma root_in_range (w : t) :
  wf w -> 0 < vsize (minHeap w) /\ 0 < vsize (maxHeap w).
Proof.
  intros (Hn & [(Hs1 & _) _] & [(Hs2 & _) _] & _). lia.
Qed.

Lemma min_count_nd (w : t) : wf w -> min_count w = Ok (snd (nd (minHeap w) 0)).
Proof.
  intros Hwf. destruct (root_in_range Hwf) as [H1 _].
  unfold min_count. rewrite (@nd_vget (minHeap w) 0) by lia. reflexivity.
Qed.

Lemma max_count_nd (w : t) : wf w -> max_count w = Ok (snd (nd (maxHeap w) 0)).
Proof.
  intros Hwf. destruct (root_in_range Hwf) as [_ H2].
  unfold max_count. rewrite (@nd_vget (maxHeap w) 0) by lia. reflexivity.
Qed.

(** One round of the first loop of [rebalance]. *)
Lemma min_to_max_ok (w : t) :
  wf w -> 0 < snd (nd (minHeap w) 0) ->
  exists w', min_to_max w = Ok w' /\ wf w' /\ buf w' = buf w /\
             snd (nd (minHeap w') 0) = snd (nd (minHeap w) 0) - 1 /\
             snd (nd (maxHeap w') 0) = snd (nd (maxHeap w) 0) + 1.
Proof.
  intros Hwf Hpos. pose proof Hwf as (Hn & Hmin & Hmax & Hex).
  destruct (root_in_range Hwf) as [R1 R2].
  set (n := vsize (buf w)) in *.
  destruct (@live_first n (minHeap w) Hmin (Z.to_nat (2 * n - 2)) 0
              ltac:(lia) ltac:(lia) Hpos) as [Hfr Hlive].
  set (i := fst (nd (minHeap w) 0)) in *.
  destruct (@update_leaves w i 0 1 Hwf Hfr ltac:(lia) ltac:(lia) ltac:(lia))
    as (mn & mx & w' & Hs1 & Hs2 & Hup & Hwf' & Hbuf & Hc1 & Hc2).
  fold n in Hs1, Hs2, Hup, Hc1, Hc2.
  exists w'. split.
  { unfold min_to_max. rewrite (@nd_vget (minHeap w) 0) by lia. cbn [bind].
    fold i n. replace (i + (n - 1)) with (i + n - 1) by lia.
    rewrite Hs1. cbn [bind]. rewrite Hs2. cbn [bind]. exact Hup. }
  split; [exact Hwf'|]. split; [exact Hbuf|].
  destruct Hmax as [(_ & Hrange & _) _].
  destruct (Hrange (i + n - 1) ltac:(lia)) as [_ Hge].
  specialize (Hex i Hfr). fold n in Hex. lia.
Qed.

(** One round of the second loop of [rebalance]. *)
Lemma max_to_min_ok (w : t) :
  wf w -> 0 < snd (nd (maxHeap w) 0) ->
  exists w', max_to_min w = Ok w' /\ wf w' /\ buf w' = buf w /\
             snd (nd (minHeap w') 0) = snd (nd (minHeap w) 0) + 1 /\
             snd (nd (maxHeap w') 0) = snd (nd (maxHeap w) 0) - 1.
Proof.
  intros Hwf Hpos. pose proof Hwf as (Hn & Hmin & Hmax & Hex).
  destruct (root_in_range Hwf) as [R1 R2].
  set (n := vsize (buf w)) in *.
  destruct (@live_first n (maxHeap w) Hmax (Z.to_nat (2 * n - 2)) 0
              ltac:(lia) ltac:(lia) Hpos) as [Hfr Hlive].
  set (i := fst (nd (maxHeap w) 0)) in *.
  destruct (@update_leaves w i 1 0 Hwf Hfr ltac:(lia) ltac:(lia) ltac:(lia))
    as (mn & mx & w' & Hs1 & Hs2 & Hup & Hwf' & Hbuf & Hc1 & Hc2).
  fold n in Hs1, Hs2, Hup, Hc1, Hc2.
  exists w'. split.
  { unfold max_to_min. rewrite (@nd_vget (maxHeap w) 0) by lia. cbn [bind].
    fold i n. replace (i + (n - 1)) with (i + n - 1) by lia.
    rewrite Hs1. cbn [bind]. rewrite Hs2. cbn [bind]. exact Hup. }
  split; [exact Hwf'|]. split; [exact Hbuf|].
  destruct Hmin as [(_ & Hrange & _) _].
  destruct (Hrange (i + n - 1) ltac:(lia)) as [_ Hge].
  specialize (Hex i Hfr). fold n in Hex. lia.
Qed.

(** *** The two loops of [rebalance] *)

Lemma root_counts_nonneg (w : t) :
  wf w -> 0 <= snd (nd (minHeap w) 0) /\ 0 <= snd (nd (maxHeap w) 0).
Proof.
  intros (Hn & [(_ & Hr1 & _) _] & [(_ & Hr2 & _) _] & _).
  destruct (Hr1 0 ltac:(lia)), (Hr2 0 ltac:(lia)). lia.
Qed.

Lemma shrink_min_loop (desired : Z) :
  0 <= desired ->
  forall (fuel : nat) (w : t),
    wf w ->
    (Z.to_nat (snd (nd (minHeap w) 0) - desired) <= fuel)%nat ->
    exists w',
      while_do fuel (fun w => do n <- min_count w; Ok (desired <? n))
               min_to_max w = Ok w' /\
      wf w' /\ buf w' = buf w /\
      snd (nd (minHeap w') 0) = Z.min (snd (nd (minHeap w) 0)) desired /\
      snd (nd (minHeap w') 0) + snd (nd (maxHeap w') 0) =
      snd (nd (minHeap w) 0) + snd (nd (maxHeap w) 0).
Proof.
  intros Hd. induction fuel as [|fuel IH]; intros w Hwf Hfuel;
    simpl while_do; rewrite (min_count_nd Hwf); cbn [bind];
    destruct (Z.ltb_spec desired (snd (nd (minHeap w) 0))) as [Hlt|Hge].
  - exfalso. lia.
  - exists w. split; [reflexivity|]. split; [exact Hwf|].
    split; [reflexivity|]. lia.
  - destruct (min_to_max_ok Hwf ltac:(lia)) as (w1 & Hm & Hwf1 & Hb1 & Hc1 & Hc2).
    rewrite Hm. cbn [bind].
    destruct (IH w1 Hwf1 ltac:(lia)) as (w' & Hl & Hwf' & Hb' & Hmin & Hsum).
    exists w'. split; [exact Hl|]. split; [exact Hwf'|].
    split; [congruence|]. lia.
  - exists w. split; [reflexivity|]. split; [exact Hwf|].
    split; [reflexivity|]. lia.
Qed.

Lemma grow_min_loop (desired : Z) :
  forall (fuel : nat) (w : t),
    wf w ->
    desired <= snd (nd (minHeap w) 0) + snd (nd (maxHeap w) 0) - 1 ->
    (Z.to_nat (desired - snd (nd (minHeap w) 0)) <= fuel)%nat ->
    exists w',
      while_do fuel (fun w => do n <- min_count w; Ok (n <? desired))
               max_to_min w = Ok w' /\
      wf w' /\ buf w' = buf w /\
      snd (nd (minHeap w') 0) = Z.max (snd (nd (minHeap w) 0)) desired /\
      snd (nd (minHeap w') 0) + snd (nd (maxHeap w') 0) =
      snd (nd (minHeap w) 0) + snd (nd (maxHeap w) 0).
Proof.
  induction fuel as [|fuel IH]; intros w Hwf Hd Hfuel;
    simpl while_do; rewrite (min_count_nd Hwf); cbn [bind];
    destruct (Z.ltb_spec (snd (nd (minHeap w) 0)) desired) as [Hlt|Hge].
  - exfalso. lia.
  - exists w. split; [reflexivity|]. split; [exact Hwf|].
    split; [reflexivity|]. lia.
  - destruct (max_to_min_ok Hwf ltac:(lia)) as (w1 & Hm & Hwf1 & Hb1 & Hc1 & Hc2).
    rewrite Hm. cbn [bind].
    destruct (IH w1 Hwf1 ltac:(lia) ltac:(lia))
      as (w' & Hl & Hwf' & Hb' & Hmin & Hsum).
    exists w'. split; [exact Hl|]. split; [exact Hwf'|].
    split; [congruence|]. lia.
  - exists w. split; [reflexivity|]. split; [exact Hwf|].
    split; [reflexivity|]. lia.
Qed.

Lemma desiredMinHeapSize_range (total : Z) (p : Q) :
  1 <= total -> 0 <= desiredMinHeapSize total p <= total - 1.
Proof.
  intros Ht. unfold desiredMinHeapSize, iclamp. cbv zeta.
  match goal with
  | |- context [int_of ?x] => generalize (int_of x)
  end.
  intros n. destruct (Z.ltb_spec n 0); [lia|].
  destruct (Z.ltb_spec (total - 1) n); lia.
Qed.

(** *** The states the window can reach are in order *)

Lemma heap_size_loop (n : Z) :
  forall (fuel : nat) (hs : Z),
    1 <= hs -> (Z.to_nat (2 * n - 1 - hs) <= fuel)%nat ->
    exists hs',
      while_loop fuel (fun heapSize => heapSize <? 2 * n - 1)
                 (fun heapSize => Ok (heapSize + (heapSize + 1))) hs = Ok hs' /\
      2 * n - 1 <= hs' /\ 1 <= hs'.
Proof.
  induction fuel as [|fuel IH]; intros hs Hhs Hfuel; cbn [while_loop bind];
    destruct (Z.ltb_spec hs (2 * n - 1)) as [Hlt|Hge].
  - exfalso. lia.
  - exists hs. split; [reflexivity|lia].
  - apply IH; lia.
  - exists hs. split; [reflexivity|lia].
Qed.

Lemma set_first_nd (h : list node) (p v : Z) :
  0 <= p < vsize h ->
  exists h', set_first h p v = Ok h' /\ vsize h' = vsize h /\
             nd h' p = (v, snd (nd h p)) /\
             forall q, q <> p -> nd h' q = nd h q.
Proof.
  intros Hp. unfold set_first. rewrite (nd_vget h Hp). cbn [bind].
  now apply vset_nd.
Qed.

Lemma nd_vmake (hs : Z) (q : Z) : nd (vmake hs (0, 0)) q = (0, 0).
Proof.
  unfold nd, node.
  destruct (vget (vmake hs (0, 0)) q) as [x| | |msg] eqn:E; auto.
  pose proof (vget_in_range _ _ E) as Hr.
  assert (0 <= hs).
  { destruct (Z_le_gt_dec 0 hs); auto. unfold vmake, vsize in Hr.
    rewrite repeat_length in Hr. lia. }
  rewrite vsize_vmake in Hr by lia. rewrite vget_vmake in E by lia. congruence.
Qed.

Lemma new_wf (maxKey : Z) :
  1 <= maxKey ->
  exists w, new maxKey = Ok w /\ wf w /\ vsize (buf w) = maxKey /\
            min_count w = Ok 0 /\ max_count w = Ok 0.
Proof.
  intros Hn. unfold new. unfold heap_size.
  destruct (@heap_size_loop maxKey (Z.to_nat (2 * maxKey)) 1 ltac:(lia)
              ltac:(lia)) as (hs & Hhs & Hbig & Hpos).
  rewrite Hhs. cbn [bind].
  rewrite vsize_vmake by lia.
  set (n := maxKey) in *.
  set (E := fun (i q : Z) =>
              if (n - 1 <=? q) && (q <? n - 1 + i) then (q - (n - 1), 0)
              else (0, 0) : node).
  match goal with
  | |- context [for_loop 0 n ?body ?s0] =>
      destruct (@for_loop_inv _
                  (fun i (st : list node * list node) =>
                     vsize (fst st) = hs /\ vsize (snd st) = hs /\
                     (forall q, nd (fst st) q = E i q) /\
                     (forall q, nd (snd st) q = E i q))
                  body 0 n s0) as ([mn mx] & Hr & Hz1 & Hz2 & Hmn & Hmx)
  end.
  { simpl. rewrite !vsize_vmake by lia. repeat split; auto;
      intros q; rewrite nd_vmake; unfold E;
      destruct (Z.leb_spec (n - 1) q), (Z.ltb_spec q (n - 1 + 0));
      simpl; auto; lia. }
  { intros i [mn mx] Hi (Hz1 & Hz2 & Hmn & Hmx). simpl in Hz1, Hz2, Hmn, Hmx.
    destruct (@set_first_nd mn (i + n - 1) i ltac:(lia))
      as (mn' & Hs1 & Hsz1 & Hn1 & Ho1).
    destruct (@set_first_nd mx (i + n - 1) i ltac:(lia))
      as (mx' & Hs2 & Hsz2 & Hn2 & Ho2).
    rewrite Hs1. cbn [bind]. rewrite Hs2. cbn [bind].
    eexists. split; [reflexivity|]. simpl.
    split; [lia|]. split; [lia|].
    split; intros q; (destruct (Z.eq_dec q (i + n - 1)) as [->|Hq];
      [ first [rewrite Hn1, Hmn | rewrite Hn2, Hmx]
      | first [rewrite (Ho1 q Hq), Hmn | rewrite (Ho2 q Hq), Hmx] ]);
      unfold E;
      repeat match goal with
             | |- context [Z.leb ?a ?b] => destruct (Z.leb_spec a b)
             | |- context [Z.ltb ?a ?b] => destruct (Z.ltb_spec a b)
             end; simpl; try lia; try reflexivity; f_equal; lia. }
  rewrite Hr. cbn [bind]. simpl fst in *. simpl snd in *.
  replace (Z.max 0 n) with n in * by lia.
  eexists. split; [reflexivity|].
  assert (Hok : forall h, vsize h = hs -> (forall q, nd h q = E n q) ->
                          heap_ok n h).
  { intros h Hz Hnd. split; [split; [lia|split]|].
    - intros p Hp. rewrite Hnd. unfold E.
      destruct (Z.leb_spec (n - 1) p), (Z.ltb_spec p (n - 1 + n));
        simpl; lia.
    - intros i Hi. rewrite Hnd. unfold E.
      destruct (Z.leb_spec (n - 1) (i + n - 1)),
        (Z.ltb_spec (i + n - 1) (n - 1 + n)); simpl; lia.
    - intros q Hq. unfold consistent. rewrite !Hnd. unfold E.
      repeat match goal with
             | |- context [Z.leb ?a ?b] => destruct (Z.leb_spec a b)
             | |- context [Z.ltb ?a ?b] => destruct (Z.ltb_spec a b)
             end; simpl; lia. }
  assert (Hwf : wf (mkWindow (vmake n (of_int 0)) mn mx)).
  { unfold wf. simpl. rewrite vsize_vmake by lia.
    split; [lia|]. split; [now apply Hok|]. split; [now apply Hok|].
    intros i Hi. rewrite Hmn, Hmx. unfold E.
    destruct (Z.leb_spec (n - 1) (i + n - 1)),
      (Z.ltb_spec (i + n - 1) (n - 1 + n)); simpl; lia. }
  split; [exact Hwf|]. split; [simpl; apply vsize_vmake; lia|].
  rewrite (min_count_nd Hwf), (max_count_nd Hwf). simpl.
  rewrite Hmn, Hmx. unfold E.
  destruct (Z.leb_spec (n - 1) 0), (Z.ltb_spec 0 (n - 1 + n)); simpl; auto.
Qed.

Lemma wf_same_heaps (w : t) (bf : list float) :
  wf w -> vsize bf = vsize (buf w) -> wf (mkWindow bf (minHeap w) (maxHeap w)).
Proof. unfold wf. simpl. intros H E. rewrite E. exact H. Qed.

Lemma insert_wf (w : t) (key : Z) (val : float) :
  wf w -> 0 <= key < vsize (buf w) ->
  exists w', insert w key val = Ok w' /\ wf w' /\
             vsize (buf w') = vsize (buf w).
Proof.
  intros Hwf Hkey. pose proof Hwf as (Hn & Hmin & Hmax & Hex).
  destruct (root_in_range Hwf) as [R1 R2].
  set (n := vsize (buf w)) in *.
  unfold insert, pivot, isEmpty.
  rewrite (@nd_vget (maxHeap w) 0) by lia. cbn [bind].
  destruct Hmax as [(Hsz & Hrange & Hleaf) Hcons].
  destruct (Hrange 0 ltac:(lia)) as [Hf0 _].
  destruct (@vget_ok _ (buf w) (fst (nd (maxHeap w) 0)) ltac:(lia)) as [p Hp].
  rewrite Hp. cbn [bind].
  destruct (@vset_ok _ (buf w) val key ltac:(lia)) as (bf & Hset & Hbsz & _).
  rewrite Hset. cbn [bind].
  rewrite (@nd_vget (minHeap w) 0) by lia. cbn [bind].
  pose proof (@wf_same_heaps w bf Hwf Hbsz) as Hwf0.
  assert (Hkey0 : 0 <= key < vsize (buf (mkWindow bf (minHeap w) (maxHeap w))))
    by (simpl; lia).
  destruct ((snd (nd (maxHeap w) 0) + snd (nd (minHeap w) 0) =? 0)
            || flt val p).
  - destruct (@update_leaves _ key 0 1 Hwf0 Hkey0 ltac:(lia) ltac:(lia)
                ltac:(lia))
      as (mn & mx & w' & Hs1 & Hs2 & Hup & Hwf' & Hbuf & _).
    simpl in Hs1, Hs2, Hup. rewrite Hs2. cbn [bind]. rewrite Hs1. cbn [bind].
    exists w'. split; [exact Hup|]. split; [exact Hwf'|].
    rewrite Hbuf. simpl. exact Hbsz.
  - destruct (@update_leaves _ key 1 0 Hwf0 Hkey0 ltac:(lia) ltac:(lia)
                ltac:(lia))
      as (mn & mx & w' & Hs1 & Hs2 & Hup & Hwf' & Hbuf & _).
    simpl in Hs1, Hs2, Hup. rewrite Hs2. cbn [bind]. rewrite Hs1. cbn [bind].
    exists w'. split; [exact Hup|]. split; [exact Hwf'|].
    rewrite Hbuf. simpl. exact Hbsz.
Qed.

Lemma remove_wf (w : t) (key : Z) :
  wf w -> 0 <= key < vsize (buf w) ->
  exists w', remove w key = Ok w' /\ wf w' /\
             vsize (buf w') = vsize (buf w).
Proof.
  intros Hwf Hkey. unfold remove.
  destruct (@update_leaves w key 0 0 Hwf Hkey ltac:(lia) ltac:(lia) ltac:(lia))
    as (mn & mx & w' & Hs1 & Hs2 & Hup & Hwf' & Hbuf & _).
  rewrite Hs1. cbn [bind]. rewrite Hs2. cbn [bind].
  exists w'. split; [exact Hup|]. split; [exact Hwf'|]. now rewrite Hbuf.
Qed.

(** Every run of insertions and removals on slots of the window leaves it
    in order. *)
Lemma run_wf (ops : list op) :
  forall w,
    wf w ->
    Forall (fun o => match o with
                     | Insert key _ | Remove key => 0 <= key < vsize (buf w)
                     end) ops ->
    exists w', run w ops = Ok w' /\ wf w' /\ vsize (buf w') = vsize (buf w).
Proof.
  induction ops as [|o ops IH]; intros w Hwf Hops.
  - exists w. split; [reflexivity|]. split; [exact Hwf|reflexivity].
  - inversion Hops as [|o' ops' Ho Hrest]; subst.
    assert (Hstep : exists w1, run_op w o = Ok w1 /\ wf w1 /\
                               vsize (buf w1) = vsize (buf w)).
    { destruct o; simpl; [now apply insert_wf|now apply remove_wf]. }
    destruct Hstep as (w1 & Hr & Hwf1 & Hsz1).
    simpl. rewrite Hr. cbn [bind].
    destruct (IH w1 Hwf1) as (w' & Hrun & Hwf' & Hsz').
    { rewrite Hsz1. exact Hrest. }
    exists w'. split; [exact Hrun|]. split; [exact Hwf'|]. lia.
Qed.

(** *** The count at the root is the number of values held *)

Lemma count_from_snoc (h : list node) (len : nat) :
  forall lo,
    count_from h lo (S len) =
    count_from h lo len + snd (nd h (lo + Z.of_nat len)).
Proof.
  induction len as [|len IH]; intros lo.
  - simpl. replace (lo + 0) with lo by lia. lia.
  - change (count_from h lo (S (S len)))
      with (snd (nd h lo) + count_from h (lo + 1) (S len)).
    rewrite IH. simpl count_from.
    replace (lo + 1 + Z.of_nat len) with (lo + Z.of_nat (S len)) by lia. lia.
Qed.

(** The nodes [k .. 2k] cut every path from the root to a leaf once. *)
Lemma frontier_count (n : Z) (h : list node) :
  heap_ok n h ->
  forall k : nat,
    Z.of_nat k <= n - 1 ->
    count_from h (Z.of_nat k) (S k) = snd (nd h 0).
Proof.
  intros [_ Hcons]. induction k as [|k IH]; intros Hk.
  - simpl. lia.
  - rewrite <- IH by lia.
    rewrite (count_from_snoc h (S k)), (count_from_snoc h k).
    change (count_from h (Z.of_nat k) (S k))
      with (snd (nd h (Z.of_nat k)) + count_from h (Z.of_nat k + 1) k).
    destruct (Hcons (Z.of_nat k) ltac:(lia)) as [Hsum _].
    replace (Z.of_nat (S k)) with (Z.of_nat k + 1) by lia.
    replace (Z.of_nat k + 1 + Z.of_nat k) with (Z.of_nat k * 2 + 1) by lia.
    replace (Z.of_nat k * 2 + 1 + 1) with (Z.of_nat k * 2 + 2) by lia.
    replace (Z.of_nat k + 1 + (Z.of_nat k + 1)) with (Z.of_nat k * 2 + 2) by lia.
    lia.
Qed.

Lemma leaf_values_count (w : t) (h : list node) :
  heap_ok (vsize (buf w)) h ->
  forall (m a : nat),
    (a + m <= List.length (buf w))%nat ->
    vsize (flat_map
             (fun i : nat =>
                match vget h (Z.of_nat i + vsize (buf w) - 1),
                      vget (buf w) (Z.of_nat i) with
                | Ok x, Ok v => if snd x =? 0 then [] else [v]
                | _, _ => []
                end) (seq a m)) =
    count_from h (Z.of_nat a + vsize (buf w) - 1) m.
Proof.
  intros [(Hsz & Hrange & Hleaf) _].
  set (n := vsize (buf w)) in *.
  set (f := fun i : nat =>
              match vget h (Z.of_nat i + n - 1), vget (buf w) (Z.of_nat i) with
              | Ok x, Ok v => if snd x =? 0 then [] else [v]
              | _, _ => []
              end).
  induction m as [|m IH]; intros a Ha; [reflexivity|].
  change (seq a (S m)) with (a :: seq (S a) m).
  change (flat_map f (a :: seq (S a) m)) with (f a ++ flat_map f (seq (S a) m)).
  unfold vsize. rewrite length_app, Nat2Z.inj_add.
  fold (vsize (flat_map f (seq (S a) m))). rewrite IH by lia.
  change (count_from h (Z.of_nat a + n - 1) (S m))
    with (snd (nd h (Z.of_nat a + n - 1))
          + count_from h (Z.of_nat a + n - 1 + 1) m).
  replace (Z.of_nat (S a) + n - 1) with (Z.of_nat a + n - 1 + 1) by lia.
  f_equal.
  assert (Hin : 0 <= Z.of_nat a < n) by (unfold n, vsize; lia).
  unfold f.
  rewrite (@nd_vget h (Z.of_nat a + n - 1)) by lia.
  destruct (@vget_ok _ (buf w) (Z.of_nat a) Hin) as [v Hv]. rewrite Hv.
  destruct (Hleaf (Z.of_nat a) Hin) as [_ Hle].
  destruct (Hrange (Z.of_nat a + n - 1) ltac:(lia)) as [_ Hge].
  destruct (Z.eqb_spec (snd (nd h (Z.of_nat a + n - 1))) 0) as [E|E];
    simpl List.length; lia.
Qed.

Lemma partition_sizes (w : t) :
  wf w ->
  vsize (high_values w) = snd (nd (minHeap w) 0) /\
  vsize (low_values w) = snd (nd (maxHeap w) 0).
Proof.
  intros (Hn & Hmin & Hmax & _).
  assert (H : forall h, heap_ok (vsize (buf w)) h ->
                        vsize (leaf_values w h) = snd (nd h 0)).
  { intros h Hok. unfold leaf_values.
    rewrite (@leaf_values_count w h Hok (List.length (buf w)) 0) by lia.
    rewrite <- (@frontier_count (vsize (buf w)) h Hok
                  (Z.to_nat (vsize (buf w) - 1))) by lia.
    replace (Z.of_nat 0 + vsize (buf w) - 1)
      with (Z.of_nat (Z.to_nat (vsize (buf w) - 1))) by lia.
    f_equal. unfold vsize in *. lia. }
  split; apply H; assumption.
Qed.

(** C6 (amended).  In a window the operations have left in order, with
    [total >= 1] live values, and for a percentile from 0 to 1,
    [rebalance(p)] returns and leaves the high partition (the min heap)
    with [clamp(int(total * (1.0f - p)), 0, total - 1)] values, the
    difference and the product rounded to [float] as the code computes
    them, and the low partition (the max heap, whose maximum [pivot()]
    returns) with the other ones, at least one. *)
Theorem rebalance_partition_sizes (w : t) (p : Q) (low high : Z) :
  wf w -> max_count w = Ok low -> min_count w = Ok high ->
  1 <= low + high -> (0 <= p <= 1)%Q ->
  exists w',
    rebalance w p = Ok w' /\ wf w' /\ buf w' = buf w /\
    min_count w' = Ok (desiredMinHeapSize (low + high) p) /\
    max_count w' = Ok (low + high - desiredMinHeapSize (low + high) p) /\
    vsize (high_values w') = desiredMinHeapSize (low + high) p /\
    vsize (low_values w') = low + high - desiredMinHeapSize (low + high) p /\
    1 <= vsize (low_values w').
Proof.
  intros Hwf Hlow Hhigh Htotal _.
  rewrite (max_count_nd Hwf) in Hlow. rewrite (min_count_nd Hwf) in Hhigh.
  inversion Hlow as [El]. inversion Hhigh as [Eh]. clear Hlow Hhigh.
  destruct (root_counts_nonneg Hwf) as [N1 N2].
  pose proof (@desiredMinHeapSize_range (low + high) p Htotal) as Hd.
  set (desired := desiredMinHeapSize (low + high) p) in *.
  unfold rebalance. rewrite (max_count_nd Hwf), (min_count_nd Hwf). cbn [bind].
  rewrite El, Eh. fold desired. unfold rebalance_to.
  destruct (@shrink_min_loop desired ltac:(lia) (Z.to_nat (low + high)) w Hwf
              ltac:(lia)) as (w1 & Hl1 & Hwf1 & Hb1 & Hm1 & Hs1).
  rewrite Hl1. cbn [bind].
  destruct (@grow_min_loop desired (Z.to_nat (low + high)) w1 Hwf1
              ltac:(lia) ltac:(lia)) as (w2 & Hl2 & Hwf2 & Hb2 & Hm2 & Hs2).
  destruct (partition_sizes Hwf2) as [Hhv Hlv].
  exists w2. split; [exact Hl2|]. split; [exact Hwf2|].
  split; [congruence|].
  rewrite (min_count_nd Hwf2), (max_count_nd Hwf2), Hhv, Hlv.
  split; [f_equal; lia|]. split; [f_equal; lia|]. lia.
Qed.

Lemma rebalance_partition_sizes_witness :
  exists w w',
    (do w0 <- new 4;
     run w0 [Insert 0 (fl 1); Insert 1 (fl 2); Insert 2 (fl 3);
             Insert 3 (fl 4)]) = Ok w /\
    rebalance w (5 # 8) = Ok w' /\
    vsize (high_values w') = 1 /\ vsize (low_values w') = 3.
Proof.
  destruct (@new_wf 4 ltac:(lia)) as (w0 & Hnew & Hwf0 & Hsz & _).
  destruct (@run_wf [Insert 0 (fl 1); Insert 1 (fl 2); Insert 2 (fl 3);
                     Insert 3 (fl 4)] w0 Hwf0) as (w & Hrun & Hwf & _).
  { rewrite Hsz. repeat constructor; lia. }
  assert (E : (do w0 <- new 4;
               run w0 [Insert 0 (fl 1); Insert 1 (fl 2); Insert 2 (fl 3);
                       Insert 3 (fl 4)]) = Ok w)
    by (rewrite Hnew; exact Hrun).
  destruct (@rebalance_partition_sizes w (5 # 8) 1 3 Hwf)
    as (w' & Hr & _ & _ & _ & _ & Hhigh & Hlow & _).
  - vm_compute in E. injection E as <-. reflexivity.
  - vm_compute in E. injection E as <-. reflexivity.
  - lia.
  - split; discriminate.
  - exists w, w'. split; [exact E|]. split; [exact Hr|].
    split; [rewrite Hhigh|rewrite Hlow]; reflexivity.
Defined.

(** * Further properties of the code *)

(** ** FastBlur::apply: its guards *)

Lemma Qltb_false_of_le (x y : Q) : (y <= x)%Q -> Qltb x y = false.
Proof.
  intros H. destruct (Qltb x y) eqn:E; [|reflexivity].
  apply Qltb_lt in E. exfalso. now apply (Qlt_not_le x y).
Qed.

Lemma Qltb_true_of_lt (x y : Q) : (x < y)%Q -> Qltb x y = true.
Proof. apply Qltb_lt. Qed.

Lemma Qle_bool_true (x y : Q) : (x <= y)%Q -> Qle_bool x y = true.
Proof. apply Qle_bool_iff. Qed.

Lemma Qle_bool_false (x y : Q) : (y < x)%Q -> Qle_bool x y = false.
Proof.
  intros H. destruct (Qle_bool x y) eqn:E; [|reflexivity].
  apply Qle_bool_iff in E. exfalso. now apply (Qlt_not_le y x).
Qed.

Lemma Qeq_bool_true (x y : Q) : (x == y)%Q -> Qeq_bool x y = true.
Proof. apply Qeq_bool_iff. Qed.

Lemma Qeq_bool_false (x y : Q) : ~ (x == y)%Q -> Qeq_bool x y = false.
Proof.
  intros H. destruct (Qeq_bool x y) eqn:E; [|reflexivity].
  apply Qeq_bool_iff in E. contradiction.
Qed.

(** An axis is idle when it has extent 1 or a zero filter size. *)
Lemma idle_axis (n : Z) (sigma : Q) :
  n = 1 \/ (sigma == 0)%Q ->
  ((if n =? 1 then 0 else sigma) == 0)%Q.
Proof.
  intros [->|H]; [reflexivity|].
  destruct (n =? 1); [reflexivity|exact H].
Qed.

Lemma perform_idle (blur : Image -> Q -> Z -> result Image) (sigma : Q)
      (im : Image) :
  (sigma == 0)%Q -> FastBlur.perform blur sigma im = Ok im.
Proof.
  intros H. unfold FastBlur.perform.
  rewrite (@Qltb_false_of_le 32 sigma) by (rewrite H; discriminate).
  rewrite (@Qltb_false_of_le 0 sigma) by (rewrite H; discriminate).
  reflexivity.
Qed.

(** X5.  [FastBlur::apply] with non-negative sizes returns the
    image as it is, without a call to [GaussianBlur::apply], to
    [Convolve::apply] or to [Paste::apply] and with or without a margin,
    when every axis has extent 1 or a zero size: directions of extent 1
    are not filtered whatever their size. *)
Theorem fast_blur_idle_axes
        (expf : float -> float)
        (Convolve_apply : Image -> Image -> result Image)
        (Paste_apply : Image -> Image -> Z -> Z -> Z -> result Image)
        (addMargin_default : bool) (fuel : nat) (im : Image)
        (filterWidth filterHeight filterFrames : Q) (addMargin : bool) :
  (0 <= filterWidth)%Q -> (0 <= filterHeight)%Q -> (0 <= filterFrames)%Q ->
  width im = 1 \/ (filterWidth == 0)%Q ->
  height im = 1 \/ (filterHeight == 0)%Q ->
  frames im = 1 \/ (filterFrames == 0)%Q ->
  FastBlur.apply expf Convolve_apply Paste_apply addMargin_default (S fuel)
                 im filterWidth filterHeight filterFrames addMargin = Ok im.
Proof.
  intros Pw Ph Pf Iw Ih If. cbn [FastBlur.apply].
  rewrite (Qle_bool_true Pw), (Qle_bool_true Ph), (Qle_bool_true Pf).
  cbn [andb assert bind].
  pose proof (idle_axis Iw) as Zw. pose proof (idle_axis Ih) as Zh.
  pose proof (idle_axis If) as Zf.
  set (fw := if width im =? 1 then 0%Q else filterWidth) in *.
  set (fh := if height im =? 1 then 0%Q else filterHeight) in *.
  set (ff := if frames im =? 1 then 0%Q else filterFrames) in *.
  rewrite (@Qltb_false_of_le 0 ff) by (rewrite Zf; discriminate).
  rewrite (@Qltb_false_of_le 0 fw) by (rewrite Zw; discriminate).
  rewrite (@Qltb_false_of_le 0 fh) by (rewrite Zh; discriminate).
  cbn [andb].
  unfold FastBlur.ratio_below_8.
  rewrite (Qeq_bool_true Zw), (Qeq_bool_true Zh), (Qeq_bool_true Zf).
  cbn [orb]. rewrite andb_false_r.
  rewrite (perform_idle _ _ Zw). cbn [bind].
  rewrite (perform_idle _ _ Zh). cbn [bind].
  apply (perform_idle _ _ Zf).
Qed.

Lemma fast_blur_idle_axes_witness :
  FastBlur.apply (fun a => a) (fun im _ => Ok im) (fun im _ _ _ _ => Ok im)
                 true 1 (mkImage 1 3 1 1 [fl 1; fl 2; fl 3]) 5 0 7 true =
  Ok (mkImage 1 3 1 1 [fl 1; fl 2; fl 3]).
Proof.
  apply fast_blur_idle_axes; try discriminate;
    try (left; reflexivity); right; reflexivity.
Defined.

Lemma sqrtf_small (q : Q) :
  (1 # 281474976710656 <= q)%Q -> (q < 1 # 4)%Q ->
  (0 < sqrtf q)%Q /\ (sqrtf q < 1 # 2)%Q.
Proof.
  intros Hlo Hhi. unfold sqrtf. rewrite !Qred_correct.
  destruct q as [n d]. unfold Qle, Qlt in *. cbn [Qnum Qden] in *.
  rewrite Z.shiftl_mul_pow2 by lia.
  set (m := n * 2 ^ 48 / Z.pos d).
  assert (Hm1 : 1 <= m).
  { unfold m. apply Z.div_le_lower_bound; lia. }
  assert (Hm2 : m < 2 ^ 46).
  { unfold m. apply Z.div_lt_upper_bound; lia. }
  assert (Hs1 : 1 <= Z.sqrt m).
  { change 1 with (Z.sqrt 1). apply Z.sqrt_le_mono. exact Hm1. }
  assert (Hs2 : Z.sqrt m < 2 ^ 23).
  { apply Z.sqrt_lt_square; lia. }
  split; unfold Qlt; cbn [Qnum Qden]; lia.
Qed.

Lemma truncate_unit (q : Q) : (1 <= q)%Q -> (q < 2)%Q -> truncate q = 1.
Proof.
  destruct q as [n d]. unfold Qle, Qlt, truncate. cbn [Qnum Qden].
  intros H1 H2. rewrite Z.quot_div_nonneg by lia.
  symmetry. apply Z.div_unique with (r := n - Z.pos d). lia. lia.
Qed.

(** The part of the deviation a filter wider than 32 leaves to the sparse
    pass, when the filter is only just wider. *)
Lemma remaining_just_above_32 (sigma : Q) :
  (32 + (1 # 262144) <= sigma)%Q -> (sigma <= 32 + (1 # 512))%Q ->
  (1 # 281474976710656 <= sigma * sigma - 32 * 32)%Q /\
  (sigma * sigma - 32 * 32 < 1 # 4)%Q.
Proof.
  intros H1 H2.
  assert (E1 : ((32 + (1 # 262144)) * (32 + (1 # 262144)) <= sigma * sigma)%Q).
  { assert (0 <= (sigma - (32 + (1 # 262144))) * (sigma + (32 + (1 # 262144))))%Q
      by (apply Qmult_le_0_compat; lra).
    lra. }
  assert (E2 : (sigma * sigma <= (32 + (1 # 512)) * (32 + (1 # 512)))%Q).
  { assert (0 <= (32 + (1 # 512) - sigma) * (32 + (1 # 512) + sigma))%Q
      by (apply Qmult_le_0_compat; lra).
    lra. }
  split.
  - eapply Qle_trans; [|apply Qplus_le_l; exact E1]. discriminate.
  - eapply Qle_lt_trans; [apply Qplus_le_l; exact E2|]. reflexivity.
Qed.

Lemma perform_just_above_32 (im : Image) (sigma : Q) :
  (32 + (1 # 262144) <= sigma)%Q -> (sigma <= 32 + (1 # 512))%Q ->
  FastBlur.perform FastBlur.blurX sigma im =
  Panic ("To use IIR filtering, standard deviation of blur must be >= 0.5"
           ++ nl).
Proof.
  intros H1 H2. unfold FastBlur.perform.
  rewrite (@Qltb_true_of_lt 32 sigma) by lra.
  destruct (remaining_just_above_32 H1 H2) as [R1 R2].
  destruct (sqrtf_small R1 R2) as [S1 S2].
  set (rem := sqrtf (sigma * sigma - 32 * 32)) in *.
  rewrite (@truncate_unit (rem / 32 + 1)).
  2:{ assert (0 <= rem / 32)%Q by (apply Qle_shift_div_l; lra). lra. }
  2:{ assert (rem / 32 < 1)%Q by (apply Qlt_shift_div_r; lra). lra. }
  assert (E : (Qred (rem / inject_Z 1) == rem)%Q).
  { rewrite Qred_correct. change (inject_Z 1) with 1%Q. field. }
  unfold FastBlur.blurX.
  rewrite (@Qeq_bool_false (Qred (rem / inject_Z 1)) 0) by (rewrite E; lra).
  unfold FastBlur.calculateCoefficients.
  rewrite (@Qle_bool_false (1 # 2) (Qred (rem / inject_Z 1)))
    by (rewrite E; exact S2).
  reflexivity.
Qed.

(** X6.  [FastBlur::apply] decomposes a filter wider than 32 into a
    sparse pass of deviation [sqrtf(w*w - 32*32)] and a dense pass of 32.
    For a width only just above 32 (from the next float, 32 + 2^-18, up to
    32 + 1/512) the sparse pass gets a deviation below 0.5 and the call
    fails with the message of [calculateCoefficients], on every image wide
    enough to take this path (here at least 257 columns, so that neither
    the narrow-axis fallback nor the margin applies). *)
Theorem fast_blur_just_above_32_panics
        (expf : float -> float)
        (Convolve_apply : Image -> Image -> result Image)
        (Paste_apply : Image -> Image -> Z -> Z -> Z -> result Image)
        (addMargin_default : bool) (fuel : nat) (im : Image)
        (filterWidth : Q) (addMargin : bool) :
  (32 + (1 # 262144) <= filterWidth)%Q -> (filterWidth <= 32 + (1 # 512))%Q ->
  257 <= width im ->
  FastBlur.apply expf Convolve_apply Paste_apply addMargin_default (S fuel)
                 im filterWidth 0 0 addMargin =
  Panic ("To use IIR filtering, standard deviation of blur must be >= 0.5"
           ++ nl).
Proof.
  intros H1 H2 Hw. cbn [FastBlur.apply].
  rewrite (@Qle_bool_true 0 filterWidth) by lra.
  change (Qle_bool 0 0) with true. cbn [andb assert bind].
  destruct (Z.eqb_spec (width im) 1) as [E|_]; [lia|].
  assert (Z0 : forall n : Z, ((if n =? 1 then 0 else 0) == 0)%Q)
    by (intros n; destruct (n =? 1); reflexivity).
  rewrite (@Qltb_false_of_le 0 (if frames im =? 1 then 0%Q else 0%Q))
    by (rewrite Z0; discriminate).
  rewrite (@Qltb_false_of_le 0 (if height im =? 1 then 0%Q else 0%Q))
    by (rewrite Z0; discriminate).
  rewrite (@Qltb_true_of_lt 0 filterWidth) by lra.
  destruct (Z.ltb_spec (width im) 16) as [E|_]; [lia|].
  rewrite (@Qltb_false_of_le filterWidth (1 # 2)) by lra.
  cbn [andb orb].
  unfold FastBlur.ratio_below_8.
  rewrite !(Qeq_bool_true (Z0 _)).
  rewrite (@Qeq_bool_false filterWidth 0) by lra.
  rewrite (@Qltb_false_of_le (inject_Z (width im) / filterWidth) 8).
  2:{ apply Qle_shift_div_l; [lra|].
      assert (inject_Z 257 <= inject_Z (width im))%Q
        by (rewrite <- Zle_Qle; exact Hw).
      change (inject_Z 257) with 257%Q in H. lra. }
  cbn [orb]. rewrite andb_false_r.
  rewrite (perform_just_above_32 im H1 H2). reflexivity.
Qed.

Lemma fast_blur_just_above_32_panics_witness :
  FastBlur.apply (fun a => a) (fun im _ => Ok im) (fun im _ _ _ _ => Ok im)
                 true 1 (Image_new 300 1 1 1) (32001 # 1000) 0 0 true =
  Panic ("To use IIR filtering, standard deviation of blur must be >= 0.5"
           ++ nl).
Proof.
  apply fast_blur_just_above_32_panics; discriminate.
Defined.

(** ** FastBlur: the recursive filter needs three taps of room *)

Lemma vget_cases (A : Type) (v : list A) :
  forall i, vget v i = OutOfBounds \/ exists x, vget v i = Ok x.
Proof.
  induction v as [|a v IH]; intros i; simpl; [now left|].
  destruct (i <? 0); [now left|].
  destruct (i =? 0); [right; now exists a|apply IH].
Qed.

Lemma vset_cases (A : Type) (v : list A) (x : A) :
  forall i, vset v i x = OutOfBounds \/ exists w, vset v i x = Ok w.
Proof.
  induction v as [|a v IH]; intros i; simpl; [now left|].
  destruct (i <? 0); [now left|].
  destruct (i =? 0); [right; eexists; reflexivity|].
  destruct (IH (i - 1)) as [E|[w E]]; rewrite E; cbn [bind];
    [now left|right; eexists; reflexivity].
Qed.

Lemma at_cases (im : Image) (x y t c : Z) :
  at_ im x y t c = OutOfBounds \/ exists v, at_ im x y t c = Ok v.
Proof. unfold at_. destruct (in_bounds im x y t c); [apply vget_cases|now left]. Qed.

Lemma put_bounds_only (x y t c : Z) (v : float) :
  bounds_only (fun im => put im x y t c v).
Proof.
  intros im. unfold put. destruct (in_bounds im x y t c); [|now left].
  destruct (vset_cases (data im) v (offset im x y t c)) as [E|[w E]];
    rewrite E; cbn [bind]; [now left|].
  right. eexists. split; [reflexivity|]. unfold same_extents. simpl. auto.
Qed.

Lemma bounds_only_bind (f g : Image -> result Image) :
  bounds_only f -> bounds_only g ->
  bounds_only (fun im => do im' <- f im; g im').
Proof.
  intros Hf Hg im. destruct (Hf im) as [E|(im1 & E & X1)]; rewrite E; cbn [bind];
    [now left|].
  destruct (Hg im1) as [E2|(im2 & E2 & X2)]; rewrite E2; [now left|].
  right. exists im2. split; [reflexivity|]. eapply same_extents_trans; eauto.
Qed.

Lemma bounds_only_for_range (body : Z -> Image -> result Image) (n : nat) :
  (forall i, bounds_only (body i)) ->
  forall lo, bounds_only (for_range lo n body).
Proof.
  intros Hb. induction n as [|n IH]; intros lo im; simpl.
  - right. exists im. split; [reflexivity|apply same_extents_refl].
  - apply (@bounds_only_bind (body lo) (for_range (lo + 1) n body));
      [apply Hb|apply IH].
Qed.

Lemma bounds_only_for_loop (body : Z -> Image -> result Image) (lo hi : Z) :
  (forall i, bounds_only (body i)) -> bounds_only (for_loop lo hi body).
Proof. intros Hb. unfold for_loop. now apply bounds_only_for_range. Qed.

Lemma bounds_only_for_down (body : Z -> Image -> result Image) (hi : Z) :
  (forall i, bounds_only (body i)) -> bounds_only (FastBlur.for_down hi body).
Proof.
  intros Hb. unfold FastBlur.for_down.
  generalize (Z.to_nat (hi + 1)) as n. intros n. revert hi.
  induction n as [|n IH]; intros hi im; simpl.
  - right. exists im. split; [reflexivity|apply same_extents_refl].
  - apply (@bounds_only_bind (body hi) (for_down_range (hi - 1) n body));
      [apply Hb|apply IH].
Qed.

Section TapSteps.
Variable cs : Q * Q * Q * Q.
Variable pos : Z -> Z * Z * Z * Z.

Lemma rd_cases (im : Image) (k : Z) :
  FastBlur.rd pos im k = OutOfBounds \/ exists v, FastBlur.rd pos im k = Ok v.
Proof.
  unfold FastBlur.rd. destruct (pos k) as [[[x y] t] c]. apply at_cases.
Qed.

Lemma wr_bounds_only (k : Z) (v : float) :
  bounds_only (fun im => FastBlur.wr pos im k v).
Proof.
  unfold FastBlur.wr. destruct (pos k) as [[[x y] t] c].
  apply put_bounds_only.
Qed.

Lemma edge2_bounds_only (k k1 : Z) : bounds_only (FastBlur.edge2 cs pos k k1).
Proof.
  intros im. unfold FastBlur.edge2.
  destruct (rd_cases im k) as [E|[a E]]; rewrite E; cbn [bind]; [now left|].
  destruct (rd_cases im k1) as [E1|[b E1]]; rewrite E1; cbn [bind]; [now left|].
  apply wr_bounds_only.
Qed.

Lemma edge3_bounds_only (k k1 k2 : Z) :
  bounds_only (FastBlur.edge3 cs pos k k1 k2).
Proof.
  intros im. unfold FastBlur.edge3.
  destruct (rd_cases im k) as [E|[a E]]; rewrite E; cbn [bind]; [now left|].
  destruct (rd_cases im k1) as [E1|[b E1]]; rewrite E1; cbn [bind]; [now left|].
  destruct (rd_cases im k2) as [E2|[c E2]]; rewrite E2; cbn [bind]; [now left|].
  apply wr_bounds_only.
Qed.

Lemma full4_bounds_only (k k1 k2 k3 : Z) :
  bounds_only (FastBlur.full4 cs pos k k1 k2 k3).
Proof.
  intros im. unfold FastBlur.full4.
  destruct (rd_cases im k) as [E|[a E]]; rewrite E; cbn [bind]; [now left|].
  destruct (rd_cases im k1) as [E1|[b E1]]; rewrite E1; cbn [bind]; [now left|].
  destruct (rd_cases im k2) as [E2|[c E2]]; rewrite E2; cbn [bind]; [now left|].
  destruct (rd_cases im k3) as [E3|[d E3]]; rewrite E3; cbn [bind]; [now left|].
  apply wr_bounds_only.
Qed.

(** The second edge step, at a position the image does not have. *)
Lemma edge3_outside (k k1 k2 : Z) (im : Image) :
  (let '(x, y, t, c) := pos k in in_bounds im x y t c = false) ->
  FastBlur.edge3 cs pos k k1 k2 im = OutOfBounds.
Proof.
  intros H. unfold FastBlur.edge3, FastBlur.rd.
  destruct (pos k) as [[[x y] t] c]. unfold at_. rewrite H. reflexivity.
Qed.

(** Both edge steps, the second one at a position the image does not
    have. *)
Lemma edge_steps_outside (a a1 k k1 k2 : Z) (im : Image) :
  (forall im', same_extents im' im ->
               let '(x, y, t, c) := pos k in in_bounds im' x y t c = false) ->
  (do im' <- FastBlur.edge2 cs pos a a1 im; FastBlur.edge3 cs pos k k1 k2 im')
  = OutOfBounds.
Proof.
  intros H. destruct (edge2_bounds_only a a1 im) as [E|(im1 & E & X)];
    rewrite E; cbn [bind]; [reflexivity|].
  apply edge3_outside. now apply H.
Qed.
End TapSteps.

Lemma in_bounds_x_outside (im : Image) (x y t c : Z) :
  x < 0 -> in_bounds im x y t c = false.
Proof.
  intros H. unfold in_bounds. destruct (Z.leb_spec 0 x); [lia|reflexivity].
Qed.

Lemma in_bounds_y_outside (im : Image) (x y t c : Z) :
  y < 0 -> in_bounds im x y t c = false.
Proof.
  intros H. unfold in_bounds. destruct (Z.leb_spec 0 y); [lia|].
  now rewrite !andb_false_r.
Qed.

Lemma in_bounds_t_outside (im : Image) (x y t c : Z) :
  t < 0 -> in_bounds im x y t c = false.
Proof.
  intros H. unfold in_bounds. destruct (Z.leb_spec 0 t); [lia|].
  now rewrite !andb_false_r.
Qed.

Lemma coefficients_ok (sigma : Q) :
  (1 # 2 <= sigma)%Q ->
  exists cs, FastBlur.calculateCoefficients sigma = Ok cs.
Proof.
  intros H. unfold FastBlur.calculateCoefficients.
  rewrite (Qle_bool_true H). cbn [assert bind]. eexists. reflexivity.
Qed.

(** Three steps in a row, the third of which fails whatever the first two
    left. *)
Lemma third_step_fails (f1 f2 f3 f4 : Image -> result Image) (im : Image) :
  bounds_only f1 -> bounds_only f2 ->
  (forall im', same_extents im' im -> f3 im' = OutOfBounds) ->
  (do a <- f1 im; do b <- f2 a; do c <- f3 b; f4 c) = OutOfBounds.
Proof.
  intros H1 H2 H3.
  destruct (H1 im) as [E|(a & E & Xa)]; rewrite E; cbn [bind]; [reflexivity|].
  destruct (H2 a) as [E2|(b & E2 & Xb)]; rewrite E2; cbn [bind]; [reflexivity|].
  rewrite H3; [reflexivity|]. eapply same_extents_trans; eauto.
Qed.

(** X7.  Each pass of the recursive filter of [FastBlur] addresses
    the positions [n - 3*ts .. n - 1] of the axis it blurs, [n] being the
    extent of that axis and [ts] the spacing of the taps: on a non-empty
    image with fewer than [3*ts] samples along the axis, [blurX] (resp.
    [blurY], [blurT]) with a deviation of at least 0.5 accesses the image
    out of bounds. *)
Theorem fast_blur_pass_needs_three_taps (im : Image) (sigma : Q) (ts : Z) :
  (1 # 2 <= sigma)%Q -> 1 <= ts ->
  0 < width im -> 0 < height im -> 0 < frames im -> 0 < channels im ->
  (width im < 3 * ts -> FastBlur.blurX im sigma ts = OutOfBounds) /\
  (height im < 3 * ts -> FastBlur.blurY im sigma ts = OutOfBounds) /\
  (frames im < 3 * ts -> FastBlur.blurT im sigma ts = OutOfBounds).
Proof.
  intros Hs Hts Hw Hh Hf Hc.
  destruct (coefficients_ok Hs) as [cs Ecs].
  assert (Hnz : Qeq_bool sigma 0 = false) by (apply Qeq_bool_false; lra).
  split; [|split]; intros Hn.
  - unfold FastBlur.blurX. rewrite Hnz, Ecs. cbn [bind].
    apply for_loop_first_out_of_bounds; [exact Hc|].
    apply for_loop_first_out_of_bounds; [exact Hf|].
    apply for_loop_first_out_of_bounds; [exact Hh|].
    apply third_step_fails.
    + apply bounds_only_for_loop. intros j.
      apply bounds_only_bind; [apply edge2_bounds_only|apply edge3_bounds_only].
    + intros im1. apply bounds_only_for_loop. intros x. apply full4_bounds_only.
    + intros im' (Ew & _).
      apply for_loop_first_out_of_bounds; [lia|].
      apply edge_steps_outside. intros im'' _.
      apply in_bounds_x_outside. lia.
  - unfold FastBlur.blurY. rewrite Hnz, Ecs. cbn [bind].
    apply for_loop_first_out_of_bounds; [exact Hc|].
    apply for_loop_first_out_of_bounds; [exact Hf|].
    apply third_step_fails.
    + apply bounds_only_for_loop. intros j im1.
      apply bounds_only_for_loop. intros x.
      apply bounds_only_bind; [apply edge2_bounds_only|apply edge3_bounds_only].
    + intros im1. apply bounds_only_for_loop. intros y im2.
      apply bounds_only_for_loop. intros x. apply full4_bounds_only.
    + intros im' (Ew & Eh & _).
      apply for_loop_first_out_of_bounds; [lia|].
      apply for_loop_first_out_of_bounds; [lia|].
      apply edge_steps_outside. intros im'' _.
      apply in_bounds_y_outside. lia.
  - unfold FastBlur.blurT. rewrite Hnz, Ecs. cbn [bind].
    apply for_loop_first_out_of_bounds; [exact Hc|].
    apply for_loop_first_out_of_bounds; [exact Hh|].
    apply third_step_fails.
    + apply bounds_only_for_loop. intros j im1.
      apply bounds_only_for_loop. intros x.
      apply bounds_only_bind; [apply edge2_bounds_only|apply edge3_bounds_only].
    + intros im1. apply bounds_only_for_loop. intros y im2.
      apply bounds_only_for_loop. intros x. apply full4_bounds_only.
    + intros im' (Ew & Eh & Ef & _).
      apply for_loop_first_out_of_bounds; [lia|].
      apply for_loop_first_out_of_bounds; [lia|].
      apply edge_steps_outside. intros im'' _.
      apply in_bounds_t_outside. lia.
Qed.

Lemma fast_blur_pass_needs_three_taps_witness :
  FastBlur.blurX (Image_new 2 2 2 1) 1 1 = OutOfBounds /\
  FastBlur.blurY (Image_new 2 2 2 1) 1 1 = OutOfBounds /\
  FastBlur.blurT (Image_new 2 2 2 1) 1 1 = OutOfBounds.
Proof.
  destruct (@fast_blur_pass_needs_three_taps (Image_new 2 2 2 1) 1 1)
    as (Hx & Hy & Ht); try discriminate; try (simpl; lia).
  split; [apply Hx|split; [apply Hy|apply Ht]]; simpl; lia.
Defined.

(** ** GaussianBlur::apply: the kernel *)

Lemma truncate_floor_nonneg (q : Q) : (0 <= q)%Q -> truncate q = Qfloor q.
Proof.
  destruct q as [n d]. unfold Qle, truncate, Qfloor. cbn [Qnum Qden].
  intros H. apply Z.quot_div_nonneg; lia.
Qed.

Lemma lor_1_odd (n : Z) : Z.odd (Z.lor n 1) = true.
Proof.
  rewrite <- Z.bit0_odd, Z.lor_spec. now rewrite orb_true_r.
Qed.

Lemma lor_1_range (n : Z) : n <= Z.lor n 1 <= n + 1.
Proof.
  destruct (Z.odd n) eqn:E.
  - assert (Z.lor n 1 = n); [|lia].
    apply Z.bits_inj'. intros k Hk. rewrite Z.lor_spec.
    destruct (Z.eq_dec k 0) as [->|Hne].
    + rewrite Z.bit0_odd, E. reflexivity.
    + replace (Z.testbit 1 k) with false; [apply orb_false_r|].
      symmetry. apply (Z.bits_above_log2 1 k); simpl; lia.
  - assert (Z.lor n 1 = n + 1); [|lia].
    assert (L : Z.land n 1 = 0); [|now rewrite <- (Z.lxor_lor _ _ L),
                                         (Z.add_nocarry_lxor _ _ L)].
    apply Z.bits_inj'. intros k Hk. rewrite Z.land_spec, Z.bits_0.
    destruct (Z.eq_dec k 0) as [->|Hne].
    + rewrite Z.bit0_odd, E. reflexivity.
    + replace (Z.testbit 1 k) with false; [apply andb_false_r|].
      symmetry. apply (Z.bits_above_log2 1 k); simpl; lia.
Qed.

Lemma quot_odd (r : Z) : 0 <= r -> Z.quot (2 * r + 1) 2 = r.
Proof.
  intros Hr. rewrite Z.quot_div_nonneg by lia.
  replace (2 * r + 1) with (1 + r * 2) by lia.
  rewrite Z.div_add by lia. reflexivity.
Qed.

(** The number of taps for a positive deviation, by its radius [r]. *)
Lemma kernel_size_radius (sigma : Q) :
  (0 < sigma)%Q ->
  exists r, 1 <= r /\ GaussianBlur.kernel_size sigma = 2 * r + 1 /\
            (r = 1 \/ 2 * r <= Qfloor (sigma * 6 + 1)) /\
            Qfloor (sigma * 6 + 1) <= 2 * r + 1.
Proof.
  intros Hs. unfold GaussianBlur.kernel_size.
  rewrite truncate_floor_nonneg by lra.
  set (n := Qfloor (sigma * 6 + 1)).
  assert (Hn : 1 <= n).
  { assert (H : Qfloor 1 <= n) by (apply Qfloor_resp_le; lra).
    exact H. }
  pose proof (lor_1_odd n) as Hodd. pose proof (lor_1_range n) as Hrange.
  set (m := Z.lor n 1) in *.
  rewrite Z.odd_spec in Hodd. destruct Hodd as [r Er].
  destruct (Z.eqb_spec m 1).
  - exists 1. lia.
  - exists r. lia.
Qed.

(** A deviation on which the source rounds: [0x1.aaaaaap-1] is a [float],
    six times it is not, and the [float] product is 5, so that the source
    builds 7 taps. *)
Lemma is_float_tells_rounding :
  is_float (13981013 # 16777216) /\
  ~ is_float ((13981013 # 16777216) * 6) /\
  to_float (Fin ((13981013 # 16777216) * 6)) = Fin 5.
Proof.
  split; [vm_compute; reflexivity|].
  split; [intros H; vm_compute in H; discriminate H|vm_compute; reflexivity].
Qed.

(** X8.  The kernel [GaussianBlur::apply] builds for a positive
    standard deviation has an odd number of taps, at least 3, and reaches
    out to three standard deviations on either side of its centre tap: its
    radius is above [3*sigma - 1] and, unless it is the least radius 1, at
    most [3*sigma + 1/2].  This is for a deviation on which
    [sigma * 6 + 1] is computed without rounding and converted to an
    [int]: [sigma], [sigma * 6] and [sigma * 6 + 1] are values of the type
    [float], and the last is at most [INT_MAX]. *)
Theorem gaussian_kernel_size (sigma : Q) :
  is_float sigma -> is_float (sigma * 6) -> is_float (sigma * 6 + 1) ->
  (0 < sigma)%Q -> (sigma * 6 + 1 <= inject_Z INT_MAX)%Q ->
  let size := GaussianBlur.kernel_size sigma in
  let radius := Z.quot size 2 in
  Z.odd size = true /\ 3 <= size /\ size = 2 * radius + 1 /\
  (3 * sigma - 1 < inject_Z radius)%Q /\
  (radius = 1 \/ (inject_Z radius <= 3 * sigma + (1 # 2))%Q).
Proof.
  intros _ _ _ Hs _. cbv zeta.
  destruct (kernel_size_radius Hs) as (r & Hr & Er & Hr2 & Hr3).
  set (n := Qfloor (sigma * 6 + 1)) in *.
  assert (Hn1 : (inject_Z n <= sigma * 6 + 1)%Q) by apply Qfloor_le.
  assert (Hn2 : (sigma * 6 + 1 < inject_Z (n + 1))%Q) by apply Qlt_floor.
  rewrite Er, quot_odd by lia.
  split; [rewrite Z.odd_spec; now exists r|].
  split; [lia|]. split; [reflexivity|].
  rewrite inject_Z_plus in Hn2. change (inject_Z 1) with 1%Q in Hn2.
  split.
  - assert (inject_Z n <= inject_Z (2 * r + 1))%Q by (rewrite <- Zle_Qle; lia).
    rewrite inject_Z_plus, inject_Z_mult in H.
    change (inject_Z 1) with 1%Q in H. change (inject_Z 2) with 2%Q in H. lra.
  - destruct Hr2 as [->|Hr2]; [now left|right].
    assert (inject_Z (2 * r) <= inject_Z n)%Q by (rewrite <- Zle_Qle; lia).
    rewrite inject_Z_mult in H. change (inject_Z 2) with 2%Q in H. lra.
Qed.

Lemma gaussian_kernel_size_witness :
  Z.odd (GaussianBlur.kernel_size 2) = true /\
  3 <= GaussianBlur.kernel_size 2 /\
  GaussianBlur.kernel_size 2 = 2 * Z.quot (GaussianBlur.kernel_size 2) 2 + 1 /\
  (3 * 2 - 1 < inject_Z (Z.quot (GaussianBlur.kernel_size 2) 2))%Q /\
  (Z.quot (GaussianBlur.kernel_size 2) 2 = 1 \/
   (inject_Z (Z.quot (GaussianBlur.kernel_size 2) 2) <= 3 * 2 + (1 # 2))%Q).
Proof.
  apply (@gaussian_kernel_size 2); try (vm_compute; reflexivity).
  vm_compute. discriminate.
Defined.

Lemma tap_inj (axis : Axis) (i j : Z) :
  GaussianBlur.tap axis i = GaussianBlur.tap axis j -> i = j.
Proof. destruct axis; simpl; congruence. Qed.

Lemma tap_at_put (axis : Axis) (size : Z) (f : Image) (i : Z) (v : float) :
  wf_image f -> same_extents f (GaussianBlur.filter_new axis size) ->
  0 <= i < size ->
  exists f',
    (let '(x, y, t) := GaussianBlur.tap axis i in put f x y t 0 v) = Ok f' /\
    wf_image f' /\ same_extents f' (GaussianBlur.filter_new axis size) /\
    tap_at axis f' i = Ok v /\
    forall j, j <> i -> tap_at axis f' j = tap_at axis f j.
Proof.
  intros Hwf Hext Hi. unfold tap_at.
  pose proof (@tap_in_bounds axis size i Hi) as Hb.
  pose proof (@tap_inj axis i) as Hinj.
  destruct (GaussianBlur.tap axis i) as [[x y] t].
  rewrite <- (in_bounds_same_extents x y t 0 Hext) in Hb.
  destruct (@put_ok f x y t 0 v Hwf Hb) as (f' & Hp & Hwf' & Hext' & Hget & Hoth).
  exists f'. split; [exact Hp|]. split; [exact Hwf'|].
  split; [eapply same_extents_trans; eauto|]. split; [exact Hget|].
  intros j Hj. specialize (Hinj j).
  destruct (GaussianBlur.tap axis j) as [[x' y'] t'].
  apply Hoth. intros E. apply Hj. symmetry. apply Hinj. congruence.
Qed.

Lemma tap_at_ok (axis : Axis) (size : Z) (f : Image) (i : Z) :
  wf_image f -> same_extents f (GaussianBlur.filter_new axis size) ->
  0 <= i < size -> exists v, tap_at axis f i = Ok v.
Proof.
  intros Hwf Hext Hi. unfold tap_at.
  pose proof (@tap_in_bounds axis size i Hi) as Hb.
  destruct (GaussianBlur.tap axis i) as [[x y] t].
  rewrite <- (in_bounds_same_extents x y t 0 Hext) in Hb.
  now apply at_ok.
Qed.

(** The taps [make_filter] leaves: the values of [expf], each divided by
    their sum. *)
Lemma make_filter_taps (expf : float -> float) (axis : Axis) (sigma : Q) :
  exists filter sum,
    GaussianBlur.make_filter expf axis sigma = Ok filter /\
    forall i, 0 <= i < GaussianBlur.kernel_size sigma ->
              tap_at axis filter i = Ok (fdiv (tap_value expf sigma i) sum).
Proof.
  unfold GaussianBlur.make_filter.
  set (size := GaussianBlur.kernel_size sigma).
  set (f0 := GaussianBlur.filter_new axis size).
  destruct (Z_le_gt_dec size 0) as [Hneg|Hpos].
  { rewrite for_loop_empty by lia. cbn [bind]. rewrite for_loop_empty by lia.
    exists f0, (of_int 0). split; [reflexivity|]. intros i Hi. lia. }
  assert (Hwf0 : wf_image f0).
  { unfold f0. destruct axis; apply wf_image_new; lia. }
  match goal with
  | |- context [for_loop 0 size ?body (f0, of_int 0)] =>
      destruct (@for_loop_inv _
                  (fun k st => wf_image (fst st) /\ same_extents (fst st) f0 /\
                               forall i, 0 <= i < k ->
                                 tap_at axis (fst st) i =
                                 Ok (tap_value expf sigma i))
                  body 0 size (f0, of_int 0)) as (st & Hr & Hwf & Hext & Htaps)
  end.
  { split; [exact Hwf0|]. split; [apply same_extents_refl|]. intros i Hi. lia. }
  { intros k [f sum] Hk (Hwf & Hext & Htaps). cbn [fst] in *.
    match goal with
    | |- context [put f _ _ _ 0 ?v] =>
        destruct (@tap_at_put axis size f k v Hwf Hext Hk)
          as (f' & Hp & Hwf' & Hext' & Hget & Hoth)
    end.
    destruct (GaussianBlur.tap axis k) as [[x y] t].
    rewrite Hp. cbn [bind]. eexists. split; [reflexivity|]. cbn [fst].
    split; [exact Hwf'|]. split; [exact Hext'|].
    intros i Hi. destruct (Z.eq_dec i k) as [->|Hne].
    - rewrite Hget. reflexivity.
    - rewrite Hoth by exact Hne. apply Htaps. lia. }
  rewrite Hr. cbn [bind]. destruct st as [f1 sum]. cbn [fst] in *.
  replace (Z.max 0 size) with size in Htaps by lia.
  match goal with
  | |- context [for_loop 0 size ?body f1] =>
      destruct (@for_loop_inv _
                  (fun k f => wf_image f /\ same_extents f f0 /\
                              forall i, 0 <= i < size ->
                                tap_at axis f i =
                                Ok (if i <? k
                                    then fdiv (tap_value expf sigma i) sum
                                    else tap_value expf sigma i))
                  body 0 size f1) as (f2 & Hr2 & Hwf2 & Hext2 & Htaps2)
  end.
  { split; [exact Hwf|]. split; [exact Hext|]. intros i Hi.
    destruct (Z.ltb_spec i 0); [lia|]. now apply Htaps. }
  { intros k f Hk (Hwff & Hextf & Htf).
    pose proof (Htf k Hk) as Hv. destruct (Z.ltb_spec k k); [lia|].
    match type of Hv with
    | _ = Ok ?v =>
        destruct (@tap_at_put axis size f k (fdiv v sum) Hwff Hextf Hk)
          as (f' & Hp & Hwf' & Hext' & Hget & Hoth)
    end.
    unfold tap_at in Hv. destruct (GaussianBlur.tap axis k) as [[x y] t].
    rewrite Hv. cbn [bind]. rewrite Hp. eexists. split; [reflexivity|].
    split; [exact Hwf'|]. split; [exact Hext'|].
    intros i Hi. destruct (Z.eq_dec i k) as [->|Hne].
    - rewrite Hget. destruct (Z.ltb_spec k (k + 1)); [reflexivity|lia].
    - rewrite Hoth by exact Hne. rewrite (Htf i Hi).
      destruct (Z.ltb_spec i k), (Z.ltb_spec i (k + 1)); try reflexivity; lia. }
  exists f2, sum. split; [exact Hr2|]. intros i Hi.
  rewrite (Htaps2 i Hi). destruct (Z.ltb_spec i (Z.max 0 size)); [reflexivity|lia].
Qed.

Lemma tap_value_mirror (expf : float -> float) (sigma : Q) (i : Z) :
  Qeq_bool sigma 0 = false ->
  GaussianBlur.kernel_size sigma =
  2 * Z.quot (GaussianBlur.kernel_size sigma) 2 + 1 ->
  tap_value expf sigma (GaussianBlur.kernel_size sigma - 1 - i) =
  tap_value expf sigma i.
Proof.
  intros Hs E. unfold tap_value.
  set (r := Z.quot (GaussianBlur.kernel_size sigma) 2) in *.
  rewrite E. replace (2 * r + 1 - 1 - i - r) with (- (i - r)) by lia.
  assert (D : forall k, fdiv (of_int k) (Fin sigma) =
                        Fin (Qred (inject_Z k / sigma))).
  { intros k. unfold fdiv, of_int. now rewrite Hs. }
  rewrite !D. cbn [fneg fmul]. f_equal. unfold fdiv, of_int.
  change (Qeq_bool (inject_Z 2) 0) with false. cbv iota.
  f_equal. apply Qred_complete. rewrite !Qred_correct.
  rewrite inject_Z_opp. field.
  intros H. apply Qeq_bool_iff in H. congruence.
Qed.



(** ** RectFilter::blurXCompletely *)

Section BlurCompletely.
Variable im : Image.
Hypothesis Hwf : wf_image im.

Lemma mean_inv_ext (D D' : Z -> Z -> Z -> Prop) (cur : Image) :
  (forall y t c, 0 <= y < height im -> 0 <= t < frames im ->
                 0 <= c < channels im -> (D y t c <-> D' y t c)) ->
  mean_inv im D cur -> mean_inv im D' cur.
Proof.
  intros HD (Hw & He & Hc). split; [exact Hw|]. split; [exact He|].
  intros x y t c Hb. pose proof Hb as Hb'. apply in_bounds_iff in Hb'.
  destruct Hb' as (Bx & By & Bt & Bc).
  destruct (Hc x y t c Hb) as [H1 H2]. specialize (HD y t c By Bt Bc).
  split; intros H; [apply H1|apply H2]; tauto.
Qed.

Lemma row_sum_loop (cur : Image) (y0 t0 c0 : Z) :
  0 <= y0 < height im -> 0 <= t0 < frames im -> 0 <= c0 < channels im ->
  (forall x, 0 <= x < width im -> at_ cur x y0 t0 c0 = at_ im x y0 t0 c0) ->
  for_loop 0 (width im)
           (fun x average =>
              do v <- at_ cur x y0 t0 c0; Ok (to_double (fadd average v)))
           (of_int 0)
  = Ok (row_sum im y0 t0 c0 (Z.to_nat (width im))).
Proof.
  intros Hy Ht Hc Hrow.
  match goal with
  | |- for_loop 0 _ ?body ?s = _ =>
      destruct (@for_loop_inv _
                  (fun k a => a = row_sum im y0 t0 c0 (Z.to_nat k))
                  body 0 (width im) s) as (a & Hr & Ha)
  end.
  - reflexivity.
  - intros k a Hk ->. rewrite (Hrow k Hk).
    rewrite (@sample_at im k y0 t0 c0 Hwf) by (apply in_bounds_iff; lia).
    cbn [bind]. eexists. split; [reflexivity|].
    replace (Z.to_nat (k + 1)) with (S (Z.to_nat k)) by lia.
    cbn [row_sum]. now rewrite Z2Nat.id by lia.
  - rewrite Hr, Ha. destruct Hwf as (Hw & _).
    now replace (Z.max 0 (width im)) with (width im) by lia.
Qed.

Lemma row_fill_loop (cur : Image) (y0 t0 c0 : Z) (m : float) :
  wf_image cur -> same_extents cur im ->
  0 <= y0 < height im -> 0 <= t0 < frames im -> 0 <= c0 < channels im ->
  exists cur',
    for_loop 0 (width im) (fun x im' => put im' x y0 t0 c0 m) cur = Ok cur' /\
    wf_image cur' /\ same_extents cur' im /\
    forall x y t c, in_bounds im x y t c = true ->
      at_ cur' x y t c =
      if (y =? y0) && (t =? t0) && (c =? c0) then Ok m else at_ cur x y t c.
Proof.
  intros Hwc Hec Hy Ht Hc.
  match goal with
  | |- context [for_loop 0 _ ?body cur] =>
      destruct (@for_loop_inv _
                  (fun k cur' =>
                     wf_image cur' /\ same_extents cur' im /\
                     forall x y t c, in_bounds im x y t c = true ->
                       at_ cur' x y t c =
                       if (y =? y0) && (t =? t0) && (c =? c0) && (x <? k)
                       then Ok m else at_ cur x y t c)
                  body 0 (width im) cur) as (cur' & Hr & Hw' & He' & Hc')
  end.
  - split; [exact Hwc|]. split; [exact Hec|]. intros x y t c Hb.
    apply in_bounds_iff in Hb. destruct (Z.ltb_spec x 0); [lia|].
    now rewrite andb_false_r.
  - intros k cur1 Hk (Hw1 & He1 & Hc1).
    assert (Hb : in_bounds cur1 k y0 t0 c0 = true).
    { rewrite (in_bounds_same_extents k y0 t0 c0 He1).
      apply in_bounds_iff. lia. }
    destruct (@put_ok cur1 k y0 t0 c0 m Hw1 Hb)
      as (cur2 & Hp & Hw2 & He2 & Hget & Hoth).
    exists cur2. split; [exact Hp|]. split; [exact Hw2|].
    split; [eapply same_extents_trans; eauto|].
    intros x y t c Hxb.
    destruct (Z.eqb_spec y y0) as [->|Ny]; cbn [andb].
    2:{ rewrite Hoth by congruence. rewrite (Hc1 x y t c Hxb).
        destruct (Z.eqb_spec y y0); [lia|reflexivity]. }
    destruct (Z.eqb_spec t t0) as [->|Nt]; cbn [andb].
    2:{ rewrite Hoth by congruence. rewrite (Hc1 x y0 t c Hxb).
        destruct (Z.eqb_spec y0 y0), (Z.eqb_spec t t0); try lia; reflexivity. }
    destruct (Z.eqb_spec c c0) as [->|Nc]; cbn [andb].
    2:{ rewrite Hoth by congruence. rewrite (Hc1 x y0 t0 c Hxb).
        destruct (Z.eqb_spec y0 y0), (Z.eqb_spec t0 t0), (Z.eqb_spec c c0);
          try lia; reflexivity. }
    destruct (Z.eq_dec x k) as [->|Nx].
    + rewrite Hget. destruct (Z.ltb_spec k (k + 1)); [reflexivity|lia].
    + rewrite Hoth by congruence. rewrite (Hc1 x y0 t0 c0 Hxb).
      rewrite !Z.eqb_refl. cbn [andb].
      destruct (Z.ltb_spec x k), (Z.ltb_spec x (k + 1)); try lia; reflexivity.
  - exists cur'. split; [exact Hr|]. split; [exact Hw'|]. split; [exact He'|].
    intros x y t c Hb. rewrite (Hc' x y t c Hb).
    apply in_bounds_iff in Hb.
    destruct (Z.ltb_spec x (Z.max 0 (width im))); [|lia].
    now rewrite andb_true_r.
Qed.

Lemma mean_row (c0 t0 y0 : Z) (cur : Image) :
  0 <= y0 < height im -> 0 <= t0 < frames im -> 0 <= c0 < channels im ->
  mean_inv im (rows_done c0 t0 y0) cur ->
  exists cur',
    (do average <- for_loop 0 (width cur)
                     (fun x average =>
                        do v <- at_ cur x y0 t0 c0;
                        Ok (to_double (fadd average v)))
                     (of_int 0);
     let average := to_double (fdiv_int average (width cur)) in
     for_loop 0 (width cur)
              (fun x im' => put im' x y0 t0 c0 (to_float average)) cur)
    = Ok cur' /\
    mean_inv im (rows_done c0 t0 (y0 + 1)) cur'.
Proof.
  intros Hy Ht Hc (Hwc & Hec & Hcur).
  pose proof Hec as (Ew & _). rewrite Ew.
  rewrite row_sum_loop; try assumption.
  2:{ intros x Hx. apply (Hcur x y0 t0 c0).
      - apply in_bounds_iff. lia.
      - unfold rows_done. lia. }
  cbn [bind]. cbv zeta.
  destruct (@row_fill_loop cur y0 t0 c0 (row_mean im y0 t0 c0) Hwc Hec Hy Ht Hc)
    as (cur' & Hr & Hw' & He' & Hc').
  exists cur'. split; [exact Hr|]. split; [exact Hw'|]. split; [exact He'|].
  intros x y t c Hb. rewrite (Hc' x y t c Hb).
  destruct (Hcur x y t c Hb) as [H1 H2].
  destruct (Z.eqb_spec y y0) as [->|Ny]; cbn [andb].
  2:{ split; intros H; [apply H1|apply H2]; unfold rows_done in *; lia. }
  destruct (Z.eqb_spec t t0) as [->|Nt]; cbn [andb].
  2:{ split; intros H; [apply H1|apply H2]; unfold rows_done in *; lia. }
  destruct (Z.eqb_spec c c0) as [->|Nc]; cbn [andb].
  2:{ split; intros H; [apply H1|apply H2]; unfold rows_done in *; lia. }
  split; [reflexivity|]. intros H. exfalso. apply H. unfold rows_done. lia.
Qed.

Lemma blurXCompletely_mean :
  exists out,
    RectFilter.blurXCompletely im = Ok out /\
    mean_inv im (fun _ _ _ => True) out.
Proof.
  unfold RectFilter.blurXCompletely.
  pose proof Hwf as (Pw & Ph & Pf & Pc & _).
  match goal with
  | |- context [for_loop 0 _ ?body im] =>
      destruct (@for_loop_inv _
                  (fun c0 cur => mean_inv im (rows_done c0 0 0) cur)
                  body 0 (channels im) im) as (out & Hr & Hinv)
  end.
  - split; [exact Hwf|]. split; [apply same_extents_refl|].
    intros x y t c Hb. apply in_bounds_iff in Hb.
    split; [unfold rows_done; lia|reflexivity].
  - intros c0 cur Hc0 Hcur.
    pose proof Hcur as (_ & (_ & _ & Ef & _) & _). rewrite Ef.
    match goal with
    | |- context [for_loop 0 _ ?body cur] =>
        destruct (@for_loop_inv _
                    (fun t0 cur => mean_inv im (rows_done c0 t0 0) cur)
                    body 0 (frames im) cur) as (cur1 & Hr1 & Hinv1)
    end.
    + exact Hcur.
    + intros t0 cur1 Ht0 Hcur1.
      pose proof Hcur1 as (_ & (_ & Eh & _) & _). rewrite Eh.
      match goal with
      | |- context [for_loop 0 _ ?body cur1] =>
          destruct (@for_loop_inv _
                      (fun y0 cur => mean_inv im (rows_done c0 t0 y0) cur)
                      body 0 (height im) cur1) as (cur2 & Hr2 & Hinv2)
      end.
      * exact Hcur1.
      * intros y0 cur2 Hy0 Hcur2. now apply mean_row.
      * exists cur2. split; [exact Hr2|].
        revert Hinv2. apply mean_inv_ext. intros y t c By Bt Bc.
        unfold rows_done. lia.
    + exists cur1. split; [exact Hr1|].
      revert Hinv1. apply mean_inv_ext. intros y t c By Bt Bc.
      unfold rows_done. lia.
  - exists out. split; [exact Hr|].
    revert Hinv. apply mean_inv_ext. intros y t c By Bt Bc.
    unfold rows_done. lia.
Qed.
End BlurCompletely.

(** The mean is the one the code computes, rounding included: of 1, 1 and
    2 it is the [float] nearest to 4/3, and of [1e30f], 1 and [-1e30f] it
    is 0, the 1 being lost in the [double] sum. *)
Lemma row_mean_rounds :
  row_mean (mkImage 3 1 1 1 [fl 1; fl 1; fl 2]) 0 0 0
  = Fin (11184811 # 8388608) /\
  to_float (Fin (inject_Z (10 ^ 30)))
  = Fin (inject_Z 1000000015047466219876688855040) /\
  row_mean (mkImage 3 1 1 1 [fl 1000000015047466219876688855040; fl 1;
                             fl (- 1000000015047466219876688855040)]) 0 0 0
  = Fin 0.
Proof. vm_compute. repeat split. Qed.

(** X3.  When the image is at most half as wide as the box
    ([im.width <= width/2], [im.width] not 1), [RectFilter::blurX] returns
    with the extents unchanged and every sample replaced by the mean of its
    scanline as the code computes it: the samples of the scanline added up
    from the left in a [double], the sum divided by [im.width] in a
    [double], and the quotient rounded to [float].  The number of
    iterations plays no part. *)
Theorem box_blur_wide_box_gives_mean (im : Image) (width iterations : Z) :
  wf_image im -> 1 < width -> im_width im <> 1 ->
  im_width im <= Z.quot width 2 ->
  exists out,
    RectFilter.blurX im width iterations = Ok out /\
    same_extents out im /\
    forall x y t c, in_bounds im x y t c = true ->
                    at_ out x y t c = Ok (row_mean im y t c).
Proof.
  intros Hwf Hw Hne Hle. unfold RectFilter.blurX.
  destruct (Z.leb_spec width 1); [lia|].
  destruct (Z.eqb_spec (im_width im) 1); [lia|].
  destruct (Z.leb_spec (im_width im) (Z.quot width 2)); [|lia].
  destruct (blurXCompletely_mean Hwf) as (out & Hr & _ & He & Hout).
  exists out. split; [exact Hr|]. split; [exact He|].
  intros x y t c Hb. now apply (Hout x y t c Hb).
Qed.

Lemma box_blur_wide_box_gives_mean_witness :
  exists out,
    RectFilter.blurX (mkImage 2 2 1 1 [fl 1; fl 3; fl 5; fl 9]) 5 7 = Ok out /\
    same_extents out (mkImage 2 2 1 1 [fl 1; fl 3; fl 5; fl 9]) /\
    forall x y t c,
      in_bounds (mkImage 2 2 1 1 [fl 1; fl 3; fl 5; fl 9]) x y t c = true ->
      at_ out x y t c =
      Ok (row_mean (mkImage 2 2 1 1 [fl 1; fl 3; fl 5; fl 9]) y t c).
Proof.
  apply box_blur_wide_box_gives_mean;
    [unfold wf_image, vsize; simpl; lia | lia | discriminate
    | vm_compute; discriminate].
Defined.

(** ** Image.h: the constructor and its alignment *)

Lemma land_31_mod (a : Z) : Z.land a 31 = a mod 32.
Proof. change 31 with (Z.ones 5). rewrite Z.land_ones by lia. reflexivity. Qed.

Lemma compute_base_loop (fuel : nat) :
  forall addr,
    addr mod 4 = 0 -> (32 - addr mod 32) mod 32 <= 4 * Z.of_nat fuel ->
    View.compute_base fuel addr = Ok (addr + (32 - addr mod 32) mod 32).
Proof.
  unfold View.compute_base.
  induction fuel as [|fuel IH]; intros addr H4 Hf.
  - cbn [while_loop]. rewrite land_31_mod.
    destruct (Z.eqb_spec (addr mod 32) 0) as [E|E]; cbn [negb].
    + rewrite E. f_equal. change ((32 - 0) mod 32) with 0. lia.
    + exfalso. revert H4 Hf E. Z.to_euclidean_division_equations. lia.
  - cbn [while_loop]. rewrite land_31_mod.
    destruct (Z.eqb_spec (addr mod 32) 0) as [E|E]; cbn [negb].
    + rewrite E. f_equal. change ((32 - 0) mod 32) with 0. lia.
    + cbn [bind]. rewrite IH.
      * f_equal. revert H4 E. Z.to_euclidean_division_equations. lia.
      * revert H4. Z.to_euclidean_division_equations. lia.
      * revert H4 Hf E. Z.to_euclidean_division_equations. lia.
Qed.

Lemma compute_base_misaligned (fuel : nat) :
  forall addr, addr mod 4 <> 0 ->
               forall b, View.compute_base fuel addr <> Ok b.
Proof.
  unfold View.compute_base.
  induction fuel as [|fuel IH]; intros addr H4 b; cbn [while_loop];
    rewrite land_31_mod;
    (destruct (Z.eqb_spec (addr mod 32) 0) as [E|E]; cbn [negb];
     [exfalso; revert H4 E; Z.to_euclidean_division_equations; lia|]).
  - discriminate.
  - cbn [bind]. apply IH.
    revert H4. Z.to_euclidean_division_equations. lia.
Qed.

(** X10.  [compute_base] moves the base up to the next address that is
    a multiple of 32: from the address of a vector of floats (a multiple of
    4) it returns after at most 7 steps, at most 7 floats further.  From an
    address that is no multiple of 4 it never returns. *)
Theorem compute_base_aligns (fuel : nat) (addr : Z) :
  (addr mod 4 = 0 -> (7 <= fuel)%nat ->
   exists pad, View.compute_base fuel addr = Ok (addr + 4 * pad) /\
               0 <= pad <= 7 /\ (addr + 4 * pad) mod 32 = 0 /\
               forall k, 0 <= k < pad -> (addr + 4 * k) mod 32 <> 0) /\
  (addr mod 4 <> 0 -> forall b, View.compute_base fuel addr <> Ok b).
Proof.
  split; [|apply compute_base_misaligned].
  intros H4 Hf. exists ((32 - addr mod 32) mod 32 / 4).
  assert (E : 4 * ((32 - addr mod 32) mod 32 / 4) = (32 - addr mod 32) mod 32).
  { revert H4. Z.to_euclidean_division_equations. lia. }
  rewrite E. split.
  - apply compute_base_loop; [exact H4|].
    assert ((32 - addr mod 32) mod 32 <= 28)
      by (revert H4; Z.to_euclidean_division_equations; lia).
    lia.
  - split; [revert H4; Z.to_euclidean_division_equations; lia|].
    split; [revert H4; Z.to_euclidean_division_equations; lia|].
    intros k Hk. revert H4 Hk. Z.to_euclidean_division_equations. lia.
Qed.

Lemma compute_base_aligns_witness :
  (exists pad, View.compute_base 7 1004 = Ok (1004 + 4 * pad) /\
               0 <= pad <= 7 /\ (1004 + 4 * pad) mod 32 = 0 /\
               forall k, 0 <= k < pad -> (1004 + 4 * k) mod 32 <> 0) /\
  (forall b, View.compute_base 7 1006 <> Ok b).
Proof.
  split.
  - apply (proj1 (compute_base_aligns 7 1004)); [reflexivity|lia].
  - apply (proj2 (compute_base_aligns 7 1006)). discriminate.
Defined.

Lemma view_in_bounds_iff (v : View.view) (x y t c : Z) :
  View.in_bounds v x y t c = true <->
  (0 <= x < View.width v /\ 0 <= y < View.height v /\
   0 <= t < View.frames v /\ 0 <= c < View.channels v).
Proof.
  unfold View.in_bounds. rewrite !andb_true_iff, !Z.leb_le, !Z.ltb_lt. tauto.
Qed.

(** The index of a sample of a fresh image is its offset in the dense
    layout, past the padding. *)
Lemma new_index (w h f c pad x y t k : Z) :
  View.index (fst (View.new w h f c pad)) x y t k =
  pad + offset (mkImage w h f c []) x y t k.
Proof.
  unfold View.index, View.new, offset, cstride, tstride, ystride. simpl. ring.
Qed.

Lemma new_in_bounds (w h f c pad x y t k : Z) :
  View.in_bounds (fst (View.new w h f c pad)) x y t k =
  in_bounds (mkImage w h f c []) x y t k.
Proof. reflexivity. Qed.

(** X11.  The image [Image(w, h, f, c)], for extents whose products
    [w*h], [w*h*f] and [w*h*f*c+7] are [int]s, is dense, and the 7 floats
    the constructor allocates beyond [w*h*f*c] are enough for the alignment
    of the base: wherever the base lands among the first 8 floats of the
    vector, every coordinate inside the extents has its sample inside the
    vector, and reads the zero of the allocation. *)
Theorem new_image_within_vector (w h f c pad : Z) :
  0 <= w -> 0 <= h -> 0 <= f -> 0 <= c -> int_extents w h f c ->
  0 <= pad <= 7 ->
  View.dense (fst (View.new w h f c pad)) = true /\
  View.within (fst (View.new w h f c pad)) (snd (View.new w h f c pad)) /\
  forall x y t k,
    View.in_bounds (fst (View.new w h f c pad)) x y t k = true ->
    View.at_ (snd (View.new w h f c pad)) (fst (View.new w h f c pad)) x y t k
    = Ok (of_int 0).
Proof.
  intros Hw Hh Hf Hc _ Hpad.
  assert (Hin : forall x y t k,
             View.in_bounds (fst (View.new w h f c pad)) x y t k = true ->
             0 <= View.index (fst (View.new w h f c pad)) x y t k
             < w * h * f * c + 7).
  { intros x y t k Hb. rewrite new_index. rewrite new_in_bounds in Hb.
    apply in_bounds_iff in Hb. cbn [width height frames channels] in Hb.
    destruct Hb as (Bx & By & Bt & Bk).
    pose proof (@offset_range (mkImage w h f c []) x y t k Bx By Bt Bk) as Ho.
    cbn [width height frames channels] in Ho. lia. }
  split; [|split].
  - unfold View.dense, View.new. simpl. now rewrite !Z.eqb_refl.
  - intros x y t k Hb. cbn [snd View.new]. rewrite vsize_vmake by nia.
    now apply Hin.
  - intros x y t k Hb. unfold View.at_. rewrite Hb. cbn [snd View.new].
    apply vget_vmake. now apply Hin.
Qed.

Lemma new_image_within_vector_witness :
  View.dense (fst (View.new 3 2 2 1 5)) = true /\
  View.within (fst (View.new 3 2 2 1 5)) (snd (View.new 3 2 2 1 5)) /\
  forall x y t k,
    View.in_bounds (fst (View.new 3 2 2 1 5)) x y t k = true ->
    View.at_ (snd (View.new 3 2 2 1 5)) (fst (View.new 3 2 2 1 5)) x y t k
    = Ok (of_int 0).
Proof.
  apply new_image_within_vector; try lia.
  unfold int_extents. repeat split; vm_compute; discriminate.
Defined.

(** ** Image.h: regions *)

(** X12.  A region that lies inside its image addresses the samples
    of the image shifted by its origin, in the vector they share: a read
    through the region is the read of the image at the shifted coordinate,
    a write through the region is the write to the image there, and a
    region cut from the region is the region of the image at the sum of the
    origins. *)
Theorem region_is_a_shift (v r : View.view) (x y t c xs ys ts cs : Z) :
  View.region v x y t c xs ys ts cs = Ok r ->
  View.fits v x y t c xs ys ts cs ->
  forall i j k l,
    View.in_bounds r i j k l = true ->
    (forall d, View.at_ d r i j k l = View.at_ d v (x + i) (y + j) (t + k) (c + l)) /\
    (forall d a, View.put d r i j k l a =
                 View.put d v (x + i) (y + j) (t + k) (c + l) a) /\
    (forall xs' ys' ts' cs',
        View.region r i j k l xs' ys' ts' cs' =
        View.region v (x + i) (y + j) (t + k) (c + l) xs' ys' ts' cs').
Proof.
  unfold View.region. destruct (View.in_bounds v x y t c) eqn:Hb; [|discriminate].
  intros E Hfits i j k l Hr. injection E as Er. subst r.
  assert (Hv : View.in_bounds v (x + i) (y + j) (t + k) (c + l) = true).
  { apply view_in_bounds_iff in Hr. simpl in Hr.
    apply view_in_bounds_iff. unfold View.fits in Hfits. lia. }
  match type of Hr with
  | View.in_bounds ?r _ _ _ _ = _ =>
      assert (Hi : View.index r i j k l =
                   View.index v (x + i) (y + j) (t + k) (c + l))
        by (unfold View.index; simpl; ring)
  end.
  split; [|split].
  - intros d. unfold View.at_. now rewrite Hr, Hv, Hi.
  - intros d a. unfold View.put. now rewrite Hr, Hv, Hi.
  - intros xs' ys' ts' cs'. rewrite Hr, Hv, Hi. reflexivity.
Qed.

Lemma region_is_a_shift_witness :
  View.region (View.mk 4 2 1 1 4 8 8 0) 1 1 0 0 2 1 1 1 =
  Ok (View.mk 2 1 1 1 4 8 8 5) /\
  forall d,
    View.at_ d (View.mk 2 1 1 1 4 8 8 5) 1 0 0 0 =
    View.at_ d (View.mk 4 2 1 1 4 8 8 0) (1 + 1) (1 + 0) (0 + 0) (0 + 0).
Proof.
  split; [reflexivity|]. intros d.
  apply (@region_is_a_shift (View.mk 4 2 1 1 4 8 8 0) (View.mk 2 1 1 1 4 8 8 5)
                            1 1 0 0 2 1 1 1 eq_refl);
    [unfold View.fits; simpl; lia|reflexivity].
Defined.

(** X13.  Nothing clips a region to its image.  A region is built from
    any sizes as soon as its origin is a coordinate of the image, and in a
    region that is wider than what is left of the scanlines of a dense
    image, the columns past the end of a scanline are the first columns of
    the next scanline. *)
Theorem region_is_not_clipped (v : View.view) (x y t c xs ys ts cs : Z) :
  View.in_bounds v x y t c = true ->
  exists r,
    View.region v x y t c xs ys ts cs = Ok r /\
    View.width r = xs /\ View.height r = ys /\
    View.frames r = ts /\ View.channels r = cs /\
    (View.ystride v = View.width v ->
     forall d i j,
       View.width v <= x + i -> x + i < 2 * View.width v -> i < xs ->
       0 <= j < ys -> y + j + 1 < View.height v -> 0 < ts -> 0 < cs ->
       View.at_ d r i j 0 0 =
       View.at_ d v (x + i - View.width v) (y + j + 1) t c).
Proof.
  intros Hb. unfold View.region. rewrite Hb. eexists. split; [reflexivity|].
  cbn [View.width View.height View.frames View.channels].
  repeat (split; [reflexivity|]).
  intros Hd d i j H1 H2 H3 H4 H5 H6 H7.
  apply view_in_bounds_iff in Hb.
  unfold View.at_.
  replace (View.in_bounds _ i j 0 0) with true.
  2:{ symmetry. apply view_in_bounds_iff. simpl. lia. }
  replace (View.in_bounds v _ _ t c) with true.
  2:{ symmetry. apply view_in_bounds_iff. lia. }
  f_equal. unfold View.index. simpl. rewrite Hd. ring.
Qed.

Lemma region_is_not_clipped_witness :
  exists r,
    View.region (View.mk 4 2 1 1 4 8 8 0) 3 0 0 0 3 1 1 1 = Ok r /\
    View.width r = 3 /\ View.height r = 1 /\
    View.frames r = 1 /\ View.channels r = 1 /\
    (View.ystride (View.mk 4 2 1 1 4 8 8 0) = View.width (View.mk 4 2 1 1 4 8 8 0) ->
     forall d i j,
       View.width (View.mk 4 2 1 1 4 8 8 0) <= 3 + i ->
       3 + i < 2 * View.width (View.mk 4 2 1 1 4 8 8 0) -> i < 3 ->
       0 <= j < 1 -> 0 + j + 1 < View.height (View.mk 4 2 1 1 4 8 8 0) ->
       0 < 1 -> 0 < 1 ->
       View.at_ d r i j 0 0 =
       View.at_ d (View.mk 4 2 1 1 4 8 8 0)
                (3 + i - View.width (View.mk 4 2 1 1 4 8 8 0)) (0 + j + 1) 0 0).
Proof. apply region_is_not_clipped. reflexivity. Defined.

(** ** Image.h: copy *)

Section Copy.
Variables (v : View.view) (d : list float) (pad : Z).
Hypothesis Hw : 0 <= View.width v.
Hypothesis Hh : 0 <= View.height v.
Hypothesis Hf : 0 <= View.frames v.
Hypothesis Hc : 0 <= View.channels v.
Hypothesis Hpad : 0 <= pad <= 7.
Hypothesis Hwithin : View.within v d.

Local Notation m := (View.fresh v pad).

Lemma copy_in_bounds (x y t c : Z) :
  View.in_bounds m x y t c = View.in_bounds v x y t c.
Proof. reflexivity. Qed.

Lemma copy_inv_ext (D D' : Z -> Z -> Z -> Z -> Prop) (cur : list float) :
  (forall x y t c, View.in_bounds m x y t c = true -> D' x y t c -> D x y t c) ->
  View.copy_inv m v d D cur -> View.copy_inv m v d D' cur.
Proof.
  intros HD (Hsz & Hcur). split; [exact Hsz|].
  intros x y t c Hb H. apply Hcur; [exact Hb|]. now apply HD.
Qed.

Lemma copy_sample (c0 t0 y0 x0 : Z) (cur : list float) :
  0 <= c0 < View.channels v -> 0 <= t0 < View.frames v ->
  0 <= y0 < View.height v -> 0 <= x0 < View.width v ->
  View.copy_inv m v d (View.copied c0 t0 y0 x0) cur ->
  exists cur',
    (do a <- vget d (View.scanline v y0 t0 c0 + x0);
     vset cur (View.scanline m y0 t0 c0 + x0) a) = Ok cur' /\
    View.copy_inv m v d (View.copied c0 t0 y0 (x0 + 1)) cur'.
Proof.
  intros Bc Bt By Bx (Hsz & Hcur).
  assert (Hbv : View.in_bounds v x0 y0 t0 c0 = true)
    by (apply view_in_bounds_iff; lia).
  assert (Es : View.scanline v y0 t0 c0 + x0 = View.index v x0 y0 t0 c0)
    by (unfold View.scanline, View.index; ring).
  assert (Em : View.scanline m y0 t0 c0 + x0 = View.index m x0 y0 t0 c0)
    by (unfold View.scanline, View.index; ring).
  rewrite Es, Em.
  destruct (@vget_ok _ d (View.index v x0 y0 t0 c0) (Hwithin _ _ _ _ Hbv))
    as [a Ha].
  rewrite Ha. cbn [bind].
  assert (Hrange : forall x y t c,
             View.in_bounds m x y t c = true ->
             0 <= offset (mkImage (View.width v) (View.height v)
                                  (View.frames v) (View.channels v) [])
                         x y t c
             < View.width v * View.height v * View.frames v * View.channels v).
  { intros x y t c Hb. apply view_in_bounds_iff in Hb.
    destruct Hb as (B1 & B2 & B3 & B4).
    apply (@offset_range (mkImage (View.width v) (View.height v)
                                  (View.frames v) (View.channels v) [])
                         x y t c B1 B2 B3 B4). }
  assert (Hidx : forall x y t c,
             View.index m x y t c =
             pad + offset (mkImage (View.width v) (View.height v)
                                   (View.frames v) (View.channels v) [])
                          x y t c)
    by (intros; apply new_index).
  destruct (@vset_ok _ cur a (View.index m x0 y0 t0 c0))
    as (cur' & Hset & Hsz' & Hget & Hoth).
  { rewrite Hsz, Hidx. pose proof (Hrange x0 y0 t0 c0 Hbv).
    change (View.width m) with (View.width v).
    change (View.height m) with (View.height v).
    change (View.frames m) with (View.frames v).
    change (View.channels m) with (View.channels v). lia. }
  exists cur'. split; [exact Hset|]. split; [congruence|].
  intros x y t c Hb HD.
  destruct (Z.eq_dec (View.index m x y t c) (View.index m x0 y0 t0 c0))
    as [E|Ne].
  - rewrite !Hidx in E.
    pose proof Hb as Hb'. apply view_in_bounds_iff in Hb'.
    destruct Hb' as (B1 & B2 & B3 & B4).
    destruct (@offset_inj (mkImage (View.width v) (View.height v)
                                   (View.frames v) (View.channels v) [])
                          x y t c x0 y0 t0 c0 B1 B2 B3 Bx By Bt)
      as (-> & -> & -> & ->); [lia|].
    unfold View.at_. rewrite Hb, Hbv, Hget, Ha. reflexivity.
  - transitivity (View.at_ cur m x y t c).
    + unfold View.at_. rewrite Hb. now apply Hoth.
    + apply Hcur; [exact Hb|].
      unfold View.copied in *.
      destruct (Z.eq_dec x x0), (Z.eq_dec y y0), (Z.eq_dec t t0),
        (Z.eq_dec c c0); subst; lia.
Qed.

Lemma copy_returns :
  exists md,
    View.copy v d pad = Ok (m, md) /\
    forall x y t c, View.in_bounds v x y t c = true ->
                    View.at_ md m x y t c = View.at_ d v x y t c.
Proof.
  unfold View.copy. cbn [View.new]. unfold View.set.
  cbn [View.width View.height View.frames View.channels].
  rewrite !Z.eqb_refl. cbn [andb assert bind].
  change (View.mk (View.width v) (View.height v) (View.frames v)
                  (View.channels v) (View.width v)
                  (View.width v * View.height v)
                  (View.width v * View.height v * View.frames v) pad)
    with (View.fresh v pad).
  match goal with
  | |- context [for_loop 0 _ ?body ?d0] =>
      destruct (@for_loop_inv _
                  (fun c0 cur => View.copy_inv m v d (View.copied c0 0 0 0) cur)
                  body 0 (View.channels v) d0) as (md & Hr & Hinv)
  end.
  - split.
    + rewrite vsize_vmake by nia. reflexivity.
    + intros x y t c Hb HD. apply view_in_bounds_iff in Hb.
      unfold View.copied in HD. lia.
  - intros c0 cur Bc Hcur.
    match goal with
    | |- context [for_loop 0 _ ?body cur] =>
        destruct (@for_loop_inv _
                    (fun t0 cur => View.copy_inv m v d (View.copied c0 t0 0 0) cur)
                    body 0 (View.frames v) cur) as (cur1 & Hr1 & Hinv1)
    end.
    + exact Hcur.
    + intros t0 cur1 Bt Hcur1.
      match goal with
      | |- context [for_loop 0 _ ?body cur1] =>
          destruct (@for_loop_inv _
                      (fun y0 cur =>
                         View.copy_inv m v d (View.copied c0 t0 y0 0) cur)
                      body 0 (View.height v) cur1) as (cur2 & Hr2 & Hinv2)
      end.
      * exact Hcur1.
      * intros y0 cur2 By Hcur2. cbv zeta.
        match goal with
        | |- context [for_loop 0 _ ?body cur2] =>
            destruct (@for_loop_inv _
                        (fun x0 cur =>
                           View.copy_inv m v d (View.copied c0 t0 y0 x0) cur)
                        body 0 (View.width v) cur2) as (cur3 & Hr3 & Hinv3)
        end.
        -- exact Hcur2.
        -- intros x0 cur3 Bx Hcur3. now apply copy_sample.
        -- exists cur3. split; [exact Hr3|].
           revert Hinv3. apply copy_inv_ext. intros x y t c Hb.
           apply view_in_bounds_iff in Hb.
           change (View.width m) with (View.width v) in Hb.
           unfold View.copied. lia.
      * exists cur2. split; [exact Hr2|].
        revert Hinv2. apply copy_inv_ext. intros x y t c Hb.
        apply view_in_bounds_iff in Hb.
        change (View.height m) with (View.height v) in Hb.
        unfold View.copied. lia.
    + exists cur1. split; [exact Hr1|].
      revert Hinv1. apply copy_inv_ext. intros x y t c Hb.
      apply view_in_bounds_iff in Hb.
      change (View.frames m) with (View.frames v) in Hb.
      unfold View.copied. lia.
  - exists md. split; [now rewrite Hr|].
    intros x y t c Hb. destruct Hinv as (_ & Hinv). apply Hinv; [exact Hb|].
    apply view_in_bounds_iff in Hb. unfold View.copied. lia.
Qed.
End Copy.



(** ** Image.h: sample2DLinear *)

Lemma truncate_inject_Z (n : Z) : truncate (inject_Z n) = n.
Proof. unfold truncate, inject_Z. cbn [Qnum Qden]. apply Z.quot_1_r. Qed.



Lemma blend_at_integer (a b : Q) :
  same_number
    (fadd (fmul (fsub (of_int 1) (fsub (Fin (inject_Z 0)) (of_int 0))) (Fin a))
          (fmul (fsub (Fin (inject_Z 0)) (of_int 0)) (Fin b)))
    (Fin a).
Proof.
  unfold same_number. cbn [fsub fadd fmul fneg of_int].
  eexists. exists a. split; [reflexivity|]. split; [reflexivity|].
  rewrite !Qred_correct. change (inject_Z 0) with 0%Q.
  change (inject_Z 1) with 1%Q. ring.
Qed.

Lemma frac_of_integer (n : Z) :
  fsub (Fin (inject_Z n)) (of_int n) = fsub (Fin (inject_Z 0)) (of_int 0).
Proof.
  unfold fsub, fadd, fneg, of_int. f_equal. apply Qred_complete. ring.
Qed.

(** X16.  At integer coordinates, [sample2DLinear] returns, in every
    channel, the sample of the image at these coordinates, provided the
    four samples it reads are coordinates of the image and hold numbers
    (no infinity, no NaN); the entries of the result past the channels are
    left as they were. *)
Theorem sample2DLinear_at_integer
        (im : Image) (ix iy t : Z) (out : list float) :
  wf_image im ->
  0 <= ix -> ix + 1 < width im -> 0 <= iy -> iy + 1 < height im ->
  0 <= t < frames im -> channels im <= vsize out ->
  corners_finite im ix iy t ->
  exists out',
    sample2DLinear im (inject_Z ix) (inject_Z iy) t out = Ok out' /\
    vsize out' = vsize out /\
    (forall c, 0 <= c < channels im ->
               same_number (hv out' c) (sample im ix iy t c)) /\
    (forall c, channels im <= c -> hv out' c = hv out c).
Proof.
  intros Hwf Hx0 Hx1 Hy0 Hy1 Ht Hsz Hfin. unfold sample2DLinear.
  rewrite !truncate_inject_Z, (frac_of_integer ix), (frac_of_integer iy).
  match goal with
  | |- context [for_loop 0 _ ?body out] =>
      destruct (@for_loop_inv _
                  (fun k o =>
                     vsize o = vsize out /\
                     (forall c, 0 <= c < k ->
                                same_number (hv o c) (sample im ix iy t c)) /\
                     (forall c, k <= c -> hv o c = hv out c))
                  body 0 (channels im) out) as (out' & Hr & Hs' & Hdone & Hrest)
  end.
  - split; [reflexivity|]. split; [intros c Hc; lia|reflexivity].
  - intros k o Hk (Hso & Hdo & Hro).
    destruct (Hfin k Hk) as (F1 & F2 & F3 & F4).
    rewrite (@sample_at im ix iy t k Hwf) by (apply in_bounds_iff; lia).
    rewrite (@sample_at im (ix + 1) iy t k Hwf) by (apply in_bounds_iff; lia).
    rewrite (@sample_at im ix (iy + 1) t k Hwf) by (apply in_bounds_iff; lia).
    rewrite (@sample_at im (ix + 1) (iy + 1) t k Hwf)
      by (apply in_bounds_iff; lia).
    cbn [bind]. cbv zeta. cbn [bind].
    destruct (sample im ix iy t k) as [| |a|] eqn:Ea; try contradiction.
    destruct (sample im (ix + 1) iy t k) as [| |b|]; try contradiction.
    destruct (sample im ix (iy + 1) t k) as [| |a'|]; try contradiction.
    destruct (sample im (ix + 1) (iy + 1) t k) as [| |b'|]; try contradiction.
    destruct (blend_at_integer a b) as (p1 & q1 & E1 & Eq1 & H1).
    destruct (blend_at_integer a' b') as (p2 & q2 & E2 & Eq2 & H2).
    rewrite E1, E2.
    destruct (blend_at_integer p1 p2) as (p3 & q3 & E3 & Eq3 & H3).
    rewrite E3.
    destruct (@vset_hv o k (Fin p3) ltac:(lia)) as (o' & Hset & Hso' & Hn & Hoth).
    exists o'. split; [exact Hset|]. split; [lia|]. split.
    + intros c Hc. destruct (Z.eq_dec c k) as [->|Hne].
      * rewrite Hn, Ea. exists p3, a. split; [reflexivity|].
        split; [reflexivity|]. inversion Eq3. inversion Eq1. subst.
        now rewrite H3, H1.
      * rewrite Hoth by exact Hne. apply Hdo. lia.
    + intros c Hc. rewrite Hoth by lia. apply Hro. lia.
  - exists out'. split; [exact Hr|]. split; [exact Hs'|].
    destruct Hwf as (_ & _ & _ & Hc & _).
    replace (Z.max 0 (channels im)) with (channels im) in * by lia.
    split; assumption.
Qed.

Lemma sample2DLinear_at_integer_witness :
  exists out',
    sample2DLinear (mkImage 2 2 1 1 [fl 1; fl 2; fl 3; fl 4])
                   (inject_Z 0) (inject_Z 0) 0 [fl 9; fl 8] = Ok out' /\
    vsize out' = vsize [fl 9; fl 8] /\
    (forall c, 0 <= c < channels (mkImage 2 2 1 1 [fl 1; fl 2; fl 3; fl 4]) ->
               same_number (hv out' c)
                 (sample (mkImage 2 2 1 1 [fl 1; fl 2; fl 3; fl 4]) 0 0 0 c)) /\
    (forall c, channels (mkImage 2 2 1 1 [fl 1; fl 2; fl 3; fl 4]) <= c ->
               hv out' c = hv [fl 9; fl 8] c).
Proof.
  apply sample2DLinear_at_integer; try (simpl; lia).
  - unfold wf_image, vsize. simpl. lia.
  - unfold vsize. simpl. lia.
  - intros c Hc. simpl in Hc. assert (c = 0) by lia. subst c.
    vm_compute. tauto.
Defined.

(** ** PercentileFilter::apply with radius 0 *)

Lemma for_loop_break_one (S : Type) (lo : Z)
      (body : Z -> S -> result (flow S)) (s : S) :
  for_loop_break lo (lo + 1) body s =
  (do r <- body lo s; match r with Next s' => Ok s' | Break s' => Ok s' end).
Proof.
  unfold for_loop_break. replace (Z.to_nat (lo + 1 - lo)) with 1%nat by lia.
  reflexivity.
Qed.

Lemma desired_of_one (p : Q) : SlidingNewImage.desiredMinHeapSize 1 p = 0.
Proof.
  unfold SlidingNewImage.desiredMinHeapSize, iclamp. cbv zeta.
  change (1 - 1) with 0.
  match goal with
  | |- context [int_of ?x] => generalize (int_of x)
  end.
  intros n. destruct (n <? 0) eqn:E1; [reflexivity|].
  destruct (0 <? n) eqn:E2; [reflexivity|].
  apply Z.ltb_ge in E1. apply Z.ltb_ge in E2. lia.
Qed.

Lemma rebalance_holding (a : float) (p : Q) :
  SlidingNewImage.rebalance (PercentileFilter.holding a) p =
  Ok (PercentileFilter.holding a).
Proof.
  unfold SlidingNewImage.rebalance, PercentileFilter.holding.
  cbn [SlidingNewImage.max_count SlidingNewImage.min_count
       SlidingNewImage.maxHeap SlidingNewImage.minHeap vget Z.ltb Z.eqb
       Z.compare bind snd].
  change (1 + 0) with 1. rewrite desired_of_one. reflexivity.
Qed.

Lemma pivot_holding (a : float) :
  SlidingNewImage.pivot (PercentileFilter.holding a) = Ok a.
Proof. reflexivity. Qed.

Lemma insert_first (a : float) :
  SlidingNewImage.insert
    (SlidingNewImage.mkWindow [of_int 0] [(0, 0)] [(0, 0)]) 0 a =
  Ok (PercentileFilter.holding a).
Proof. reflexivity. Qed.

Lemma remove_holding (a : float) :
  SlidingNewImage.remove (PercentileFilter.holding a) 0 =
  Ok (PercentileFilter.emptied a).
Proof. reflexivity. Qed.

Lemma insert_emptied (a b : float) :
  SlidingNewImage.insert (PercentileFilter.emptied a) 0 b =
  Ok (PercentileFilter.holding b).
Proof. reflexivity. Qed.

Lemma edge_profile_0 : PercentileFilter.edge_profile 0 = Ok [0].
Proof. reflexivity. Qed.

Lemma new_one :
  SlidingNewImage.new ((2 * 0 + 1) * (2 * 0 + 1)) =
  Ok (SlidingNewImage.mkWindow [of_int 0] [(0, 0)] [(0, 0)]).
Proof. reflexivity. Qed.

Section RadiusZero.
Variable im : Image.
Variable percentile : Q.
Hypothesis Hwf : wf_image im.

Lemma same_inv_ext (D D' : Z -> Z -> Z -> Z -> Prop) (out : Image) :
  (forall x y t c, in_bounds im x y t c = true -> D' x y t c -> D x y t c) ->
  PercentileFilter.same_inv im D out -> PercentileFilter.same_inv im D' out.
Proof.
  intros HD (Hw & He & Hs). split; [exact Hw|]. split; [exact He|].
  intros x y t c Hb H. apply Hs; [exact Hb|]. now apply HD.
Qed.

Lemma fill_window_0 (y t c : Z) :
  0 <= y < height im -> 0 <= t < frames im -> 0 <= c < channels im ->
  0 < width im ->
  PercentileFilter.fill_window
    im 0 [0] y t c (SlidingNewImage.mkWindow [of_int 0] [(0, 0)] [(0, 0)]) =
  Ok (PercentileFilter.holding (sample im 0 y t c)).
Proof.
  intros Hy Ht Hc Hw. unfold PercentileFilter.fill_window.
  change (2 * 0 + 1) with (0 + 1). rewrite for_loop_break_one.
  cbn [vget Z.ltb Z.eqb Z.compare bind]. cbv zeta.
  replace (y + (0 - 0)) with y by lia.
  destruct (Z.leb_spec (height im) y); [lia|].
  destruct (Z.ltb_spec y 0); [lia|].
  rewrite for_loop_break_one.
  destruct (Z.leb_spec (width im) 0); [lia|].
  rewrite (@sample_at im 0 y t c Hwf) by (apply in_bounds_iff; lia).
  cbn [bind]. change (0 * (0 + 1) + 0) with 0. rewrite insert_first.
  reflexivity.
Qed.

Lemma slide_window_0 (x y t c : Z) :
  0 <= x < width im -> 0 <= y < height im -> 0 <= t < frames im ->
  0 <= c < channels im ->
  exists w,
    PercentileFilter.slide_window
      im 0 [0] x y t c (PercentileFilter.holding (sample im x y t c)) = Ok w /\
    (x + 1 < width im ->
     w = PercentileFilter.holding (sample im (x + 1) y t c)).
Proof.
  intros Hx Hy Ht Hc. unfold PercentileFilter.slide_window.
  change (0 * 2 + 1) with (0 + 1). rewrite for_loop_break_one.
  cbn [vget Z.ltb Z.eqb Z.compare bind]. cbv zeta.
  replace (y + (0 - 0)) with y by lia.
  destruct (Z.leb_spec (height im) y); [lia|].
  destruct (Z.ltb_spec y 0); [lia|].
  replace (x - 0) with x by lia. replace (x + 0 + 1) with (x + 1) by lia.
  destruct (Z.leb_spec 0 x); [|lia].
  change (2 * 0 + 1) with 1. rewrite !Z.rem_1_r.
  change (0 * 1 + 0) with 0. rewrite remove_holding. cbn [bind].
  destruct (Z.ltb_spec (x + 1) (width im)).
  - rewrite (@sample_at im (x + 1) y t c Hwf) by (apply in_bounds_iff; lia).
    cbn [bind]. rewrite insert_emptied. cbn [bind].
    eexists. split; [reflexivity|]. intros _. reflexivity.
  - cbn [bind]. eexists. split; [reflexivity|]. intros; lia.
Qed.

Lemma percentile_row (c0 t0 y0 : Z) (out : Image) :
  0 <= y0 < height im -> 0 <= t0 < frames im -> 0 <= c0 < channels im ->
  PercentileFilter.same_inv im (PercentileFilter.written c0 t0 y0 0) out ->
  exists out',
    (do window <- SlidingNewImage.new ((2 * 0 + 1) * (2 * 0 + 1));
     do window <- PercentileFilter.fill_window im 0 [0] y0 t0 c0 window;
     do st <- for_loop 0 (width im) (fun x '(out, window) =>
                do window <- SlidingNewImage.rebalance window percentile;
                do p <- SlidingNewImage.pivot window;
                do out <- put out x y0 t0 c0 p;
                do window <- PercentileFilter.slide_window
                               im 0 [0] x y0 t0 c0 window;
                Ok (out, window)) (out, window);
     Ok (fst st)) = Ok out' /\
    PercentileFilter.same_inv im (PercentileFilter.written c0 t0 (y0 + 1) 0) out'.
Proof.
  intros Hy Ht Hc Hout. rewrite new_one. cbn [bind].
  destruct (Z_le_gt_dec (width im) 0) as [Hw0|Hw0].
  { destruct (PercentileFilter.fill_window im 0 [0] y0 t0 c0 _) eqn:E.
    2-4: exfalso; revert E; unfold PercentileFilter.fill_window;
      change (2 * 0 + 1) with (0 + 1); rewrite for_loop_break_one;
      cbn [vget Z.ltb Z.eqb Z.compare bind]; cbv zeta;
      replace (y0 + (0 - 0)) with y0 by lia;
      (destruct (Z.leb_spec (height im) y0); [lia|]);
      (destruct (Z.ltb_spec y0 0); [lia|]);
      rewrite for_loop_break_one;
      (destruct (Z.leb_spec (width im) 0); [|lia]);
      cbn [bind]; discriminate.
    cbn [bind]. rewrite for_loop_empty by lia. cbn [bind fst].
    exists out. split; [reflexivity|].
    revert Hout. apply same_inv_ext. intros x y t c Hb.
    apply in_bounds_iff in Hb. lia. }
  rewrite fill_window_0 by (try assumption; lia). cbn [bind].
  match goal with
  | |- context [for_loop 0 _ ?body ?s] =>
      destruct (@for_loop_inv _
                  (fun x0 st =>
                     PercentileFilter.same_inv
                       im (PercentileFilter.written c0 t0 y0 x0) (fst st) /\
                     (x0 < width im ->
                      snd st = PercentileFilter.holding (sample im x0 y0 t0 c0)))
                  body 0 (width im) s) as (st & Hr & Hinv & _)
  end.
  - split; [exact Hout|]. intros _. reflexivity.
  - intros x0 [o w] Hx0 ((Hwo & Heo & Hso) & Hwin). cbn [fst snd] in *.
    rewrite (Hwin ltac:(lia)).
    rewrite rebalance_holding. cbn [bind]. rewrite pivot_holding. cbn [bind].
    assert (Hb : in_bounds o x0 y0 t0 c0 = true).
    { rewrite (in_bounds_same_extents x0 y0 t0 c0 Heo).
      apply in_bounds_iff. lia. }
    destruct (@put_ok o x0 y0 t0 c0 (sample im x0 y0 t0 c0) Hwo Hb)
      as (o' & Hp & Hwo' & Heo' & Hget & Hoth).
    rewrite Hp. cbn [bind].
    destruct (@slide_window_0 x0 y0 t0 c0) as (w' & Hsl & Hw'); try lia.
    rewrite Hsl. cbn [bind]. eexists. split; [reflexivity|]. cbn [fst snd].
    split; [|exact Hw'].
    split; [exact Hwo'|]. split; [eapply same_extents_trans; eauto|].
    intros x y t c Hxb HD.
    destruct (Z.eq_dec x x0) as [->|Nx].
    + destruct (Z.eq_dec y y0) as [->|Ny];
        [destruct (Z.eq_dec t t0) as [->|Nt];
         [destruct (Z.eq_dec c c0) as [->|Nc]|]|].
      * rewrite Hget. symmetry. now apply sample_at.
      * rewrite Hoth by congruence. apply Hso; [exact Hxb|].
        unfold PercentileFilter.written in *. lia.
      * rewrite Hoth by congruence. apply Hso; [exact Hxb|].
        unfold PercentileFilter.written in *. lia.
      * rewrite Hoth by congruence. apply Hso; [exact Hxb|].
        unfold PercentileFilter.written in *. lia.
    + rewrite Hoth by congruence. apply Hso; [exact Hxb|].
      unfold PercentileFilter.written in *. lia.
  - rewrite Hr. cbn [bind]. exists (fst st). split; [reflexivity|].
    revert Hinv. apply same_inv_ext. intros x y t c Hb.
    apply in_bounds_iff in Hb. unfold PercentileFilter.written. lia.
Qed.

Lemma percentile_radius_0 :
  exists out,
    PercentileFilter.apply im 0 percentile = Ok out /\
    PercentileFilter.same_inv im (fun _ _ _ _ => True) out.
Proof.
  unfold PercentileFilter.apply. rewrite edge_profile_0. cbn [bind].
  pose proof Hwf as (Pw & Ph & Pf & Pc & _).
  match goal with
  | |- context [for_loop 0 _ ?body ?o] =>
      destruct (@for_loop_inv _
                  (fun c0 out =>
                     PercentileFilter.same_inv
                       im (PercentileFilter.written c0 0 0 0) out)
                  body 0 (channels im) o) as (out & Hr & Hinv)
  end.
  - split; [now apply wf_image_new|]. split; [unfold same_extents; auto|].
    intros x y t c Hb HD. apply in_bounds_iff in Hb.
    unfold PercentileFilter.written in HD. lia.
  - intros c0 o Hc0 Ho.
    match goal with
    | |- context [for_loop 0 _ ?body o] =>
        destruct (@for_loop_inv _
                    (fun t0 out =>
                       PercentileFilter.same_inv
                         im (PercentileFilter.written c0 t0 0 0) out)
                    body 0 (frames im) o) as (o1 & Hr1 & Hinv1)
    end.
    + exact Ho.
    + intros t0 o1 Ht0 Ho1.
      match goal with
      | |- context [for_loop 0 _ ?body o1] =>
          destruct (@for_loop_inv _
                      (fun y0 out =>
                         PercentileFilter.same_inv
                           im (PercentileFilter.written c0 t0 y0 0) out)
                      body 0 (height im) o1) as (o2 & Hr2 & Hinv2)
      end.
      * exact Ho1.
      * intros y0 o2 Hy0 Ho2. now apply percentile_row.
      * exists o2. split; [exact Hr2|].
        revert Hinv2. apply same_inv_ext. intros x y t c Hb.
        apply in_bounds_iff in Hb. unfold PercentileFilter.written. lia.
    + exists o1. split; [exact Hr1|].
      revert Hinv1. apply same_inv_ext. intros x y t c Hb.
      apply in_bounds_iff in Hb. unfold PercentileFilter.written. lia.
  - exists out. split; [exact Hr|].
    revert Hinv. apply same_inv_ext. intros x y t c Hb.
    apply in_bounds_iff in Hb. unfold PercentileFilter.written. lia.
Qed.
End RadiusZero.

(** X17.  With radius 0, [PercentileFilter::apply] returns, for every
    percentile, a buffer of the extents of the input that holds the samples
    of the input; so does [MedianFilter::apply].  (The min and max filters
    access their heap out of bounds for this radius.) *)
Theorem percentile_filter_radius_0_is_identity (im : Image) (percentile : Q) :
  wf_image im ->
  (exists out,
      PercentileFilter.apply im 0 percentile = Ok out /\
      same_extents out im /\
      forall x y t c, in_bounds im x y t c = true ->
                      at_ out x y t c = at_ im x y t c) /\
  (exists out,
      MedianFilter.apply im 0 = Ok out /\
      same_extents out im /\
      forall x y t c, in_bounds im x y t c = true ->
                      at_ out x y t c = at_ im x y t c).
Proof.
  intros Hwf. split.
  - destruct (@percentile_radius_0 im percentile Hwf) as (out & Hr & _ & He & Hs).
    exists out. split; [exact Hr|]. split; [exact He|].
    intros x y t c Hb. now apply Hs.
  - destruct (@percentile_radius_0 im (1 # 2) Hwf) as (out & Hr & _ & He & Hs).
    exists out. split; [exact Hr|]. split; [exact He|].
    intros x y t c Hb. now apply Hs.
Qed.

Lemma percentile_filter_radius_0_is_identity_witness :
  exists out,
    MedianFilter.apply (mkImage 2 1 1 1 [fl 5; fl 3]) 0 = Ok out /\
    same_extents out (mkImage 2 1 1 1 [fl 5; fl 3]) /\
    forall x y t c,
      in_bounds (mkImage 2 1 1 1 [fl 5; fl 3]) x y t c = true ->
      at_ out x y t c = at_ (mkImage 2 1 1 1 [fl 5; fl 3]) x y t c.
Proof.
  apply (proj2 (@percentile_filter_radius_0_is_identity
                  (mkImage 2 1 1 1 [fl 5; fl 3]) (1 # 2)
                  ltac:(unfold wf_image, vsize; simpl; lia))).
Defined.

(** ** CircularFilter::apply *)

Lemma sqrtf_nonneg (q : Q) : (0 <= sqrtf q)%Q.
Proof.
  unfold sqrtf. rewrite Qred_correct. unfold Qle. cbn [Qnum Qden].
  pose proof (Z.sqrt_nonneg (Z.shiftl (Qnum q) 48 / Z.pos (Qden q))). lia.
Qed.

Lemma truncate_nonneg (q : Q) : (0 <= q)%Q -> 0 <= truncate q.
Proof.
  intros H. rewrite truncate_floor_nonneg by exact H.
  change 0 with (Qfloor 0). now apply Qfloor_resp_le.
Qed.

Lemma edge_at_nonneg (radius i : Z) : 0 <= PercentileFilter.edge_at radius i.
Proof.
  unfold PercentileFilter.edge_at. apply truncate_nonneg.
  pose proof (sqrtf_nonneg
                (inject_Z (radius * radius - (i - radius) * (i - radius)))).
  lra.
Qed.

Lemma edge_loop_ok (radius n : Z) :
  0 <= n ->
  exists edge,
    for_loop 0 n (fun i edge => vset edge i (PercentileFilter.edge_at radius i))
             (vmake n 0) = Ok edge /\
    vsize edge = n /\
    forall i, 0 <= i < n -> vget edge i = Ok (PercentileFilter.edge_at radius i).
Proof.
  intros Hn.
  match goal with
  | |- context [for_loop 0 n ?body ?s] =>
      destruct (@for_loop_inv _
                  (fun k e => vsize e = n /\
                              forall i, 0 <= i < k ->
                                vget e i = Ok (PercentileFilter.edge_at radius i))
                  body 0 n s) as (edge & Hr & Hsz & He)
  end.
  - split; [now apply vsize_vmake|]. intros i Hi. lia.
  - intros k e Hk (Hsz & He).
    destruct (@vset_ok _ e (PercentileFilter.edge_at radius k) k ltac:(lia))
      as (e' & Hset & Hsz' & Hget & Hoth).
    exists e'. split; [exact Hset|]. split; [lia|].
    intros i Hi. destruct (Z.eq_dec i k) as [->|Hne]; [exact Hget|].
    rewrite Hoth by exact Hne. apply He. lia.
  - exists edge. split; [exact Hr|]. split; [exact Hsz|].
    intros i Hi. apply He. lia.
Qed.

Lemma iclamp_range (a lo hi : Z) : lo <= hi -> lo <= iclamp a lo hi <= hi.
Proof.
  intros H. unfold iclamp.
  destruct (Z.ltb_spec a lo); [lia|]. destruct (Z.ltb_spec hi a); lia.
Qed.

Section Circular.
Variables (im : Image) (radius : Z) (edge : list Z).
Hypothesis Hwf : wf_image im.
Hypothesis Hw : 0 < width im.
Hypothesis Hh : 0 < height im.
Hypothesis Hr : 0 <= radius.
Hypothesis Hedge :
  forall i, 0 <= i < 2 * radius + 1 ->
            vget edge i = Ok (PercentileFilter.edge_at radius i).

Lemma circular_read (x y t c : Z) :
  0 <= x < width im -> 0 <= y < height im ->
  0 <= t < frames im -> 0 <= c < channels im ->
  exists v, at_ im x y t c = Ok v.
Proof. intros. apply at_ok; [exact Hwf|]. apply in_bounds_iff. lia. Qed.

Lemma row_sum_start_ok (y t c : Z) :
  0 <= t < frames im -> 0 <= c < channels im ->
  exists a, CircularFilter.row_sum_start im radius edge y t c = Ok a.
Proof.
  intros Ht Hc. unfold CircularFilter.row_sum_start.
  match goal with
  | |- context [for_loop 0 _ ?body ?s] =>
      destruct (@for_loop_inv _ (fun _ (_ : float) => True)
                  body 0 (2 * radius + 1) s I) as (a & Hr' & _)
  end.
  - intros i a Hi _. rewrite (Hedge Hi). cbn [bind]. cbv zeta.
    pose proof (@iclamp_range (y + (i - radius)) 0 (height im - 1) ltac:(lia)).
    match goal with
    | |- context [for_loop ?lo ?hi ?body a] =>
        destruct (@for_loop_inv _ (fun _ (_ : float) => True)
                    body lo hi a I) as (a' & Hr' & _)
    end.
    + intros x b Hx _.
      pose proof (@iclamp_range x 0 (width im - 1) ltac:(lia)).
      destruct (@circular_read (iclamp x 0 (width im - 1))
                               (iclamp (y + (i - radius)) 0 (height im - 1)) t c)
        as [v Hv]; try lia.
      rewrite Hv. cbn [bind]. eexists. split; [reflexivity|exact I].
    + exists a'. split; [exact Hr'|exact I].
  - exists a. exact Hr'.
Qed.

Lemma slide_ok (x y t c : Z) (average : float) :
  0 <= x < width im -> 0 <= t < frames im -> 0 <= c < channels im ->
  exists a, CircularFilter.slide im radius edge x y t c average = Ok a.
Proof.
  intros Hx Ht Hc. unfold CircularFilter.slide.
  match goal with
  | |- context [for_loop 0 _ ?body ?s] =>
      destruct (@for_loop_inv _ (fun _ (_ : float) => True)
                  body 0 (radius * 2 + 1) s I) as (a & Hr' & _)
  end.
  - intros i a Hi _. rewrite (@Hedge i) by lia. cbn [bind]. cbv zeta.
    pose proof (edge_at_nonneg radius i) as He.
    pose proof (@iclamp_range (y + i - radius) 0 (height im - 1) ltac:(lia)).
    destruct (@circular_read
                (Z.min (x + PercentileFilter.edge_at radius i + 1) (width im - 1))
                (iclamp (y + i - radius) 0 (height im - 1)) t c)
      as [v1 Hv1]; try lia.
    destruct (@circular_read
                (Z.max 0 (x - PercentileFilter.edge_at radius i))
                (iclamp (y + i - radius) 0 (height im - 1)) t c)
      as [v2 Hv2]; try lia.
    rewrite Hv1. cbn [bind]. rewrite Hv2. cbn [bind].
    eexists. split; [reflexivity|exact I].
  - exists a. exact Hr'.
Qed.

Lemma circular_row (invArea : float) (y t c : Z) (st : Image * float) :
  0 <= y < height im -> 0 <= t < frames im -> 0 <= c < channels im ->
  CircularFilter.out_ok im st ->
  exists st',
    (do average <- CircularFilter.row_sum_start im radius edge y t c;
     for_loop 0 (width im) (fun x '(out, average) =>
       do out <- put out x y t c (fmul average invArea);
       do average <- CircularFilter.slide im radius edge x y t c average;
       Ok (out, average)) (fst st, average)) = Ok st' /\
    CircularFilter.out_ok im st'.
Proof.
  intros Hy Ht Hc Hst.
  destruct (@row_sum_start_ok y t c Ht Hc) as [a Ha]. rewrite Ha. cbn [bind].
  match goal with
  | |- context [for_loop 0 _ ?body ?s] =>
      destruct (@for_loop_inv _ (fun _ st => CircularFilter.out_ok im st)
                  body 0 (width im) s) as (st' & Hr' & Hinv)
  end.
  - exact Hst.
  - intros x [o av] Hx (Hwo & Heo). cbn [fst] in *.
    assert (Hb : in_bounds o x y t c = true).
    { rewrite (in_bounds_same_extents x y t c Heo). apply in_bounds_iff. lia. }
    destruct (@put_ok o x y t c (fmul av invArea) Hwo Hb)
      as (o' & Hp & Hwo' & Heo' & _).
    rewrite Hp. cbn [bind].
    destruct (@slide_ok x y t c av Hx Ht Hc) as [a' Ha']. rewrite Ha'.
    cbn [bind]. eexists. split; [reflexivity|].
    split; [exact Hwo'|]. cbn [fst]. eapply same_extents_trans; eauto.
  - exists st'. split; [exact Hr'|exact Hinv].
Qed.
End Circular.

(** X18.  [CircularFilter::apply] stays inside the image: for every
    radius from 0 on and every image with at least one column and one row
    it returns a buffer of the extents of the input, every coordinate it
    reads being clamped first ([clamp(a, lo, hi)] limiting [a] to the range
    from [lo] to [hi]).  The radius and the image are such that the [int]
    expressions of the source stay [int]s: the square of [2*radius+1],
    which bounds [radius*radius] and the filter area, the coordinates
    [x + edge[i] + 1] and [y + i - radius], and the extents of the buffer. *)
Theorem circular_filter_stays_in_bounds (im : Image) (radius : Z) :
  wf_image im -> 0 < width im -> 0 < height im -> 0 <= radius ->
  (2 * radius + 1) * (2 * radius + 1) <= INT_MAX ->
  width im + radius + 1 <= INT_MAX -> height im + radius <= INT_MAX ->
  int_extents (width im) (height im) (frames im) (channels im) ->
  exists out, CircularFilter.apply im radius = Ok out /\
              wf_image out /\ same_extents out im.
Proof.
  intros Hwf Hw Hh Hr _ _ _ _.
  unfold CircularFilter.apply, CircularFilter.vector_new.
  destruct (Z.ltb_spec (radius * 2 + 1) 0) as [Hneg|_]; [lia|]. cbn [bind].
  replace (radius * 2 + 1) with (2 * radius + 1) by lia.
  destruct (@edge_loop_ok radius (2 * radius + 1) ltac:(lia))
    as (edge & He & Hsz & Hget).
  rewrite He. cbn [bind].
  match goal with
  | |- context [for_loop 0 _ ?body 0] =>
      destruct (@for_loop_inv _ (fun _ (_ : Z) => True)
                  body 0 (2 * radius + 1) 0 I) as (count & Hcount & _)
  end.
  { intros i n Hi _. rewrite (Hget i Hi). cbn [bind].
    eexists. split; [reflexivity|exact I]. }
  rewrite Hcount. cbn [bind].
  pose proof Hwf as (_ & _ & Pf & Pc & _).
  match goal with
  | |- context [for_loop 0 _ ?body ?s] =>
      destruct (@for_loop_inv _ (fun _ st => CircularFilter.out_ok im st)
                  body 0 (channels im) s) as (st & Hrun & Hinv)
  end.
  - split; [apply wf_image_new; lia|]. unfold same_extents. auto.
  - intros c st Hc Hst.
    apply for_loop_inv with (I := fun _ st => CircularFilter.out_ok im st);
      [exact Hst|].
    intros t st1 Ht Hst1.
    apply for_loop_inv with (I := fun _ st => CircularFilter.out_ok im st);
      [exact Hst1|].
    intros y st2 Hy Hst2. now apply circular_row.
  - rewrite Hrun. cbn [bind]. exists (fst st). split; [reflexivity|].
    exact Hinv.
Qed.

Lemma circular_filter_stays_in_bounds_witness :
  exists out,
    CircularFilter.apply (mkImage 2 2 1 1 [fl 1; fl 2; fl 3; fl 4]) 1 = Ok out /\
    wf_image out /\ same_extents out (mkImage 2 2 1 1 [fl 1; fl 2; fl 3; fl 4]).
Proof.
  apply circular_filter_stays_in_bounds;
    [unfold wf_image, vsize; simpl; lia
    |simpl; lia|simpl; lia|lia
    |vm_compute; discriminate|vm_compute; discriminate
    |vm_compute; discriminate
    |unfold int_extents; repeat split; vm_compute; discriminate].
Defined.

(** ** Envelope::apply *)

(** The two extremum filters with radius 0, on an image with a sample. *)
Lemma extremum_radius_0 (sel : float -> float -> float) (sentinel : float)
      (im : Image) :
  wf_image im -> 0 < width im -> 0 < height im -> 0 < frames im ->
  0 < channels im ->
  SlidingExtremum.apply sel sentinel im 0 = OutOfBounds.
Proof.
  intros Hwf Pw Ph Pf Pc. unfold SlidingExtremum.apply.
  rewrite for_loop_first_out_of_bounds; [reflexivity|lia|].
  rewrite for_loop_first_out_of_bounds; [reflexivity|exact Ph|].
  rewrite for_loop_first_out_of_bounds; [reflexivity|exact Pc|].
  apply pass_x_radius_0; auto.
Qed.

(** X19.  [Envelope::apply] starts with [MaxFilter::apply] (mode upper)
    or [MinFilter::apply] (mode lower) of the radius it is given, so with
    radius 0, which its [parse] lets through unchecked, it accesses the
    heap of the filter out of bounds on every image that has a sample. *)
Theorem envelope_radius_0_out_of_bounds
        (iterations_default : Z) (fuel : nat) (im : Image) (m : Envelope.Mode) :
  wf_image im -> 0 < width im -> 0 < height im -> 0 < frames im ->
  0 < channels im ->
  Envelope.apply iterations_default fuel im m 0 = OutOfBounds.
Proof.
  intros Hwf Pw Ph Pf Pc. unfold Envelope.apply, MaxFilter.apply, MinFilter.apply.
  destruct m; cbn [bind]; rewrite extremum_radius_0 by assumption; reflexivity.
Qed.

Lemma envelope_radius_0_out_of_bounds_witness :
  Envelope.apply 1 3 (mkImage 2 1 1 1 [fl 5; fl 3]) Envelope.Upper 0 =
  OutOfBounds /\
  Envelope.apply 1 3 (mkImage 2 1 1 1 [fl 5; fl 3]) Envelope.Lower 0 =
  OutOfBounds.
Proof.
  split; apply envelope_radius_0_out_of_bounds;
    try (unfold wf_image, vsize); simpl; lia.
Defined.

(** ** The sliding window: what it counts *)

Lemma heap_size_power (n : Z) :
  forall (fuel : nat) (k : Z),
    1 <= k -> (k = 1 \/ 2 ^ (k - 1) - 1 < 2 * n - 1) ->
    (Z.to_nat (2 * n - 1 - (2 ^ k - 1)) <= fuel)%nat ->
    exists k',
      k <= k' /\
      while_loop fuel (fun heapSize => heapSize <? 2 * n - 1)
                 (fun heapSize => Ok (heapSize + (heapSize + 1))) (2 ^ k - 1)
      = Ok (2 ^ k' - 1) /\
      2 * n - 1 <= 2 ^ k' - 1 /\
      (k' = 1 \/ 2 ^ (k' - 1) - 1 < 2 * n - 1).
Proof.
  induction fuel as [|fuel IH]; intros k Hk Hmin Hfuel; cbn [while_loop bind];
    destruct (Z.ltb_spec (2 ^ k - 1) (2 * n - 1)) as [Hlt|Hge].
  - exfalso. lia.
  - exists k. split; [lia|]. split; [reflexivity|]. split; [lia|exact Hmin].
  - assert (E : 2 ^ k - 1 + (2 ^ k - 1 + 1) = 2 ^ (k + 1) - 1).
    { rewrite Z.pow_add_r by lia. lia. }
    rewrite E.
    assert (Hp : 0 < 2 ^ k) by (apply Z.pow_pos_nonneg; lia).
    destruct (IH (k + 1)) as (k' & Hk' & Hr & Hbig & Hmin').
    + lia.
    + right. replace (k + 1 - 1) with k by lia. exact Hlt.
    + rewrite Z.pow_add_r by lia. lia.
    + exists k'. split; [lia|]. split; [exact Hr|]. split; assumption.
  - exists k. split; [lia|]. split; [reflexivity|]. split; [lia|exact Hmin].
Qed.

(** X20.  The constructor of the sliding window gives each of the two
    heaps [2^k - 1] nodes, the least such number that is at least
    [2*maxKey - 1]; that is fewer than [4*maxKey] nodes.  The window it
    builds is empty. *)
Theorem window_heaps_are_complete_trees (maxKey : Z) :
  1 <= maxKey ->
  exists k w,
    1 <= k /\ SlidingNewImage.heap_size maxKey = Ok (2 ^ k - 1) /\
    2 * maxKey - 1 <= 2 ^ k - 1 /\ 2 ^ k - 1 < 4 * maxKey /\
    (k = 1 \/ 2 ^ (k - 1) - 1 < 2 * maxKey - 1) /\
    SlidingNewImage.new maxKey = Ok w /\
    vsize (SlidingNewImage.buf w) = maxKey /\
    SlidingNewImage.isEmpty w = Ok true.
Proof.
  intros Hn. unfold SlidingNewImage.heap_size.
  destruct (@heap_size_power maxKey (Z.to_nat (2 * maxKey)) 1 ltac:(lia)
              ltac:(now left) ltac:(simpl; lia))
    as (k & Hk & Hr & Hbig & Hmin).
  destruct (new_wf Hn) as (w & Hnew & Hwf & Hsz & Hc1 & Hc2).
  exists k, w. split; [exact Hk|]. split; [exact Hr|]. split; [exact Hbig|].
  split.
  { destruct Hmin as [->|Hmin]; [change (2 ^ 1) with 2; lia|].
    replace k with (k - 1 + 1) at 1 by lia. rewrite Z.pow_add_r by lia.
    change (2 ^ 1) with 2. lia. }
  split; [exact Hmin|]. split; [exact Hnew|]. split; [exact Hsz|].
  unfold SlidingNewImage.isEmpty.
  unfold SlidingNewImage.min_count, SlidingNewImage.max_count in Hc1, Hc2.
  destruct (vget (SlidingNewImage.maxHeap w) 0) as [mx| | |]; try discriminate.
  destruct (vget (SlidingNewImage.minHeap w) 0) as [mn| | |]; try discriminate.
  cbn [bind] in *. inversion Hc1. inversion Hc2.
  replace (snd mx) with 0 by congruence. replace (snd mn) with 0 by congruence.
  reflexivity.
Qed.

Lemma window_heaps_are_complete_trees_witness :
  exists k w,
    1 <= k /\ SlidingNewImage.heap_size 9 = Ok (2 ^ k - 1) /\
    2 * 9 - 1 <= 2 ^ k - 1 /\ 2 ^ k - 1 < 4 * 9 /\
    (k = 1 \/ 2 ^ (k - 1) - 1 < 2 * 9 - 1) /\
    SlidingNewImage.new 9 = Ok w /\
    vsize (SlidingNewImage.buf w) = 9 /\
    SlidingNewImage.isEmpty w = Ok true.
Proof. apply window_heaps_are_complete_trees. lia. Defined.

Lemma update_slots (w : SlidingNewImage.t) (i vmin vmax : Z) :
  SlidingNewImage.wf w -> 0 <= i < vsize (SlidingNewImage.buf w) ->
  0 <= vmin -> 0 <= vmax -> vmin + vmax <= 1 ->
  exists mn mx w',
    SlidingNewImage.set_second (SlidingNewImage.minHeap w)
      (i + vsize (SlidingNewImage.buf w) - 1) vmin = Ok mn /\
    SlidingNewImage.set_second (SlidingNewImage.maxHeap w)
      (i + vsize (SlidingNewImage.buf w) - 1) vmax = Ok mx /\
    SlidingNewImage.updateFrom
      (SlidingNewImage.mkWindow (SlidingNewImage.buf w) mn mx)
      (i + vsize (SlidingNewImage.buf w) - 1) = Ok w' /\
    SlidingNewImage.wf w' /\
    SlidingNewImage.buf w' = SlidingNewImage.buf w /\
    root_count w' = root_count w + (vmin + vmax) - slot_count w i /\
    slot_count w' i = vmin + vmax /\
    forall j, 0 <= j < vsize (SlidingNewImage.buf w) -> j <> i ->
              slot_count w' j = slot_count w j.
Proof.
  intros (Hn & Hmin & Hmax & Hex) Hi Hvmin Hvmax Hsum.
  set (n := vsize (SlidingNewImage.buf w)) in *.
  destruct (@leaf_update flt (SlidingNewImage.buf w) n
              (SlidingNewImage.minHeap w) i vmin eq_refl Hmin Hi ltac:(lia))
    as (mn & mn2 & Hs1 & Hf1 & Hok1 & Hr1 & Hz1 & Hl1 & Ho1).
  destruct (@leaf_update fgt (SlidingNewImage.buf w) n
              (SlidingNewImage.maxHeap w) i vmax eq_refl Hmax Hi ltac:(lia))
    as (mx & mx2 & Hs2 & Hf2 & Hok2 & Hr2 & Hz2 & Hl2 & Ho2).
  exists mn, mx, (SlidingNewImage.mkWindow (SlidingNewImage.buf w) mn2 mx2).
  split; [exact Hs1|]. split; [exact Hs2|]. split.
  { unfold SlidingNewImage.updateFrom.
    cbn [SlidingNewImage.buf SlidingNewImage.minHeap SlidingNewImage.maxHeap].
    fold n. rewrite Hf1. cbn [bind]. rewrite Hf2. reflexivity. }
  split.
  { unfold SlidingNewImage.wf.
    cbn [SlidingNewImage.buf SlidingNewImage.minHeap SlidingNewImage.maxHeap].
    fold n.
    split; [exact Hn|]. split; [exact Hok1|]. split; [exact Hok2|].
    intros j Hj. destruct (Z.eq_dec j i) as [->|Hji].
    - rewrite Hl1, Hl2. simpl. lia.
    - rewrite (Ho1 j Hj Hji), (Ho2 j Hj Hji). now apply Hex. }
  split; [reflexivity|].
  unfold root_count, slot_count.
  cbn [SlidingNewImage.buf SlidingNewImage.minHeap SlidingNewImage.maxHeap].
  fold n. split; [lia|]. split.
  - rewrite Hl1, Hl2. reflexivity.
  - intros j Hj Hji. now rewrite (Ho1 j Hj Hji), (Ho2 j Hj Hji).
Qed.

Lemma existsb_eqb_In (k : Z) (l : list Z) :
  existsb (Z.eqb k) l = true <-> In k l.
Proof.
  rewrite existsb_exists. split.
  - intros (x & Hx & E). apply Z.eqb_eq in E. now subst.
  - intros H. exists k. split; [exact H|apply Z.eqb_refl].
Qed.

Lemma existsb_eqb_not_In (k : Z) (l : list Z) :
  existsb (Z.eqb k) l = false <-> ~ In k l.
Proof.
  split.
  - intros H HI. apply existsb_eqb_In in HI. congruence.
  - intros H. destruct (existsb (Z.eqb k) l) eqn:E; [|reflexivity].
    apply existsb_eqb_In in E. contradiction.
Qed.

Lemma length_without (key : Z) (live : list Z) :
  NoDup live ->
  Z.of_nat (List.length (filter (fun k => negb (k =? key)) live)) =
  Z.of_nat (List.length live) - (if existsb (Z.eqb key) live then 1 else 0).
Proof.
  induction 1 as [|x l Hx Hnd IH]; [reflexivity|].
  cbn [filter existsb List.length].
  destruct (Z.eqb_spec x key) as [->|Hne]; cbn [negb].
  - rewrite Z.eqb_refl. cbn [orb]. rewrite IH.
    apply existsb_eqb_not_In in Hx. rewrite Hx. lia.
  - destruct (Z.eqb_spec key x); [congruence|]. cbn [orb List.length].
    rewrite Nat2Z.inj_succ, IH. lia.
Qed.

Lemma tracks_same_heaps (w : SlidingNewImage.t) (bf : list float)
      (live : list Z) :
  vsize bf = vsize (SlidingNewImage.buf w) ->
  tracks w live ->
  tracks (SlidingNewImage.mkWindow bf (SlidingNewImage.minHeap w)
                                   (SlidingNewImage.maxHeap w)) live.
Proof.
  intros E (Hwf & Hnd & Hrange & Hslot & Hroot).
  unfold tracks, slot_count, root_count in *.
  cbn [SlidingNewImage.buf SlidingNewImage.minHeap SlidingNewImage.maxHeap].
  rewrite E. split; [now apply wf_same_heaps|]. auto.
Qed.

Lemma tracks_put (w w' : SlidingNewImage.t) (key : Z) (live : list Z) :
  tracks w live -> 0 <= key < vsize (SlidingNewImage.buf w) ->
  SlidingNewImage.wf w' ->
  vsize (SlidingNewImage.buf w') = vsize (SlidingNewImage.buf w) ->
  root_count w' = root_count w + 1 - slot_count w key ->
  slot_count w' key = 1 ->
  (forall j, 0 <= j < vsize (SlidingNewImage.buf w) -> j <> key ->
             slot_count w' j = slot_count w j) ->
  tracks w' (if existsb (Z.eqb key) live then live else key :: live).
Proof.
  intros (Hwf & Hnd & Hrange & Hslot & Hroot) Hkey Hwf' Hsz Hr Hk Hoth.
  pose proof (Hslot key Hkey) as Hsk.
  unfold tracks. rewrite Hsz. split; [exact Hwf'|].
  destruct (existsb (Z.eqb key) live) eqn:E.
  - split; [exact Hnd|]. split; [exact Hrange|]. split; [|lia].
    intros i Hi. destruct (Z.eq_dec i key) as [->|Hne].
    + now rewrite Hk, E.
    + rewrite Hoth by assumption. now apply Hslot.
  - split; [constructor; [now apply existsb_eqb_not_In|exact Hnd]|].
    split; [intros i [<-|Hi]; [exact Hkey|now apply Hrange]|].
    split.
    + intros i Hi. cbn [existsb].
      destruct (Z.eq_dec i key) as [->|Hne].
      * now rewrite Hk, Z.eqb_refl.
      * rewrite Hoth by assumption.
        destruct (Z.eqb_spec i key); [congruence|]. cbn [orb].
        now apply Hslot.
    + cbn [List.length]. lia.
Qed.

Lemma insert_tracks (w : SlidingNewImage.t) (key : Z) (val : float)
      (live : list Z) :
  tracks w live -> 0 <= key < vsize (SlidingNewImage.buf w) ->
  exists w',
    SlidingNewImage.insert w key val = Ok w' /\
    vsize (SlidingNewImage.buf w') = vsize (SlidingNewImage.buf w) /\
    tracks w' (if existsb (Z.eqb key) live then live else key :: live).
Proof.
  intros Htr Hkey. pose proof Htr as (Hwf & _).
  pose proof Hwf as (Hn & Hmin & Hmax & Hex).
  destruct (root_in_range Hwf) as [R1 R2].
  set (n := vsize (SlidingNewImage.buf w)) in *.
  unfold SlidingNewImage.insert, SlidingNewImage.pivot, SlidingNewImage.isEmpty.
  rewrite (@nd_vget (SlidingNewImage.maxHeap w) 0) by lia. cbn [bind].
  destruct Hmax as [(Hsz & Hrange & Hleaf) Hcons].
  destruct (Hrange 0 ltac:(lia)) as [Hf0 _].
  destruct (@vget_ok _ (SlidingNewImage.buf w)
              (fst (SlidingNewImage.nd (SlidingNewImage.maxHeap w) 0))
              ltac:(lia)) as [p Hp].
  rewrite Hp. cbn [bind].
  destruct (@vset_ok _ (SlidingNewImage.buf w) val key ltac:(lia))
    as (bf & Hset & Hbsz & _).
  rewrite Hset. cbn [bind].
  rewrite (@nd_vget (SlidingNewImage.minHeap w) 0) by lia. cbn [bind].
  pose proof (@tracks_same_heaps w bf live Hbsz Htr) as Htr0.
  pose proof Htr0 as (Hwf0 & _).
  set (w0 := SlidingNewImage.mkWindow bf (SlidingNewImage.minHeap w)
                                      (SlidingNewImage.maxHeap w)) in *.
  assert (Hkey0 : 0 <= key < vsize (SlidingNewImage.buf w0)) by (simpl; lia).
  destruct ((snd (SlidingNewImage.nd (SlidingNewImage.maxHeap w) 0) +
             snd (SlidingNewImage.nd (SlidingNewImage.minHeap w) 0) =? 0)
            || flt val p).
  - destruct (@update_slots w0 key 0 1 Hwf0 Hkey0 ltac:(lia) ltac:(lia)
                ltac:(lia))
      as (mn & mx & w' & Hs1 & Hs2 & Hup & Hwf' & Hbuf & Hroot & Hk & Hoth).
    cbn [SlidingNewImage.buf SlidingNewImage.minHeap SlidingNewImage.maxHeap w0]
      in Hs1, Hs2, Hup.
    rewrite Hs2. cbn [bind]. rewrite Hs1. cbn [bind].
    exists w'. split; [exact Hup|].
    assert (Hsz' : vsize (SlidingNewImage.buf w') =
                   vsize (SlidingNewImage.buf w0)) by now rewrite Hbuf.
    split; [rewrite Hsz'; simpl; exact Hbsz|].
    assert (Htr' : tracks w' (if existsb (Z.eqb key) live then live
                              else key :: live)).
    { apply (@tracks_put w0 w' key live Htr0 Hkey0 Hwf' Hsz'); [lia|lia|exact Hoth]. }
    exact Htr'.
  - destruct (@update_slots w0 key 1 0 Hwf0 Hkey0 ltac:(lia) ltac:(lia)
                ltac:(lia))
      as (mn & mx & w' & Hs1 & Hs2 & Hup & Hwf' & Hbuf & Hroot & Hk & Hoth).
    cbn [SlidingNewImage.buf SlidingNewImage.minHeap SlidingNewImage.maxHeap w0]
      in Hs1, Hs2, Hup.
    rewrite Hs2. cbn [bind]. rewrite Hs1. cbn [bind].
    exists w'. split; [exact Hup|].
    assert (Hsz' : vsize (SlidingNewImage.buf w') =
                   vsize (SlidingNewImage.buf w0)) by now rewrite Hbuf.
    split; [rewrite Hsz'; simpl; exact Hbsz|].
    apply (@tracks_put w0 w' key live Htr0 Hkey0 Hwf' Hsz'); [lia|lia|exact Hoth].
Qed.

Lemma remove_tracks (w : SlidingNewImage.t) (key : Z) (live : list Z) :
  tracks w live -> 0 <= key < vsize (SlidingNewImage.buf w) ->
  exists w',
    SlidingNewImage.remove w key = Ok w' /\
    vsize (SlidingNewImage.buf w') = vsize (SlidingNewImage.buf w) /\
    tracks w' (filter (fun k => negb (k =? key)) live).
Proof.
  intros (Hwf & Hnd & Hrange & Hslot & Hroot) Hkey.
  unfold SlidingNewImage.remove.
  destruct (@update_slots w key 0 0 Hwf Hkey ltac:(lia) ltac:(lia) ltac:(lia))
    as (mn & mx & w' & Hs1 & Hs2 & Hup & Hwf' & Hbuf & Hr & Hk & Hoth).
  rewrite Hs1. cbn [bind]. rewrite Hs2. cbn [bind].
  exists w'. split; [exact Hup|]. split; [now rewrite Hbuf|].
  unfold tracks. rewrite Hbuf. split; [exact Hwf'|].
  split; [now apply NoDup_filter|].
  split; [intros i Hi; apply filter_In in Hi; now apply Hrange|].
  split.
  - intros i Hi. destruct (Z.eq_dec i key) as [->|Hne].
    + rewrite Hk. replace (existsb _ _) with false; [reflexivity|].
      symmetry. apply existsb_eqb_not_In. intros H. apply filter_In in H.
      destruct H as [_ H]. now rewrite Z.eqb_refl in H.
    + rewrite Hoth by assumption. rewrite (Hslot i Hi).
      destruct (existsb (Z.eqb i) live) eqn:E.
      * replace (existsb _ (filter _ _)) with true; [reflexivity|].
        symmetry. apply existsb_eqb_In. apply filter_In.
        split; [now apply existsb_eqb_In|].
        destruct (Z.eqb_spec i key); [congruence|reflexivity].
      * replace (existsb _ (filter _ _)) with false; [reflexivity|].
        symmetry. apply existsb_eqb_not_In. intros H. apply filter_In in H.
        destruct H as [H _]. apply existsb_eqb_not_In in E. contradiction.
  - rewrite (length_without key Hnd). rewrite Hr, (Hslot key Hkey). lia.
Qed.

Lemma run_tracks (ops : list SlidingNewImage.op) :
  forall w live,
    tracks w live -> keys_below (vsize (SlidingNewImage.buf w)) ops ->
    exists w', SlidingNewImage.run w ops = Ok w' /\
               tracks w' (live_keys ops live).
Proof.
  induction ops as [|o ops IH]; intros w live Htr Hops.
  - exists w. split; [reflexivity|exact Htr].
  - inversion Hops as [|o' ops' Ho Hrest]; subst.
    destruct o as [key val|key]; cbn [SlidingNewImage.run SlidingNewImage.run_op
                                        live_keys].
    + destruct (@insert_tracks w key val live Htr Ho) as (w1 & Hr & Hsz & Htr1).
      rewrite Hr. cbn [bind]. apply IH; [exact Htr1|].
      unfold keys_below. rewrite Hsz. exact Hrest.
    + destruct (@remove_tracks w key live Htr Ho) as (w1 & Hr & Hsz & Htr1).
      rewrite Hr. cbn [bind]. apply IH; [exact Htr1|].
      unfold keys_below. rewrite Hsz. exact Hrest.
Qed.

Lemma count_from_nonneg (n : Z) (h : list SlidingNewImage.node) :
  SlidingNewImage.heap_shape n h ->
  forall (m : nat) (a : Z),
    0 <= a -> a + Z.of_nat m <= 2 * n - 1 ->
    0 <= SlidingNewImage.count_from h a m.
Proof.
  intros (_ & Hr & _).
  induction m as [|m IHm]; intros a Ha Hb; cbn [SlidingNewImage.count_from];
    [lia|].
  destruct (Hr a ltac:(lia)) as [_ H0].
  specialize (IHm (a + 1) ltac:(lia) ltac:(lia)). lia.
Qed.

Lemma count_from_zero (n : Z) (h : list SlidingNewImage.node) :
  SlidingNewImage.heap_shape n h ->
  forall (len : nat) (lo : Z),
    0 <= lo -> lo + Z.of_nat len <= 2 * n - 1 ->
    SlidingNewImage.count_from h lo len = 0 ->
    forall q, lo <= q < lo + Z.of_nat len ->
              snd (SlidingNewImage.nd h q) = 0.
Proof.
  intros Hsh. pose proof Hsh as (_ & Hr & _).
  induction len as [|len IHl]; intros lo Hlo Hhi Hsum q Hq; [lia|].
  cbn [SlidingNewImage.count_from] in Hsum.
  destruct (Hr lo ltac:(lia)) as [_ H0].
  pose proof (@count_from_nonneg n h Hsh len (lo + 1) ltac:(lia) ltac:(lia)).
  destruct (Z.eq_dec q lo) as [->|Hne]; [lia|].
  apply (IHl (lo + 1)); lia.
Qed.

(** In a heap whose root counts nothing, no leaf counts. *)
Lemma empty_heap_leaves (n : Z) (h : list SlidingNewImage.node) (i : Z) :
  1 <= n -> SlidingNewImage.heap_ok n h ->
  snd (SlidingNewImage.nd h 0) = 0 -> 0 <= i < n ->
  snd (SlidingNewImage.nd h (i + n - 1)) = 0.
Proof.
  intros Hn Hok Hroot Hi.
  pose proof (@frontier_count n h Hok (Z.to_nat (n - 1)) ltac:(lia)) as Hfc.
  rewrite Hroot in Hfc. destruct Hok as [Hsh _].
  apply (@count_from_zero n h Hsh (S (Z.to_nat (n - 1)))
                          (Z.of_nat (Z.to_nat (n - 1))));
    first [lia|exact Hfc].
Qed.

Lemma new_tracks (maxKey : Z) :
  1 <= maxKey ->
  exists w, SlidingNewImage.new maxKey = Ok w /\
            vsize (SlidingNewImage.buf w) = maxKey /\ tracks w [].
Proof.
  intros Hn. destruct (new_wf Hn) as (w & Hnew & Hwf & Hsz & Hc1 & Hc2).
  exists w. split; [exact Hnew|]. split; [exact Hsz|].
  rewrite (min_count_nd Hwf) in Hc1. rewrite (max_count_nd Hwf) in Hc2.
  inversion Hc1 as [E1]. inversion Hc2 as [E2].
  split; [exact Hwf|]. split; [constructor|]. split; [intros i []|].
  split; [|unfold root_count; simpl; lia].
  intros i Hi. cbn [existsb]. unfold slot_count.
  pose proof Hwf as (Hn1 & Hmin & Hmax & _).
  rewrite (@empty_heap_leaves _ _ i Hn1 Hmin E1 Hi).
  rewrite (@empty_heap_leaves _ _ i Hn1 Hmax E2 Hi). reflexivity.
Qed.

(** X21.  On a window built for [maxKey >= 1] slots, every run of
    [insert] and [remove] on keys below [maxKey] returns, and the window
    then counts exactly the keys inserted and not removed since, each once
    however often it was inserted: the counts at the two roots add up to
    their number, as many values are held by the two partitions, and
    [isEmpty] answers whether there is none. *)
Theorem window_counts_live_keys (maxKey : Z) (ops : list SlidingNewImage.op) :
  1 <= maxKey -> keys_below maxKey ops ->
  exists w0 w low high,
    SlidingNewImage.new maxKey = Ok w0 /\
    SlidingNewImage.run w0 ops = Ok w /\
    SlidingNewImage.max_count w = Ok low /\
    SlidingNewImage.min_count w = Ok high /\
    low + high = Z.of_nat (List.length (live_keys ops [])) /\
    vsize (SlidingNewImage.live_values w) =
    Z.of_nat (List.length (live_keys ops [])) /\
    SlidingNewImage.isEmpty w =
    Ok (Z.of_nat (List.length (live_keys ops [])) =? 0).
Proof.
  intros Hn Hops.
  destruct (new_tracks Hn) as (w0 & Hnew & Hsz & Htr0).
  destruct (@run_tracks ops w0 [] Htr0) as (w & Hrun & Htr).
  { now rewrite Hsz. }
  destruct Htr as (Hwf & _ & _ & _ & Hroot). unfold root_count in Hroot.
  destruct (partition_sizes Hwf) as [Hhv Hlv].
  exists w0, w, (snd (SlidingNewImage.nd (SlidingNewImage.maxHeap w) 0)),
    (snd (SlidingNewImage.nd (SlidingNewImage.minHeap w) 0)).
  split; [exact Hnew|]. split; [exact Hrun|].
  split; [now apply max_count_nd|]. split; [now apply min_count_nd|].
  split; [lia|]. split.
  - unfold SlidingNewImage.live_values, vsize in *. rewrite length_app. lia.
  - unfold SlidingNewImage.isEmpty.
    destruct (root_in_range Hwf) as [R1 R2].
    rewrite (@nd_vget (SlidingNewImage.maxHeap w) 0) by lia. cbn [bind].
    rewrite (@nd_vget (SlidingNewImage.minHeap w) 0) by lia. cbn [bind].
    do 2 f_equal. lia.
Qed.

Lemma window_counts_live_keys_witness :
  exists w0 w low high,
    SlidingNewImage.new 9 = Ok w0 /\
    SlidingNewImage.run
      w0 [SlidingNewImage.Insert 1 (fl 5); SlidingNewImage.Insert 2 (fl 3);
          SlidingNewImage.Insert 1 (fl 4); SlidingNewImage.Remove 2;
          SlidingNewImage.Remove 7] = Ok w /\
    SlidingNewImage.max_count w = Ok low /\
    SlidingNewImage.min_count w = Ok high /\
    low + high = 1 /\
    vsize (SlidingNewImage.live_values w) = 1 /\
    SlidingNewImage.isEmpty w = Ok false.
Proof.
  apply (@window_counts_live_keys
           9 [SlidingNewImage.Insert 1 (fl 5); SlidingNewImage.Insert 2 (fl 3);
              SlidingNewImage.Insert 1 (fl 4); SlidingNewImage.Remove 2;
              SlidingNewImage.Remove 7]);
    [lia|repeat constructor; lia].
Defined.

(** ** The sliding window: the order of its heaps *)

Import SlidingNewImage.

Lemma vget_nd (h : list node) (p : Z) (x : node) :
  vget h p = Ok x -> nd h p = x.
Proof. intros E. unfold nd. now rewrite E. Qed.

Lemma vget_hv (bf : list float) (i : Z) (v : float) :
  vget bf i = Ok v -> hv bf i = v.
Proof. intros E. unfold hv. now rewrite E. Qed.

Lemma vset_nd_of (h h' : list node) (p : Z) (x : node) :
  vset h p x = Ok h' ->
  vsize h' = vsize h /\ nd h' p = x /\ forall q, q <> p -> nd h' q = nd h q.
Proof.
  intros E.
  assert (Hp : 0 <= p < vsize h).
  { destruct (Z_lt_le_dec p 0) as [Hn|Hn].
    - destruct h; simpl in E; [discriminate|].
      destruct (Z.ltb_spec p 0); [discriminate|lia].
    - destruct (Z_lt_le_dec p (vsize h)) as [Hl|Hl]; [lia|].
      exfalso. clear Hn. revert p h' E Hl.
      induction h as [|y h IH]; intros p h' E Hl; simpl in E; [discriminate|].
      rewrite vsize_cons in Hl.
      destruct (Z.ltb_spec p 0); [discriminate|].
      destruct (Z.eqb_spec p 0); [pose proof (vsize_nonneg h); lia|].
      destruct (vset h (p - 1) x) as [w| | |] eqn:Ew; try discriminate.
      apply (IH (p - 1) w Ew). lia. }
  destruct (@vset_nd h p x Hp) as (h2 & Hs & Hsz & Hn & Ho).
  rewrite Hs in E. inversion E. subst. auto.
Qed.

Lemma path_range (fuel : nat) :
  forall p c, 0 <= p -> In c (path fuel p) -> 0 <= c < p.
Proof.
  induction fuel as [|fuel IH]; intros p c Hp Hc; cbn [path] in Hc; [easy|].
  destruct (Z.eqb_spec p 0) as [->|Hne]; [easy|].
  destruct (@parent_child p ltac:(lia)) as [Hq _].
  destruct Hc as [<-|Hc]; [lia|].
  specialize (IH (Z.quot (p - 1) 2) c ltac:(lia) Hc). lia.
Qed.

Lemma path_of_root (fuel : nat) : path fuel 0 = [].
Proof. destruct fuel; reflexivity. Qed.

(** The strict ancestors of [p], when the fuel reaches the root. *)
Lemma path_parent (fuel : nat) :
  forall p c, 0 <= p -> (Z.to_nat p <= fuel)%nat ->
              (c = p \/ In c (path fuel p)) -> c <> 0 ->
              In (Z.quot (c - 1) 2) (path fuel p).
Proof.
  induction fuel as [|fuel IH]; intros p c Hp Hf Hc Hc0.
  - assert (p = 0) by lia. subst p. cbn [path] in Hc.
    destruct Hc as [->|[]]. congruence.
  - cbn [path]. destruct (Z.eqb_spec p 0) as [->|Hne].
    + destruct Hc as [->|[]]. congruence.
    + destruct (@parent_child p ltac:(lia)) as [Hq _].
      destruct Hc as [->|Hc]; [now left|]. right.
      cbn [path] in Hc. destruct (Z.eqb_spec p 0); [lia|].
      apply IH; [lia|lia| |exact Hc0].
      destruct Hc as [<-|Hc]; [now left|now right].
Qed.

Section Walk.
Variable prefer : float -> float -> bool.
Variable bf : list float.

(** What one walk of [updateFrom] does to a heap: it visits a first part
    [seg] of the ancestors of [p]; the nodes of [seg] end up holding what
    is computed from their children, all other nodes are as before; the
    walk stops before the root only at a node it left as it was. *)
Lemma fix_up_walk (fuel : nat) :
  forall (h : list node) (p : Z) (h' : list node),
    0 <= p -> fix_up prefer fuel bf h p = Ok h' ->
    exists seg,
      incl seg (path fuel p) /\
      (forall q, ~ In q seg -> nd h' q = nd h q) /\
      (forall q, In q seg -> recomputed prefer bf h' q) /\
      (forall c, In c seg -> c <> 0 ->
                 In (Z.quot (c - 1) 2) seg \/ nd h' c = nd h c) /\
      (In 0 seg -> incl (path fuel p) seg) /\
      (p <> 0 -> In (Z.quot (p - 1) 2) seg) /\
      vsize h' = vsize h.
Proof.
  induction fuel as [|fuel IH]; intros h p h' Hp E; cbn [fix_up] in E.
  - destruct (Z.eqb_spec p 0) as [->|Hne]; [|discriminate].
    inversion E. subst h'. exists []. cbn [path].
    repeat split; auto; try easy; try apply incl_refl.
  - destruct (Z.eqb_spec p 0) as [->|Hne].
    { inversion E. subst h'. exists []. cbn [path].
      repeat split; auto; try easy; try apply incl_refl. }
    destruct (@parent_child p ltac:(lia)) as [Hq Hch].
    cbn [path]. destruct (Z.eqb_spec p 0) as [|_]; [lia|]. cbv zeta in *.
    set (q := Z.quot (p - 1) 2) in *.
    destruct (vget h (q * 2 + 1)) as [a| | |] eqn:Ea; try discriminate.
    destruct (vget h (q * 2 + 2)) as [b| | |] eqn:Eb; try discriminate.
    cbn [bind] in E.
    apply vget_nd in Ea. apply vget_nd in Eb.
    (* the pointer computed for the parent *)
    assert (Hfirst : forall first,
               (if negb (snd a =? 0) && negb (snd b =? 0)
                then do va <- vget bf (fst a);
                     do vb <- vget bf (fst b);
                     Ok (if prefer va vb then fst a else fst b)
                else if negb (snd b =? 0) then Ok (fst b) else Ok (fst a))
               = Ok first ->
               (first, snd a + snd b) = combine prefer bf a b).
    { intros first Ef. unfold combine.
      destruct (negb (snd a =? 0) && negb (snd b =? 0)).
      - destruct (vget bf (fst a)) as [va| | |] eqn:Eva; try discriminate.
        destruct (vget bf (fst b)) as [vb| | |] eqn:Evb; try discriminate.
        cbn [bind] in Ef. rewrite (vget_hv _ _ Eva), (vget_hv _ _ Evb).
        inversion Ef. reflexivity.
      - destruct (negb (snd b =? 0)); inversion Ef; reflexivity. }
    match type of E with
    | (do first <- ?m; _) = _ =>
        destruct m as [first| | |] eqn:Ef; try discriminate
    end.
    specialize (Hfirst first eq_refl). cbn [bind] in E.
    destruct (vget h q) as [old| | |] eqn:Eold; try discriminate.
    cbn [bind] in E. apply vget_nd in Eold.
    destruct (node_eqb old (first, snd a + snd b)) eqn:Eeq.
    + (* the parent is as computed: the walk stops *)
      apply node_eqb_eq in Eeq. inversion E. subst h'.
      exists [q]. split; [intros c [<-|[]]; now left|].
      split; [reflexivity|]. split.
      { intros c [<-|[]]. unfold recomputed. rewrite Ea, Eb, Eold, Eeq.
        exact Hfirst. }
      split; [intros c _ _; now right|]. split.
      { intros [E0|[]]. rewrite E0 at 2. rewrite path_of_root.
        intros c [<-|[]]. now left. }
      split; [intros _; now left|reflexivity].
    + (* the parent is rewritten and the walk goes on from it *)
      destruct (vset h q (first, snd a + snd b)) as [h1| | |] eqn:Eset;
        try discriminate.
      cbn [bind] in E.
      destruct (vset_nd_of _ _ _ Eset) as (Hsz1 & Hn1 & Ho1).
      destruct (IH h1 q h' ltac:(lia) E)
        as (seg & S0 & S1 & S2 & S3 & S5 & S6 & Hsz).
      assert (Hbelow : forall c, In c seg -> c < q).
      { intros c Hc. apply S0 in Hc.
        apply (@path_range fuel q c ltac:(lia)) in Hc. lia. }
      exists (q :: seg).
      split; [intros c [<-|Hc]; [now left|right; now apply S0]|].
      split.
      { intros c Hc. rewrite S1 by (intros H; apply Hc; now right).
        apply Ho1. intros ->. apply Hc. now left. }
      split.
      { intros c [<-|Hc]; [|now apply S2].
        unfold recomputed.
        rewrite (S1 q) by (intros H; apply Hbelow in H; lia).
        rewrite (S1 (q * 2 + 1)) by (intros H; apply Hbelow in H; lia).
        rewrite (S1 (q * 2 + 2)) by (intros H; apply Hbelow in H; lia).
        rewrite Hn1, (Ho1 (q * 2 + 1)), (Ho1 (q * 2 + 2)) by lia.
        rewrite Ea, Eb. exact Hfirst. }
      split.
      { intros c [<-|Hc] Hc0.
        - left. right. now apply S6.
        - destruct (S3 c Hc Hc0) as [H|H]; [left; now right|right].
          rewrite H. apply Ho1. apply Hbelow in Hc. lia. }
      split.
      { intros [E0|H0].
        - rewrite E0 at 2. rewrite path_of_root. intros c [<-|[]]. now left.
        - intros c [<-|Hc]; [now left|right; now apply S5]. }
      split; [intros _; now left|lia].
Qed.

Hypothesis prefer_irrefl : forall a, prefer a a = false.
Hypothesis prefer_asym : forall a b, prefer a b = true -> prefer b a = false.

(** A node that holds what is computed from its children is not beaten by
    them. *)
Lemma recomputed_best (h : list node) (q : Z) :
  recomputed prefer bf h q -> best prefer bf h q.
Proof.
  unfold recomputed, best, value_at, combine. intros E _ c Hc Hlive.
  rewrite E. cbn [fst].
  set (a := nd h (q * 2 + 1)) in *. set (b := nd h (q * 2 + 2)) in *.
  destruct Hc as [->| ->]; fold a b in Hlive |- *.
  - destruct (Z.eqb_spec (snd a) 0); [lia|]. cbn [negb andb].
    destruct (Z.eqb_spec (snd b) 0); cbn [negb]; [apply prefer_irrefl|].
    destruct (prefer (hv bf (fst a)) (hv bf (fst b))) eqn:Ep;
      [apply prefer_irrefl|exact Ep].
  - destruct (Z.eqb_spec (snd b) 0); [lia|]. cbn [negb].
    destruct (Z.eqb_spec (snd a) 0); cbn [negb andb]; [apply prefer_irrefl|].
    destruct (prefer (hv bf (fst a)) (hv bf (fst b))) eqn:Ep;
      [now apply prefer_asym|apply prefer_irrefl].
Qed.

(** The heap after a walk is in order, when the heap before it was in order
    away from the ancestors of [p], and also at them unless the walk went
    up to the root. *)
Lemma walk_keeps_order (n : Z) (fuel : nat) (h h' : list node) (p : Z) :
  0 <= p -> fix_up prefer fuel bf h p = Ok h' ->
  (forall q, 0 <= q < n - 1 -> ~ In q (path fuel p) -> best prefer bf h q) ->
  (nd h' 0 = nd h 0 -> forall q, 0 <= q < n - 1 -> best prefer bf h q) ->
  ordered prefer bf n h'.
Proof.
  intros Hp E Haway Hstop.
  destruct (@fix_up_walk fuel h p h' Hp E)
    as (seg & S0 & S1 & S2 & S3 & S5 & S6 & Hsz).
  intros q Hq.
  destruct (in_dec Z.eq_dec q seg) as [Hin|Hout];
    [apply recomputed_best; now apply S2|].
  (* the node and its children are as before *)
  assert (Hc : forall c, c = q * 2 + 1 \/ c = q * 2 + 2 -> nd h' c = nd h c).
  { intros c Hc. destruct (in_dec Z.eq_dec c seg) as [Hcin|Hcout];
      [|now apply S1].
    destruct (S3 c Hcin ltac:(lia)) as [H|H]; [|exact H].
    exfalso. apply Hout.
    replace q with (Z.quot (c - 1) 2); [exact H|].
    destruct (@parent_child c ltac:(lia)) as [_ Hch]. lia. }
  assert (Hold : best prefer bf h q).
  { destruct (in_dec Z.eq_dec q (path fuel p)) as [Hpath|Hnp];
      [|now apply Haway].
    apply Hstop; [|exact Hq].
    apply S1. intros H0. apply Hout. now apply S5. }
  unfold best, value_at in *. rewrite (S1 q Hout).
  intros Hlive c Hcc. rewrite (Hc c Hcc). now apply Hold.
Qed.
End Walk.

Lemma best_same_nodes (prefer : float -> float -> bool) (bf : list float)
      (h h' : list node) (q : Z) :
  nd h' q = nd h q -> nd h' (q * 2 + 1) = nd h (q * 2 + 1) ->
  nd h' (q * 2 + 2) = nd h (q * 2 + 2) ->
  best prefer bf h q -> best prefer bf h' q.
Proof.
  unfold best, value_at. intros E E1 E2 H Hlive c Hc.
  rewrite E in *. destruct Hc as [->| ->]; [rewrite E1|rewrite E2];
    apply H; auto.
Qed.

Section LeafWalk.
Variable prefer : float -> float -> bool.
Hypothesis prefer_irrefl : forall a, prefer a a = false.
Hypothesis prefer_asym : forall a b, prefer a b = true -> prefer b a = false.
Variable bf : list float.
Variable n : Z.

(** A leaf is given the count [v] and the walk repairs the heap from it:
    the heap stays in order. *)
Lemma leaf_walk_ordered (h0 h1 h2 : list node) (i v : Z) :
  heap_ok n h0 -> ordered prefer bf n h0 -> 0 <= i < n ->
  set_second h0 (i + n - 1) v = Ok h1 ->
  fix_up prefer (Z.to_nat (i + n - 1)) bf h1 (i + n - 1) = Ok h2 ->
  snd (nd h2 0) = snd (nd h0 0) + (v - snd (nd h0 (i + n - 1))) ->
  ordered prefer bf n h2.
Proof.
  intros [(Hsz & Hrange & Hleaf) Hcons] Hord Hi Hset Hfix Hroot.
  set (l := i + n - 1) in *.
  destruct (@set_second_nd h0 l v ltac:(lia)) as (h1' & Hset' & Hsz1 & Hnl & Hoth).
  rewrite Hset in Hset'. inversion Hset'. subst h1'. clear Hset'.
  apply (@walk_keeps_order prefer bf prefer_irrefl prefer_asym n
           (Z.to_nat l) h1 h2 l ltac:(lia) Hfix).
  - intros q Hq Hnp.
    assert (q * 2 + 1 <> l /\ q * 2 + 2 <> l).
    { split; intros E; apply Hnp;
        replace q with (Z.quot (l - 1) 2);
        try (apply (@path_parent (Z.to_nat l) l l); try lia; now left);
        destruct (@parent_child l ltac:(lia)) as [_ Hch]; lia. }
    apply (@best_same_nodes prefer bf h0 h1 q); try (apply Hoth; lia).
    now apply Hord.
  - intros Hstop q Hq.
    assert (Hl0 : l <> 0) by lia.
    assert (Ev : v = snd (nd h0 l)).
    { rewrite Hstop, (Hoth 0) in Hroot by lia. lia. }
    assert (Hsame : forall k, nd h1 k = nd h0 k).
    { intros k. destruct (Z.eq_dec k l) as [->|Hk]; [|now apply Hoth].
      rewrite Hnl, Ev. now destruct (nd h0 l). }
    apply (@best_same_nodes prefer bf h0 h1 q); try apply Hsame.
    now apply Hord.
Qed.
End LeafWalk.

(** One slot is given new counts in the two heaps and both are repaired:
    the window stays in order. *)
Lemma update_sorted (w : t) (i vmin vmax : Z) (mn mx : list node) (w' : t) :
  wf w -> sorted w -> 0 <= i < vsize (buf w) ->
  0 <= vmin -> 0 <= vmax -> vmin + vmax <= 1 ->
  (0 < vmin + vmax -> not_nan (hv (buf w) i)) ->
  set_second (minHeap w) (i + vsize (buf w) - 1) vmin = Ok mn ->
  set_second (maxHeap w) (i + vsize (buf w) - 1) vmax = Ok mx ->
  updateFrom (mkWindow (buf w) mn mx) (i + vsize (buf w) - 1) = Ok w' ->
  sorted w'.
Proof.
  intros (Hn & Hmin & Hmax & Hex) (Omin & Omax & Cmin & Cmax) Hi Hvmin Hvmax
         Hsum Hnan Hs1 Hs2 Hup.
  set (n := vsize (buf w)) in *.
  destruct (@leaf_update flt (buf w) n (minHeap w) i vmin eq_refl Hmin Hi
              ltac:(lia))
    as (mn' & mn2 & Hs1' & Hf1 & Hok1 & Hr1 & Hz1 & Hl1 & Ho1).
  destruct (@leaf_update fgt (buf w) n (maxHeap w) i vmax eq_refl Hmax Hi
              ltac:(lia))
    as (mx' & mx2 & Hs2' & Hf2 & Hok2 & Hr2 & Hz2 & Hl2 & Ho2).
  rewrite Hs1 in Hs1'. inversion Hs1'. subst mn'. clear Hs1'.
  rewrite Hs2 in Hs2'. inversion Hs2'. subst mx'. clear Hs2'.
  unfold updateFrom in Hup. cbn [buf minHeap maxHeap] in Hup. fold n in Hup.
  rewrite Hf1 in Hup. cbn [bind] in Hup. rewrite Hf2 in Hup. cbn [bind] in Hup.
  inversion Hup. subst w'. clear Hup.
  unfold sorted. cbn [buf minHeap maxHeap]. fold n.
  split; [|split; [|split]].
  - apply (@leaf_walk_ordered flt flt_irrefl flt_asym (buf w) n
             (minHeap w) mn mn2 i vmin Hmin Omin Hi Hs1 Hf1 Hr1).
  - apply (@leaf_walk_ordered fgt (fun a => flt_irrefl a)
             (fun a b H => flt_asym _ _ H) (buf w) n
             (maxHeap w) mx mx2 i vmax Hmax Omax Hi Hs2 Hf2 Hr2).
  - intros j Hj Hlive. destruct (Z.eq_dec j i) as [->|Hji].
    + rewrite Hl1 in Hlive. cbn [snd] in Hlive. apply Hnan. lia.
    + rewrite (Ho1 j Hj Hji) in Hlive. now apply Cmin.
  - intros j Hj Hlive. destruct (Z.eq_dec j i) as [->|Hji].
    + rewrite Hl2 in Hlive. cbn [snd] in Hlive. apply Hnan. lia.
    + rewrite (Ho2 j Hj Hji) in Hlive. now apply Cmax.
Qed.

(** A slot no heap counts is given a new value: the heaps stay in order. *)
Lemma sorted_new_value (w : t) (bf : list float) (key : Z) :
  wf w -> sorted w -> 0 <= key < vsize (buf w) ->
  snd (nd (minHeap w) (key + vsize (buf w) - 1)) = 0 ->
  snd (nd (maxHeap w) (key + vsize (buf w) - 1)) = 0 ->
  vsize bf = vsize (buf w) ->
  (forall j, j <> key -> hv bf j = hv (buf w) j) ->
  sorted (mkWindow bf (minHeap w) (maxHeap w)).
Proof.
  intros (Hn & Hmin & Hmax & Hex) (Omin & Omax & Cmin & Cmax) Hkey Z1 Z2 Hsz
         Hoth.
  set (n := vsize (buf w)) in *.
  assert (Hval : forall h, heap_ok n h -> snd (nd h (key + n - 1)) = 0 ->
                           forall p, 0 <= p <= 2 * n - 2 -> 0 < snd (nd h p) ->
                                     value_at bf h p = value_at (buf w) h p).
  { intros h Hok Hz p Hp Hlive. unfold value_at. apply Hoth. intros E.
    destruct (@live_first n h Hok (Z.to_nat (2 * n - 2 - p)) p Hp
                ltac:(lia) Hlive) as [_ H1].
    rewrite E in H1. lia. }
  assert (Hord : forall prefer h, heap_ok n h -> snd (nd h (key + n - 1)) = 0 ->
                                  ordered prefer (buf w) n h ->
                                  ordered prefer bf n h).
  { intros prefer h Hok Hz Ho q Hq Hlive c Hc Hclive.
    rewrite (Hval h Hok Hz q) by (assumption || lia).
    rewrite (Hval h Hok Hz c) by (assumption || lia).
    now apply Ho. }
  assert (Hcl : forall h, snd (nd h (key + n - 1)) = 0 ->
                          clean (buf w) n h -> clean bf n h).
  { intros h Hz Hc j Hj Hlive. rewrite Hoth; [now apply Hc|].
    intros ->. lia. }
  unfold sorted. cbn [buf minHeap maxHeap]. rewrite Hsz. fold n.
  split; [now apply Hord|]. split; [now apply Hord|].
  split; now apply Hcl.
Qed.

Lemma vset_hv_of (bf bf' : list float) (key : Z) (val : float) :
  0 <= key < vsize bf -> vset bf key val = Ok bf' ->
  vsize bf' = vsize bf /\ hv bf' key = val /\
  forall j, j <> key -> hv bf' j = hv bf j.
Proof.
  intros Hkey E.
  destruct (@vset_hv bf key val Hkey) as (b2 & E2 & Hsz & Hk & Ho).
  rewrite E in E2. inversion E2. subst b2. auto.
Qed.

Lemma slot_count_zero (w : t) (key : Z) :
  wf w -> 0 <= key < vsize (buf w) -> slot_count w key = 0 ->
  snd (nd (minHeap w) (key + vsize (buf w) - 1)) = 0 /\
  snd (nd (maxHeap w) (key + vsize (buf w) - 1)) = 0.
Proof.
  intros (Hn & [(_ & R1 & _) _] & [(_ & R2 & _) _] & _) Hkey Hz.
  unfold slot_count in Hz.
  destruct (R1 (key + vsize (buf w) - 1) ltac:(lia)) as [_ H1].
  destruct (R2 (key + vsize (buf w) - 1) ltac:(lia)) as [_ H2]. lia.
Qed.

Lemma insert_sorted (w w' : t) (key : Z) (val : float) :
  wf w -> sorted w -> 0 <= key < vsize (buf w) -> slot_count w key = 0 ->
  not_nan val -> insert w key val = Ok w' -> sorted w'.
Proof.
  intros Hwf Hs Hkey Hslot Hnan H.
  destruct (@slot_count_zero _ _ Hwf Hkey Hslot) as [Z1 Z2].
  unfold insert, pivot, isEmpty in H.
  destruct (vget (maxHeap w) 0) as [mx0| | |]; try discriminate.
  cbn [bind] in H.
  destruct (vget (buf w) (fst mx0)) as [p| | |]; try discriminate.
  cbn [bind] in H.
  destruct (vset (buf w) key val) as [bf| | |] eqn:Eset; try discriminate.
  cbn [bind] in H.
  destruct (vget (minHeap w) 0) as [mn0| | |]; try discriminate.
  cbn [bind] in H.
  destruct (@vset_hv_of _ _ _ _ Hkey Eset) as (Hsz & Hk & Hoth).
  pose proof (@wf_same_heaps w bf Hwf Hsz) as Hwf0.
  pose proof (@sorted_new_value w bf key Hwf Hs Hkey Z1 Z2 Hsz Hoth) as Hs0.
  set (w0 := mkWindow bf (minHeap w) (maxHeap w)) in *.
  assert (Hkey0 : 0 <= key < vsize (buf w0)) by (simpl; lia).
  destruct ((snd mx0 + snd mn0 =? 0) || flt val p).
  - destruct (set_second (maxHeap w) (key + vsize bf - 1) 1) as [mx| | |] eqn:E1;
      try discriminate.
    cbn [bind] in H.
    destruct (set_second (minHeap w) (key + vsize bf - 1) 0) as [mn| | |] eqn:E2;
      try discriminate.
    cbn [bind] in H.
    apply (@update_sorted w0 key 0 1 mn mx w' Hwf0 Hs0 Hkey0); try lia;
      try assumption.
    intros _. simpl. now rewrite Hk.
  - destruct (set_second (maxHeap w) (key + vsize bf - 1) 0) as [mx| | |] eqn:E1;
      try discriminate.
    cbn [bind] in H.
    destruct (set_second (minHeap w) (key + vsize bf - 1) 1) as [mn| | |] eqn:E2;
      try discriminate.
    cbn [bind] in H.
    apply (@update_sorted w0 key 1 0 mn mx w' Hwf0 Hs0 Hkey0); try lia;
      try assumption.
    intros _. simpl. now rewrite Hk.
Qed.

Lemma remove_sorted (w w' : t) (key : Z) :
  wf w -> sorted w -> 0 <= key < vsize (buf w) ->
  remove w key = Ok w' -> sorted w'.
Proof.
  intros Hwf Hs Hkey H. unfold remove in H.
  destruct (set_second (minHeap w) (key + vsize (buf w) - 1) 0)
    as [mn| | |] eqn:E1; try discriminate.
  cbn [bind] in H.
  destruct (set_second (maxHeap w) (key + vsize (buf w) - 1) 0)
    as [mx| | |] eqn:E2; try discriminate.
  cbn [bind] in H.
  apply (@update_sorted w key 0 0 mn mx w' Hwf Hs Hkey); try lia; assumption.
Qed.

Lemma min_to_max_sorted (w w' : t) :
  wf w -> sorted w -> 0 < snd (nd (minHeap w) 0) ->
  min_to_max w = Ok w' -> sorted w'.
Proof.
  intros Hwf Hs Hpos H. pose proof Hwf as (Hn & Hmin & Hmax & Hex).
  destruct (root_in_range Hwf) as [R1 R2].
  set (n := vsize (buf w)) in *.
  destruct (@live_first n (minHeap w) Hmin (Z.to_nat (2 * n - 2)) 0
              ltac:(lia) ltac:(lia) Hpos) as [Hfr Hlive].
  unfold min_to_max in H.
  rewrite (@nd_vget (minHeap w) 0) in H by lia. cbn [bind] in H.
  set (i := fst (nd (minHeap w) 0)) in *. fold n in H.
  replace (i + (n - 1)) with (i + n - 1) in H by lia.
  destruct (set_second (minHeap w) (i + n - 1) 0) as [mn| | |] eqn:E1;
    try discriminate.
  cbn [bind] in H.
  destruct (set_second (maxHeap w) (i + n - 1) 1) as [mx| | |] eqn:E2;
    try discriminate.
  cbn [bind] in H.
  apply (@update_sorted w i 0 1 mn mx w' Hwf Hs Hfr); try lia; try assumption.
  intros _. destruct Hs as (_ & _ & Cmin & _). apply Cmin; [exact Hfr|].
  fold n. lia.
Qed.

Lemma max_to_min_sorted (w w' : t) :
  wf w -> sorted w -> 0 < snd (nd (maxHeap w) 0) ->
  max_to_min w = Ok w' -> sorted w'.
Proof.
  intros Hwf Hs Hpos H. pose proof Hwf as (Hn & Hmin & Hmax & Hex).
  destruct (root_in_range Hwf) as [R1 R2].
  set (n := vsize (buf w)) in *.
  destruct (@live_first n (maxHeap w) Hmax (Z.to_nat (2 * n - 2)) 0
              ltac:(lia) ltac:(lia) Hpos) as [Hfr Hlive].
  unfold max_to_min in H.
  rewrite (@nd_vget (maxHeap w) 0) in H by lia. cbn [bind] in H.
  set (i := fst (nd (maxHeap w) 0)) in *. fold n in H.
  replace (i + (n - 1)) with (i + n - 1) in H by lia.
  destruct (set_second (minHeap w) (i + n - 1) 1) as [mn| | |] eqn:E1;
    try discriminate.
  cbn [bind] in H.
  destruct (set_second (maxHeap w) (i + n - 1) 0) as [mx| | |] eqn:E2;
    try discriminate.
  cbn [bind] in H.
  apply (@update_sorted w i 1 0 mn mx w' Hwf Hs Hfr); try lia; try assumption.
  intros _. destruct Hs as (_ & _ & _ & Cmax). apply Cmax; [exact Hfr|].
  fold n. lia.
Qed.

(** What both rounds of [rebalance] keep, [rebalance] keeps. *)
Section RebalanceKeeps.

Variable J : t -> Prop.
Hypothesis min_to_max_keeps :
  forall w w', wf w -> J w -> 0 < snd (nd (minHeap w) 0) ->
               min_to_max w = Ok w' -> J w'.
Hypothesis max_to_min_keeps :
  forall w w', wf w -> J w -> 0 < snd (nd (maxHeap w) 0) ->
               max_to_min w = Ok w' -> J w'.

Lemma shrink_keeps (desired : Z) :
  0 <= desired ->
  forall (fuel : nat) (w w' : t),
    wf w -> J w ->
    while_do fuel (fun w => do n <- min_count w; Ok (desired <? n))
             min_to_max w = Ok w' ->
    J w'.
Proof.
  intros Hd. induction fuel as [|fuel IH]; intros w w' Hwf Hs H;
    simpl while_do in H; rewrite (min_count_nd Hwf) in H; cbn [bind] in H;
    destruct (Z.ltb_spec desired (snd (nd (minHeap w) 0))) as [Hlt|Hge];
    try discriminate; try (inversion H; subst; assumption).
  destruct (min_to_max_ok Hwf ltac:(lia)) as (w1 & Hm & Hwf1 & _).
  rewrite Hm in H. cbn [bind] in H.
  apply (IH w1 w' Hwf1); [|exact H].
  apply (@min_to_max_keeps w w1 Hwf Hs); [lia|exact Hm].
Qed.

Lemma grow_keeps (desired : Z) :
  forall (fuel : nat) (w w' : t),
    wf w -> J w ->
    desired <= snd (nd (minHeap w) 0) + snd (nd (maxHeap w) 0) - 1 ->
    while_do fuel (fun w => do n <- min_count w; Ok (n <? desired))
             max_to_min w = Ok w' ->
    J w'.
Proof.
  induction fuel as [|fuel IH]; intros w w' Hwf Hs Hd H;
    simpl while_do in H; rewrite (min_count_nd Hwf) in H; cbn [bind] in H;
    destruct (Z.ltb_spec (snd (nd (minHeap w) 0)) desired) as [Hlt|Hge];
    try discriminate; try (inversion H; subst; assumption).
  destruct (max_to_min_ok Hwf ltac:(lia)) as (w1 & Hm & Hwf1 & _ & Hc1 & Hc2).
  rewrite Hm in H. cbn [bind] in H.
  apply (IH w1 w' Hwf1); [|lia|exact H].
  apply (@max_to_min_keeps w w1 Hwf Hs); [lia|exact Hm].
Qed.

Lemma rebalance_keeps (w : t) (p : Q) :
  wf w -> J w -> 1 <= root_count w ->
  exists w', rebalance w p = Ok w' /\ wf w' /\ buf w' = buf w /\
             1 <= snd (nd (maxHeap w') 0) /\ root_count w' = root_count w /\
             J w'.
Proof.
  intros Hwf Hs Htotal. unfold root_count in *.
  destruct (root_counts_nonneg Hwf) as [N1 N2].
  unfold rebalance. rewrite (max_count_nd Hwf), (min_count_nd Hwf). cbn [bind].
  set (total := snd (nd (maxHeap w) 0) + snd (nd (minHeap w) 0)) in *.
  pose proof (@desiredMinHeapSize_range total p ltac:(lia)) as Hd.
  set (desired := desiredMinHeapSize total p) in *.
  unfold rebalance_to.
  destruct (@shrink_min_loop desired ltac:(lia) (Z.to_nat total) w Hwf
              ltac:(lia)) as (w1 & Hl1 & Hwf1 & Hb1 & Hm1 & Hs1).
  rewrite Hl1. cbn [bind].
  pose proof (@shrink_keeps desired ltac:(lia) _ _ _ Hwf Hs Hl1) as HJ1.
  destruct (@grow_min_loop desired (Z.to_nat total) w1 Hwf1
              ltac:(lia) ltac:(lia)) as (w2 & Hl2 & Hwf2 & Hb2 & Hm2 & Hs2).
  exists w2. split; [exact Hl2|]. split; [exact Hwf2|].
  split; [congruence|]. split; [lia|]. split; [lia|].
  apply (@grow_keeps desired (Z.to_nat total) w1 w2 Hwf1 HJ1); [lia|exact Hl2].
Qed.

End RebalanceKeeps.

(** The value at the root of a heap in order is not beaten by any value the
    heap counts. *)
Lemma root_is_best (prefer : float -> float -> bool) (bf : list float)
      (n : Z) (h : list node) :
  (forall a, prefer a a = false) ->
  (forall a b c, not_nan a -> not_nan b -> not_nan c ->
                 prefer a b = false -> prefer b c = false ->
                 prefer a c = false) ->
  heap_ok n h -> ordered prefer bf n h -> clean bf n h ->
  forall i, 0 <= i < n -> 0 < snd (nd h (i + n - 1)) ->
            prefer (hv bf i) (value_at bf h 0) = false.
Proof.
  intros Hirr Hnt Hok Hord Hclean.
  pose proof Hok as [(Hsz & Hrange & Hleaf) Hcons].
  assert (Hnan : forall p, 0 <= p <= 2 * n - 2 -> 0 < snd (nd h p) ->
                           not_nan (value_at bf h p)).
  { intros p Hp Hlive.
    destruct (@live_first n h Hok (Z.to_nat (2 * n - 2 - p)) p Hp
                ltac:(lia) Hlive) as [Hf H1].
    unfold value_at. apply Hclean; [exact Hf|lia]. }
  assert (Hup : forall (k : nat) (p : Z),
             (Z.to_nat p <= k)%nat -> 0 <= p <= 2 * n - 2 ->
             0 < snd (nd h p) ->
             0 < snd (nd h 0) /\
             prefer (value_at bf h p) (value_at bf h 0) = false).
  { induction k as [|k IH]; intros p Hk Hp Hlive.
    - assert (p = 0) by lia. subst p. split; [exact Hlive|apply Hirr].
    - destruct (Z.eq_dec p 0) as [->|Hne]; [split; [exact Hlive|apply Hirr]|].
      destruct (@parent_child p ltac:(lia)) as [Hq Hch].
      set (q := Z.quot (p - 1) 2) in *.
      assert (Hqi : 0 <= q < n - 1) by lia.
      destruct (Hcons q Hqi) as [Hcount _].
      destruct (Hrange (q * 2 + 1) ltac:(lia)) as [_ Ha].
      destruct (Hrange (q * 2 + 2) ltac:(lia)) as [_ Hb].
      assert (Hqlive : 0 < snd (nd h q)) by (destruct Hch as [E|E]; rewrite E in Hlive; lia).
      destruct (IH q ltac:(lia) ltac:(lia) Hqlive) as [Hroot Hq0].
      split; [exact Hroot|].
      apply (Hnt _ (value_at bf h q)); try apply Hnan; try lia; try assumption.
      apply (Hord q Hqi Hqlive p); [lia|exact Hlive]. }
  intros i Hi Hlive.
  destruct (Hup (Z.to_nat (i + n - 1)) (i + n - 1) ltac:(lia) ltac:(lia) Hlive)
    as [_ H].
  unfold value_at in H at 1. destruct (Hleaf i Hi) as [Hf _].
  now rewrite Hf in H.
Qed.

(** The values a heap counts are the values of [leaf_values]. *)
Lemma in_leaf_values (w : t) (h : list node) (u : float) :
  vsize (buf w) + vsize (buf w) - 1 <= vsize h ->
  In u (leaf_values w h) ->
  exists i, 0 <= i < vsize (buf w) /\
            0 <> snd (nd h (i + vsize (buf w) - 1)) /\ u = hv (buf w) i.
Proof.
  intros Hsz Hin. unfold leaf_values in Hin. apply in_flat_map in Hin.
  destruct Hin as (k & Hk & Hu). apply in_seq in Hk.
  assert (Hi : 0 <= Z.of_nat k < vsize (buf w)) by (unfold vsize; lia).
  rewrite (@nd_vget h (Z.of_nat k + vsize (buf w) - 1)) in Hu by lia.
  rewrite (@hv_vget (buf w) (Z.of_nat k)) in Hu by lia.
  destruct (Z.eqb_spec (snd (nd h (Z.of_nat k + vsize (buf w) - 1))) 0);
    [destruct Hu|].
  destruct Hu as [<-|[]]. exists (Z.of_nat k). repeat split; lia.
Qed.

Lemma leaf_in_values (w : t) (h : list node) (i : Z) :
  vsize (buf w) + vsize (buf w) - 1 <= vsize h ->
  0 <= i < vsize (buf w) -> 0 <> snd (nd h (i + vsize (buf w) - 1)) ->
  In (hv (buf w) i) (leaf_values w h).
Proof.
  intros Hsz Hi Hlive. unfold leaf_values. apply in_flat_map.
  exists (Z.to_nat i). split; [apply in_seq; unfold vsize in *; lia|].
  rewrite Z2Nat.id by lia.
  rewrite (@nd_vget h (i + vsize (buf w) - 1)) by lia.
  rewrite (@hv_vget (buf w) i) by lia.
  destruct (Z.eqb_spec (snd (nd h (i + vsize (buf w) - 1))) 0); [lia|].
  now left.
Qed.

Lemma move_tracks (w w' : t) (i : Z) (live : list Z) :
  tracks w live -> 0 <= i < vsize (buf w) -> slot_count w i = 1 ->
  wf w' -> buf w' = buf w ->
  root_count w' = root_count w + 1 - slot_count w i ->
  slot_count w' i = 1 ->
  (forall j, 0 <= j < vsize (buf w) -> j <> i ->
             slot_count w' j = slot_count w j) ->
  tracks w' live.
Proof.
  intros (Hwf & Hnd & Hrange & Hslot & Hroot) Hi Hone Hwf' Hbuf Hr Hk Hoth.
  unfold tracks. rewrite Hbuf. split; [exact Hwf'|]. split; [exact Hnd|].
  split; [exact Hrange|]. split; [|lia].
  intros j Hj. destruct (Z.eq_dec j i) as [->|Hne].
  - rewrite Hk. rewrite <- (Hslot i Hj). now symmetry.
  - rewrite (Hoth j Hj Hne). now apply Hslot.
Qed.

Lemma min_to_max_tracks (live : list Z) (w w' : t) :
  wf w -> tracks w live -> 0 < snd (nd (minHeap w) 0) ->
  min_to_max w = Ok w' -> tracks w' live.
Proof.
  intros Hwf Htr Hpos H. pose proof Hwf as (Hn & Hmin & Hmax & Hex).
  destruct (root_in_range Hwf) as [R1 R2].
  set (n := vsize (buf w)) in *.
  destruct (@live_first n (minHeap w) Hmin (Z.to_nat (2 * n - 2)) 0
              ltac:(lia) ltac:(lia) Hpos) as [Hfr Hlive].
  set (i := fst (nd (minHeap w) 0)) in *.
  destruct (@update_slots w i 0 1 Hwf Hfr ltac:(lia) ltac:(lia) ltac:(lia))
    as (mn & mx & w2 & Hs1 & Hs2 & Hup & Hwf2 & Hbuf & Hr & Hk & Hoth).
  fold n in Hs1, Hs2, Hup.
  unfold min_to_max in H.
  rewrite (@nd_vget (minHeap w) 0) in H by lia. cbn [bind] in H.
  fold i n in H. replace (i + (n - 1)) with (i + n - 1) in H by lia.
  rewrite Hs1 in H. cbn [bind] in H. rewrite Hs2 in H. cbn [bind] in H.
  rewrite Hup in H. inversion H. subst w2.
  assert (Hone : slot_count w i = 1).
  { unfold slot_count. fold n. destruct Hmax as [(_ & Hrange & _) _].
    destruct (Hrange (i + n - 1) ltac:(lia)) as [_ Hge].
    specialize (Hex i Hfr). fold n in Hex. lia. }
  apply (@move_tracks w w' i live Htr Hfr Hone Hwf2 Hbuf); assumption.
Qed.

Lemma max_to_min_tracks (live : list Z) (w w' : t) :
  wf w -> tracks w live -> 0 < snd (nd (maxHeap w) 0) ->
  max_to_min w = Ok w' -> tracks w' live.
Proof.
  intros Hwf Htr Hpos H. pose proof Hwf as (Hn & Hmin & Hmax & Hex).
  destruct (root_in_range Hwf) as [R1 R2].
  set (n := vsize (buf w)) in *.
  destruct (@live_first n (maxHeap w) Hmax (Z.to_nat (2 * n - 2)) 0
              ltac:(lia) ltac:(lia) Hpos) as [Hfr Hlive].
  set (i := fst (nd (maxHeap w) 0)) in *.
  destruct (@update_slots w i 1 0 Hwf Hfr ltac:(lia) ltac:(lia) ltac:(lia))
    as (mn & mx & w2 & Hs1 & Hs2 & Hup & Hwf2 & Hbuf & Hr & Hk & Hoth).
  fold n in Hs1, Hs2, Hup.
  unfold max_to_min in H.
  rewrite (@nd_vget (maxHeap w) 0) in H by lia. cbn [bind] in H.
  fold i n in H. replace (i + (n - 1)) with (i + n - 1) in H by lia.
  rewrite Hs1 in H. cbn [bind] in H. rewrite Hs2 in H. cbn [bind] in H.
  rewrite Hup in H. inversion H. subst w2.
  assert (Hone : slot_count w i = 1).
  { unfold slot_count. fold n. destruct Hmin as [(_ & Hrange & _) _].
    destruct (Hrange (i + n - 1) ltac:(lia)) as [_ Hge].
    specialize (Hex i Hfr). fold n in Hex. lia. }
  apply (@move_tracks w w' i live Htr Hfr Hone Hwf2 Hbuf); assumption.
Qed.

Lemma sorted_of_empty (w : t) :
  wf w ->
  (forall i, 0 <= i < vsize (buf w) -> slot_count w i = 0) ->
  sorted w.
Proof.
  intros Hwf Hz. pose proof Hwf as (Hn & Hmin & Hmax & Hex).
  assert (Hdead : forall h p,
             h = minHeap w \/ h = maxHeap w ->
             0 <= p <= 2 * vsize (buf w) - 2 -> 0 < snd (nd h p) -> False).
  { intros h p Hh Hp Hlive.
    assert (Hok : heap_ok (vsize (buf w)) h) by (destruct Hh; subst; assumption).
    destruct (@live_first _ h Hok (Z.to_nat (2 * vsize (buf w) - 2 - p)) p Hp
                ltac:(lia) Hlive) as [Hf H1].
    destruct (@slot_count_zero w (fst (nd h p)) Hwf Hf (Hz _ Hf)) as [Z1 Z2].
    destruct Hh; subst h; lia. }
  repeat split.
  - intros q Hq Hlive. exfalso. apply (Hdead (minHeap w) q); auto; lia.
  - intros q Hq Hlive. exfalso. apply (Hdead (maxHeap w) q); auto; lia.
  - intros i Hi Hlive. exfalso.
    apply (Hdead (minHeap w) (i + vsize (buf w) - 1)); auto; lia.
  - intros i Hi Hlive. exfalso.
    apply (Hdead (maxHeap w) (i + vsize (buf w) - 1)); auto; lia.
Qed.

(** The calls of the filter keep the window in order. *)
Lemma run_steps_sorted (steps : list step) :
  forall w live,
    tracks w live -> sorted w -> step_keys_below (vsize (buf w)) steps ->
    disciplined steps live ->
    exists w', run_steps w steps = Ok w' /\ tracks w' (held steps live) /\
               sorted w'.
Proof.
  induction steps as [|s steps IH]; intros w live Htr Hs Hops Hd.
  - exists w. split; [reflexivity|split; assumption].
  - inversion Hops as [|s' steps' Ho Hrest]; subst.
    pose proof Htr as (Hwf & _ & _ & Hslot & Hroot).
    destruct s as [[key val|key]|p];
      cbn [run_steps run_step run_op held disciplined live_keys] in *.
    + destruct Hd as ((Hnew & Hnan) & Hd).
      destruct (@insert_tracks w key val live Htr Ho) as (w1 & Hr & Hsz & Htr1).
      rewrite Hr. cbn [bind].
      apply IH; [exact Htr1| |now rewrite Hsz|exact Hd].
      apply (@insert_sorted w w1 key val Hwf Hs Ho); try assumption.
      rewrite (Hslot key Ho), Hnew. reflexivity.
    + destruct Hd as (_ & Hd).
      destruct (@remove_tracks w key live Htr Ho) as (w1 & Hr & Hsz & Htr1).
      rewrite Hr. cbn [bind].
      apply IH; [exact Htr1| |now rewrite Hsz|exact Hd].
      apply (@remove_sorted w w1 key Hwf Hs Ho Hr).
    + destruct Hd as (Hlive & Hd).
      assert (Htotal : 1 <= root_count w).
      { rewrite Hroot. destruct live as [|k ks]; [congruence|].
        change (List.length (k :: ks)) with (S (List.length ks)). lia. }
      destruct (@rebalance_keeps
                  (fun w => tracks w live /\ sorted w)
                  (fun a b Ha Hj Hp Hm =>
                     conj (@min_to_max_tracks live a b Ha (proj1 Hj) Hp Hm)
                          (@min_to_max_sorted a b Ha (proj2 Hj) Hp Hm))
                  (fun a b Ha Hj Hp Hm =>
                     conj (@max_to_min_tracks live a b Ha (proj1 Hj) Hp Hm)
                          (@max_to_min_sorted a b Ha (proj2 Hj) Hp Hm))
                  w p Hwf (conj Htr Hs) Htotal)
        as (w1 & Hr & _ & Hbuf & _ & _ & Htr1 & Hs1).
      rewrite Hr. cbn [bind].
      apply IH; [exact Htr1|exact Hs1|now rewrite Hbuf|exact Hd].
Qed.

(** X22.  On a window built for [maxKey >= 1] slots, after calls of
    [insert], [remove] and [rebalance] on keys below [maxKey] as the filter
    makes them ([insert] gets a number, at a key the window does not hold;
    [rebalance] finds a key in the window) that leave at least one key in
    the window: [rebalance(p)] returns for every [p], and [pivot()] then
    returns a value of the low partition that no value of the low partition
    is above. *)
Theorem pivot_is_largest_of_low_partition
        (maxKey : Z) (steps : list step) (p : Q) :
  1 <= maxKey -> step_keys_below maxKey steps -> disciplined steps [] ->
  held steps [] <> [] ->
  exists w0 w w' v,
    new maxKey = Ok w0 /\ run_steps w0 steps = Ok w /\
    rebalance w p = Ok w' /\ pivot w' = Ok v /\ In v (low_values w') /\
    forall u, In u (low_values w') -> flt v u = false.
Proof.
  intros Hn Hops Hfresh Hlive.
  destruct (new_tracks Hn) as (w0 & Hnew & Hsz & Htr0).
  assert (Hs0 : sorted w0).
  { pose proof Htr0 as (Hwf0 & _ & _ & Hslot0 & _).
    apply (sorted_of_empty Hwf0). intros i Hi. now rewrite (Hslot0 i Hi). }
  destruct (@run_steps_sorted steps w0 [] Htr0 Hs0 ltac:(now rewrite Hsz) Hfresh)
    as (w & Hrun & Htr & Hs).
  pose proof Htr as (Hwf & _ & _ & _ & Hroot).
  assert (Htotal : 1 <= root_count w).
  { rewrite Hroot. destruct (held steps []) as [|k ks]; [congruence|].
    change (List.length (k :: ks)) with (S (List.length ks)). lia. }
  destruct (@rebalance_keeps
              sorted
              (fun a b Ha Hj Hp Hm => @min_to_max_sorted a b Ha Hj Hp Hm)
              (fun a b Ha Hj Hp Hm => @max_to_min_sorted a b Ha Hj Hp Hm)
              w p Hwf Hs Htotal)
    as (w' & Hreb & Hwf' & Hbuf & Hlow & _ & Hs').
  pose proof Hwf' as (Hn' & Hmin' & Hmax' & Hex').
  destruct (root_in_range Hwf') as [R1 R2].
  set (n := vsize (buf w')) in *.
  destruct (@live_first n (maxHeap w') Hmax' (Z.to_nat (2 * n - 2)) 0
              ltac:(lia) ltac:(lia) ltac:(lia)) as [Hfr Hfl].
  pose proof Hmax' as [(Hsize & _) _].
  exists w0, w, w', (hv (buf w') (fst (nd (maxHeap w') 0))).
  split; [exact Hnew|]. split; [exact Hrun|]. split; [exact Hreb|].
  split; [|split].
  - unfold pivot. rewrite (@nd_vget (maxHeap w') 0) by lia. cbn [bind].
    apply hv_vget. exact Hfr.
  - apply leaf_in_values; [fold n; lia|exact Hfr|fold n; lia].
  - intros u Hu. apply in_leaf_values in Hu; [|fold n; lia].
    destruct Hu as (i & Hi & Hcount & ->).
    destruct Hs' as (_ & Omax & _ & Cmax).
    pose proof Hmax' as [(_ & Hrange & _) _].
    destruct (Hrange (i + n - 1) ltac:(lia)) as [_ Hb].
    apply (@root_is_best fgt (buf w') n (maxHeap w')
             (fun a => flt_irrefl a) fgt_ntrans Hmax' Omax Cmax i Hi).
    fold n in Hcount. lia.
Qed.

Lemma pivot_is_largest_of_low_partition_witness :
  exists w0 w w' v,
    new 9 = Ok w0 /\
    run_steps w0 [Do (Insert 1 (fl 5)); Do (Insert 2 (fl 3));
                  Do (Insert 4 (fl 4)); Rebalance (1 # 2); Do (Remove 2);
                  Do (Insert 2 (fl 7))] = Ok w /\
    rebalance w (1 # 2) = Ok w' /\
    pivot w' = Ok v /\ In v (low_values w') /\
    forall u, In u (low_values w') -> flt v u = false.
Proof.
  apply (@pivot_is_largest_of_low_partition
           9 [Do (Insert 1 (fl 5)); Do (Insert 2 (fl 3));
              Do (Insert 4 (fl 4)); Rebalance (1 # 2); Do (Remove 2);
              Do (Insert 2 (fl 7))] (1 # 2)).
  - lia.
  - repeat constructor; lia.
  - simpl. repeat split; discriminate.
  - vm_compute. discriminate.
Defined.

(** ** Image.h: sample2D *)

Lemma for_loop_out_of_bounds (S : Type) (I : Z -> S -> Prop)
      (body : Z -> S -> result S) (hi k : Z) :
  (forall s, I k s -> body k s = OutOfBounds) ->
  forall (n : nat) (lo : Z) (s : S),
    Z.to_nat (k - lo) = n -> lo <= k < hi -> I lo s ->
    (forall i s, lo <= i < k -> I i s ->
                 body i s = OutOfBounds \/
                 exists s', body i s = Ok s' /\ I (i + 1) s') ->
    for_loop lo hi body s = OutOfBounds.
Proof.
  intros Hk. induction n as [|n IH]; intros lo s Hn Hlo H0 Hstep.
  - assert (lo = k) by lia. subst lo.
    apply for_loop_first_out_of_bounds; [lia|now apply Hk].
  - unfold for_loop. destruct (Z.to_nat (hi - lo)) as [|m] eqn:E; [lia|].
    cbn [for_range].
    destruct (Hstep lo s ltac:(lia) H0) as [Eb|(s' & Eb & H1)]; rewrite Eb;
      cbn [bind]; [reflexivity|].
    replace m with (Z.to_nat (hi - (lo + 1))) by lia.
    apply (IH (lo + 1) s'); [lia|lia|exact H1|].
    intros i s1 Hi. apply Hstep. lia.
Qed.

Lemma weights_ok (lanczos_3 : float -> float) (f : Q) (i0 : Z) :
  exists w, Sampling.weights lanczos_3 f i0 = Ok w /\ vsize (fst w) = 6.
Proof.
  unfold Sampling.weights.
  destruct (@for_loop_inv _ (fun (_ : Z) (st : list float * float) =>
                               vsize (fst st) = 6)
              (fun x st =>
                 let diff := fsub (Fin f) (of_int (x + i0 + Sampling.LEFT)) in
                 let val := lanczos_3 diff in
                 do w <- vset (fst st) x val; Ok (w, fadd (snd st) val))
              0 Sampling.WIDTH (vmake Sampling.WIDTH (of_int 0), of_int 0))
    as (w & Hr & Hw).
  - cbn [fst]. now rewrite vsize_vmake.
  - intros i st Hi Hsz. cbv zeta. unfold Sampling.WIDTH in Hi.
    destruct (@vset_ok _ (fst st)
                (lanczos_3 (fsub (Fin f) (of_int (i + i0 + Sampling.LEFT)))) i
                ltac:(lia)) as (w & Hs & Hsz' & _).
    rewrite Hs. cbn [bind]. eexists. split; [reflexivity|]. cbn [fst]. lia.
  - exists w. split; [exact Hr|exact Hw].
Qed.

Lemma normalise_ok (wx wy : list float) (a b : float) :
  vsize wx = 6 -> vsize wy = 6 ->
  exists w, Sampling.normalise wx wy a b = Ok w /\
            vsize (fst w) = 6 /\ vsize (snd w) = 6.
Proof.
  intros Hx Hy. unfold Sampling.normalise.
  destruct (@for_loop_inv _ (fun (_ : Z) (st : list float * list float) =>
                               vsize (fst st) = 6 /\ vsize (snd st) = 6)
              (fun i st =>
                 do a0 <- vget (fst st) i;
                 do wx0 <- vset (fst st) i (fmul a0 a);
                 do b0 <- vget (snd st) i;
                 do wy0 <- vset (snd st) i (fmul b0 b);
                 Ok (wx0, wy0))
              0 Sampling.WIDTH (wx, wy))
    as (w & Hr & Hw).
  - now split.
  - intros i st Hi [H1 H2]. unfold Sampling.WIDTH in Hi.
    destruct (@vget_ok _ (fst st) i ltac:(lia)) as [a0 Ha]. rewrite Ha.
    cbn [bind].
    destruct (@vset_ok _ (fst st) (fmul a0 a) i ltac:(lia))
      as (wx0 & Hs1 & Hz1 & _).
    rewrite Hs1. cbn [bind].
    destruct (@vget_ok _ (snd st) i ltac:(lia)) as [b0 Hb]. rewrite Hb.
    cbn [bind].
    destruct (@vset_ok _ (snd st) (fmul b0 b) i ltac:(lia))
      as (wy0 & Hs2 & Hz2 & _).
    rewrite Hs2. cbn [bind]. eexists. split; [reflexivity|].
    cbn [fst snd]. lia.
  - exists w. split; [exact Hr|exact Hw].
Qed.

Section Sample2D.

Variable im : Image.
Variable t : Z.
Hypothesis Hwf : wf_image im.
Hypothesis Ht : 0 <= t < frames im.

Lemma clear_ok (out : list float) :
  channels im <= vsize out ->
  exists r, Sampling.clear im out = Ok r /\ vsize r = vsize out /\
            zeros (channels im) r.
Proof.
  intros Hout. destruct Hwf as (_ & _ & _ & Hc & _). unfold Sampling.clear.
  destruct (@for_loop_inv _ (fun (c : Z) (r : list float) =>
                               vsize r = vsize out /\ zeros c r)
              (fun c r => vset r c (of_int 0)) 0 (channels im) out)
    as (r & Hr & Hsz & Hz).
  - split; [reflexivity|]. intros c Hc0. lia.
  - intros c r Hcr [Hsz Hz].
    destruct (@vset_ok _ r (of_int 0) c ltac:(lia)) as (r' & Hs & Hsz' & Hg & Ho).
    exists r'. split; [exact Hs|]. split; [lia|].
    intros c' Hc'. destruct (Z.eq_dec c' c) as [->|Hne]; [exact Hg|].
    rewrite (Ho c' Hne). apply Hz. lia.
  - exists r. split; [exact Hr|]. split; [exact Hsz|].
    now replace (Z.max 0 (channels im)) with (channels im) in Hz by lia.
Qed.

Lemma add_sample_ok (x y : Z) (w : float) (r : list float) :
  0 <= x < width im -> 0 <= y < height im -> channels im <= vsize r ->
  exists r', Sampling.add_sample im x y t w r = Ok r' /\ vsize r' = vsize r.
Proof.
  intros Hx Hy Hr. unfold Sampling.add_sample.
  destruct (@for_loop_inv _ (fun (_ : Z) (r' : list float) => vsize r' = vsize r)
              (fun c r0 => do s <- at_ im x y t c;
                           do a <- vget r0 c;
                           vset r0 c (fadd a (fmul s w)))
              0 (channels im) r eq_refl)
    as (r' & Hl & Hsz).
  - intros c r0 Hc Hsz.
    destruct (@at_ok im x y t c Hwf) as [s Hs]; [apply in_bounds_iff; lia|].
    rewrite Hs. cbn [bind].
    destruct (@vget_ok _ r0 c ltac:(lia)) as [a Ha]. rewrite Ha. cbn [bind].
    destruct (@vset_ok _ r0 (fadd a (fmul s w)) c ltac:(lia))
      as (r1 & Hs1 & Hz1 & _).
    exists r1. split; [exact Hs1|lia].
  - exists r'. split; [exact Hl|exact Hsz].
Qed.

Lemma add_sample_outside (x y : Z) (w : float) (r : list float) :
  1 <= channels im -> ~ (0 <= x < width im /\ 0 <= y < height im) ->
  Sampling.add_sample im x y t w r = OutOfBounds.
Proof.
  intros Hc Hout. unfold Sampling.add_sample.
  apply for_loop_first_out_of_bounds; [lia|].
  unfold at_. destruct (in_bounds im x y t 0) eqn:Hb; [|reflexivity].
  apply in_bounds_iff in Hb. tauto.
Qed.

Lemma add_sample_cases (x y : Z) (w : float) (r : list float) :
  1 <= channels im -> channels im <= vsize r ->
  Sampling.add_sample im x y t w r = OutOfBounds \/
  exists r', Sampling.add_sample im x y t w r = Ok r' /\ vsize r' = vsize r.
Proof.
  intros Hc Hr.
  destruct (Z_lt_dec x 0); [left; apply add_sample_outside; [exact Hc|lia]|].
  destruct (Z_lt_dec x (width im));
    [|left; apply add_sample_outside; [exact Hc|lia]].
  destruct (Z_lt_dec y 0); [left; apply add_sample_outside; [exact Hc|lia]|].
  destruct (Z_lt_dec y (height im));
    [|left; apply add_sample_outside; [exact Hc|lia]].
  right. apply add_sample_ok; lia.
Qed.

(** The loops over [y] and [x] of the branches for the boundary ZERO, on
    limits inside the image. *)
Lemma plane_ok (wx wy : list float) (minX maxX minY maxY xbase ybase : Z)
      (r : list float) :
  vsize wx = 6 -> vsize wy = 6 -> channels im <= vsize r ->
  0 <= minX -> maxX <= width im - 1 ->
  0 <= xbase -> xbase + (maxX - minX) <= 5 ->
  0 <= minY -> maxY <= height im - 1 ->
  0 <= ybase -> ybase + (maxY - minY) <= 5 ->
  exists st,
    for_loop minY (maxY + 1) (fun (y : Z) (st : list float * Z) =>
      do st' <- for_loop minX (maxX + 1) (fun (x : Z) (st' : list float * Z) =>
        do wy0 <- vget wy (snd st);
        do wx0 <- vget wx (snd st');
        do r' <- Sampling.add_sample im x y t (fmul wy0 wx0) (fst st');
        Ok (r', snd st' + 1)) (fst st, xbase);
      Ok (fst st', snd st + 1)) (r, ybase) = Ok st /\
    vsize (fst st) = vsize r /\
    (maxX < minX \/ maxY < minY -> fst st = r).
Proof.
  intros Hx Hy Hr Bx1 Bx2 Bx3 Bx4 By1 By2 By3 By4.
  set (inner := fun (st : list float * Z) (y x : Z) (st' : list float * Z) =>
                  do wy0 <- vget wy (snd st);
                  do wx0 <- vget wx (snd st');
                  do r' <- Sampling.add_sample im x y t (fmul wy0 wx0) (fst st');
                  Ok (r', snd st' + 1)).
  assert (Hinner : forall y st,
             minY <= y < maxY + 1 ->
             vsize (fst st) = vsize r -> snd st = ybase + (y - minY) ->
             exists st', for_loop minX (maxX + 1) (inner st y) (fst st, xbase)
                         = Ok st' /\
                         vsize (fst st') = vsize r /\
                         (maxX < minX -> fst st' = fst st)).
  { intros y st Hy0 Hsz Hp.
    destruct (Z_lt_dec maxX minX) as [Hempty|Hne].
    - rewrite for_loop_empty by lia. eexists. split; [reflexivity|].
      cbn [fst]. split; [exact Hsz|reflexivity].
    - destruct (@for_loop_inv _ (fun (x : Z) (st' : list float * Z) =>
                                   vsize (fst st') = vsize r /\
                                   snd st' = xbase + (x - minX))
                  (inner st y) minX (maxX + 1) (fst st, xbase))
        as (st' & Hl & Hsz' & _).
      + cbn [fst snd]. split; [exact Hsz|lia].
      + intros x st' Hx0 [Hsz' Hp']. unfold inner.
        destruct (@vget_ok _ wy (snd st) ltac:(lia)) as [wy0 E1]. rewrite E1.
        cbn [bind].
        destruct (@vget_ok _ wx (snd st') ltac:(lia)) as [wx0 E2]. rewrite E2.
        cbn [bind].
        destruct (@add_sample_ok x y (fmul wy0 wx0) (fst st') ltac:(lia)
                    ltac:(lia) ltac:(lia)) as (r1 & E3 & Hz3).
        rewrite E3. cbn [bind]. eexists. split; [reflexivity|].
        cbn [fst snd]. split; lia.
      + exists st'. split; [exact Hl|]. split; [exact Hsz'|lia]. }
  destruct (Z_lt_dec maxY minY) as [Hempty|Hne].
  { rewrite for_loop_empty by lia. exists (r, ybase).
    split; [reflexivity|]. split; reflexivity. }
  destruct (@for_loop_inv _ (fun (y : Z) (st : list float * Z) =>
                               vsize (fst st) = vsize r /\
                               snd st = ybase + (y - minY) /\
                               (maxX < minX -> fst st = r))
              (fun y st =>
                 do st' <- for_loop minX (maxX + 1) (inner st y) (fst st, xbase);
                 Ok (fst st', snd st + 1))
              minY (maxY + 1) (r, ybase))
    as (st & Hl & Hsz & _ & Hsame).
  - cbn [fst snd]. split; [reflexivity|]. split; [lia|reflexivity].
  - intros y st Hy0 (Hsz & Hp & Hsame).
    destruct (Hinner y st Hy0 Hsz Hp) as (st' & E & Hsz' & Hsame').
    rewrite E. cbn [bind]. eexists. split; [reflexivity|]. cbn [fst snd].
    split; [exact Hsz'|]. split; [lia|].
    intros Hm. rewrite (Hsame' Hm). now apply Hsame.
  - exists st. split; [exact Hl|]. split; [exact Hsz|].
    intros [Hm|Hm]; [now apply Hsame|lia].
Qed.

(** The branch for the boundary ZERO reads samples of the image only. *)
Lemma zero_ok (wx wy : list float) (ix iy : Z) (r : list float) :
  vsize wx = 6 -> vsize wy = 6 -> channels im <= vsize r ->
  exists r',
    Sampling.zero im t wx wy (ix + Sampling.LEFT) (ix + Sampling.RIGHT)
                  (iy + Sampling.LEFT) (iy + Sampling.RIGHT) r = Ok r' /\
    vsize r' = vsize r /\
    (ix + 3 < 0 \/ width im <= ix - 2 \/ iy + 3 < 0 \/ height im <= iy - 2 ->
     r' = r).
Proof.
  intros Hx Hy Hr. destruct Hwf as (Hw & Hh & _).
  unfold Sampling.zero, Sampling.LEFT, Sampling.RIGHT.
  set (xb := if ix + -2 <? 0 then 0 - (ix + -2) else 0).
  set (yb := if iy + -2 <? 0 then 0 - (iy + -2) else 0).
  set (minY := if iy + -2 <? 0 then 0 else iy + -2).
  set (minX := if ix + -2 <? 0 then 0 else ix + -2).
  set (maxX := if width im - 1 <? ix + 3 then width im - 1 else ix + 3).
  set (maxY := if height im - 1 <? iy + 3 then height im - 1 else iy + 3).
  cbv zeta.
  assert (Bx : 0 <= minX /\ maxX <= width im - 1 /\ maxX <= ix + 3 /\
               ix - 2 <= minX /\ xb = minX - (ix - 2)).
  { unfold minX, maxX, xb.
    destruct (Z.ltb_spec (ix + -2) 0), (Z.ltb_spec (width im - 1) (ix + 3)); lia. }
  assert (By : 0 <= minY /\ maxY <= height im - 1 /\ maxY <= iy + 3 /\
               iy - 2 <= minY /\ yb = minY - (iy - 2)).
  { unfold minY, maxY, yb.
    destruct (Z.ltb_spec (iy + -2) 0), (Z.ltb_spec (height im - 1) (iy + 3)); lia. }
  clearbody xb yb minY minX maxX maxY.
  destruct (@plane_ok wx wy minX maxX minY maxY xb yb r Hx Hy Hr)
    as (st & Hl & Hsz & Hsame); try lia.
  rewrite Hl. cbn [bind]. exists (fst st). split; [reflexivity|].
  split; [exact Hsz|]. intros Hmiss. apply Hsame. lia.
Qed.

(** A row of the branch for the boundary NEUMANN. *)
Lemma neumann_row (wx wy : list float) (ix y yptr : Z) (r0 : list float) :
  vsize wx = 6 -> vsize wy = 6 -> 1 <= channels im <= vsize r0 ->
  1 <= width im -> 0 <= yptr < 6 ->
  let body := fun (x : Z) (st' : list float * Z) =>
                do wy0 <- vget wy yptr;
                do wx0 <- vget wx (snd st');
                do r' <- Sampling.add_sample
                           im (iclamp 0 x (width im - 1)) y t (fmul wy0 wx0)
                           (fst st');
                Ok (r', snd st' + 1) in
  (ix + 3 < width im -> 0 <= y < height im ->
   exists st', for_loop (ix + -2) (ix + 3 + 1) body (r0, 0) = Ok st' /\
               vsize (fst st') = vsize r0) /\
  (width im <= ix + 3 \/ ~ 0 <= y < height im ->
   for_loop (ix + -2) (ix + 3 + 1) body (r0, 0) = OutOfBounds).
Proof.
  intros Hx Hy Hr Hw Hp body.
  assert (Hclamp : forall x, x <= width im - 1 ->
                             0 <= iclamp 0 x (width im - 1) < width im).
  { intros x Hx0. unfold iclamp.
    destruct (Z.ltb_spec 0 x); [lia|].
    destruct (Z.ltb_spec (width im - 1) 0); lia. }
  assert (Hstep : forall x st',
             ix + -2 <= x < ix + 3 + 1 ->
             vsize (fst st') = vsize r0 /\ snd st' = x - (ix + -2) ->
             body x st' = OutOfBounds \/
             exists s', body x st' = Ok s' /\
                        vsize (fst s') = vsize r0 /\
                        snd s' = x + 1 - (ix + -2)).
  { intros x st' Hx0 [Hsz Hq]. unfold body.
    destruct (@vget_ok _ wy yptr ltac:(lia)) as [wy0 E1]. rewrite E1.
    cbn [bind].
    destruct (@vget_ok _ wx (snd st') ltac:(lia)) as [wx0 E2]. rewrite E2.
    cbn [bind].
    destruct (@add_sample_cases (iclamp 0 x (width im - 1)) y (fmul wy0 wx0)
                (fst st') ltac:(lia) ltac:(lia)) as [E3|(r1 & E3 & Hz3)];
      rewrite E3; cbn [bind]; [now left|right].
    eexists. split; [reflexivity|]. cbn [fst snd]. split; lia. }
  split.
  - intros Hfit Hy0.
    destruct (@for_loop_inv _ (fun (x : Z) (st' : list float * Z) =>
                                 vsize (fst st') = vsize r0 /\
                                 snd st' = x - (ix + -2))
                body (ix + -2) (ix + 3 + 1) (r0, 0))
      as (st' & Hl & Hsz & _).
    + cbn [fst snd]. split; [reflexivity|lia].
    + intros x st' Hx0 [Hsz Hq]. unfold body.
      destruct (@vget_ok _ wy yptr ltac:(lia)) as [wy0 E1]. rewrite E1.
      cbn [bind].
      destruct (@vget_ok _ wx (snd st') ltac:(lia)) as [wx0 E2]. rewrite E2.
      cbn [bind].
      destruct (@add_sample_ok (iclamp 0 x (width im - 1)) y (fmul wy0 wx0)
                  (fst st') (Hclamp x ltac:(lia)) Hy0 ltac:(lia))
        as (r1 & E3 & Hz3).
      rewrite E3. cbn [bind]. eexists. split; [reflexivity|].
      cbn [fst snd]. split; lia.
    + exists st'. split; [exact Hl|exact Hsz].
  - intros Hbad.
    apply (@for_loop_out_of_bounds
             _ (fun (x : Z) (st' : list float * Z) =>
                  vsize (fst st') = vsize r0 /\ snd st' = x - (ix + -2))
             body (ix + 3 + 1) (ix + 3)) with (n := Z.to_nat (ix + 3 - (ix + -2)));
      [|reflexivity|lia|cbn [fst snd]; split; [reflexivity|lia]|].
    + intros st' [Hsz Hq]. unfold body.
      destruct (@vget_ok _ wy yptr ltac:(lia)) as [wy0 E1]. rewrite E1.
      cbn [bind].
      destruct (@vget_ok _ wx (snd st') ltac:(lia)) as [wx0 E2]. rewrite E2.
      cbn [bind].
      rewrite add_sample_outside; [reflexivity|lia|].
      unfold iclamp. destruct (Z.ltb_spec 0 (ix + 3)); [lia|].
      destruct (Z.ltb_spec (width im - 1) 0); lia.
    + intros x st' Hx0 Hinv. apply Hstep; [lia|exact Hinv].
Qed.

(** The branch for the boundary NEUMANN limits a coordinate from below
    only. *)
Lemma neumann_cases (wx wy : list float) (ix iy : Z) (r : list float) :
  vsize wx = 6 -> vsize wy = 6 -> 1 <= channels im <= vsize r ->
  1 <= width im -> 1 <= height im ->
  (ix + 3 < width im -> iy + 3 < height im ->
   exists r',
     Sampling.neumann im t wx wy (ix + Sampling.LEFT) (ix + Sampling.RIGHT)
                      (iy + Sampling.LEFT) (iy + Sampling.RIGHT) r = Ok r' /\
     vsize r' = vsize r) /\
  (width im <= ix + 3 \/ height im <= iy + 3 ->
   Sampling.neumann im t wx wy (ix + Sampling.LEFT) (ix + Sampling.RIGHT)
                    (iy + Sampling.LEFT) (iy + Sampling.RIGHT) r
   = OutOfBounds).
Proof.
  intros Hx Hy Hr Hw Hh.
  unfold Sampling.neumann, Sampling.LEFT, Sampling.RIGHT. cbv zeta.
  set (body := fun (y : Z) (st : list float * Z) =>
                 do st' <- for_loop (ix + -2) (ix + 3 + 1)
                     (fun (x : Z) (st' : list float * Z) =>
                        do wy0 <- vget wy (snd st);
                        do wx0 <- vget wx (snd st');
                        do r' <- Sampling.add_sample
                                   im (iclamp 0 x (width im - 1))
                                   (iclamp 0 y (height im - 1)) t
                                   (fmul wy0 wx0) (fst st');
                        Ok (r', snd st' + 1)) (fst st, 0);
                 Ok (fst st', snd st + 1)).
  set (I := fun (y : Z) (st : list float * Z) =>
              vsize (fst st) = vsize r /\ snd st = y - (iy + -2)).
  assert (H0 : I (iy + -2) (r, 0)) by (split; [reflexivity|cbn [snd]; lia]).
  assert (Hrow : forall y st,
             iy + -2 <= y < iy + 3 + 1 -> I y st ->
             (ix + 3 < width im ->
              0 <= iclamp 0 y (height im - 1) < height im ->
              exists s', body y st = Ok s' /\ I (y + 1) s') /\
             (width im <= ix + 3 \/
              ~ 0 <= iclamp 0 y (height im - 1) < height im ->
              body y st = OutOfBounds)).
  { intros y st Hy0 [Hsz Hp].
    pose proof (@neumann_row wx wy ix (iclamp 0 y (height im - 1)) (snd st)
                  (fst st) Hx Hy ltac:(lia) Hw ltac:(lia)) as Hrow.
    cbv zeta in Hrow. destruct Hrow as [Hgood Hbad]. split.
    - intros Hfx Hfy. destruct (Hgood Hfx Hfy) as (st' & E & Hsz').
      unfold body. rewrite E. cbn [bind]. eexists. split; [reflexivity|].
      split; cbn [fst snd]; lia.
    - intros Hb. unfold body. now rewrite (Hbad Hb). }
  assert (Hclamp : forall y, y <= height im - 1 ->
                             0 <= iclamp 0 y (height im - 1) < height im).
  { intros y Hy0. unfold iclamp.
    destruct (Z.ltb_spec 0 y); [lia|].
    destruct (Z.ltb_spec (height im - 1) 0); lia. }
  split.
  - intros Hfx Hfy.
    destruct (@for_loop_inv _ I body (iy + -2) (iy + 3 + 1) (r, 0) H0)
      as (st & Hl & Hsz & _).
    + intros y st Hy0 HI. destruct (Hrow y st Hy0 HI) as [Hgood _].
      apply Hgood; [exact Hfx|apply Hclamp; lia].
    + fold body. rewrite Hl. cbn [bind]. exists (fst st).
      split; [reflexivity|exact Hsz].
  - intros Hbad. fold body.
    rewrite (@for_loop_out_of_bounds _ I body (iy + 3 + 1) (iy + 3))
      with (n := Z.to_nat (iy + 3 - (iy + -2))); try reflexivity;
      [|lia|exact H0|].
    + intros st HI. destruct (Hrow (iy + 3) st ltac:(lia) HI) as [_ Hb].
      apply Hb. destruct Hbad as [Hbx|Hby]; [now left|right].
      unfold iclamp. destruct (Z.ltb_spec 0 (iy + 3)); [lia|].
      destruct (Z.ltb_spec (height im - 1) 0); lia.
    + intros y st Hy0 HI. destruct (Hrow y st ltac:(lia) HI) as [Hgood Hb].
      destruct (Z_lt_dec (ix + 3) (width im)) as [Hfx|Hfx];
        [|left; apply Hb; left; lia].
      destruct (Z_lt_dec (iclamp 0 y (height im - 1)) 0) as [Hn|Hn];
        [left; apply Hb; right; lia|].
      destruct (Z_lt_dec (iclamp 0 y (height im - 1)) (height im)) as [Hm|Hm];
        [|left; apply Hb; right; lia].
      right. apply Hgood; [exact Hfx|lia].
Qed.

End Sample2D.





(** ** Image.h: sample3D *)

Lemma normalise3_ok (wx wy wt : list float) (a b c : float) :
  vsize wx = 6 -> vsize wy = 6 -> vsize wt = 6 ->
  exists w, Sampling.normalise3 wx wy wt a b c = Ok w /\
            vsize (fst (fst w)) = 6 /\ vsize (snd (fst w)) = 6 /\
            vsize (snd w) = 6.
Proof.
  intros Hx Hy Ht. unfold Sampling.normalise3.
  destruct (@for_loop_inv
              _ (fun (_ : Z) (st : list float * list float * list float) =>
                   vsize (fst (fst st)) = 6 /\ vsize (snd (fst st)) = 6 /\
                   vsize (snd st) = 6)
              (fun i st =>
                 do a0 <- vget (fst (fst st)) i;
                 do wx0 <- vset (fst (fst st)) i (fmul a0 a);
                 do b0 <- vget (snd (fst st)) i;
                 do wy0 <- vset (snd (fst st)) i (fmul b0 b);
                 do c0 <- vget (snd st) i;
                 do wt0 <- vset (snd st) i (fmul c0 c);
                 Ok (wx0, wy0, wt0))
              0 Sampling.WIDTH (wx, wy, wt))
    as (w & Hr & Hw).
  - cbn [fst snd]. auto.
  - intros i st Hi (H1 & H2 & H3). unfold Sampling.WIDTH in Hi.
    destruct (@vget_ok _ (fst (fst st)) i ltac:(lia)) as [a0 Ha]. rewrite Ha.
    cbn [bind].
    destruct (@vset_ok _ (fst (fst st)) (fmul a0 a) i ltac:(lia))
      as (wx0 & Hs1 & Hz1 & _).
    rewrite Hs1. cbn [bind].
    destruct (@vget_ok _ (snd (fst st)) i ltac:(lia)) as [b0 Hb]. rewrite Hb.
    cbn [bind].
    destruct (@vset_ok _ (snd (fst st)) (fmul b0 b) i ltac:(lia))
      as (wy0 & Hs2 & Hz2 & _).
    rewrite Hs2. cbn [bind].
    destruct (@vget_ok _ (snd st) i ltac:(lia)) as [c0 Hc]. rewrite Hc.
    cbn [bind].
    destruct (@vset_ok _ (snd st) (fmul c0 c) i ltac:(lia))
      as (wt0 & Hs3 & Hz3 & _).
    rewrite Hs3. cbn [bind]. eexists. split; [reflexivity|].
    cbn [fst snd]. lia.
  - exists w. split; [exact Hr|exact Hw].
Qed.

(** The weights for [x] and [y] that the loop of [sample3D] scales are those
    the loop of [sample2D] scales: the weights for [t] do not touch them. *)
Lemma normalise3_fst (a b c : float) (n : nat) :
  forall (lo : Z) (st w : list float * list float * list float),
    for_range lo n (fun i st =>
                      do a0 <- vget (fst (fst st)) i;
                      do wx0 <- vset (fst (fst st)) i (fmul a0 a);
                      do b0 <- vget (snd (fst st)) i;
                      do wy0 <- vset (snd (fst st)) i (fmul b0 b);
                      do c0 <- vget (snd st) i;
                      do wt0 <- vset (snd st) i (fmul c0 c);
                      Ok (wx0, wy0, wt0)) st = Ok w ->
    for_range lo n (fun i (st : list float * list float) =>
                      do a0 <- vget (fst st) i;
                      do wx0 <- vset (fst st) i (fmul a0 a);
                      do b0 <- vget (snd st) i;
                      do wy0 <- vset (snd st) i (fmul b0 b);
                      Ok (wx0, wy0)) (fst st) = Ok (fst w).
Proof.
  induction n as [|n IH]; intros lo st w H; cbn [for_range] in *.
  - inversion H. reflexivity.
  - destruct (vget (fst (fst st)) lo) as [a0| | |]; try discriminate.
    cbn [bind] in *.
    destruct (vset (fst (fst st)) lo (fmul a0 a)) as [wx0| | |];
      try discriminate.
    cbn [bind] in *.
    destruct (vget (snd (fst st)) lo) as [b0| | |]; try discriminate.
    cbn [bind] in *.
    destruct (vset (snd (fst st)) lo (fmul b0 b)) as [wy0| | |];
      try discriminate.
    cbn [bind] in *.
    destruct (vget (snd st) lo) as [c0| | |]; try discriminate.
    cbn [bind] in *.
    destruct (vset (snd st) lo (fmul c0 c)) as [wt0| | |]; try discriminate.
    cbn [bind] in *.
    apply (IH (lo + 1) (wx0, wy0, wt0) w H).
Qed.

Lemma iclamp_inside (a n : Z) : 1 <= n -> 0 <= iclamp a 0 (n - 1) < n.
Proof.
  intros Hn. unfold iclamp.
  destruct (Z.ltb_spec a 0); [lia|]. destruct (Z.ltb_spec (n - 1) a); lia.
Qed.

Section Sample3D.

Variable im : Image.
Hypothesis Hwf : wf_image im.

(** The branch for the boundary ZERO of [sample3D] reads samples of the
    image only. *)
Lemma zero3_ok (wx wy wt : list float) (ix iy it : Z) (r : list float) :
  vsize wx = 6 -> vsize wy = 6 -> channels im <= vsize r ->
  exists r',
    Sampling.zero3 im wx wy wt (ix + Sampling.LEFT) (ix + Sampling.RIGHT)
                   (iy + Sampling.LEFT) (iy + Sampling.RIGHT)
                   (it + Sampling.LEFT) (it + Sampling.RIGHT) r = Ok r' /\
    vsize r' = vsize r.
Proof.
  intros Hx Hy Hr.
  unfold Sampling.zero3, Sampling.LEFT, Sampling.RIGHT.
  set (xb := if ix + -2 <? 0 then 0 - (ix + -2) else 0).
  set (yb := if iy + -2 <? 0 then 0 - (iy + -2) else 0).
  set (tb := if it + -2 <? 0 then 0 - (it + -2) else 0).
  set (minY := if iy + -2 <? 0 then 0 else iy + -2).
  set (minX := if ix + -2 <? 0 then 0 else ix + -2).
  set (minT := if it + -2 <? 0 then 0 else it + -2).
  set (maxX := if width im - 1 <? ix + 3 then width im - 1 else ix + 3).
  set (maxY := if height im - 1 <? iy + 3 then height im - 1 else iy + 3).
  set (maxT := if frames im - 1 <? it + 3 then frames im - 1 else it + 3).
  cbv zeta.
  assert (Bx : 0 <= minX /\ maxX <= width im - 1 /\ maxX <= ix + 3 /\
               ix - 2 <= minX /\ xb = minX - (ix - 2)).
  { unfold minX, maxX, xb.
    destruct (Z.ltb_spec (ix + -2) 0), (Z.ltb_spec (width im - 1) (ix + 3)); lia. }
  assert (By : 0 <= minY /\ maxY <= height im - 1 /\ maxY <= iy + 3 /\
               iy - 2 <= minY /\ yb = minY - (iy - 2)).
  { unfold minY, maxY, yb.
    destruct (Z.ltb_spec (iy + -2) 0), (Z.ltb_spec (height im - 1) (iy + 3)); lia. }
  assert (Bt : 0 <= minT /\ maxT <= frames im - 1).
  { unfold minT, maxT.
    destruct (Z.ltb_spec (it + -2) 0), (Z.ltb_spec (frames im - 1) (it + 3)); lia. }
  clearbody xb yb tb minY minX minT maxX maxY maxT.
  destruct (@for_loop_inv
              _ (fun (_ : Z) (st : list float * Z) => vsize (fst st) = vsize r)
              (fun (t : Z) (st : list float * Z) =>
                 do st' <- for_loop minY (maxY + 1)
                     (fun (y : Z) (st' : list float * Z) =>
                        do st'' <- for_loop minX (maxX + 1)
                            (fun (x : Z) (st'' : list float * Z) =>
                               do wy0 <- vget wy (snd st');
                               do wx0 <- vget wx (snd st'');
                               do r' <- Sampling.add_sample
                                          im x y t (fmul wy0 wx0) (fst st'');
                               Ok (r', snd st'' + 1)) (fst st', xb);
                        Ok (fst st'', snd st' + 1)) (fst st, yb);
                 Ok (fst st', snd st + 1))
              minT (maxT + 1) (r, tb) eq_refl)
    as (st & Hl & Hsz).
  - intros t st Ht0 Hsz.
    destruct (@plane_ok im t Hwf ltac:(lia) wx wy minX maxX minY maxY xb yb
                (fst st) Hx Hy ltac:(lia))
      as (st' & Hp & Hsz' & _); try lia.
    rewrite Hp. cbn [bind]. eexists. split; [reflexivity|]. cbn [fst]. lia.
  - rewrite Hl. cbn [bind]. exists (fst st). split; [reflexivity|exact Hsz].
Qed.

(** The branch for the boundary NEUMANN of [sample3D] reads samples of the
    image only. *)
Lemma neumann3_ok (wx wy wt : list float) (ix iy it : Z) (r : list float) :
  vsize wx = 6 -> vsize wy = 6 -> vsize wt = 6 -> channels im <= vsize r ->
  1 <= width im -> 1 <= height im -> 1 <= frames im ->
  exists r',
    Sampling.neumann3 im wx wy wt (ix + Sampling.LEFT) (ix + Sampling.RIGHT)
                      (iy + Sampling.LEFT) (iy + Sampling.RIGHT)
                      (it + Sampling.LEFT) (it + Sampling.RIGHT) r = Ok r' /\
    vsize r' = vsize r.
Proof.
  intros Hx Hy Ht Hr Hw Hh Hf.
  unfold Sampling.neumann3, Sampling.LEFT, Sampling.RIGHT. cbv zeta.
  set (I := fun (lo i : Z) (st : list float * Z) =>
              vsize (fst st) = vsize r /\ snd st = i - lo).
  destruct (@for_loop_inv
              _ (I (it + -2))
              (fun (t : Z) (st : list float * Z) =>
                 do st' <- for_loop (iy + -2) (iy + 3 + 1)
                     (fun (y : Z) (st' : list float * Z) =>
                        do wy0 <- vget wy (snd st');
                        do wt0 <- vget wt (snd st);
                        do st'' <- for_loop (ix + -2) (ix + 3 + 1)
                            (fun (x : Z) (st'' : list float * Z) =>
                               do wx0 <- vget wx (snd st'');
                               do r' <- Sampling.add_sample
                                          im (iclamp x 0 (width im - 1))
                                          (iclamp y 0 (height im - 1))
                                          (iclamp t 0 (frames im - 1))
                                          (fmul (fmul wy0 wt0) wx0) (fst st'');
                               Ok (r', snd st'' + 1)) (fst st', 0);
                        Ok (fst st'', snd st' + 1)) (fst st, 0);
                 Ok (fst st', snd st + 1))
              (it + -2) (it + 3 + 1) (r, 0))
    as (st & Hl & Hsz & _).
  - split; [reflexivity|cbn [snd]; lia].
  - intros t st Ht0 [Hsz Hp].
    destruct (@for_loop_inv
                _ (I (iy + -2))
                (fun (y : Z) (st' : list float * Z) =>
                   do wy0 <- vget wy (snd st');
                   do wt0 <- vget wt (snd st);
                   do st'' <- for_loop (ix + -2) (ix + 3 + 1)
                       (fun (x : Z) (st'' : list float * Z) =>
                          do wx0 <- vget wx (snd st'');
                          do r' <- Sampling.add_sample
                                     im (iclamp x 0 (width im - 1))
                                     (iclamp y 0 (height im - 1))
                                     (iclamp t 0 (frames im - 1))
                                     (fmul (fmul wy0 wt0) wx0) (fst st'');
                          Ok (r', snd st'' + 1)) (fst st', 0);
                   Ok (fst st'', snd st' + 1))
                (iy + -2) (iy + 3 + 1) (fst st, 0))
      as (st' & Hl' & Hsz' & _).
    + split; [exact Hsz|cbn [snd]; lia].
    + intros y st' Hy0 [Hsz' Hp'].
      destruct (@vget_ok _ wy (snd st') ltac:(lia)) as [wy0 E1]. rewrite E1.
      cbn [bind].
      destruct (@vget_ok _ wt (snd st) ltac:(lia)) as [wt0 E2]. rewrite E2.
      cbn [bind].
      destruct (@for_loop_inv
                  _ (I (ix + -2))
                  (fun (x : Z) (st'' : list float * Z) =>
                     do wx0 <- vget wx (snd st'');
                     do r' <- Sampling.add_sample
                                im (iclamp x 0 (width im - 1))
                                (iclamp y 0 (height im - 1))
                                (iclamp t 0 (frames im - 1))
                                (fmul (fmul wy0 wt0) wx0) (fst st'');
                     Ok (r', snd st'' + 1))
                  (ix + -2) (ix + 3 + 1) (fst st', 0))
        as (st'' & Hl'' & Hsz'' & _).
      * split; [exact Hsz'|cbn [snd]; lia].
      * intros x st'' Hx0 [Hsz'' Hp''].
        destruct (@vget_ok _ wx (snd st'') ltac:(lia)) as [wx0 E3]. rewrite E3.
        cbn [bind].
        destruct (@add_sample_ok im (iclamp t 0 (frames im - 1)) Hwf
                    (iclamp_inside t Hf) (iclamp x 0 (width im - 1))
                    (iclamp y 0 (height im - 1)) (fmul (fmul wy0 wt0) wx0)
                    (fst st'') (iclamp_inside x Hw) (iclamp_inside y Hh)
                    ltac:(lia)) as (r1 & E4 & Hz4).
        rewrite E4. cbn [bind]. eexists. split; [reflexivity|].
        split; cbn [fst snd]; lia.
      * rewrite Hl''. cbn [bind]. eexists. split; [reflexivity|].
        split; cbn [fst snd]; lia.
    + rewrite Hl'. cbn [bind]. eexists. split; [reflexivity|].
      split; cbn [fst snd]; lia.
  - rewrite Hl. cbn [bind]. exists (fst st). split; [reflexivity|exact Hsz].
Qed.

End Sample3D.




